(** * Intersection splitter: a shallow embedding of the splitters and their metrics

    The development follows the TypeScript sources:
    - [helpers.ts]  (node types, [cloneSet], [intersectSets], [addMaxDepthToNodes],
      the set/array adapters),
    - [shallow-intersections-splitter.ts],
    - [biggest-intersections-splitter.ts],
    - the weighted splitter ([WeightedIntersectionsSplitter]),
    - the metrics class ([GetNodeMetrics]).

    Collections (JS arrays and JS sets) are objects of a store; nodes refer to
    them through references, so that aliasing and in-place mutation are
    visible.  A JS [Set] is a duplicate-free list in insertion order, a JS
    [Map] an association list in insertion order. *)

From Stdlib Require Import ZArith List Bool Lia Permutation Sorted.
From stdpp Require Import base list relations strings.
Import ListNotations.

(** ** JavaScript numbers that occur as depths *)

(** [Math.max()] of no argument is [-Infinity]; every other number the
    splitters compute is an integer. *)
Inductive jsnum := NegInf | Num (z : Z).

Global Instance jsnum_eq_dec : EqDecision jsnum.
Proof. solve_decision. Defined.

Definition jsnum_max (a b : jsnum) : jsnum :=
  match a, b with
  | NegInf, _ => b
  | _, NegInf => a
  | Num x, Num y => Num (Z.max x y)
  end.

(** [Math.max(...l)] *)
Definition math_max (l : list jsnum) : jsnum := fold_right jsnum_max NegInf l.

(** [x + 1] *)
Definition jsnum_succ (a : jsnum) : jsnum :=
  match a with NegInf => NegInf | Num x => Num (x + 1) end.

Definition jsnum_le (a b : jsnum) : Prop :=
  match a, b with
  | NegInf, _ => True
  | Num _, NegInf => False
  | Num x, Num y => (x <= y)%Z
  end.

(** ** Insertion-ordered maps and sets *)

Section OrderedMap.
Context {K V : Type} `{EqDecision K}.

(** [Map.prototype.get] *)
Fixpoint amap_get (k : K) (m : list (K * V)) : option V :=
  match m with
  | [] => None
  | (k', v) :: m' => if decide (k' = k) then Some v else amap_get k m'
  end.

(** [Map.prototype.set]: an existing key keeps its position. *)
Fixpoint amap_set (k : K) (v : V) (m : list (K * V)) : list (K * V) :=
  match m with
  | [] => [(k, v)]
  | (k', v') :: m' =>
      if decide (k' = k) then (k', v) :: m' else (k', v') :: amap_set k v m'
  end.

(** [Map.prototype.delete] *)
Fixpoint amap_delete (k : K) (m : list (K * V)) : list (K * V) :=
  match m with
  | [] => []
  | (k', v') :: m' =>
      if decide (k' = k) then m' else (k', v') :: amap_delete k m'
  end.

Definition amap_keys (m : list (K * V)) : list K := map fst m.
Definition amap_values (m : list (K * V)) : list V := map snd m.
End OrderedMap.

Section OrderedSet.
Context {T : Type} `{EqDecision T}.

(** [Array.prototype.includes] and [Set.prototype.has] *)
Definition includes (l : list T) (x : T) : bool :=
  existsb (λ y, bool_decide (y = x)) l.

(** [Set.prototype.add] *)
Definition oset_add (x : T) (s : list T) : list T :=
  if includes s x then s else s ++ [x].

(** [Set.prototype.delete] *)
Definition oset_delete (x : T) (s : list T) : list T :=
  List.filter (λ y, negb (bool_decide (y = x))) s.

(** [new Set(array)] *)
Definition to_set (l : list T) : list T := fold_left (λ s x, oset_add x s) l [].

(** position of [x] in [l]; [length l] when absent *)
Fixpoint index_of (x : T) (l : list T) : nat :=
  match l with
  | [] => 0
  | y :: l' => if decide (y = x) then 0 else S (index_of x l')
  end.
End OrderedSet.

(** ** Store and nodes *)

(** References to collection objects, and the store that holds the objects. *)
Abbreviation ref := nat (only parsing).
Abbreviation Store T := (list (list T)) (only parsing).

(** [ArrayNode<T>] and [SetNode<T>]: [coll] is the [array] or [set] field;
    [imports] holds the positions of the imported nodes in the node list that
    is returned. *)
Record Node := mkNode {
  coll : ref;
  rest : ref;
  imports : list nat;
  depth : jsnum
}.

Section Store.
Context {T : Type}.

Definition read (σ : Store T) (r : ref) : list T := default [] (σ !! r).

(** a new object; its reference is the old size of the store *)
Definition alloc (σ : Store T) (v : list T) : Store T * ref := (σ ++ [v], length σ).

(** in-place mutation of an object *)
Definition write (σ : Store T) (r : ref) (v : list T) : Store T := <[r := v]> σ.

Definition node_rest (σ : Store T) (n : Node) : list T := read σ (rest n).
Definition node_coll (σ : Store T) (n : Node) : list T := read σ (coll n).
Definition rests (σ : Store T) (nodes : list Node) : list (list T) :=
  map (node_rest σ) nodes.
End Store.

(** ** shallow-intersections-splitter.ts *)

Module Shallow.
Section Shallow.
Context {T : Type} `{EqDecision T}.

(** body of the counting loop of [splitIntersectionsArrayShallow]; the state
    is ([arrElements], [multipleArrayElements]) *)
Definition scanArrayElement (st : list T * list T) (element : T) : list T * list T :=
  let '(arrElements, multipleArrayElements) := st in
  if includes arrElements element
  then (arrElements, multipleArrayElements ++ [element])
  else (arrElements ++ [element], multipleArrayElements).

Definition scanArrays (arrays : list (list T)) : list T * list T :=
  fold_left (λ st array, fold_left scanArrayElement array st) arrays ([], []).

(** body of the counting loop of [splitIntersectionsSetsShallow]; the state
    is ([setElements], [multipleSetElements]) *)
Definition scanSetElement (st : list T * list T) (element : T) : list T * list T :=
  let '(setElements, multipleSetElements) := st in
  let multipleSetElements' :=
    if includes setElements element then oset_add element multipleSetElements
    else multipleSetElements in
  (oset_add element setElements, multipleSetElements').

Definition scanSets (sets : list (list T)) : list T * list T :=
  fold_left (λ st set, fold_left scanSetElement set st) sets ([], []).

(** [multiple.forEach((element) => map.set(element, {array: [element],
    rest: [element], depth: 1, imports: []}))]: two fresh collections for
    every call of [set]. *)
Definition addSingleton (st : Store T * list (T * Node)) (element : T)
  : Store T * list (T * Node) :=
  let '(σ, m) := st in
  let '(σ1, a) := alloc σ [element] in
  let '(σ2, r) := alloc σ1 [element] in
  (σ2, amap_set element (mkNode a r [] (Num 1)) m).

Definition singletonMap (σ : Store T) (multiple : list T) : Store T * list (T * Node) :=
  fold_left addSingleton multiple (σ, []).

(** the inner loop over one input collection: the elements that stay in
    [rest] and the imports, in the order of the collection *)
Definition splitElements (nroots : nat) (multiple : list T) (keys : list T)
    (elements : list T) : list T * list nat :=
  fold_left (λ '(rest, imports) element,
               if includes multiple element
               then (rest, imports ++ [nroots + index_of element keys])
               else (rest ++ [element], imports))
            elements ([], []).

(** one root node per input collection *)
Definition addRoot (nroots : nat) (multiple keys : list T)
    (st : Store T * list Node) (input : ref) : Store T * list Node :=
  let '(σ, nodes) := st in
  let '(restElements, imports) := splitElements nroots multiple keys (read σ input) in
  let '(σ1, r) := alloc σ restElements in
  (σ1, nodes ++ [mkNode input r imports (Num 0)]).

Definition splitIntersectionsArrayShallow (σ : Store T) (arrays : list ref)
  : Store T * list Node :=
  let '(_, multipleArrayElements) := scanArrays (map (read σ) arrays) in
  let '(σ1, multipleArrayElementsMap) := singletonMap σ multipleArrayElements in
  let '(σ2, arrayNodesArray) :=
    fold_left (addRoot (length arrays) multipleArrayElements
                       (amap_keys multipleArrayElementsMap))
              arrays (σ1, []) in
  (σ2, arrayNodesArray ++ amap_values multipleArrayElementsMap).

Definition splitIntersectionsSetsShallow (σ : Store T) (sets : list ref)
  : Store T * list Node :=
  let '(_, multipleSetElements) := scanSets (map (read σ) sets) in
  let '(σ1, multipleSetElementsMap) := singletonMap σ multipleSetElements in
  let '(σ2, setNodeArray) :=
    fold_left (addRoot (length sets) multipleSetElements
                       (amap_keys multipleSetElementsMap))
              sets (σ1, []) in
  (σ2, setNodeArray ++ amap_values multipleSetElementsMap).

(** [splitIntersectionsShallow] dispatches on [Array.isArray(collections)]. *)
Inductive Collections := Arrays (arrays : list ref) | Sets (sets : list ref).

Definition splitIntersectionsShallow (σ : Store T) (collections : Collections)
  : Store T * list Node :=
  match collections with
  | Arrays arrays => splitIntersectionsArrayShallow σ arrays
  | Sets sets => splitIntersectionsSetsShallow σ sets
  end.
End Shallow.
End Shallow.

(** ** helpers.ts: [addMaxDepthToNodes] *)

Definition is_root (n : Node) : bool := bool_decide (depth n = Num 0).

(** positions of the nodes that satisfy [p], in order *)
Definition positions (p : Node → bool) (nodes : list Node) : list nat :=
  List.filter (λ i, match nodes !! i with Some n => p n | None => false end)
              (seq 0 (length nodes)).

(** [aNode.imports.some((iNode) => iNode.array === arrayNode.array)] *)
Definition importsCollection (nodes : list Node) (aNode : Node) (c : ref) : bool :=
  existsb (λ k, match nodes !! k with
                | Some iNode => bool_decide (coll iNode = c)
                | None => false
                end) (imports aNode).

(** body of [unImportedNodes.forEach]; the state is the node list (the node
    objects are updated in place) and [importedNodes] as positions *)
Definition addMaxDepthStep (st : list Node * list nat) (i : nat) : list Node * list nat :=
  let '(nodes, importedNodes) := st in
  match nodes !! i with
  | Some arrayNode =>
      let importing :=
        List.filter (λ j, match nodes !! j with
                          | Some aNode => importsCollection nodes aNode (coll arrayNode)
                          | None => false
                          end) importedNodes in
      let d := jsnum_succ (math_max (map (λ j, match nodes !! j with
                                               | Some aNode => depth aNode
                                               | None => NegInf
                                               end) importing)) in
      (<[i := mkNode (coll arrayNode) (rest arrayNode) (imports arrayNode) d]> nodes,
       importedNodes ++ [i])
  | None => st
  end.

Definition addMaxDepthToNodes (arrayNodes : list Node) : list Node :=
  let importedNodes := positions is_root arrayNodes in
  let unImportedNodes := positions (λ n, negb (is_root n)) arrayNodes in
  fst (fold_left addMaxDepthStep unImportedNodes (arrayNodes, importedNodes)).

(** ** [Array.prototype.sort] with a comparator: the stable sort

    [Array.prototype.sort] is stable, and for a consistent comparator (one
    that orders the elements in classes, see [consistent_comparator] below)
    its result is the one list that has the elements of the array, is in the
    order of the comparator, and keeps elements that compare equal in their
    former order; [sort_by] computes this list by insertion.  For another
    comparator the language leaves the order to the implementation:
    [sort_by] then gives one arrangement of the elements, and only that it
    has the elements of the array is used of it. *)

Section Sort.
Context {A : Type} (cmp : A → A → Z).

Fixpoint sort_insert (x : A) (l : list A) : list A :=
  match l with
  | [] => [x]
  | y :: l' => if (cmp x y <=? 0)%Z then x :: y :: l' else y :: sort_insert x l'
  end.

Definition sort_by (l : list A) : list A := fold_right sort_insert [] l.
End Sort.

(** ** biggest-intersections-splitter.ts *)

Module Biggest.
Section Biggest.
Context {T : Type} `{EqDecision T}.

(** [value1 < value2] on elements *)
Variable lt : T → T → bool.
(** the order [Array.prototype.sort()] uses without a comparator *)
Variable defaultCompare : T → T → Z.

(** the constructor argument [sort: ArraySorter<T> | boolean] *)
Inductive SortOption := SortTrue | SortFalse | SortWith (sorter : T → T → Z).

Definition getIntersection (array1 array2 : list T) : list T :=
  let '(a1, a2) := if length array1 <? length array2
                   then (array1, array2) else (array2, array1) in
  List.filter (λ element, includes a2 element) a1.

(** the two-pointer loop shared by [getIntersectionFromOrderedArrays] and
    [getIntersectionFromArraysWithOrderingFunction]: [before v1 v2] advances
    [i], [after v1 v2] advances [j] *)
Fixpoint orderedIntersection (before after : T → T → bool) (array1 array2 : list T)
  : list T :=
  match array1 with
  | [] => []
  | value1 :: rest1 =>
      (fix scan (array2 : list T) : list T :=
         match array2 with
         | [] => []
         | value2 :: rest2 =>
             if before value1 value2 then orderedIntersection before after rest1 array2
             else if after value1 value2 then scan rest2
             else value1 :: orderedIntersection before after rest1 rest2
         end) array2
  end.

Definition getIntersectionFromOrderedArrays : list T → list T → list T :=
  orderedIntersection (λ value1 value2, lt value1 value2)
                      (λ value1 value2, lt value2 value1).

Definition getIntersectionFromArraysWithOrderingFunction (sorter : T → T → Z)
  : list T → list T → list T :=
  orderedIntersection (λ value1 value2, (sorter value1 value2 <? 0)%Z)
                      (λ value1 value2, (0 <? sorter value1 value2)%Z).

(** the constructor *)
Definition intersectionFunction (sort : SortOption) : list T → list T → list T :=
  match sort with
  | SortTrue => getIntersectionFromOrderedArrays
  | SortFalse => getIntersection
  | SortWith sorter => getIntersectionFromArraysWithOrderingFunction sorter
  end.

(** the [rest] of a fresh root node *)
Definition initialRest (sort : SortOption) (array : list T) : list T :=
  match sort with
  | SortTrue => sort_by defaultCompare array
  | SortFalse => array
  | SortWith sorter => sort_by sorter array
  end.

Variable sort : SortOption.

(** state of the two nested [forEach] of [getLongestIntersection] *)
Definition keepLonger (st : nat * list T) (intersection : list T) : nat * list T :=
  if fst st <? length intersection then (length intersection, intersection) else st.

Definition getLongestIntersection (baseArrays nextArrays : list (list T)) (longest : nat)
  : list T :=
  let allArrays := nextArrays ++ baseArrays in
  snd (fold_left
         (λ st '(i, set),
            fold_left (λ st all, keepLonger st (intersectionFunction sort set all))
                      (drop (i + 1) allArrays) st)
         (zip (seq 0 (length nextArrays)) nextArrays)
         (longest, [])).

(** [elementCount]: occurrences of every element over all [rest]s *)
Definition countElement (elementCount : list (T * nat)) (element : T) : list (T * nat) :=
  match amap_get element elementCount with
  | None => amap_set element 1 elementCount
  | Some c => amap_set element (c + 1) elementCount
  end.

(** [elementCountMap]: the elements of every count *)
Definition groupCount (elementCountMap : list (nat * list T)) (entry : T * nat)
  : list (nat * list T) :=
  let '(element, count) := entry in
  match amap_get count elementCountMap with
  | None => amap_set count [element] elementCountMap
  | Some elements => amap_set count (elements ++ [element]) elementCountMap
  end.

(** the variables of the search loop of [splitArrayNodes]; a filtered array
    is represented by its [rest], the only field the loop reads *)
Record Search := mkSearch {
  filteredArrays : list (list T);
  baseArrays : list (list T);
  longest : nat;
  longestIntersection : list T
}.

(** body of [for (const element of elements)] up to the test of
    [filteredArrays.length] *)
Definition elementStep (st : Search) (element : T) : Search :=
  let candidates := List.filter (λ r, longest st <? length r) (filteredArrays st) in
  let nextIntersectedArrays := List.filter (λ r, includes r element) candidates in
  let nextFilteredArrays := List.filter (λ r, negb (includes r element)) candidates in
  let intersection :=
    getLongestIntersection (baseArrays st) nextIntersectedArrays (longest st) in
  let '(longest', longestIntersection') :=
    if longest st <? length intersection
    then (length intersection, intersection)
    else (longest st, longestIntersection st) in
  mkSearch nextFilteredArrays (baseArrays st ++ nextIntersectedArrays)
           longest' longestIntersection'.

(** how the search ends: by the [return longest] inside the loops, or by
    falling out of them *)
Inductive SearchEnd := Returned (st : Search) | FellThrough (st : Search).

Fixpoint elementsLoop (st : Search) (elements : list T) : SearchEnd :=
  match elements with
  | [] => FellThrough st
  | element :: elements' =>
      let st' := elementStep st element in
      if length (filteredArrays st') =? 0 then Returned st'
      else elementsLoop st' elements'
  end.

Fixpoint countsLoop (elementCountMap : list (nat * list T)) (st : Search)
    (counts : list nat) : SearchEnd :=
  match counts with
  | [] => FellThrough st
  | count :: counts' =>
      match elementsLoop st (default [] (amap_get count elementCountMap)) with
      | Returned st' => Returned st'
      | FellThrough st' => countsLoop elementCountMap st' counts'
      end
  end.

(** what one call of [splitArrayNodes] decides from the [rest]s it reads:
    the value it returns and the intersection it extracts, if any *)
Record Pass := mkPass { returned : nat; extracted : option (list T) }.

Definition searchPass (rs : list (list T)) : Pass :=
  let elementCount :=
    fold_left (λ elementCount r, fold_left countElement r elementCount) rs [] in
  let elementCountMap := fold_left groupCount elementCount [] in
  let counts := sort_by (λ a b, Z.of_nat b - Z.of_nat a)%Z (amap_keys elementCountMap) in
  if bool_decide (head counts = Some 1) then mkPass 0 None
  else
    let singleElements := default [] (amap_get 1 elementCountMap) in
    let filtered :=
      map (List.filter (λ element, negb (includes singleElements element))) rs in
    match countsLoop elementCountMap (mkSearch filtered [] 0 []) (removelast counts) with
    | Returned st =>
        if 0 <? length (longestIntersection st)
        then mkPass (longest st) (Some (longestIntersection st))
        else mkPass (longest st) None
    | FellThrough _ => mkPass 0 None
    end.

(** body of [arrayNodes.forEach((aNode) => ...)] in the extraction; [idx] is
    the position the new node takes in [arrayNodes] *)
Definition extractFrom (L : list T) (idx : nat) (st : Store T * list Node) (aNode : Node)
  : Store T * list Node :=
  let '(σ, done) := st in
  if forallb (λ includedElement, includes (node_rest σ aNode) includedElement) L
  then
    let '(σ', r) := alloc σ (List.filter (λ el, negb (includes L el)) (node_rest σ aNode)) in
    (σ', done ++ [mkNode (coll aNode) r (imports aNode ++ [idx]) (depth aNode)])
  else (σ, done ++ [aNode]).

(** the new node holds [longestIntersection] both as [array] and as [rest] *)
Definition extract (σ : Store T) (arrayNodes : list Node) (L : list T)
  : Store T * list Node :=
  let '(σ1, r) := alloc σ L in
  let '(σ2, updated) := fold_left (extractFrom L (length arrayNodes)) arrayNodes (σ1, []) in
  (σ2, updated ++ [mkNode r r [] (Num 1)]).

Definition splitArrayNodes (σ : Store T) (arrayNodes : list Node)
  : Store T * list Node * nat :=
  let p := searchPass (rests σ arrayNodes) in
  match extracted p with
  | Some L => (extract σ arrayNodes L, returned p)
  | None => (σ, arrayNodes, returned p)
  end.

(** [while (this.splitArrayNodes(arrayNodes) > 0) {}]; [None] when the loop
    is still running after [fuel] calls *)
Fixpoint splitLoop (fuel : nat) (σ : Store T) (arrayNodes : list Node)
  : option (Store T * list Node) :=
  match fuel with
  | 0 => None
  | S fuel' =>
      let '(σ', arrayNodes', n) := splitArrayNodes σ arrayNodes in
      if 0 <? n then splitLoop fuel' σ' arrayNodes' else Some (σ', arrayNodes')
  end.

(** [arrays.map((array) => ({array, rest: ..., depth: 0, imports: []}))] *)
Definition newRoot (st : Store T * list Node) (array : ref) : Store T * list Node :=
  let '(σ, nodes) := st in
  let '(σ', r) := alloc σ (initialRest sort (read σ array)) in
  (σ', nodes ++ [mkNode array r [] (Num 0)]).

Definition initialNodes (σ : Store T) (arrays : list ref) : Store T * list Node :=
  fold_left newRoot arrays (σ, []).

Definition splitArrays (fuel : nat) (σ : Store T) (arrays : list ref)
  : option (Store T * list Node) :=
  let '(σ0, arrayNodes) := initialNodes σ arrays in
  '(σ1, arrayNodes') ← splitLoop fuel σ0 arrayNodes;
  Some (σ1, addMaxDepthToNodes arrayNodes').
End Biggest.
End Biggest.

(** ** helpers.ts: the adapters between sets and arrays *)

Module Adapters.
Section Adapters.
Context {T : Type} `{EqDecision T}.

(** [mapSetsToArrays] and [mapArraysToSets] differ in the copy they take of
    every input: [[...set]] or [new Set(array)] *)
Variable copy : list T → list T.

(** the maps from the old collection to its copy and back, and the copies *)
Record Mapping := mkMapping {
  oldToNew : list (ref * ref);
  newToOld : list (ref * ref);
  copies : list ref
}.

Definition mapCollection (st : Store T * Mapping) (old : ref) : Store T * Mapping :=
  let '(σ, m) := st in
  let '(σ', new) := alloc σ (copy (read σ old)) in
  (σ', mkMapping (amap_set old new (oldToNew m)) (amap_set new old (newToOld m))
                 (copies m ++ [new])).

Definition mapCollections (σ : Store T) (inputs : list ref) : Store T * Mapping :=
  fold_left mapCollection inputs (σ, mkMapping [] [] []).

(** [nodes.find((n) => map.get(imported.coll) === n.coll)] over the nodes
    converted so far; an import that is not found is [undefined], here the
    position [length nodes], which is no node *)
Definition findImport (nodes : list Node) (back : list (ref * ref))
    (converted : list (nat * Node)) (k : nat) : nat :=
  match nodes !! k with
  | Some imported =>
      match amap_get (coll imported) back with
      | Some target =>
          match List.find (λ '(_, n), bool_decide (coll n = target)) converted with
          | Some (j, _) => j
          | None => length nodes
          end
      | None => length nodes
      end
  | None => length nodes
  end.

(** body of the loop of [mapSetsToArrayNodes] and [mapArraysToSetNodes] *)
Definition convertNode (nodes : list Node)
    (st : Store T * list (ref * ref) * list (nat * Node)) (i : nat)
  : Store T * list (ref * ref) * list (nat * Node) :=
  let '(σ, back, converted) := st in
  match nodes !! i with
  | Some node =>
      let '(σ1, back1, c) :=
        match amap_get (coll node) back with
        | Some c => (σ, back, c)
        | None =>
            let '(σ', c) := alloc σ (copy (read σ (coll node))) in
            (σ', amap_set (coll node) c back, c)
        end in
      let '(σ2, r) := alloc σ1 (copy (node_rest σ1 node)) in
      let imports' := map (findImport nodes back1 converted) (imports node) in
      (σ2, back1, converted ++ [(i, mkNode c r imports' (depth node))])
  | None => st
  end.

Definition convertNodes (σ : Store T) (nodes : list Node) (back : list (ref * ref))
  : Store T * list Node :=
  let '(σ', _, converted) :=
    fold_left (convertNode nodes) (reverse (seq 0 (length nodes))) (σ, back, []) in
  (σ', reverse (map snd converted)).
End Adapters.

Section Convert.
Context {T : Type} `{EqDecision T}.

Definition mapSetsToArrays := mapCollections (T := T) (λ set, set).
Definition mapArraysToSets := mapCollections (T := T) to_set.
Definition mapSetsToArrayNodes := convertNodes (T := T) (λ set, set).
Definition mapArraysToSetNodes := convertNodes (T := T) to_set.

Definition convertSetsToArraysAndUseSplitFunction (σ : Store T) (sets : list ref)
    (arrayIntersectionSplitFunction : Store T → list ref → option (Store T * list Node))
  : option (Store T * list Node) :=
  let '(σ1, m) := mapSetsToArrays σ sets in
  '(σ2, arrayNodes) ← arrayIntersectionSplitFunction σ1 (copies m);
  Some (mapArraysToSetNodes σ2 arrayNodes (newToOld m)).

Definition convertArraysToSetsAndUseSplitFunction (σ : Store T) (arrays : list ref)
    (setIntersectionSplitFunction : Store T → list ref → option (Store T * list Node))
  : option (Store T * list Node) :=
  let '(σ1, m) := mapArraysToSets σ arrays in
  '(σ2, setNodes) ← setIntersectionSplitFunction σ1 (copies m);
  Some (mapSetsToArrayNodes σ2 setNodes (newToOld m)).
End Convert.
End Adapters.

Module BiggestSets.
Section BiggestSets.
Context {T : Type} `{EqDecision T}.
Variable lt : T → T → bool.
Variable defaultCompare : T → T → Z.
Variable sort : Biggest.SortOption (T := T).

(** [BiggestIntersectionsSplitter.splitSets] *)
Definition splitSets (fuel : nat) (σ : Store T) (sets : list ref)
  : option (Store T * list Node) :=
  Adapters.convertSetsToArraysAndUseSplitFunction σ sets
    (Biggest.splitArrays lt defaultCompare sort fuel).
End BiggestSets.
End BiggestSets.

(** ** helpers.ts: [cloneSet], [intersectSets] *)

Section SetHelpers.
Context {T : Type} `{EqDecision T}.

(** [cloneSet]: a new set with the elements in the same order *)
Definition cloneSet (σ : Store T) (set : ref) : Store T * ref := alloc σ (read σ set).

(** the elements of [intersectSets(set1, set2)] *)
Definition intersectSets (set1 set2 : list T) : list T :=
  let '(s1, s2) := if length set1 <=? length set2 then (set1, set2) else (set2, set1) in
  List.filter (λ element, includes s2 element) s1.
End SetHelpers.

(** ** The weighted splitter *)

Module Weighted.

(** [weightFunctions]; the arguments are [intersectingElementsCount] and
    [intersectingSetsCount] *)
Definition WeightFunction := Z → Z → Z.
Definition elementsCount : WeightFunction := λ e _, e.
Definition setsCount : WeightFunction := λ _ s, s.
Definition productSetsElementsCount : WeightFunction := λ e s, (e * s)%Z.
Definition elementsCountReverse : WeightFunction := λ e _, (- e)%Z.
Definition setsCountReverse : WeightFunction := λ _ s, (- s)%Z.
Definition productSetsElementsCountReverse : WeightFunction := λ e s, (- e * s)%Z.

Section Weighted.
Context {T U : Type} `{EqDecision T} `{EqDecision U}.

Variable join : list T → U.
Variable split : U → list T.
Variable primaryWeight : WeightFunction.
Variable secondaryWeight : WeightFunction.

(** the working state of one call of [splitSets]: the store, [setNodeMap],
    [clonedSets] and the four indexes; sets are keys by reference *)
Record State := mkState {
  store : Store T;
  setNodeMap : list (ref * Node);
  clonedSets : list ref;
  intersectionMap : list (U * list (ref * ref));
  intersectionMapSet : list (U * list (ref * nat));
  setToIntersectionMap : list (ref * list U);
  weightIntersectionMap : list (Z * list U)
}.

Definition weightOf (intersectingElementsCount intersectingSetsCount : nat) : Z :=
  primaryWeight (Z.of_nat intersectingElementsCount) (Z.of_nat intersectingSetsCount).

(** [removeFromSetOrDeleteFromMap]; [None] is the [TypeError] of
    [elements.size] on [undefined] *)
Definition removeFromSetOrDeleteFromMap {V W : Type} `{EqDecision V} `{EqDecision W}
    (map : list (V * list W)) (key : V) (element : W) : option (list (V * list W)) :=
  elements ← amap_get key map;
  Some (if 1 <? length elements
        then amap_set key (oset_delete element elements) map
        else amap_delete key map).

(** [addToSetOrCreateKeyInMap] *)
Definition addToSetOrCreateKeyInMap {V W : Type} `{EqDecision V} `{EqDecision W}
    (map : list (V * list W)) (key : V) (element : W) : list (V * list W) :=
  match amap_get key map with
  | Some elements => amap_set key (oset_add element elements) map
  | None => amap_set key [element] map
  end.

(** [createSetObjMap] *)
Definition createSetObj (st : Store T * list (ref * Node) * list ref) (set : ref)
  : Store T * list (ref * Node) * list ref :=
  let '(σ, setNodeMap, clonedSets) := st in
  let '(σ', clonedSet) := cloneSet σ set in
  (σ', amap_set clonedSet (mkNode set clonedSet [] (Num 0)) setNodeMap,
   oset_add clonedSet clonedSets).

Definition createSetObjMap (σ : Store T) (sets : list ref)
  : Store T * list (ref * Node) * list ref :=
  fold_left createSetObj sets (σ, [], []).

(** the pairs [(orderedSets[i], orderedSets[j])], [i < j], in the order of
    the two nested [forEach] *)
Fixpoint orderedPairs (orderedSets : list ref) : list (ref * ref) :=
  match orderedSets with
  | [] => []
  | set1 :: others => map (λ set2, (set1, set2)) others ++ orderedPairs others
  end.

Definition pushPair (intersectionMap : list (U * list (ref * ref)))
    (intersectionId : U) (pair : ref * ref) : list (U * list (ref * ref)) :=
  match amap_get intersectionId intersectionMap with
  | Some entry => amap_set intersectionId (entry ++ [pair]) intersectionMap
  | None => amap_set intersectionId [pair] intersectionMap
  end.

(** [createIntersectionMap] *)
Definition createIntersectionMap (σ : Store T) (sets : list ref)
  : list (U * list (ref * ref)) :=
  fold_left (λ intersectionMap '(set1, set2),
               let intersectedSet := intersectSets (read σ set1) (read σ set2) in
               if 0 <? length intersectedSet
               then pushPair intersectionMap (join intersectedSet) (set1, set2)
               else intersectionMap)
            (orderedPairs sets) [].

(** [if (n) map.set(set, n + 1) else map.set(set, 1)] *)
Definition addToIntersectingMapSets (intersectingMapSets : list (ref * nat)) (set : ref)
  : list (ref * nat) :=
  match amap_get set intersectingMapSets with
  | Some (S n) => amap_set set (S n + 1) intersectingMapSets
  | _ => amap_set set 1 intersectingMapSets
  end.

(** [createIntersectionMapSet] *)
Definition createIntersectionMapSet (intersectionMap : list (U * list (ref * ref)))
  : list (U * list (ref * nat)) :=
  fold_left (λ intersectionMapSet '(key, sets),
               amap_set key
                 (fold_left (λ setsMap '(set1, set2),
                               addToIntersectingMapSets
                                 (addToIntersectingMapSets setsMap set1) set2)
                            sets [])
                 intersectionMapSet)
            intersectionMap [].

(** [createSetToIntersectionMap] *)
Definition createSetToIntersectionMap (intersectionMapSet : list (U * list (ref * nat)))
  : list (ref * list U) :=
  fold_left (λ setToIntersectionMap '(intersection, setMap),
               fold_left (λ m set, addToSetOrCreateKeyInMap m set intersection)
                         (amap_keys setMap) setToIntersectionMap)
            intersectionMapSet [].

(** [getWeightIntersectionsMap] *)
Definition getWeightIntersectionsMap (intersectionMapSet : list (U * list (ref * nat)))
  : list (Z * list U) :=
  fold_left (λ weightIntersectionMap '(intersection, mapSet),
               addToSetOrCreateKeyInMap weightIntersectionMap
                 (weightOf (length (split intersection)) (length mapSet)) intersection)
            intersectionMapSet [].

(** [Math.max(...keys)]; no key gives [-Infinity], which is no key of the map *)
Definition maxKey (keys : list Z) : option Z :=
  match keys with
  | [] => None
  | k :: keys' => Some (fold_left Z.max keys' k)
  end.

(** the [forEach] that breaks ties by the secondary weight; the state is
    ([maxSecondaryWeight], [highestWeightIntersection]), [None] being
    [-Infinity] *)
Definition pickSecondary (intersectionMapSet : list (U * list (ref * nat)))
    (st : option (option Z * U)) (intersection : U) : option (option Z * U) :=
  '(maxSecondaryWeight, highestWeightIntersection) ← st;
  mapSet ← amap_get intersection intersectionMapSet;
  let w := secondaryWeight (Z.of_nat (length (split intersection)))
                           (Z.of_nat (length mapSet)) in
  Some (match maxSecondaryWeight with
        | Some m => if (m <? w)%Z then (Some w, intersection)
                    else (maxSecondaryWeight, highestWeightIntersection)
        | None => (Some w, intersection)
        end).

(** [getHighestWeightIntersection]; [None] is a [TypeError].  With no
    candidate the source returns [undefined] and fails at the next use of it
    in [splitSets], before any effect. *)
Definition getHighestWeightIntersection (weightIntersectionsMap : list (Z * list U))
    (intersectionMapSet : list (U * list (ref * nat))) : option (U * Z) :=
  highestWeight ← maxKey (amap_keys weightIntersectionsMap);
  maxWeightIntersections ← amap_get highestWeight weightIntersectionsMap;
  first ← head maxWeightIntersections;
  if 1 <? length maxWeightIntersections
  then
    '(_, highestWeightIntersection) ←
      fold_left (pickSecondary intersectionMapSet) maxWeightIntersections
                (Some (None, first));
    Some (highestWeightIntersection, highestWeight)
  else Some (first, highestWeight).

(** [getOtherAffectedIntersections]; the state of the loops is
    ([otherAffectedIntersections], [otherAffectedSets]) *)
Definition affectedByIntersection (intersectingSets : list ref)
    (highestWeightedIntersectionElements : list T)
    (intersectionMapSet : list (U * list (ref * nat)))
    (st : option (list U * list ref)) (intersection : U) : option (list U * list ref) :=
  '(otherAffectedIntersections, otherAffectedSets) ← st;
  if existsb (λ element, includes highestWeightedIntersectionElements element)
             (split intersection)
  then
    setMap ← amap_get intersection intersectionMapSet;
    Some (oset_add intersection otherAffectedIntersections,
          fold_left (λ acc affectedSet,
                       if includes intersectingSets affectedSet then acc
                       else oset_add affectedSet acc)
                    (amap_keys setMap) otherAffectedSets)
  else Some (otherAffectedIntersections, otherAffectedSets).

Definition getOtherAffectedIntersections (intersectingSets : list ref)
    (setToIntersectionMap : list (ref * list U)) (highestWeightIntersection : U)
    (intersectionMapSet : list (U * list (ref * nat))) : option (list U * list ref) :=
  '(otherAffectedIntersections, otherAffectedSets) ←
    fold_left (λ st set,
                 _ ← st;
                 affectedIntersections ← amap_get set setToIntersectionMap;
                 fold_left (affectedByIntersection intersectingSets
                              (split highestWeightIntersection) intersectionMapSet)
                           affectedIntersections st)
              intersectingSets (Some ([], []));
  Some (oset_delete highestWeightIntersection otherAffectedIntersections,
        otherAffectedSets).

(** the three indexes [removeOtherAffectedSetFromMaps] updates *)
Record Indexes := mkIndexes {
  ixMapSet : list (U * list (ref * nat));
  ixWeight : list (Z * list U);
  ixSetTo : list (ref * list U)
}.

(** [removeOtherAffectedSetFromMaps] *)
Definition removeOtherAffectedSetFromMaps (ix : Indexes) (key : U) (set : ref)
  : option Indexes :=
  setMap ← amap_get key (ixMapSet ix);
  '(setMap', weightMap', setToKeyMap') ←
    match amap_get set setMap with
    | Some (S (S n)) => Some (amap_set set (S n) setMap, ixWeight ix, ixSetTo ix)
    | _ =>
        let intersectingElementsCount := length (split key) in
        let intersectingSetsCount := length setMap in
        weightMap1 ← removeFromSetOrDeleteFromMap (ixWeight ix)
                       (weightOf intersectingElementsCount intersectingSetsCount) key;
        let weightMap2 :=
          if 1 <? intersectingSetsCount
          then addToSetOrCreateKeyInMap weightMap1
                 (primaryWeight (Z.of_nat intersectingElementsCount)
                                (Z.of_nat intersectingSetsCount - 1)%Z) key
          else weightMap1 in
        setToKeyMap1 ← removeFromSetOrDeleteFromMap (ixSetTo ix) set key;
        Some (amap_delete set setMap, weightMap2, setToKeyMap1)
    end;
  Some (mkIndexes (if length setMap' =? 0 then amap_delete key (ixMapSet ix)
                   else amap_set key setMap' (ixMapSet ix))
                  weightMap' setToKeyMap').

(** the callback of [possiblyAffectedIntersectingSets.filter] in
    [removeUpdatedFromMaps]; the state is the pairs that stay, the indexes
    and [intersectingPairs] *)
Definition filterAffectedPair (intersectingSets otherAffectedSets : list ref)
    (otherAffectedIntersection : U)
    (st : option (list (ref * ref) * Indexes * list (ref * ref))) (pair : ref * ref)
  : option (list (ref * ref) * Indexes * list (ref * ref)) :=
  '(unaffected, ix, intersectingPairs) ← st;
  let '(set1, set2) := pair in
  if includes intersectingSets set1 || includes intersectingSets set2
     || (includes otherAffectedSets set1 && includes otherAffectedSets set2)
  then
    ix1 ← removeOtherAffectedSetFromMaps ix otherAffectedIntersection set1;
    ix2 ← removeOtherAffectedSetFromMaps ix1 otherAffectedIntersection set2;
    Some (unaffected, ix2, intersectingPairs ++ [pair])
  else Some (unaffected ++ [pair], ix, intersectingPairs).

(** body of [otherAffectedIntersections.forEach] in [removeUpdatedFromMaps] *)
Definition removeAffectedIntersection (intersectingSets otherAffectedSets : list ref)
    (st : option (list (U * list (ref * ref)) * Indexes * list (ref * ref)))
    (otherAffectedIntersection : U)
  : option (list (U * list (ref * ref)) * Indexes * list (ref * ref)) :=
  '(intersectionMap, ix, intersectingPairs) ← st;
  possiblyAffectedIntersectingSets ← amap_get otherAffectedIntersection intersectionMap;
  '(unaffectedIntersectingSets, ix', intersectingPairs') ←
    fold_left (filterAffectedPair intersectingSets otherAffectedSets
                                  otherAffectedIntersection)
              possiblyAffectedIntersectingSets (Some ([], ix, intersectingPairs));
  Some (if 0 <? length unaffectedIntersectingSets
        then amap_set otherAffectedIntersection unaffectedIntersectingSets intersectionMap
        else amap_delete otherAffectedIntersection intersectionMap,
        ix', intersectingPairs').

(** [removeUpdatedFromMaps]: the state without the chosen intersection, and
    [intersectingPairs] *)
Definition removeUpdatedFromMaps (highestWeightIntersection : U)
    (intersectingSets : list ref) (otherAffectedIntersections : list U)
    (otherAffectedSets : list ref) (highestWeight : Z) (st : State)
  : option (State * list (ref * ref)) :=
  let intersectionMap1 := amap_delete highestWeightIntersection (intersectionMap st) in
  let intersectionMapSet1 :=
    amap_delete highestWeightIntersection (intersectionMapSet st) in
  setToIntersectionMap1 ←
    fold_left (λ m intersectingSet,
                 m' ← m;
                 removeFromSetOrDeleteFromMap m' intersectingSet highestWeightIntersection)
              intersectingSets (Some (setToIntersectionMap st));
  weightIntersectionMap1 ←
    removeFromSetOrDeleteFromMap (weightIntersectionMap st) highestWeight
                                 highestWeightIntersection;
  '(intersectionMap2, ix, intersectingPairs) ←
    fold_left (removeAffectedIntersection intersectingSets otherAffectedSets)
              otherAffectedIntersections
              (Some (intersectionMap1,
                     mkIndexes intersectionMapSet1 weightIntersectionMap1
                               setToIntersectionMap1,
                     []));
  Some (mkState (store st) (setNodeMap st) (clonedSets st) intersectionMap2
                (ixMapSet ix) (ixSetTo ix) (ixWeight ix),
        intersectingPairs).

(** [addUpdateToMaps] *)
Definition addUpdateToMaps (st : option State) (pair : ref * ref) : option State :=
  st ← st;
  let '(set1, set2) := pair in
  let intersection := intersectSets (read (store st) set1) (read (store st) set2) in
  if 0 <? length intersection
  then
    let intersectionId := join intersection in
    let intersectionMap' := pushPair (intersectionMap st) intersectionId (set1, set2) in
    '(intersectionMapSet', weightIntersectionMap1, intersectingSetsCount) ←
      match amap_get intersectionId (intersectionMapSet st) with
      | Some intersectingMapSets =>
          weightMap ← removeFromSetOrDeleteFromMap (weightIntersectionMap st)
                        (weightOf (length intersection) (length intersectingMapSets))
                        intersectionId;
          let intersectingMapSets' :=
            addToIntersectingMapSets
              (addToIntersectingMapSets intersectingMapSets set1) set2 in
          Some (amap_set intersectionId intersectingMapSets' (intersectionMapSet st),
                weightMap, length intersectingMapSets')
      | None =>
          Some (amap_set intersectionId (amap_set set2 1 (amap_set set1 1 []))
                         (intersectionMapSet st),
                weightIntersectionMap st, 2)
      end;
    let weightIntersectionMap2 :=
      addToSetOrCreateKeyInMap weightIntersectionMap1
        (weightOf (length intersection) intersectingSetsCount) intersectionId in
    let setToIntersectionMap' :=
      addToSetOrCreateKeyInMap
        (addToSetOrCreateKeyInMap (setToIntersectionMap st) set1 intersectionId)
        set2 intersectionId in
    Some (mkState (store st) (setNodeMap st) (clonedSets st) intersectionMap'
                  intersectionMapSet' setToIntersectionMap' weightIntersectionMap2)
  else Some st.

(** [addUpdatedToMaps] *)
Definition addUpdatedToMaps (newSet : ref) (intersectingPairs : list (ref * ref))
    (st : State) : option State :=
  fold_left addUpdateToMaps
            (map (λ set, (set, newSet)) (clonedSets st) ++ intersectingPairs)
            (Some st).

(** [setNode.depth >= depth] *)
Definition jsnum_geb (a b : jsnum) : bool :=
  match a, b with
  | Num x, Num y => (y <=? x)%Z
  | _, NegInf => true
  | NegInf, Num _ => false
  end.

(** [filterFromSet]: the set object is filtered in place *)
Definition filterFromSet (σ : Store T) (set : ref) (callback : T → bool) : Store T :=
  write σ set (List.filter callback (read σ set)).

(** [updateSetObj], which is also the body of [intersectingSets.forEach] in
    [splitSets]; [newIdx] is the position the new node takes in
    [setNodeMap], [newSet] its [set] field.  The state is the store,
    [setNodeMap] and [depth]. *)
Definition updateSetObj (newSet : ref) (newIdx : nat)
    (st : option (Store T * list (ref * Node) * jsnum)) (set : ref)
  : option (Store T * list (ref * Node) * jsnum) :=
  '(σ, setNodeMap, depth0) ← st;
  setNode ← amap_get set setNodeMap;
  let depth1 := if jsnum_geb (depth setNode) depth0
                then jsnum_succ (depth setNode) else depth0 in
  let σ' := filterFromSet σ (rest setNode)
              (λ element, negb (includes (read σ newSet) element)) in
  Some (σ',
        amap_set set (mkNode (coll setNode) (rest setNode)
                             (imports setNode ++ [newIdx]) (depth setNode)) setNodeMap,
        depth1).

(** body of [while (intersectionMap.size > 0)]; [None] is a [TypeError] *)
Definition step (st : State) : option State :=
  '(highestWeightIntersection, highestWeight) ←
    getHighestWeightIntersection (weightIntersectionMap st) (intersectionMapSet st);
  setMap ← amap_get highestWeightIntersection (intersectionMapSet st);
  let intersectingSets := amap_keys setMap in
  '(otherAffectedIntersections, otherAffectedSets) ←
    getOtherAffectedIntersections intersectingSets (setToIntersectionMap st)
                                  highestWeightIntersection (intersectionMapSet st);
  '(st1, intersectingPairs) ←
    removeUpdatedFromMaps highestWeightIntersection intersectingSets
                          otherAffectedIntersections otherAffectedSets highestWeight st;
  let '(σ1, newSet) := alloc (store st1) (to_set (split highestWeightIntersection)) in
  let '(σ2, newRest) := alloc σ1 (to_set (split highestWeightIntersection)) in
  let newIdx := length (setNodeMap st1) in
  '(σ3, setNodeMap3, depth3) ←
    fold_left (updateSetObj newSet newIdx) intersectingSets
              (Some (σ2, setNodeMap st1, Num 1));
  let highestWeightIntersectionElements := split highestWeightIntersection in
  '(σ4, setNodeMap4, depth4) ←
    fold_left (λ acc set,
                 '(σ, _, _) ← acc;
                 if forallb (λ element, includes (read σ set) element)
                            highestWeightIntersectionElements
                 then updateSetObj newSet newIdx acc set
                 else acc)
              otherAffectedSets (Some (σ3, setNodeMap3, depth3));
  let newIntersectingObj := mkNode newSet newRest [] depth4 in
  st5 ← addUpdatedToMaps newRest intersectingPairs
          (mkState σ4 setNodeMap4 (clonedSets st1) (intersectionMap st1)
                   (intersectionMapSet st1) (setToIntersectionMap st1)
                   (weightIntersectionMap st1));
  Some (mkState (store st5)
                (amap_set newRest newIntersectingObj (setNodeMap st5))
                (oset_add newRest (clonedSets st5))
                (intersectionMap st5) (intersectionMapSet st5)
                (setToIntersectionMap st5) (weightIntersectionMap st5)).

(** how a call ends *)
Inductive Outcome := Done (σ : Store T) (nodes : list Node) | TypeError | StillRunning.

Fixpoint loop (fuel : nat) (st : State) : Outcome :=
  if length (intersectionMap st) =? 0
  then Done (store st) (amap_values (setNodeMap st))
  else match fuel with
       | 0 => StillRunning
       | S fuel' => match step st with
                    | Some st' => loop fuel' st'
                    | None => TypeError
                    end
       end.

Definition initialState (σ : Store T) (sets : list ref) : State :=
  let '(σ', setNodeMap, clonedSets) := createSetObjMap σ sets in
  let intersectionMap := createIntersectionMap σ' clonedSets in
  let intersectionMapSet := createIntersectionMapSet intersectionMap in
  mkState σ' setNodeMap clonedSets intersectionMap intersectionMapSet
          (createSetToIntersectionMap intersectionMapSet)
          (getWeightIntersectionsMap intersectionMapSet).

(** [WeightedIntersectionsSplitter.splitSets] *)
Definition splitSets (fuel : nat) (σ : Store T) (sets : list ref) : Outcome :=
  loop fuel (initialState σ sets).

Definition returned (o : Outcome) : option (Store T * list Node) :=
  match o with Done σ nodes => Some (σ, nodes) | _ => None end.

(** [WeightedIntersectionsSplitter.splitArrays] *)
Definition splitArrays (fuel : nat) (σ : Store T) (arrays : list ref)
  : option (Store T * list Node) :=
  Adapters.convertArraysToSetsAndUseSplitFunction σ arrays
    (λ σ sets, returned (splitSets fuel σ sets)).
End Weighted.
End Weighted.

(** ** The join/split pair of the documentation and the tests, on strings *)

Module StringKeys.
(** the separator ["\x00"] *)
Definition nul : Ascii.ascii := Ascii.ascii_of_nat 0.

(** strings are compared by their code units, as [sort()] compares them *)
Definition stringCompare (a b : string) : Z :=
  match String.compare a b with Lt => (-1)%Z | Eq => 0%Z | Gt => 1%Z end.

(** [(array) => array.sort().join('\x00')] *)
Definition join (array : list string) : string :=
  String.concat (String nul EmptyString) (sort_by stringCompare array).

(** [(string) => string.split('\x00')] *)
Fixpoint split (s : string) : list string :=
  match s with
  | EmptyString => [EmptyString]
  | String c s' =>
      if Ascii.eqb c nul then EmptyString :: split s'
      else match split s' with
           | [] => [String c EmptyString]
           | w :: ws => String c w :: ws
           end
  end.
End StringKeys.

(** ** The metrics class [GetNodeMetrics] *)

Module Metrics.
Section Metrics.
Context {T : Type} `{EqDecision T}.

(** the accumulator of [getNodeMetricRecursive] *)
Record NodeMetric := mkNodeMetric {
  maxDepth : nat;
  leaves : nat;
  importsCount : nat;
  nodesCount : nat;
  avgDepthSum : nat
}.

Variable σ : Store T.
Variable nodeObjects : list Node.

(** [getNodeMetricRecursive]; the node objects are the positions of
    [nodeObjects].  [None] when an import is no node, or when the recursion
    is deeper than [fuel]. *)
Fixpoint getNodeMetricRecursive (fuel : nat) (i : nat) (metrics : NodeMetric)
    (depth : nat) : option (list T * NodeMetric) :=
  match fuel with
  | 0 => None
  | S fuel' =>
      nodeObj ← nodeObjects !! i;
      let m1 := mkNodeMetric (if maxDepth metrics <? depth then depth
                              else maxDepth metrics)
                             (leaves metrics) (importsCount metrics)
                             (nodesCount metrics + 1) (avgDepthSum metrics) in
      let m2 := if (0 <? depth) && (length (imports nodeObj) =? 0)
                then mkNodeMetric (maxDepth m1) (leaves m1 + 1) (importsCount m1)
                                  (nodesCount m1) (avgDepthSum m1 + depth)
                else m1 in
      if 0 <? length (imports nodeObj)
      then
        let m3 := mkNodeMetric (maxDepth m2) (leaves m2)
                               (importsCount m2 + length (imports nodeObj))
                               (nodesCount m2) (avgDepthSum m2) in
        '(imported, m4) ←
          fold_left (λ acc nObj,
                       '(elements, m) ← acc;
                       '(elements', m') ← getNodeMetricRecursive fuel' nObj m (depth + 1);
                       Some (elements ++ elements', m'))
                    (imports nodeObj) (Some ([], m3));
        Some (node_rest σ nodeObj ++ imported, m4)
      else Some (node_rest σ nodeObj, m2)
  end.

(** what [getNodeMetric] does *)
Inductive MetricResult :=
| Metric (m : NodeMetric)          (** the metrics; [avgDepth] is [avgDepthSum / leaves] *)
| NodeObjectIsNotValid.            (** [throw new Error('Node Object is not valid')] *)

Definition getNodeMetric (fuel : nat) (i : nat) : option MetricResult :=
  nodeObj ← nodeObjects !! i;
  '(allElements, metrics) ←
    getNodeMetricRecursive fuel i (mkNodeMetric 0 0 0 0 0) 0;
  let nodeElements := node_coll σ nodeObj in
  Some (if existsb (λ element, negb (includes allElements element)) nodeElements
        then NodeObjectIsNotValid
        else Metric metrics).

(** the fields of [Metric] that are counts; the averages are the sums below
    divided by [rootNodes] *)
Record Summary := mkSummary {
  sMaxDepth : nat;
  sumMaxDepth : nat;
  sumLeaves : nat;
  sumImports : nat;
  sumNodes : nat;
  generatedNodes : nat;
  rootNodes : nat;
  elementsCount : nat;
  uniqueElements : nat
}.

(** [getNodeMetrics]; [Some None] when a root is not valid *)
Definition getNodeMetrics (fuel : nat) : option (option Summary) :=
  let roots := positions is_root nodeObjects in
  let rootElements :=
    map (λ i, match nodeObjects !! i with
              | Some n => node_coll σ n
              | None => []
              end) roots in
  allMetrics ← mapM (getNodeMetric fuel) roots;
  Some (fold_left
          (λ acc r,
             cumulative ← acc;
             match r with
             | Metric metric =>
                 Some (mkSummary (Nat.max (sMaxDepth cumulative) (maxDepth metric))
                                 (sumMaxDepth cumulative + maxDepth metric)
                                 (sumLeaves cumulative + leaves metric)
                                 (sumImports cumulative + importsCount metric)
                                 (sumNodes cumulative + nodesCount metric)
                                 (generatedNodes cumulative) (rootNodes cumulative)
                                 (elementsCount cumulative) (uniqueElements cumulative))
             | NodeObjectIsNotValid => None
             end)
          allMetrics
          (Some (mkSummary 0 0 0 0 0
                           (length nodeObjects - length roots) (length roots)
                           (length (concat rootElements))
                           (length (to_set (concat rootElements)))))).
End Metrics.
End Metrics.

(** ** Properties of node lists *)

Section NodeLists.
Context {T : Type} `{EqDecision T}.

(** The elements a node stands for: its [rest] and, recursively, what its
    imports stand for.  [None] when an import is no node of the list, or when
    the imports are nested deeper than [fuel]. *)
Fixpoint reconstruct (fuel : nat) (σ : Store T) (nodes : list Node) (i : nat)
  : option (list T) :=
  match fuel with
  | 0 => None
  | S fuel' =>
      n ← nodes !! i;
      parts ← mapM (reconstruct fuel' σ nodes) (imports n);
      Some (node_rest σ n ++ concat parts)
  end.

(** [j] is an import of the node at [i] *)
Definition imports_of (nodes : list Node) (i j : nat) : Prop :=
  ∃ n, nodes !! i = Some n ∧ In j (imports n).

(** no node imports itself, directly or through other nodes *)
Definition acyclic (nodes : list Node) : Prop := ∀ i, ¬ tc (imports_of nodes) i i.

(** every import is a node further down the list *)
Definition forward (nodes : list Node) : Prop :=
  ∀ i j, imports_of nodes i j → i < j < length nodes.

(** the depth grows by at least one along every import *)
Definition depth_increases (nodes : list Node) : Prop :=
  ∀ i j n c, nodes !! i = Some n → In j (imports n) → nodes !! j = Some c →
             jsnum_le (jsnum_succ (depth n)) (depth c).

(** a node that no node imports has depth 0 *)
Definition unimported_at_zero (nodes : list Node) : Prop :=
  ∀ i n, nodes !! i = Some n → (∀ p, ¬ imports_of nodes p i) → depth n = Num 0.

(** two lists with the same elements *)
Definition same_elements (l1 l2 : list T) : Prop := ∀ x, In x l1 ↔ In x l2.

(** what a node list shows: collection, rest, imports and depth of every node *)
Definition view (σ : Store T) (nodes : list Node)
  : list (list T * list T * list nat * jsnum) :=
  map (λ n, (node_coll σ n, node_rest σ n, imports n, depth n)) nodes.

(** number of occurrences of [x] in [l] *)
Definition occ (x : T) (l : list T) : nat :=
  length (List.filter (λ y, bool_decide (y = x)) l).


(** an element occurs in the [rest] of two nodes *)
Definition shared_rest (σ : Store T) (nodes : list Node) (x : T) : Prop :=
  ∃ i j n m, i ≠ j ∧ nodes !! i = Some n ∧ nodes !! j = Some m ∧
             In x (node_rest σ n) ∧ In x (node_rest σ m).

(** The result of the shallow splitter on the collections [inputs] of the
    store [σ], when [shared] tells the elements that are extracted: there is
    a list [keys] of the extracted elements, without repetition; the node
    list has one root per input, in order, then one singleton node of depth 1
    per extracted element; a root has depth 0, holds the input itself as its
    collection, keeps the elements that are not extracted in [rest], and
    imports the singleton nodes of its extracted elements in the order of the
    input. *)
Definition shallow_result (shared : T → bool) (σ : Store T) (inputs : list ref)
    (σ' : Store T) (nodes : list Node) : Prop :=
  ∃ keys : list T,
    List.NoDup keys ∧
    (∀ x, In x keys ↔ shared x = true) ∧
    length nodes = length inputs + length keys ∧
    (∀ k x, keys !! k = Some x →
       ∃ n, nodes !! (length inputs + k) = Some n ∧
            node_coll σ' n = [x] ∧ node_rest σ' n = [x] ∧
            imports n = [] ∧ depth n = Num 1) ∧
    (∀ i r, inputs !! i = Some r →
       ∃ n, nodes !! i = Some n ∧ coll n = r ∧ depth n = Num 0 ∧
            read σ' r = read σ r ∧
            node_rest σ' n = List.filter (λ x, negb (shared x)) (read σ r) ∧
            imports n = map (λ x, length inputs + index_of x keys)
                            (List.filter shared (read σ r))).

(** the elements of a node's collection are those of its [rest] and of the
    collections of its imports *)
Definition covered (σ : Store T) (nodes : list Node) : Prop :=
  ∀ i n, nodes !! i = Some n →
    ∀ x, In x (node_coll σ n) ↔
         In x (node_rest σ n) ∨
         ∃ j c, In j (imports n) ∧ nodes !! j = Some c ∧ In x (node_coll σ c).

(** What the splitters guarantee about the node list they return for the
    inputs [inputs] of the store [σ0]: the objects of [σ0] are as they were;
    the first nodes are the roots, which hold the inputs themselves, at depth
    0; the collections of the other nodes are new objects; imports point
    forward; collections are covered; depths grow along imports and only
    imported nodes have a depth other than 0. *)
Record well_split (σ0 : Store T) (inputs : list ref) (σ' : Store T) (nodes : list Node)
  : Prop := mk_well_split {
  ws_frame : ∃ ext, σ' = σ0 ++ ext;
  ws_roots : ∀ i r, inputs !! i = Some r →
               ∃ n, nodes !! i = Some n ∧ coll n = r ∧ depth n = Num 0;
  ws_fresh : ∀ i n, nodes !! i = Some n → length inputs ≤ i → length σ0 ≤ coll n;
  ws_forward : forward nodes;
  ws_covered : covered σ' nodes;
  ws_depth : depth_increases nodes;
  ws_zero : unimported_at_zero nodes
}.
End NodeLists.

(** ** The entry points of the library

    The five functions a caller can split collections with, gathered so that
    a property can be stated of all of them: [splitIntersectionsShallow],
    [BiggestIntersectionsSplitter.splitArrays] and [.splitSets],
    [WeightedIntersectionsSplitter.splitSets] and [.splitArrays].  The
    constructor arguments are those of the source; [lt], [defaultCompare],
    [join] and [split] are fixed for the section. *)

Section EntryPoints.
Context {T U : Type} `{EqDecision T} `{EqDecision U}.
Variable lt : T → T → bool.
Variable defaultCompare : T → T → Z.
Variable join : list T → U.
Variable split : U → list T.

Inductive EntryPoint :=
| SplitIntersectionsShallow (sets : bool)
| BiggestSplitArrays (sort : Biggest.SortOption (T := T))
| BiggestSplitSets (sort : Biggest.SortOption (T := T))
| WeightedSplitSets (primaryWeight secondaryWeight : Weighted.WeightFunction)
| WeightedSplitArrays (primaryWeight secondaryWeight : Weighted.WeightFunction).

(** a call of an entry point on the collections [inputs] of the store [σ];
    [None] when the call has not returned within [fuel] passes of its loop, or
    has thrown *)
Definition call (entry : EntryPoint) (fuel : nat) (σ : Store T) (inputs : list ref)
  : option (Store T * list Node) :=
  match entry with
  | SplitIntersectionsShallow sets =>
      Some (Shallow.splitIntersectionsShallow σ
              (if sets then Shallow.Sets inputs else Shallow.Arrays inputs))
  | BiggestSplitArrays sort => Biggest.splitArrays lt defaultCompare sort fuel σ inputs
  | BiggestSplitSets sort => BiggestSets.splitSets lt defaultCompare sort fuel σ inputs
  | WeightedSplitSets primaryWeight secondaryWeight =>
      Weighted.returned
        (Weighted.splitSets join split primaryWeight secondaryWeight fuel σ inputs)
  | WeightedSplitArrays primaryWeight secondaryWeight =>
      Weighted.splitArrays join split primaryWeight secondaryWeight fuel σ inputs
  end.
End EntryPoints.

(** * Basic facts *)

Section BasicFacts.
Context {T : Type} `{EqDecision T}.
Implicit Types (l s : list T) (x : T) (σ : Store T).

Lemma includes_In l x : includes l x = true ↔ In x l.
Proof.
  unfold includes. rewrite existsb_exists. split.
  - intros (y & Hy & Heq). apply bool_decide_eq_true in Heq. by subst.
  - intros Hin. exists x. split; [done | by apply bool_decide_eq_true].
Qed.

Lemma includes_not_In l x : includes l x = false ↔ ¬ In x l.
Proof.
  rewrite <- includes_In. destruct (includes l x); split; done.
Qed.

Lemma includes_app l1 l2 x : includes (l1 ++ l2) x = includes l1 x || includes l2 x.
Proof. unfold includes. apply existsb_app. Qed.

Lemma oset_add_In x y s : In y (oset_add x s) ↔ y = x ∨ In y s.
Proof.
  unfold oset_add. destruct (includes s x) eqn:E.
  - apply includes_In in E. split; [by right|]. by intros [->|?].
  - rewrite in_app_iff. simpl. split.
    + intros [?|[->|[]]]; [by right|by left].
    + intros [->|?]; [right; by left|by left].
Qed.

Lemma oset_add_NoDup x s : List.NoDup s → List.NoDup (oset_add x s).
Proof.
  intros Hs. unfold oset_add. destruct (includes s x) eqn:E; [done|].
  apply includes_not_In in E. apply List.NoDup_app; [done| |].
  - constructor; [by intros []|constructor].
  - intros y Hy [->|[]]. by apply E.
Qed.

Lemma to_set_fold_In l s x :
  In x (fold_left (λ s x, oset_add x s) l s) ↔ In x l ∨ In x s.
Proof.
  revert s. induction l as [|y l IH]; intros s; simpl; [tauto|].
  rewrite IH, oset_add_In. intuition congruence.
Qed.

Lemma to_set_In l x : In x (to_set l) ↔ In x l.
Proof. unfold to_set. rewrite to_set_fold_In. simpl. tauto. Qed.

Lemma to_set_NoDup l : List.NoDup (to_set l).
Proof.
  unfold to_set. generalize (List.NoDup_nil T). generalize (@nil T).
  induction l as [|y l IH]; intros s Hs; simpl; [done|].
  apply IH. by apply oset_add_NoDup.
Qed.

(** the store *)
Lemma read_alloc_old σ v r : r < length σ → read (σ ++ [v]) r = read σ r.
Proof. intros Hr. unfold read. by rewrite lookup_app_l. Qed.

Lemma read_alloc_new σ v : read (σ ++ [v]) (length σ) = v.
Proof. unfold read. by rewrite list_lookup_middle. Qed.

Lemma read_app_old σ σ' r : r < length σ → read (σ ++ σ') r = read σ r.
Proof. intros Hr. unfold read. by rewrite lookup_app_l. Qed.

Lemma read_write_same σ r v : r < length σ → read (write σ r v) r = v.
Proof. intros Hr. unfold read, write. by rewrite list_lookup_insert_eq. Qed.

Lemma read_write_other σ r r' v : r ≠ r' → read (write σ r v) r' = read σ r'.
Proof. intros Hr. unfold read, write. by rewrite list_lookup_insert_ne. Qed.

(** fuel of [reconstruct] *)
Lemma mapM_ext_in {A B} (f g : A → option B) (l : list A) :
  (∀ a, In a l → f a = g a) → mapM f l = mapM g l.
Proof.
  induction l as [|a l IH]; intros Hfg; simpl; [done|].
  rewrite (Hfg a) by (by left). rewrite IH; [done|]. intros; apply Hfg. by right.
Qed.

Lemma reconstruct_more_fuel fuel fuel' σ nodes i l :
  fuel ≤ fuel' → reconstruct fuel σ nodes i = Some l →
  reconstruct fuel' σ nodes i = Some l.
Proof.
  revert fuel' i l. induction fuel as [|fuel IH]; intros fuel' i l Hle; [done|].
  destruct fuel' as [|fuel']; [lia|]. simpl.
  destruct (nodes !! i) as [n|]; simpl; [|done].
  destruct (mapM (reconstruct fuel σ nodes) (imports n)) as [parts|] eqn:E; simpl; [|done].
  intros [= <-].
  assert (mapM (reconstruct fuel' σ nodes) (imports n) = Some parts) as ->; [|done].
  apply mapM_Some in E. apply mapM_Some.
  eapply Forall2_impl; [exact E|]. intros j p Hp. apply IH; [lia|done].
Qed.

Lemma tc_forward (nodes : list Node) i j :
  forward nodes → tc (imports_of nodes) i j → i < j.
Proof.
  intros Hf. induction 1 as [i j Hij|i k j Hik _ IH].
  - by apply Hf.
  - apply Hf in Hik. lia.
Qed.

Lemma forward_acyclic (nodes : list Node) : forward nodes → acyclic nodes.
Proof. intros Hf i Hi. apply (tc_forward _ _ _ Hf) in Hi. lia. Qed.
End BasicFacts.

(** * The metrics: what [getNodeMetric] checks *)

Section MetricsFacts.
Context {T : Type} `{EqDecision T}.
Variable σ : Store T.
Variable nodes : list Node.
Local Abbreviation rec := (Metrics.getNodeMetricRecursive σ nodes).

Let collect (fuel depth : nat) :=
  λ (acc : option (list T * Metrics.NodeMetric)) (nObj : nat),
    '(elements, m) ← acc;
    '(elements', m') ← rec fuel nObj m (depth + 1);
    Some (elements ++ elements', m').

Lemma collect_None fuel depth js : fold_left (collect fuel depth) js None = None.
Proof. induction js as [|j js IH]; simpl; [done|]. apply IH. Qed.

Lemma collect_reconstruct fuel depth :
  (∀ i m d l m', rec fuel i m d = Some (l, m') → reconstruct fuel σ nodes i = Some l) →
  ∀ js acc m l m',
    fold_left (collect fuel depth) js (Some (acc, m)) = Some (l, m') →
    ∃ parts, mapM (reconstruct fuel σ nodes) js = Some parts ∧ l = acc ++ concat parts.
Proof.
  intros IH js. induction js as [|j js IHjs]; intros acc m l m'; simpl.
  - intros [= <- <-]. exists []. simpl. by rewrite app_nil_r.
  - destruct (rec fuel j m (depth + 1)) as [[els mj]|] eqn:E; simpl.
    + intros Hfold. apply IHjs in Hfold as (parts & Hparts & ->).
      apply IH in E. rewrite E. simpl. rewrite Hparts. simpl.
      exists (els :: parts). split; [done|]. simpl. by rewrite app_assoc.
    + by rewrite collect_None.
Qed.

Lemma recursive_reconstruct fuel i m d l m' :
  rec fuel i m d = Some (l, m') → reconstruct fuel σ nodes i = Some l.
Proof.
  revert i m d l m'. induction fuel as [|fuel IH]; intros i m d l m'; [done|].
  simpl. destruct (nodes !! i) as [n|]; simpl; [|done].
  destruct (0 <? length (imports n)) eqn:El.
  - match goal with |- context [fold_left ?f ?js (Some (?a, ?m0))] =>
      destruct (fold_left f js (Some (a, m0))) as [[els m4]|] eqn:E end; simpl; [|done].
    intros [= <- <-].
    apply (collect_reconstruct fuel d IH) in E as (parts & -> & ->). done.
  - apply Nat.ltb_ge in El. destruct (imports n) as [|j js] eqn:Ei; [|simpl in El; lia].
    intros [= <- <-]. simpl. by rewrite app_nil_r.
Qed.

Lemma collect_total fuel depth :
  (∀ i m d, i < length nodes → length nodes - i ≤ fuel → is_Some (rec fuel i m d)) →
  ∀ js acc m, Forall (λ j, j < length nodes ∧ length nodes - j ≤ fuel) js →
    is_Some (fold_left (collect fuel depth) js (Some (acc, m))).
Proof.
  intros IH js. induction js as [|j js IHjs]; intros acc m Hjs; simpl; [done|].
  inversion Hjs as [|? ? [Hj1 Hj2] Hjs']; subst.
  destruct (IH j m (depth + 1) Hj1 Hj2) as [[els mj] ->]. simpl. by apply IHjs.
Qed.

Lemma recursive_total fuel i m d :
  forward nodes → i < length nodes → length nodes - i ≤ fuel → is_Some (rec fuel i m d).
Proof.
  intros Hf. revert i m d. induction fuel as [|fuel IH]; intros i m d Hi Hfuel; [lia|].
  simpl. destruct (lookup_lt_is_Some_2 nodes i Hi) as [n Hn]. rewrite Hn. simpl.
  destruct (0 <? length (imports n)); [|done].
  match goal with |- context [fold_left ?f ?js (Some (?a, ?m0))] =>
    assert (is_Some (fold_left f js (Some (a, m0)))) as [[els m4] ->] end; [|done].
  apply (collect_total fuel d IH).
  apply Forall_forall. intros j Hj. apply list_elem_of_In in Hj.
  destruct (Hf i j) as [? ?]; [by exists n|]. lia.
Qed.
End MetricsFacts.

(** C4, refuted as stated: a node whose [rest] holds an element that its
    collection does not hold is accepted.  The elements reachable from the
    node are [1; 2], its collection is [1], and [getNodeMetric] returns the
    metrics. *)
Lemma getNodeMetric_accepts_extra_elements :
  let σ : Store Z := [[1%Z]; [1%Z; 2%Z]] in
  let nodes := [mkNode 0 1 [] (Num 0)] in
  reconstruct 1 σ nodes 0 = Some [1%Z; 2%Z] ∧
  ¬ same_elements [1%Z; 2%Z] (read σ 0) ∧
  Metrics.getNodeMetric σ nodes 1 0 = Some (Metrics.Metric (Metrics.mkNodeMetric 0 0 0 1 0)).
Proof.
  simpl. split; [done|]. split; [|done].
  intros Hsame. destruct (Hsame 2%Z) as [Hin _].
  destruct Hin as [Heq|[]]; [right; by left|discriminate].
Qed.

(** C4 (amended): on a node list whose imports point forward, [getNodeMetric]
    terminates; it raises the error exactly when some element of the node's
    own collection is not among the elements reachable through [rest] and
    imports, and returns the metrics of the traversal otherwise. *)
Theorem getNodeMetric_raises_iff_element_missing
    {T : Type} `{EqDecision T} (σ : Store T) (nodes : list Node) (i : nat) (n : Node) :
  forward nodes → nodes !! i = Some n →
  ∃ all m,
    Metrics.getNodeMetricRecursive σ nodes (length nodes) i
      (Metrics.mkNodeMetric 0 0 0 0 0) 0 = Some (all, m) ∧
    reconstruct (length nodes) σ nodes i = Some all ∧
    (Metrics.getNodeMetric σ nodes (length nodes) i = Some Metrics.NodeObjectIsNotValid
     ↔ ∃ x, In x (node_coll σ n) ∧ ¬ In x all) ∧
    (Metrics.getNodeMetric σ nodes (length nodes) i = Some (Metrics.Metric m)
     ↔ ∀ x, In x (node_coll σ n) → In x all).
Proof.
  intros Hf Hn.
  assert (i < length nodes) as Hi by (by eapply lookup_lt_Some).
  destruct (recursive_total σ nodes (length nodes) i (Metrics.mkNodeMetric 0 0 0 0 0) 0 Hf Hi)
    as [[all m] Hrec]; [lia|].
  exists all, m. split; [done|]. split; [by eapply recursive_reconstruct|].
  unfold Metrics.getNodeMetric. rewrite Hn. simpl. rewrite Hrec. simpl.
  destruct (existsb _ (node_coll σ n)) eqn:E.
  - apply existsb_exists in E as (x & Hx & Hnot).
    apply negb_true_iff, includes_not_In in Hnot.
    split; split; try done.
    + intros _. by exists x.
    + intros Hall. by apply Hall in Hx.
  - split; split; try done.
    + intros (x & Hx & Hnot). exfalso.
      assert (existsb (λ element, negb (includes all element)) (node_coll σ n) = true) as E';
        [|congruence].
      apply existsb_exists. exists x. split; [done|].
      by apply negb_true_iff, includes_not_In.
    + intros _ x Hx. apply includes_In.
      destruct (includes all x) eqn:Ex; [done|]. exfalso.
      assert (existsb (λ element, negb (includes all element)) (node_coll σ n) = true) as E';
        [|congruence].
      apply existsb_exists. exists x. by rewrite Ex.
Qed.

(** a node list to run C4 on: one root that imports one node *)
Lemma getNodeMetric_raises_iff_element_missing_witness :
  let σ : Store Z := [[1%Z; 2%Z]; [1%Z]; [2%Z]] in
  let nodes := [mkNode 0 1 [1] (Num 0); mkNode 2 2 [] (Num 1)] in
  ∃ all m,
    Metrics.getNodeMetricRecursive σ nodes (length nodes) 0
      (Metrics.mkNodeMetric 0 0 0 0 0) 0 = Some (all, m) ∧
    reconstruct (length nodes) σ nodes 0 = Some all ∧
    (Metrics.getNodeMetric σ nodes (length nodes) 0 = Some Metrics.NodeObjectIsNotValid
     ↔ ∃ x, In x (node_coll σ (mkNode 0 1 [1] (Num 0))) ∧ ¬ In x all) ∧
    (Metrics.getNodeMetric σ nodes (length nodes) 0 = Some (Metrics.Metric m)
     ↔ ∀ x, In x (node_coll σ (mkNode 0 1 [1] (Num 0))) → In x all).
Proof.
  apply (getNodeMetric_raises_iff_element_missing
           [[1%Z; 2%Z]; [1%Z]; [2%Z]]
           [mkNode 0 1 [1] (Num 0); mkNode 2 2 [] (Num 1)] 0 (mkNode 0 1 [1] (Num 0))).
  - intros i j (n & Hn & Hj).
    destruct i as [|[|i]]; simpl in Hn; inversion Hn; subst; simpl in Hj.
    + destruct Hj as [<-|[]]. simpl. lia.
    + destruct Hj.
  - reflexivity.
Defined.

(** * The shallow splitter *)

Section ShallowFacts.
Context {T : Type} `{EqDecision T}.
Implicit Types (l a m : list T) (x y : T) (σ : Store T).

Lemma fold_left_concat {A B} (f : A → B → A) (ls : list (list B)) (init : A) :
  fold_left (λ st bs, fold_left f bs st) ls init = fold_left f (concat ls) init.
Proof.
  revert init. induction ls as [|bs ls IH]; intros init; simpl; [done|].
  by rewrite fold_left_app, IH.
Qed.

Lemma occ_cons x y l : occ x (y :: l) = (if bool_decide (y = x) then 1 else 0) + occ x l.
Proof. unfold occ. simpl. by destruct (bool_decide (y = x)). Qed.


Lemma occ_In x l : 1 ≤ occ x l ↔ In x l.
Proof.
  induction l as [|y l IH]; [simpl; unfold occ; simpl; split; [lia|done]|].
  rewrite occ_cons. simpl. case_bool_decide as Hxy.
  - split; [by left|lia].
  - rewrite <- IH. split; [intros; right; lia|]. intros [?|?]; [done|lia].
Qed.



(** the two scans: what a step that sees [y] must do to the seen elements [a]
    and to the repeated elements [m] *)
Definition scan_step (f : list T * list T → T → list T * list T) : Prop :=
  ∀ a m y, ∀ x,
    (In x (fst (f (a, m) y)) ↔ x = y ∨ In x a) ∧
    (In x (snd (f (a, m) y)) ↔ In x m ∨ (x = y ∧ In y a)).

Lemma scan_spec f l a m :
  scan_step f →
  ∀ x, (In x (fst (fold_left f l (a, m))) ↔ In x a ∨ In x l) ∧
       (In x (snd (fold_left f l (a, m))) ↔
          In x m ∨ (In x a ∧ In x l) ∨ 2 ≤ occ x l).
Proof.
  intros Hf. revert a m. induction l as [|y l IH]; intros a m x.
  - simpl. unfold occ. simpl. split; [tauto|]. split; [tauto|]. intros [?|[[_ []]|?]]; [done|lia].
  - simpl. destruct (f (a, m) y) as [a1 m1] eqn:E.
    destruct (IH a1 m1 x) as [IH1 IH2].
    destruct (Hf a m y x) as [H1 H2]. rewrite E in H1, H2. simpl in H1, H2.
    rewrite IH1, IH2, H1, H2, occ_cons. rewrite <- !occ_In.
    case_bool_decide as Hxy.
    + subst y. split; intuition lia.
    + split; intuition (try lia; try congruence).
Qed.

Lemma scanArrayElement_step : scan_step Shallow.scanArrayElement.
Proof.
  intros a m y x. unfold Shallow.scanArrayElement.
  destruct (includes a y) eqn:E; simpl.
  - apply includes_In in E. rewrite in_app_iff. simpl. split.
    + split; [tauto|]. intros [->|?]; done.
    + split; [intros [?|[->|[]]]; tauto|]. intros [?|[-> _]]; tauto.
  - apply includes_not_In in E. rewrite in_app_iff. simpl. split.
    + split; [intros [?|[->|[]]]; tauto|]. intros [->|?]; tauto.
    + split; [tauto|]. intros [?|[_ ?]]; tauto.
Qed.

Lemma scanSetElement_step : scan_step Shallow.scanSetElement.
Proof.
  intros a m y x. unfold Shallow.scanSetElement. simpl.
  rewrite oset_add_In. split; [done|].
  destruct (includes a y) eqn:E.
  - apply includes_In in E. rewrite oset_add_In. tauto.
  - apply includes_not_In in E. tauto.
Qed.

Lemma scanArrays_multiple (arrays : list (list T)) x :
  In x (snd (Shallow.scanArrays arrays)) ↔ 2 ≤ occ x (concat arrays).
Proof.
  unfold Shallow.scanArrays. rewrite fold_left_concat.
  destruct (scan_spec _ (concat arrays) [] [] scanArrayElement_step x) as [_ ->].
  simpl. tauto.
Qed.

Lemma scanSets_multiple (sets : list (list T)) x :
  In x (snd (Shallow.scanSets sets)) ↔ 2 ≤ occ x (concat sets).
Proof.
  unfold Shallow.scanSets. rewrite fold_left_concat.
  destruct (scan_spec _ (concat sets) [] [] scanSetElement_step x) as [_ ->].
  simpl. tauto.
Qed.
End ShallowFacts.

Section ShallowResult.
Context {T : Type} `{EqDecision T}.
Implicit Types (x y : T) (σ : Store T).

Lemma includes_cons (l : list T) y x :
  includes (y :: l) x = bool_decide (y = x) || includes l x.
Proof. done. Qed.

Lemma amap_keys_set {V} (k : T) (v : V) (m : list (T * V)) :
  amap_keys (amap_set k v m) = oset_add k (amap_keys m).
Proof.
  induction m as [|[k' v'] m IH]; [done|]. simpl.
  unfold oset_add. rewrite includes_cons.
  destruct (decide (k' = k)) as [Hk|Hk].
  - by rewrite bool_decide_eq_true_2.
  - rewrite bool_decide_eq_false_2 by done. simpl. fold (amap_keys (amap_set k v m)).
    rewrite IH. unfold oset_add. by destruct (includes (amap_keys m) k).
Qed.

Lemma Forall_amap_set {V} (P : T * V → Prop) (k : T) (v : V) (m : list (T * V)) :
  Forall P m → P (k, v) → Forall P (amap_set k v m).
Proof.
  intros Hm Hkv. induction Hm as [|[k' v'] m Hk' Hm IH]; simpl.
  - by constructor.
  - destruct (decide (k' = k)) as [->|Hk]; by constructor.
Qed.

(** a singleton node of the shallow splitter, for the element [e] *)
Definition singleton_node σ (en : T * Node) : Prop :=
  σ !! coll en.2 = Some [en.1] ∧ σ !! rest en.2 = Some [en.1] ∧
  imports en.2 = [] ∧ depth en.2 = Num 1.

Lemma singleton_node_app σ ext en : singleton_node σ en → singleton_node (σ ++ ext) en.
Proof.
  intros (Hc & Hr & Hi & Hd). repeat split; try done; by apply lookup_app_l_Some.
Qed.

Lemma singletonMap_fold (multiple : list T) σ (m : list (T * Node)) :
  Forall (singleton_node σ) m →
  ∃ ext, fst (fold_left Shallow.addSingleton multiple (σ, m)) = σ ++ ext ∧
         amap_keys (snd (fold_left Shallow.addSingleton multiple (σ, m)))
           = fold_left (λ s x, oset_add x s) multiple (amap_keys m) ∧
         Forall (singleton_node (σ ++ ext))
                (snd (fold_left Shallow.addSingleton multiple (σ, m))).
Proof.
  revert σ m. induction multiple as [|e multiple IH]; intros σ m Hm; simpl.
  - exists []. rewrite app_nil_r. done.
  - unfold alloc.
    destruct (IH ((σ ++ [[e]]) ++ [[e]])
                 (amap_set e (mkNode (length σ) (length (σ ++ [[e]])) [] (Num 1)) m))
      as (ext & H1 & H2 & H3).
    + apply Forall_amap_set.
      * eapply Forall_impl; [exact Hm|]. intros en Hen.
        rewrite <- app_assoc. by apply singleton_node_app.
      * repeat split; simpl.
        -- rewrite <- app_assoc. by apply list_lookup_middle.
        -- by apply list_lookup_middle.
    + exists ([[e]] ++ [[e]] ++ ext). rewrite H1, H2, amap_keys_set.
      rewrite <- !app_assoc in *. done.
Qed.

Lemma splitElements_fold (nroots : nat) (multiple keys els r : list T) (i : list nat) :
  fold_left (λ '(rest, imports) element,
               if includes multiple element
               then (rest, imports ++ [nroots + index_of element keys])
               else (rest ++ [element], imports)) els (r, i)
  = (r ++ List.filter (λ x, negb (includes multiple x)) els,
     i ++ map (λ x, nroots + index_of x keys) (List.filter (includes multiple) els)).
Proof.
  revert r i. induction els as [|e els IH]; intros r i; simpl.
  - by rewrite !app_nil_r.
  - destruct (includes multiple e); simpl; rewrite IH; by rewrite <- app_assoc.
Qed.

Lemma splitElements_spec (nroots : nat) (multiple keys els : list T) :
  Shallow.splitElements nroots multiple keys els
  = (List.filter (λ x, negb (includes multiple x)) els,
     map (λ x, nroots + index_of x keys) (List.filter (includes multiple) els)).
Proof. unfold Shallow.splitElements. by rewrite splitElements_fold. Qed.

(** the root the shallow splitter makes of the input [r], at position [i] *)
Definition shallow_root (nroots : nat) (multiple keys : list T) σ (base i : nat) (r : ref)
  : Node :=
  mkNode r (base + i)
         (map (λ x, nroots + index_of x keys) (List.filter (includes multiple) (read σ r)))
         (Num 0).

Lemma addRoot_fold nroots multiple keys (inputs : list ref) σ (acc : list Node) :
  Forall (λ r, r < length σ) inputs →
  fold_left (Shallow.addRoot nroots multiple keys) inputs (σ, acc)
  = (σ ++ map (λ r, List.filter (λ x, negb (includes multiple x)) (read σ r)) inputs,
     acc ++ imap (shallow_root nroots multiple keys σ (length σ)) inputs).
Proof.
  revert σ acc. induction inputs as [|r inputs IH]; intros σ acc Hin; simpl.
  - by rewrite !app_nil_r.
  - inversion Hin as [|? ? Hr Hin']; subst.
    rewrite splitElements_spec. unfold alloc. rewrite IH.
    + rewrite <- !app_assoc. simpl. f_equal.
      * f_equal. f_equal. apply map_ext_in. intros r' Hr'.
        rewrite read_alloc_old; [done|]. rewrite Forall_forall in Hin'.
        apply Hin'. by apply list_elem_of_In.
      * f_equal. unfold shallow_root at 2. rewrite Nat.add_0_r. f_equal.
        apply imap_ext. intros i r' Hr'. simpl. unfold shallow_root.
        rewrite length_app. simpl.
        rewrite read_alloc_old by (by eapply (Forall_lookup_1 _ _ _ _ Hin')).
        f_equal. lia.
    + eapply Forall_impl; [exact Hin'|]. intros r' Hr'. simpl in Hr'.
      rewrite length_app. simpl. lia.
Qed.
End ShallowResult.

Section ShallowAssemble.
Context {T : Type} `{EqDecision T}.
Implicit Types (x y : T) (σ : Store T).

Lemma filter_ext_bool {A} (f g : A → bool) (l : list A) :
  (∀ a, f a = g a) → List.filter f l = List.filter g l.
Proof. intros Hfg. apply List.filter_ext. done. Qed.

Lemma shallow_assemble (shared : T → bool) (multiple : list T) σ (inputs : list ref) :
  (∀ x, shared x = includes multiple x) →
  Forall (λ r, r < length σ) inputs →
  ∀ σ1 m σ2 roots,
    Shallow.singletonMap σ multiple = (σ1, m) →
    fold_left (Shallow.addRoot (length inputs) multiple (amap_keys m)) inputs (σ1, [])
      = (σ2, roots) →
    shallow_result shared σ inputs σ2 (roots ++ amap_values m).
Proof.
  intros Hshared Hin σ1 m σ2 roots Hsing Hroots.
  destruct (singletonMap_fold multiple σ [] ltac:(by constructor)) as (ext & H1 & H2 & H3).
  unfold Shallow.singletonMap in Hsing. rewrite Hsing in H1, H2, H3. simpl in H1, H2, H3.
  subst σ1. fold (to_set multiple) in H2.
  rewrite addRoot_fold in Hroots.
  2:{ eapply Forall_impl; [exact Hin|]. intros r Hr. simpl in Hr. rewrite length_app. lia. }
  injection Hroots as <- <-. simpl.
  exists (amap_keys m). split; [rewrite H2; apply to_set_NoDup|].
  split; [intros x; by rewrite H2, to_set_In, Hshared, includes_In|].
  split.
  { rewrite length_app, length_imap. unfold amap_values, amap_keys.
    by rewrite !length_map. }
  split.
  - intros k x Hk.
    assert (∃ n, m !! k = Some (x, n)) as [n Hn].
    { unfold amap_keys in Hk. rewrite list_lookup_fmap in Hk.
      destruct (m !! k) as [[x' n]|]; simpl in Hk; [|done]. injection Hk as ->. by exists n. }
    exists n. split.
    { rewrite lookup_app_r; rewrite length_imap; [|lia].
      replace (length inputs + k - length inputs) with k by lia.
      unfold amap_values. by rewrite list_lookup_fmap, Hn. }
    rewrite Forall_forall in H3.
    destruct (H3 (x, n)) as (Hc & Hr & Hi & Hd); [by eapply list_elem_of_lookup_2|].
    simpl in *. unfold node_coll, node_rest, read.
    rewrite (lookup_app_l_Some _ _ _ _ Hc), (lookup_app_l_Some _ _ _ _ Hr). done.
  - intros i r Hi.
    assert (r < length σ) as Hr by (by eapply (Forall_lookup_1 _ _ _ _ Hin)).
    exists (shallow_root (length inputs) multiple (amap_keys m) (σ ++ ext)
                         (length (σ ++ ext)) i r).
    split.
    { rewrite lookup_app_l by (rewrite length_imap; by eapply lookup_lt_Some).
      by rewrite list_lookup_imap, Hi. }
    split; [done|]. split; [done|].
    assert (read (σ ++ ext) r = read σ r) as Hread by (by apply read_app_old).
    split.
    { rewrite read_app_old; [done|]. rewrite length_app. lia. }
    split.
    + unfold node_rest, read, shallow_root. simpl.
      rewrite lookup_app_r by lia.
      replace (length (σ ++ ext) + i - length (σ ++ ext)) with i by lia.
      rewrite list_lookup_fmap, Hi. simpl. fold (read (σ ++ ext) r). rewrite Hread.
      apply filter_ext_bool. intros x. by rewrite Hshared.
    + simpl. rewrite Hread. f_equal. apply filter_ext_bool. intros x. by rewrite Hshared.
Qed.

Lemma leb_includes (multiple all : list T) :
  (∀ x, In x multiple ↔ 2 ≤ occ x all) →
  ∀ x, (2 <=? occ x all) = includes multiple x.
Proof.
  intros Hm x. destruct (includes multiple x) eqn:E.
  - apply includes_In, Hm in E. by apply Nat.leb_le.
  - apply includes_not_In in E. apply Nat.leb_gt.
    destruct (le_lt_dec 2 (occ x all)) as [Hle|Hlt]; [|done].
    apply Hm in Hle. done.
Qed.

Lemma splitIntersectionsArrayShallow_result σ (arrays : list ref) :
  Forall (λ r, r < length σ) arrays →
  let '(σ', nodes) := Shallow.splitIntersectionsArrayShallow σ arrays in
  shallow_result (λ x, 2 <=? occ x (concat (map (read σ) arrays))) σ arrays σ' nodes.
Proof.
  intros Hin. unfold Shallow.splitIntersectionsArrayShallow.
  pose proof (scanArrays_multiple (map (read σ) arrays)) as Hm.
  destruct (Shallow.scanArrays (map (read σ) arrays)) as [seen multiple].
  destruct (Shallow.singletonMap σ multiple) as [σ1 m] eqn:E1.
  destruct (fold_left _ arrays (σ1, [])) as [σ2 roots] eqn:E2.
  eapply shallow_assemble; try done. by apply leb_includes.
Qed.

Lemma splitIntersectionsSetsShallow_result σ (sets : list ref) :
  Forall (λ r, r < length σ) sets →
  let '(σ', nodes) := Shallow.splitIntersectionsSetsShallow σ sets in
  shallow_result (λ x, 2 <=? occ x (concat (map (read σ) sets))) σ sets σ' nodes.
Proof.
  intros Hin. unfold Shallow.splitIntersectionsSetsShallow.
  pose proof (scanSets_multiple (map (read σ) sets)) as Hm.
  destruct (Shallow.scanSets (map (read σ) sets)) as [seen multiple].
  destruct (Shallow.singletonMap σ multiple) as [σ1 m] eqn:E1.
  destruct (fold_left _ sets (σ1, [])) as [σ2 roots] eqn:E2.
  eapply shallow_assemble; try done. by apply leb_includes.
Qed.
End ShallowAssemble.





(** * The documented examples *)

(** C9: the weighted splitter with the default weights and the join/split
    pair [sort().join('\x00')] / [split('\x00')], on the arrays
    [['1','2','3'], ['2','3','4'], ['3','4','5']].  The first extraction makes
    the node of [{2,3}]; the second makes the node of [{3}], which is taken
    out of the nodes of [{3,4,5}] and of [{2,3}]; the third makes the node of
    [{4}].  In the node list returned the node of [{2,3}] (depth 1) imports
    the node of [{3}] (depth 2), and [getNodeMetrics] reports [maxDepth = 2]. *)
Theorem weighted_example_two_levels :
  let σ : Store string := [["1"; "2"; "3"]; ["2"; "3"; "4"]; ["3"; "4"; "5"]]%string in
  let split3 := Weighted.splitArrays StringKeys.join StringKeys.split
                  Weighted.elementsCount Weighted.setsCount 3 in
  let weighted := Weighted.step StringKeys.join StringKeys.split
                    Weighted.elementsCount Weighted.setsCount in
  let created st := (λ n, (node_coll (Weighted.store st) n, node_rest (Weighted.store st) n))
                      <$> last (amap_values (Weighted.setNodeMap st)) in
  (∃ st1 st2,
     weighted (Weighted.initialState StringKeys.join StringKeys.split
                 Weighted.elementsCount (σ ++ σ) [3; 4; 5]) = Some st1 ∧
     created st1 = Some (["2"; "3"], ["2"; "3"])%string ∧
     weighted st1 = Some st2 ∧
     created st2 = Some (["3"], ["3"])%string ∧
     view (Weighted.store st2) (amap_values (Weighted.setNodeMap st2))
     = [(["1"; "2"; "3"]%string, ["1"]%string, [3], Num 0);
        (["2"; "3"; "4"]%string, ["4"]%string, [3], Num 0);
        (["3"; "4"; "5"]%string, ["4"; "5"]%string, [4], Num 0);
        (["2"; "3"]%string, ["2"]%string, [4], Num 1);
        (["3"]%string, ["3"]%string, [], Num 2)]) ∧
  ∃ σ' nodes,
    split3 σ [0; 1; 2] = Some (σ', nodes) ∧
    view σ' nodes
    = [(["1"; "2"; "3"]%string, ["1"]%string, [3], Num 0);
       (["2"; "3"; "4"]%string, [], [3; 5], Num 0);
       (["3"; "4"; "5"]%string, ["5"]%string, [4; 5], Num 0);
       (["2"; "3"]%string, ["2"]%string, [4], Num 1);
       (["3"]%string, ["3"]%string, [], Num 2);
       (["4"]%string, ["4"]%string, [], Num 1)] ∧
    Metrics.sMaxDepth <$> (Metrics.getNodeMetrics σ' nodes (length nodes) ≫= id) = Some 2.
Proof.
  split.
  - eexists _, _. split; [vm_compute; reflexivity|].
    split; [vm_compute; reflexivity|].
    split; [vm_compute; reflexivity|].
    split; vm_compute; reflexivity.
  - eexists _, _. split; [vm_compute; reflexivity|].
    split; vm_compute; reflexivity.
Qed.

(** C2, the failing input: two equal arrays [[1, 2]].  Every element occurs
    twice, so there is no count-1 bucket, [counts.slice(0, -1)] is empty and
    the first call of [splitArrayNodes] returns 0 without an extraction: both
    roots keep [1, 2] in their [rest]. *)
Theorem biggest_keeps_shared_elements
    (lt : Z → Z → bool) (defaultCompare : Z → Z → Z) (fuel : nat) :
  let σ : Store Z := [[1; 2]; [1; 2]]%Z in
  ∃ σ' nodes,
    Biggest.splitArrays lt defaultCompare Biggest.SortFalse (S fuel) σ [0; 1]
      = Some (σ', nodes) ∧
    view σ' nodes = [([1; 2]%Z, [1; 2]%Z, [], Num 0); ([1; 2]%Z, [1; 2]%Z, [], Num 0)] ∧
    shared_rest σ' nodes 1%Z ∧ shared_rest σ' nodes 2%Z.
Proof.
  simpl. eexists _, _. split; [reflexivity|]. split; [reflexivity|].
  split; exists 0, 1, (mkNode 0 2 [] (Num 0)), (mkNode 1 3 [] (Num 0));
    repeat split; try done; simpl; tauto.
Qed.

(** * Covered node lists reconstruct their collections *)

Section Reconstruct.
Context {T : Type} `{EqDecision T}.
Implicit Types (σ : Store T) (nodes : list Node).

Lemma covered_reconstruct_fuel σ nodes fuel i n :
  forward nodes → covered σ nodes → nodes !! i = Some n → length nodes - i ≤ fuel →
  ∃ l, reconstruct fuel σ nodes i = Some l ∧ same_elements l (node_coll σ n).
Proof.
  intros Hf Hc. revert i n. induction fuel as [|fuel IH]; intros i n Hn Hfuel.
  { apply lookup_lt_Some in Hn. lia. }
  simpl. rewrite Hn. simpl.
  assert (∀ js, (∀ j, In j js → In j (imports n)) →
            ∃ parts, mapM (reconstruct fuel σ nodes) js = Some parts ∧
              Forall2 (λ j l, ∃ c, nodes !! j = Some c ∧ same_elements l (node_coll σ c))
                      js parts) as Haux.
  { intros js. induction js as [|j js IHjs]; intros Hjs.
    - exists []. split; [done|constructor].
    - destruct IHjs as (parts & Hparts & Hall); [intros; apply Hjs; by right|].
      destruct (Hf i j) as [Hij Hjl]; [exists n; split; [done|apply Hjs; by left]|].
      destruct (lookup_lt_is_Some_2 nodes j Hjl) as [c Hcj].
      destruct (IH j c Hcj) as (l & Hl & Hsame); [lia|].
      exists (l :: parts). simpl. rewrite Hl. simpl. rewrite Hparts. simpl.
      split; [done|]. constructor; [by exists c|done]. }
  destruct (Haux (imports n)) as (parts & Hparts & Hall); [done|].
  rewrite Hparts. simpl. eexists. split; [done|].
  intros x. rewrite in_app_iff, (Hc i n Hn x), in_concat. split.
  - intros [?|(l & Hl & Hx)]; [by left|]. right.
    apply list_elem_of_In, list_elem_of_lookup in Hl as [k Hk].
    destruct (Forall2_lookup_r _ _ _ _ _ Hall Hk) as (j & Hj & c & Hcj & Hsame).
    exists j, c. split; [by apply list_elem_of_In, list_elem_of_lookup_2 with k|].
    split; [done|]. by apply Hsame.
  - intros [?|(j & c & Hj & Hcj & Hx)]; [by left|]. right.
    apply list_elem_of_In, list_elem_of_lookup in Hj as [k Hk].
    destruct (Forall2_lookup_l _ _ _ _ _ Hall Hk) as (l & Hl & c' & Hc' & Hsame).
    exists l. split; [by apply list_elem_of_In, list_elem_of_lookup_2 with k|].
    apply Hsame. congruence.
Qed.

Lemma covered_reconstruct σ nodes i n :
  forward nodes → covered σ nodes → nodes !! i = Some n →
  ∃ l, reconstruct (length nodes) σ nodes i = Some l ∧ same_elements l (node_coll σ n).
Proof. intros Hf Hc Hn. apply covered_reconstruct_fuel; try done. lia. Qed.
End Reconstruct.

(** * The greedy splitter: what a pass extracts *)

Section GreedySearch.
Context {T : Type} `{EqDecision T}.
Variable lt : T → T → bool.
Variable sort : Biggest.SortOption (T := T).
Implicit Types (a b r L : list T) (rs : list (list T)) (st : Biggest.Search (T := T)).

Local Abbreviation inter := (Biggest.intersectionFunction lt sort).

Lemma orderedIntersection_In1 (before after : T → T → bool) a b x :
  In x (Biggest.orderedIntersection before after a b) → In x a.
Proof.
  revert b. induction a as [|v1 a IHa]; intros b; [done|].
  induction b as [|v2 b IHb]; [done|]. simpl.
  destruct (before v1 v2); [intros Hx; right; by apply (IHa (v2 :: b))|].
  destruct (after v1 v2); [exact IHb|].
  intros [->|Hx]; [by left|right; by apply (IHa b)].
Qed.

Lemma getIntersection_In a b x :
  In x (Biggest.getIntersection a b) → In x a ∧ In x b.
Proof.
  unfold Biggest.getIntersection. destruct (length a <? length b);
    rewrite filter_In, includes_In; tauto.
Qed.

Lemma intersection_In1 a b x : In x (inter a b) → In x a.
Proof.
  unfold Biggest.intersectionFunction. destruct sort.
  - apply orderedIntersection_In1.
  - intros Hx. apply getIntersection_In in Hx. tauto.
  - apply orderedIntersection_In1.
Qed.

(** an intersection the search may hold: empty, or inside one of the arrays
    of [pool] *)
Definition found_in (pool : list (list T)) L : Prop :=
  L = [] ∨ ∃ a, In a pool ∧ ∀ x, In x L → In x a.

Lemma found_in_mono pool pool' L :
  (∀ a, In a pool → In a pool') → found_in pool L → found_in pool' L.
Proof. intros Hsub [->|(a & Ha & HL)]; [by left|right]. exists a. auto. Qed.

Lemma keepLonger_found pool (s : nat * list T) L :
  found_in pool (snd s) → found_in pool L → found_in pool (snd (Biggest.keepLonger s L)).
Proof. intros Hs HL. unfold Biggest.keepLonger. by destruct (fst s <? length L). Qed.

Lemma getLongestIntersection_found base next longest :
  found_in next (Biggest.getLongestIntersection lt sort base next longest).
Proof.
  unfold Biggest.getLongestIntersection.
  assert (∀ (ps : list (nat * list T)) (s : nat * list T),
            (∀ p, In p ps → In (snd p) next) → found_in next (snd s) →
            found_in next
              (snd (fold_left
                      (λ acc '(i, set),
                         fold_left (λ acc all, Biggest.keepLonger acc (inter set all))
                                   (drop (i + 1) (next ++ base)) acc) ps s))) as Haux.
  { intros ps. induction ps as [|[i set] ps IH]; intros s Hps Hs; [done|].
    simpl. apply IH; [intros; apply Hps; by right|].
    assert (In set next) as Hset by (apply (Hps (i, set)); by left).
    generalize (drop (i + 1) (next ++ base)). intros alls. revert s Hs.
    induction alls as [|all alls IHa]; intros s Hs; [done|].
    simpl. apply IHa. apply keepLonger_found; [done|].
    right. exists set. split; [done|]. intros x. apply intersection_In1. }
  apply Haux; [|by left].
  intros [i set] Hp. simpl. apply list_elem_of_In, elem_of_zip_r in Hp.
  by apply list_elem_of_In.
Qed.

(** the arrays the search works on come from the filtered arrays, and so
    does the intersection it holds *)
Definition search_inv (pool : list (list T)) st : Prop :=
  (∀ a, In a (Biggest.filteredArrays st) → In a pool) ∧
  found_in pool (Biggest.longestIntersection st).

Lemma elementStep_inv pool st element :
  search_inv pool st → search_inv pool (Biggest.elementStep lt sort st element).
Proof.
  intros [Hf HL]. unfold Biggest.elementStep.
  set (candidates := List.filter _ (Biggest.filteredArrays st)).
  set (next := List.filter (λ r, includes r element) candidates).
  pose proof (getLongestIntersection_found (Biggest.baseArrays st) next
                (Biggest.longest st)) as Hfound.
  assert (∀ a, In a next → In a pool) as Hnext.
  { intros a Ha. apply filter_In in Ha as [Ha _]. apply filter_In in Ha as [Ha _]. auto. }
  destruct (Biggest.longest st <? length _); split; simpl; try done.
  - intros a Ha. apply filter_In in Ha as [Ha _]. apply filter_In in Ha as [Ha _]. auto.
  - by eapply found_in_mono.
  - intros a Ha. apply filter_In in Ha as [Ha _]. apply filter_In in Ha as [Ha _]. auto.
Qed.

Lemma elementsLoop_inv pool st elements :
  search_inv pool st →
  match Biggest.elementsLoop lt sort st elements with
  | Biggest.Returned st' | Biggest.FellThrough st' => search_inv pool st'
  end.
Proof.
  revert st. induction elements as [|e elements IH]; intros st Hst; [done|].
  simpl. destruct (length _ =? 0); [by apply elementStep_inv|].
  apply IH. by apply elementStep_inv.
Qed.

Lemma countsLoop_inv pool m st counts :
  search_inv pool st →
  match Biggest.countsLoop lt sort m st counts with
  | Biggest.Returned st' | Biggest.FellThrough st' => search_inv pool st'
  end.
Proof.
  revert st. induction counts as [|c counts IH]; intros st Hst; [done|].
  simpl. pose proof (elementsLoop_inv pool st (default [] (amap_get c m)) Hst) as He.
  destruct (Biggest.elementsLoop lt sort st _); [done|]. by apply IH.
Qed.

(** what [splitArrayNodes] extracts is not empty and lies within the [rest]
    of a node *)
Lemma searchPass_extracted rs L :
  Biggest.extracted (Biggest.searchPass lt sort rs) = Some L →
  L ≠ [] ∧ ∃ r, In r rs ∧ ∀ x, In x L → In x r.
Proof.
  unfold Biggest.searchPass. destruct (bool_decide _); [done|].
  set (singles := default [] _). set (m := fold_left Biggest.groupCount _ []).
  set (filtered := map _ rs).
  pose proof (countsLoop_inv filtered m (Biggest.mkSearch filtered [] 0 [])
                (removelast (sort_by (λ c d, Z.of_nat d - Z.of_nat c)%Z (amap_keys m))))
    as Hinv.
  destruct (Biggest.countsLoop _ _ _ _ _) as [st|st]; [|done].
  destruct Hinv as [_ Hfound]; [split; [done|by left]|].
  destruct (0 <? length (Biggest.longestIntersection st)) eqn:El; [|done].
  simpl. intros [= <-]. apply Nat.ltb_lt in El.
  destruct Hfound as [Hnil|(a & Ha & HL)]; [rewrite Hnil in El; simpl in El; lia|].
  split; [intros Hnil; rewrite Hnil in El; simpl in El; lia|].
  apply in_map_iff in Ha as (r & <- & Hr). exists r. split; [done|].
  intros x Hx. apply HL, filter_In in Hx. tauto.
Qed.
End GreedySearch.

(** * The greedy splitter: the extraction *)

Section GreedyExtract.
Context {T : Type} `{EqDecision T}.
Implicit Types (σ : Store T) (nodes : list Node) (L : list T).

(** whether [extractFrom] takes [L] out of the node *)
Definition takes σ L (n : Node) : bool :=
  forallb (λ includedElement, includes (node_rest σ n) includedElement) L.

(** what [extractFrom] makes of the node [n] *)
Definition updated σ σ' L (idx : nat) (n n' : Node) : Prop :=
  coll n' = coll n ∧ depth n' = depth n ∧
  if takes σ L n
  then length σ ≤ rest n' < length σ' ∧ imports n' = imports n ++ [idx] ∧
       read σ' (rest n') = List.filter (λ el, negb (includes L el)) (node_rest σ n)
  else n' = n.

Lemma updated_app σ σ' ext L idx n n' :
  updated σ σ' L idx n n' → updated σ (σ' ++ ext) L idx n n'.
Proof.
  intros (Hc & Hd & Hu). split; [done|]. split; [done|].
  destruct (takes σ L n); [|done]. destruct Hu as ((Hl & Hr) & Hi & Hread).
  split; [rewrite length_app; lia|]. split; [done|]. by rewrite read_app_old.
Qed.

Lemma takes_app σ ext L n : rest n < length σ → takes (σ ++ ext) L n = takes σ L n.
Proof. intros Hr. unfold takes, node_rest. by rewrite read_app_old. Qed.

Lemma extractFrom_fold L idx nodes σ σ1 (acc : list Node) :
  (∀ n, In n nodes → rest n < length σ) →
  ∃ ext nodes',
    fold_left (Biggest.extractFrom L idx) nodes (σ ++ σ1, acc)
      = (σ ++ σ1 ++ ext, acc ++ nodes') ∧
    Forall2 (updated σ (σ ++ σ1 ++ ext) L idx) nodes nodes'.
Proof.
  revert σ1 acc. induction nodes as [|n nodes IH]; intros σ1 acc Hrefs; simpl.
  - exists [], []. rewrite !app_nil_r. split; [done|constructor].
  - assert (rest n < length σ) as Hn by (apply Hrefs; by left).
    fold (takes (σ ++ σ1) L n). rewrite takes_app by done.
    destruct (takes σ L n) eqn:Etake.
    + unfold alloc. unfold node_rest at 1. rewrite read_app_old by done.
      set (v := List.filter _ (read σ (rest n))).
      set (n' := mkNode _ _ _ _).
      destruct (IH (σ1 ++ [v]) (acc ++ [n'])) as (ext & nodes' & Hfold & Hall).
      { intros; apply Hrefs; by right. }
      exists ([v] ++ ext), (n' :: nodes').
      rewrite <- !app_assoc in *. simpl in *. split; [done|].
      constructor; [|done]. split; [done|]. split; [done|]. rewrite Etake.
      subst n'. simpl. rewrite !length_app. simpl. split; [lia|]. split; [done|].
      rewrite <- length_app, app_assoc. unfold read. by rewrite list_lookup_middle.
    + destruct (IH σ1 (acc ++ [n])) as (ext & nodes' & Hfold & Hall).
      { intros; apply Hrefs; by right. }
      exists ext, (n :: nodes'). rewrite <- !app_assoc in *. simpl. split; [done|].
      constructor; [|done]. split; [done|]. split; [done|]. by rewrite Etake.
Qed.

Lemma extract_spec σ nodes L :
  (∀ n, In n nodes → rest n < length σ) →
  ∃ ext nodes',
    Biggest.extract σ nodes L
      = (σ ++ [L] ++ ext,
         nodes' ++ [mkNode (length σ) (length σ) [] (Num 1)]) ∧
    Forall2 (updated σ (σ ++ [L] ++ ext) L (length nodes)) nodes nodes'.
Proof.
  intros Hrefs. unfold Biggest.extract, alloc.
  destruct (extractFrom_fold L (length nodes) nodes σ [L] [] Hrefs)
    as (ext & nodes' & Hfold & Hall).
  rewrite Hfold. by exists ext, nodes'.
Qed.
End GreedyExtract.

Section GreedyInvariant.
Context {T : Type} `{EqDecision T}.
Implicit Types (σ : Store T) (nodes : list Node) (L : list T).

(** the node list during the extraction loop, before the depths are set:
    roots first, at depth 0, then the nodes of the extractions, at depth 1,
    each with a collection of its own that some node imports *)
Record greedy_inv (σ0 : Store T) (inputs : list ref) σ nodes : Prop := mk_greedy_inv {
  gi_frame : ∃ ext, σ = σ0 ++ ext;
  gi_refs : ∀ n, In n nodes → coll n < length σ ∧ rest n < length σ;
  gi_roots : ∀ i r, inputs !! i = Some r →
               ∃ n, nodes !! i = Some n ∧ coll n = r ∧ depth n = Num 0;
  gi_gen : ∀ i n, nodes !! i = Some n → length inputs ≤ i →
             length σ0 ≤ coll n ∧ depth n = Num 1 ∧ ∃ p, imports_of nodes p i;
  gi_distinct : ∀ i j n m, nodes !! i = Some n → nodes !! j = Some m →
                  length inputs ≤ i → length inputs ≤ j → coll n = coll m → i = j;
  gi_forward : forward nodes;
  gi_targets : ∀ i j, imports_of nodes i j → length inputs ≤ j;
  gi_covered : covered σ nodes
}.

Lemma filter_not_includes_In L (r : list T) x :
  In x (List.filter (λ el, negb (includes L el)) r) ↔ In x r ∧ ¬ In x L.
Proof. rewrite filter_In, negb_true_iff, includes_not_In. tauto. Qed.

Lemma takes_true σ L n : takes σ L n = true ↔ ∀ x, In x L → In x (node_rest σ n).
Proof.
  unfold takes. rewrite forallb_forall. split; intros Hall x Hx.
  - by apply includes_In, Hall.
  - by apply includes_In, Hall.
Qed.

Lemma greedy_inv_extract σ0 inputs σ nodes L σ' nodes' :
  greedy_inv σ0 inputs σ nodes →
  length inputs ≤ length nodes →
  (∃ n, In n nodes ∧ ∀ x, In x L → In x (node_rest σ n)) →
  Biggest.extract σ nodes L = (σ', nodes') →
  greedy_inv σ0 inputs σ' nodes' ∧ length nodes' = S (length nodes).
Proof.
  intros [[ext0 Hframe] Hrefs Hroots Hgen Hdist Hfwd Htgt Hcov] Hlen Hsome Hex.
  destruct (extract_spec σ nodes L) as (ext & upd & Hext & Hall); [intros; by apply Hrefs|].
  rewrite Hext in Hex. injection Hex as <- <-.
  pose proof (Forall2_length _ _ _ Hall) as Hlen'.
  set (N := mkNode (length σ) (length σ) [] (Num 1)).
  assert (∀ i n', (upd ++ [N]) !! i = Some n' →
            (∃ n, i < length nodes ∧ nodes !! i = Some n ∧ upd !! i = Some n' ∧
                  updated σ (σ ++ [L] ++ ext) L (length nodes) n n') ∨
            (i = length nodes ∧ n' = N)) as Hcases.
  { intros i n' Hi. destruct (decide (i < length upd)) as [Hlt|Hge].
    - rewrite lookup_app_l in Hi by done. left.
      destruct (Forall2_lookup_r _ _ _ _ _ Hall Hi) as (n & Hn & Hu).
      exists n. split; [lia|done].
    - right. rewrite lookup_app_r in Hi by lia.
      destruct (i - length upd) as [|k] eqn:Ek; simpl in Hi; [|by destruct k].
      injection Hi as <-. split; [lia|done]. }
  assert (∀ i n, nodes !! i = Some n →
            ∃ n', (upd ++ [N]) !! i = Some n' ∧
                  updated σ (σ ++ [L] ++ ext) L (length nodes) n n') as Hold.
  { intros i n Hn. destruct (Forall2_lookup_l _ _ _ _ _ Hall Hn) as (n' & Hn' & Hu).
    exists n'. split; [|done]. by apply lookup_app_l_Some. }
  assert (∀ i j, imports_of nodes i j → imports_of (upd ++ [N]) i j) as Himp_old.
  { intros i j (n & Hn & Hj). destruct (Hold i n Hn) as (n' & Hn' & _ & _ & Hu).
    exists n'. split; [done|]. destruct (takes σ L n); [|by subst].
    destruct Hu as (_ & -> & _). apply in_app_iff. by left. }
  assert (∀ i j, imports_of (upd ++ [N]) i j →
            i < length nodes ∧ (imports_of nodes i j ∨ j = length nodes)) as Himp_new.
  { intros i j (n' & Hn' & Hj).
    destruct (Hcases i n' Hn') as [(n & Hi & Hn & _ & _ & _ & Hu)|[-> ->]]; [|done].
    split; [done|]. destruct (takes σ L n).
    - destruct Hu as (_ & Himp & _). rewrite Himp in Hj.
      apply in_app_iff in Hj as [Hj|[<-|[]]]; [left; by exists n|by right].
    - subst n'. left. by exists n. }
  split; [|rewrite length_app; simpl; lia].
  split.
  - exists (ext0 ++ [L] ++ ext). subst σ. by rewrite <- !app_assoc.
  - intros n' Hn'. apply list_elem_of_In, list_elem_of_lookup in Hn' as [i Hi].
    rewrite !length_app. simpl.
    destruct (Hcases i n' Hi) as [(n & _ & Hn & _ & Hc & _ & Hu)|[_ ->]]; [|simpl; lia].
    destruct (Hrefs n) as [Hcn Hrn]; [by apply list_elem_of_In, list_elem_of_lookup_2 with i|].
    rewrite Hc. split; [lia|]. destruct (takes σ L n); [|subst; lia].
    destruct Hu as ((_ & Hr) & _). rewrite !length_app in Hr. simpl in Hr. lia.
  - intros i r Hi. destruct (Hroots i r Hi) as (n & Hn & Hc & Hd).
    destruct (Hold i n Hn) as (n' & Hn' & Hc' & Hd' & _).
    exists n'. split; [done|]. split; congruence.
  - intros i n' Hi Hge.
    destruct (Hcases i n' Hi) as [(n & _ & Hn & _ & Hc & Hd & _)|[-> ->]].
    + destruct (Hgen i n Hn Hge) as (Hfresh & Hd1 & p & Hp).
      rewrite Hc, Hd. split; [done|]. split; [done|]. exists p. by apply Himp_old.
    + simpl. split; [subst σ; rewrite length_app; lia|]. split; [done|].
      destruct Hsome as (n & Hn & HL).
      apply list_elem_of_In, list_elem_of_lookup in Hn as [p Hp].
      destruct (Hold p n Hp) as (n' & Hn' & _ & _ & Hu).
      apply takes_true in HL. rewrite HL in Hu. destruct Hu as (_ & Himp & _).
      exists p, n'. split; [done|]. rewrite Himp. apply in_app_iff. right. by left.
  - intros i j n' m' Hi Hj Hgi Hgj Hc.
    destruct (Hcases i n' Hi) as [(n & _ & Hn & _ & Hcn & _)|[-> ->]];
      destruct (Hcases j m' Hj) as [(m & _ & Hm & _ & Hcm & _)|[-> ->]]; try done.
    + apply (Hdist i j n m); congruence.
    + simpl in Hc. destruct (Hrefs n) as [Hlt _];
        [by apply list_elem_of_In, list_elem_of_lookup_2 with i|]. lia.
    + simpl in Hc. destruct (Hrefs m) as [Hlt _];
        [by apply list_elem_of_In, list_elem_of_lookup_2 with j|]. lia.
  - intros i j Hij. rewrite length_app. simpl.
    destruct (Himp_new i j Hij) as [Hi [Hold_ij| ->]]; [|lia].
    apply Hfwd in Hold_ij. lia.
  - intros i j Hij. destruct (Himp_new i j Hij) as [Hi [Hold_ij| ->]]; [|lia].
    by apply (Htgt i j).
  - intros i n' Hi x. change (σ ++ [L] ++ ext) with (σ ++ L :: ext) in *.
    assert (read (σ ++ L :: ext) (length σ) = L) as HreadN.
    { unfold read. by rewrite list_lookup_middle. }
    assert (∀ j c', (upd ++ [N]) !! j = Some c' → j < length nodes →
              ∃ c, nodes !! j = Some c ∧ node_coll (σ ++ L :: ext) c' = node_coll σ c)
      as Hcoll.
    { intros j c' Hj Hjl. destruct (Hcases j c' Hj) as [(c & _ & Hc & _ & Hcc & _)|[-> _]]; [|lia].
      exists c. split; [done|]. unfold node_coll. rewrite Hcc. apply read_app_old.
      apply (Hrefs c). by apply list_elem_of_In, list_elem_of_lookup_2 with j. }
    assert (∀ j c, nodes !! j = Some c →
              ∃ c', (upd ++ [N]) !! j = Some c' ∧
                    node_coll (σ ++ L :: ext) c' = node_coll σ c) as Hcoll'.
    { intros j c Hj. destruct (Hold j c Hj) as (c' & Hc' & _).
      exists c'. split; [done|]. apply lookup_lt_Some in Hj as Hjl.
      destruct (Hcoll j c' Hc' Hjl) as (c0 & Hc0 & ->). congruence. }
    destruct (Hcases i n' Hi) as [(n & Hil & Hn & _ & Hc & _ & Hu)|[-> ->]].
    2:{ unfold node_coll, node_rest. simpl. rewrite HreadN. split; [by left|].
        intros [?|(j & c' & [] & _)]; done. }
    destruct (Hcoll i n' Hi Hil) as (n0 & Hn0 & Hcn).
    assert (n0 = n) as -> by congruence. rewrite Hcn, (Hcov i n Hn x).
    assert (rest n < length σ) as Hrn
      by (apply (Hrefs n); by apply list_elem_of_In, list_elem_of_lookup_2 with i).
    assert (∀ j, In j (imports n) → j < length nodes) as Hjs.
    { intros j Hj. destruct (Hfwd i j); [by exists n|done]. }
    destruct (takes σ L n) eqn:Etake.
    + destruct Hu as (_ & Himp & Hread). unfold node_rest at 2. rewrite Hread, Himp.
      rewrite filter_not_includes_In. pose proof (proj1 (takes_true σ L n) Etake) as HL.
      split.
      * intros [Hx|(j & c & Hj & Hcj & Hx)].
        -- destruct (includes L x) eqn:ExL.
           ++ right. exists (length nodes), N. split; [apply in_app_iff; right; by left|].
              split; [rewrite lookup_app_r by lia; by rewrite Hlen', Nat.sub_diag|].
              unfold node_coll. simpl. rewrite HreadN. by apply includes_In.
           ++ left. split; [done|]. by apply includes_not_In.
        -- right. destruct (Hcoll' j c Hcj) as (c' & Hc' & Hcc).
           exists j, c'. split; [apply in_app_iff; by left|]. split; [done|]. by rewrite Hcc.
      * intros [[Hx _]|(j & c' & Hj & Hcj & Hx)]; [by left|].
        apply in_app_iff in Hj as [Hj|[<-|[]]].
        -- right. destruct (Hcoll j c' Hcj (Hjs j Hj)) as (c & Hc0 & Hcc).
           exists j, c. split; [done|]. split; [done|]. by rewrite <- Hcc.
        -- left. rewrite lookup_app_r in Hcj by lia.
           rewrite Hlen', Nat.sub_diag in Hcj. injection Hcj as <-.
           unfold node_coll in Hx. simpl in Hx. rewrite HreadN in Hx. by apply HL.
    + subst n'. unfold node_rest at 2. rewrite read_app_old by done.
      fold (node_rest σ n). split.
      * intros [Hx|(j & c & Hj & Hcj & Hx)]; [by left|].
        right. destruct (Hcoll' j c Hcj) as (c' & Hc' & Hcc).
        exists j, c'. split; [done|]. split; [done|]. by rewrite Hcc.
      * intros [Hx|(j & c' & Hj & Hcj & Hx)]; [by left|].
        right. destruct (Hcoll j c' Hcj (Hjs j Hj)) as (c & Hc0 & Hcc).
        exists j, c. split; [done|]. split; [done|]. by rewrite <- Hcc.
Qed.
End GreedyInvariant.

Section GreedyLoop.
Context {T : Type} `{EqDecision T}.
Variable lt : T → T → bool.
Variable defaultCompare : T → T → Z.
Variable sort : Biggest.SortOption (T := T).
Implicit Types (σ : Store T) (nodes : list Node).

Lemma sort_insert_Permutation {A} (cmp : A → A → Z) (x : A) (l : list A) :
  Permutation (sort_insert cmp x l) (x :: l).
Proof.
  induction l as [|y l IH]; simpl; [done|].
  destruct (cmp x y <=? 0)%Z; [done|].
  rewrite IH. apply perm_swap.
Qed.

Lemma sort_by_Permutation {A} (cmp : A → A → Z) (l : list A) :
  Permutation (sort_by cmp l) l.
Proof.
  induction l as [|x l IH]; simpl; [done|].
  rewrite sort_insert_Permutation. by constructor.
Qed.

Lemma initialRest_Permutation (array : list T) :
  Permutation (Biggest.initialRest defaultCompare sort array) array.
Proof. unfold Biggest.initialRest. destruct sort; [|done|]; apply sort_by_Permutation. Qed.

Lemma initialNodes_fold (arrays : list ref) σ (acc : list Node) :
  Forall (λ r, r < length σ) arrays →
  fold_left (Biggest.newRoot defaultCompare sort) arrays (σ, acc)
  = (σ ++ map (λ r, Biggest.initialRest defaultCompare sort (read σ r)) arrays,
     acc ++ imap (λ i r, mkNode r (length σ + i) [] (Num 0)) arrays).
Proof.
  revert σ acc. induction arrays as [|r arrays IH]; intros σ acc Hin; simpl.
  - by rewrite !app_nil_r.
  - apply Forall_cons in Hin as [Hr Hin]. unfold alloc. rewrite IH.
    + rewrite <- !app_assoc. simpl. f_equal.
      * f_equal. f_equal. apply map_ext_in. intros r' Hr'.
        rewrite read_alloc_old; [done|]. rewrite Forall_forall in Hin.
        apply Hin. by apply list_elem_of_In.
      * f_equal. rewrite Nat.add_0_r. f_equal.
        apply imap_ext. intros i r' Hr'. simpl. rewrite length_app. simpl. f_equal. lia.
    + eapply Forall_impl; [exact Hin|]. intros r' Hr'. simpl in Hr'.
      rewrite length_app. simpl. lia.
Qed.

Lemma initialNodes_inv σ (arrays : list ref) σ0' nodes :
  Forall (λ r, r < length σ) arrays →
  Biggest.initialNodes defaultCompare sort σ arrays = (σ0', nodes) →
  greedy_inv σ arrays σ0' nodes ∧ length nodes = length arrays ∧
  ∀ i r, arrays !! i = Some r →
    ∃ n, nodes !! i = Some n ∧
         node_rest σ0' n = Biggest.initialRest defaultCompare sort (read σ r).
Proof.
  intros Hin. unfold Biggest.initialNodes. rewrite initialNodes_fold by done.
  simpl. intros [= <- <-].
  set (rs := map _ arrays).
  assert (∀ i n, imap (λ i r, mkNode r (length σ + i) [] (Num 0)) arrays !! i = Some n →
            ∃ r, arrays !! i = Some r ∧ n = mkNode r (length σ + i) [] (Num 0)) as Hlook.
  { intros i n Hi. rewrite list_lookup_imap in Hi.
    destruct (arrays !! i) as [r|]; [|done]. injection Hi as <-. by exists r. }
  assert (∀ i r, arrays !! i = Some r →
            read (σ ++ rs) (length σ + i) = Biggest.initialRest defaultCompare sort (read σ r))
    as Hrest.
  { intros i r Hi. unfold read. rewrite lookup_app_r by lia.
    replace (length σ + i - length σ) with i by lia.
    unfold rs. by rewrite list_lookup_fmap, Hi. }
  split; [split|split].
  - by exists rs.
  - intros n Hn. apply list_elem_of_In, list_elem_of_lookup in Hn as [i Hi].
    destruct (Hlook i n Hi) as (r & Hr & ->). simpl. rewrite length_app.
    unfold rs. rewrite length_map.
    split; [|apply lookup_lt_Some in Hr; lia].
    assert (r < length σ) by (by eapply (Forall_lookup_1 _ _ _ _ Hin)). lia.
  - intros i r Hi. exists (mkNode r (length σ + i) [] (Num 0)).
    by rewrite list_lookup_imap, Hi.
  - intros i n Hi Hge. apply lookup_lt_Some in Hi. rewrite length_imap in Hi. lia.
  - intros i j n m Hi _ Hge. apply lookup_lt_Some in Hi. rewrite length_imap in Hi. lia.
  - intros i j (n & Hi & Hj). destruct (Hlook i n Hi) as (r & _ & ->). done.
  - intros i j (n & Hi & Hj). destruct (Hlook i n Hi) as (r & _ & ->). done.
  - intros i n Hi x. destruct (Hlook i n Hi) as (r & Hr & ->).
    unfold node_coll, node_rest. simpl.
    assert (r < length σ) by (by eapply (Forall_lookup_1 _ _ _ _ Hin)).
    rewrite read_app_old, (Hrest i r Hr) by done.
    split.
    + intros Hx. left. by rewrite initialRest_Permutation.
    + intros [Hx|(j & c & [] & _)]. by rewrite initialRest_Permutation in Hx.
  - by rewrite length_imap.
  - intros i r Hi. exists (mkNode r (length σ + i) [] (Num 0)).
    split; [by rewrite list_lookup_imap, Hi|]. by apply Hrest.
Qed.

Lemma greedy_inv_length σ0 inputs σ nodes :
  greedy_inv σ0 inputs σ nodes → length inputs ≤ length nodes.
Proof.
  intros Hinv. destruct (decide (length inputs = 0)) as [|Hne]; [lia|].
  destruct (lookup_lt_is_Some_2 inputs (length inputs - 1)) as [r Hr]; [lia|].
  destruct (gi_roots _ _ _ _ Hinv _ _ Hr) as (n & Hn & _).
  apply lookup_lt_Some in Hn. lia.
Qed.

Lemma splitArrayNodes_inv σ0 inputs σ nodes σ' nodes' k :
  greedy_inv σ0 inputs σ nodes →
  Biggest.splitArrayNodes lt sort σ nodes = (σ', nodes', k) →
  greedy_inv σ0 inputs σ' nodes'.
Proof.
  intros Hinv. unfold Biggest.splitArrayNodes.
  destruct (Biggest.extracted _) as [L|] eqn:EL; [|by intros [= <- <- <-]].
  destruct (Biggest.extract σ nodes L) as [σ1 nodes1] eqn:Ex. intros [= <- <- <-].
  apply searchPass_extracted in EL as (_ & r & Hr & HL).
  apply in_map_iff in Hr as (n & <- & Hn).
  destruct (greedy_inv_extract σ0 inputs σ nodes L σ1 nodes1) as [Hinv' _]; try done.
  - by eapply greedy_inv_length.
  - by exists n.
Qed.

Lemma splitLoop_inv σ0 inputs fuel σ nodes σ' nodes' :
  greedy_inv σ0 inputs σ nodes →
  Biggest.splitLoop lt sort fuel σ nodes = Some (σ', nodes') →
  greedy_inv σ0 inputs σ' nodes'.
Proof.
  revert σ nodes. induction fuel as [|fuel IH]; intros σ nodes Hinv; [done|].
  simpl. destruct (Biggest.splitArrayNodes lt sort σ nodes) as [[σ1 nodes1] k] eqn:E.
  apply (splitArrayNodes_inv _ _ _ _ _ _ _ Hinv) in E.
  destruct (0 <? k); [by apply IH|]. by intros [= <- <-].
Qed.
End GreedyLoop.

(** * [addMaxDepthToNodes] *)

Section MaxDepth.
Implicit Types (nodes cur : list Node).

(** a node without its depth *)
Definition strip (n : Node) : ref * ref * list nat := (coll n, rest n, imports n).

Lemma strip_lookup cur nodes i c :
  map strip cur = map strip nodes → cur !! i = Some c →
  ∃ n, nodes !! i = Some n ∧ strip c = strip n.
Proof.
  intros Hs Hc. assert (map strip cur !! i = Some (strip c)) as Hi
    by (by rewrite list_lookup_fmap, Hc).
  rewrite Hs, list_lookup_fmap in Hi. destruct (nodes !! i) as [n|]; [|done].
  exists n. split; [done|]. simpl in Hi. congruence.
Qed.

Lemma strip_imports_of cur nodes i j :
  map strip cur = map strip nodes → imports_of cur i j → imports_of nodes i j.
Proof.
  intros Hs (c & Hc & Hj). destruct (strip_lookup _ _ _ _ Hs Hc) as (n & Hn & Hcn).
  exists n. split; [done|]. unfold strip in Hcn. congruence.
Qed.

Lemma strip_length cur nodes : map strip cur = map strip nodes → length cur = length nodes.
Proof. intros Hs. by rewrite <- (length_map strip cur), Hs, length_map. Qed.

Lemma strip_insert cur i c c' :
  cur !! i = Some c → strip c' = strip c → map strip (<[i := c']> cur) = map strip cur.
Proof.
  intros Hc Hs. revert i Hc. induction cur as [|a cur IH]; intros [|i] Hc; simpl in *;
    try done.
  - injection Hc as ->. by rewrite Hs.
  - f_equal. by apply IH.
Qed.

Lemma jsnum_le_refl a : jsnum_le a a.
Proof. destruct a; simpl; [done|lia]. Qed.

Lemma jsnum_le_max_l a b : jsnum_le a (jsnum_max a b).
Proof. destruct a, b; simpl; try done; lia. Qed.

Lemma jsnum_le_max_r a b : jsnum_le b (jsnum_max a b).
Proof. destruct a, b; simpl; try done; lia. Qed.

Lemma jsnum_le_trans a b c : jsnum_le a b → jsnum_le b c → jsnum_le a c.
Proof. destruct a, b, c; simpl; try done; lia. Qed.

Lemma math_max_ge (l : list jsnum) a : In a l → jsnum_le a (math_max l).
Proof.
  induction l as [|b l IH]; [done|]. intros [->|Ha]; simpl.
  - apply jsnum_le_max_l.
  - eapply jsnum_le_trans; [by apply IH|apply jsnum_le_max_r].
Qed.

Lemma jsnum_succ_le a b : jsnum_le a b → jsnum_le (jsnum_succ a) (jsnum_succ b).
Proof. destruct a, b; simpl; try done; lia. Qed.

(** the maximum of depths that are 0 or more, when there is one *)
Lemma math_max_num (l : list jsnum) :
  l ≠ [] → (∀ a, In a l → ∃ z, a = Num z ∧ (0 ≤ z)%Z) →
  ∃ z, math_max l = Num z ∧ (0 ≤ z)%Z.
Proof.
  induction l as [|a l IH]; [done|]. intros _ Hall.
  destruct (Hall a) as (z & -> & Hz); [by left|].
  destruct l as [|b l]; [exists z; simpl; split; [done|lia]|].
  destruct IH as (z' & Hmax & Hz'); [done|intros; apply Hall; by right|].
  change (math_max (Num z :: b :: l)) with (jsnum_max (Num z) (math_max (b :: l))).
  rewrite Hmax. simpl. exists (Z.max z z'). split; [done|lia].
Qed.

Lemma filter_seq_lt (p : nat → bool) n0 len :
  n0 ≤ len → (∀ i, i < len → p i = (i <? n0)) →
  List.filter p (seq 0 len) = seq 0 n0 ∧
  List.filter (λ i, negb (p i)) (seq 0 len) = seq n0 (len - n0).
Proof.
  intros Hle Hp. replace len with (n0 + (len - n0)) at 1 2 by lia.
  rewrite seq_app, !List.filter_app. simpl.
  assert (∀ (q : nat → bool) l, (∀ i, In i l → q i = true) → List.filter q l = l) as Hall.
  { intros q l. induction l as [|i l IH]; intros Hq; [done|]. simpl.
    rewrite Hq by (by left). f_equal. apply IH. intros; apply Hq; by right. }
  assert (∀ (q : nat → bool) l, (∀ i, In i l → q i = false) → List.filter q l = []) as Hnone.
  { intros q l. induction l as [|i l IH]; intros Hq; [done|]. simpl.
    rewrite Hq by (by left). apply IH. intros; apply Hq; by right. }
  split.
  - rewrite Hall, Hnone; [by rewrite app_nil_r| |].
    + intros i Hi. apply in_seq in Hi. rewrite Hp by lia. apply Nat.ltb_ge. lia.
    + intros i Hi. apply in_seq in Hi. rewrite Hp by lia. apply Nat.ltb_lt. lia.
  - rewrite Hnone, Hall; [done| |].
    + intros i Hi. apply in_seq in Hi. rewrite Hp by lia.
      apply negb_true_iff, Nat.ltb_ge. lia.
    + intros i Hi. apply in_seq in Hi. rewrite Hp by lia.
      apply negb_false_iff, Nat.ltb_lt. lia.
Qed.
End MaxDepth.

Section MaxDepthSpec.
Implicit Types (nodes cur : list Node).

(** the node lists [addMaxDepthToNodes] is called on: [n0] roots at depth 0,
    then nodes at depth 1 with collections of their own, each imported by an
    earlier node *)
Record depth_pre (n0 : nat) nodes : Prop := mk_depth_pre {
  dp_len : n0 ≤ length nodes;
  dp_roots : ∀ i n, nodes !! i = Some n → i < n0 → depth n = Num 0;
  dp_gen : ∀ i n, nodes !! i = Some n → n0 ≤ i →
             depth n = Num 1 ∧ ∃ p, imports_of nodes p i;
  dp_distinct : ∀ i j n m, nodes !! i = Some n → nodes !! j = Some m →
                  n0 ≤ i → n0 ≤ j → coll n = coll m → i = j;
  dp_forward : forward nodes;
  dp_targets : ∀ i j, imports_of nodes i j → n0 ≤ j
}.

(** the state of [unImportedNodes.forEach] when the nodes before [k] are done *)
Record depth_state (n0 : nat) nodes (k : nat) cur : Prop := mk_depth_state {
  ds_strip : map strip cur = map strip nodes;
  ds_roots : ∀ i c, cur !! i = Some c → i < n0 → depth c = Num 0;
  ds_done : ∀ i c, cur !! i = Some c → n0 ≤ i → i < k → ∃ z, depth c = Num z ∧ (1 ≤ z)%Z;
  ds_edges : ∀ p j a c, cur !! p = Some a → In j (imports a) → cur !! j = Some c → j < k →
               jsnum_le (jsnum_succ (depth a)) (depth c)
}.

Lemma importsCollection_iff n0 nodes cur j aNode k arrayNode :
  depth_pre n0 nodes → map strip cur = map strip nodes →
  cur !! j = Some aNode → cur !! k = Some arrayNode → n0 ≤ k →
  importsCollection cur aNode (coll arrayNode) = true ↔ In k (imports aNode).
Proof.
  intros Hpre Hs Hj Hk Hn0. unfold importsCollection. rewrite existsb_exists. split.
  - intros (k' & Hk' & Hc). destruct (cur !! k') as [iNode|] eqn:Ei; [|done].
    apply bool_decide_eq_true in Hc.
    destruct (strip_lookup _ _ _ _ Hs Ei) as (ni & Hni & Hsi).
    destruct (strip_lookup _ _ _ _ Hs Hk) as (nk & Hnk & Hsk).
    assert (n0 ≤ k') as Hk'0.
    { apply (dp_targets _ _ Hpre j k'). eapply strip_imports_of; [done|]. by exists aNode. }
    assert (k' = k) as ->; [|done].
    apply (dp_distinct _ _ Hpre k' k ni nk); try done.
    unfold strip in Hsi, Hsk. congruence.
  - intros Hin. exists k. rewrite Hk. split; [done|]. by apply bool_decide_eq_true.
Qed.

Lemma addMaxDepthStep_state n0 nodes k cur :
  depth_pre n0 nodes → n0 ≤ k → k < length nodes → depth_state n0 nodes k cur →
  ∃ cur', addMaxDepthStep (cur, seq 0 k) k = (cur', seq 0 (S k)) ∧
          depth_state n0 nodes (S k) cur'.
Proof.
  intros Hpre Hn0 Hk [Hs Hroots Hdone Hedges].
  pose proof (strip_length _ _ Hs) as Hlen.
  destruct (lookup_lt_is_Some_2 cur k) as [arrayNode Hcur]; [lia|].
  unfold addMaxDepthStep. rewrite Hcur.
  set (importing := List.filter _ (seq 0 k)).
  set (d := jsnum_succ _).
  set (new := mkNode _ _ _ d).
  exists (<[k := new]> cur). split; [by rewrite seq_S|].
  assert (∀ j, In j importing ↔ ∃ a, j < k ∧ cur !! j = Some a ∧ In k (imports a)) as Himp.
  { intros j. unfold importing. rewrite filter_In, in_seq. split.
    - intros [Hj Hc]. destruct (cur !! j) as [a|] eqn:Ej; [|done].
      exists a. split; [lia|]. split; [done|].
      by apply (importsCollection_iff n0 nodes cur j a k arrayNode).
    - intros (a & Hj & Ha & Hin). split; [lia|]. rewrite Ha.
      by apply (importsCollection_iff n0 nodes cur j a k arrayNode). }
  assert (∀ j, j < k → ∀ a, cur !! j = Some a → ∃ z, depth a = Num z ∧ (0 ≤ z)%Z) as Hdepths.
  { intros j Hj a Ha. destruct (decide (j < n0)) as [Hlt|Hge].
    - exists 0%Z. split; [by apply (Hroots j)|done].
    - destruct (Hdone j a Ha) as (z & Hz & Hz1); [lia|done|]. exists z. split; [done|lia]. }
  assert (∃ z, d = Num z ∧ (1 ≤ z)%Z) as (zd & Hd & Hzd).
  { destruct (math_max_num (map (λ j, match cur !! j with
                                       | Some aNode => depth aNode
                                       | None => NegInf
                                       end) importing)) as (z & Hz & Hz0).
    - destruct (strip_lookup _ _ _ _ Hs Hcur) as (nk & Hnk & Hsk).
      destruct (dp_gen _ _ Hpre k nk Hnk Hn0) as (_ & p & np & Hnp & Hin).
      assert (p < k) as Hpk by (destruct (dp_forward _ _ Hpre p k); [by exists np|done]).
      destruct (lookup_lt_is_Some_2 cur p) as [a Ha]; [lia|].
      destruct (strip_lookup _ _ _ _ Hs Ha) as (np' & Hnp' & Hsp).
      assert (In p importing) as Hp.
      { apply Himp. exists a. split; [done|]. split; [done|].
        unfold strip in Hsp. assert (np' = np) by congruence. congruence. }
      intros Hnil. apply (in_map (λ j, match cur !! j with
                                       | Some aNode => depth aNode
                                       | None => NegInf
                                       end)) in Hp. by rewrite Hnil in Hp.
    - intros x Hx. apply in_map_iff in Hx as (j & <- & Hj).
      apply Himp in Hj as (a & Hjk & Ha & _). rewrite Ha. by apply (Hdepths j).
    - exists (z + 1)%Z. unfold d. rewrite Hz. simpl. split; [done|lia]. }
  assert (strip new = strip arrayNode) as Hsnew by done.
  split.
  - rewrite <- Hs. by apply strip_insert with arrayNode.
  - intros i c Hi Hlt. rewrite list_lookup_insert_ne in Hi by lia. by apply (Hroots i).
  - intros i c Hi Hge Hlt. destruct (decide (i = k)) as [->|Hne].
    + rewrite list_lookup_insert_eq in Hi by lia. injection Hi as <-. simpl.
      exists zd. done.
    + rewrite list_lookup_insert_ne in Hi by done. apply (Hdone i c Hi); lia.
  - intros p j a c Hp Hin Hj Hlt.
    assert (p < j) as Hpj.
    { destruct (dp_forward _ _ Hpre p j); [|done].
      eapply strip_imports_of; [exact Hs|].
      destruct (decide (p = k)) as [->|Hne].
      - rewrite list_lookup_insert_eq in Hp by lia. injection Hp as <-.
        exists arrayNode. done.
      - rewrite list_lookup_insert_ne in Hp by done. by exists a. }
    rewrite list_lookup_insert_ne in Hp by lia.
    destruct (decide (j = k)) as [->|Hne].
    + rewrite list_lookup_insert_eq in Hj by lia. injection Hj as <-. simpl.
      apply jsnum_succ_le, math_max_ge.
      apply in_map_iff. exists p. rewrite Hp. split; [done|].
      apply Himp. by exists a.
    + rewrite list_lookup_insert_ne in Hj by done. apply (Hedges p j a c); try done. lia.
Qed.

Lemma addMaxDepth_fold n0 nodes m k cur :
  depth_pre n0 nodes → n0 ≤ k → k + m = length nodes → depth_state n0 nodes k cur →
  ∃ cur', fold_left addMaxDepthStep (seq k m) (cur, seq 0 k) = (cur', seq 0 (k + m)) ∧
          depth_state n0 nodes (k + m) cur'.
Proof.
  intros Hpre. revert k cur. induction m as [|m IH]; intros k cur Hn0 Hkm Hst.
  - exists cur. rewrite Nat.add_0_r. done.
  - change (seq k (S m)) with (k :: seq (S k) m). cbn [fold_left].
    destruct (addMaxDepthStep_state n0 nodes k cur) as (cur1 & -> & Hst1);
      [done|done|lia|done|].
    destruct (IH (S k) cur1) as (cur' & Hfold & Hst'); [lia|lia|done|].
    exists cur'. rewrite Hfold. replace (k + S m) with (S k + m) by lia. done.
Qed.

Lemma addMaxDepthToNodes_state n0 nodes :
  depth_pre n0 nodes →
  depth_state n0 nodes (length nodes) (addMaxDepthToNodes nodes).
Proof.
  intros Hpre. unfold addMaxDepthToNodes, positions.
  destruct (filter_seq_lt (λ i, match nodes !! i with
                                | Some n => is_root n
                                | None => false
                                end) n0 (length nodes)) as [Hr Hu].
  { apply (dp_len _ _ Hpre). }
  { intros i Hi. destruct (lookup_lt_is_Some_2 nodes i Hi) as [n Hn]. rewrite Hn.
    unfold is_root. destruct (decide (i < n0)) as [Hlt|Hge].
    - rewrite (dp_roots _ _ Hpre i n Hn Hlt).
      symmetry. rewrite bool_decide_eq_true_2 by done. apply Nat.ltb_lt. lia.
    - destruct (dp_gen _ _ Hpre i n Hn) as [Hd _]; [lia|]. rewrite Hd.
      symmetry. rewrite bool_decide_eq_false_2 by done. apply Nat.ltb_ge. lia. }
  rewrite Hr.
  assert (List.filter (λ i, match nodes !! i with
                            | Some n => negb (is_root n)
                            | None => false
                            end) (seq 0 (length nodes)) = seq n0 (length nodes - n0)) as ->.
  { rewrite <- Hu. apply List.filter_ext_in. intros i Hi. apply in_seq in Hi.
    destruct (lookup_lt_is_Some_2 nodes i) as [n ->]; [lia|done]. }
  destruct (addMaxDepth_fold n0 nodes (length nodes - n0) n0 nodes Hpre) as (cur' & -> & Hst).
  - done.
  - pose proof (dp_len _ _ Hpre). lia.
  - split; [done|apply (dp_roots _ _ Hpre)|intros; exfalso; lia|].
    intros p j a c Hp Hin Hj Hlt. exfalso.
    assert (n0 ≤ j); [|lia]. apply (dp_targets _ _ Hpre p j). by exists a.
  - simpl. replace (n0 + (length nodes - n0)) with (length nodes) in Hst; [done|].
    pose proof (dp_len _ _ Hpre). lia.
Qed.
End MaxDepthSpec.

Section GreedyResult.
Context {T : Type} `{EqDecision T}.
Variable lt : T → T → bool.
Variable defaultCompare : T → T → Z.
Variable sort : Biggest.SortOption (T := T).
Implicit Types (σ : Store T) (nodes : list Node).

Lemma strip_covered σ cur nodes :
  map strip cur = map strip nodes → covered σ nodes → covered σ cur.
Proof.
  intros Hs Hcov i c Hc x.
  destruct (strip_lookup _ _ _ _ Hs Hc) as (n & Hn & Hcn).
  unfold node_coll, node_rest.
  assert (coll c = coll n ∧ rest c = rest n ∧ imports c = imports n) as (-> & -> & ->)
    by (unfold strip in Hcn; split; [|split]; congruence).
  rewrite (Hcov i n Hn x). split.
  - intros [?|(j & m & Hj & Hm & Hx)]; [by left|]. right.
    destruct (lookup_lt_is_Some_2 cur j) as [m' Hm'].
    { rewrite (strip_length _ _ Hs). by eapply lookup_lt_Some. }
    destruct (strip_lookup _ _ _ _ Hs Hm') as (m0 & Hm0 & Hsm).
    exists j, m'. split; [done|]. split; [done|]. unfold node_coll in *.
    assert (m0 = m) as -> by congruence. unfold strip in Hsm.
    assert (coll m' = coll m) as -> by congruence. done.
  - intros [?|(j & m' & Hj & Hm' & Hx)]; [by left|]. right.
    destruct (strip_lookup _ _ _ _ Hs Hm') as (m & Hm & Hsm).
    exists j, m. split; [done|]. split; [done|]. unfold node_coll in *.
    unfold strip in Hsm. assert (coll m' = coll m) as <- by congruence. done.
Qed.

Lemma greedy_inv_depth_pre σ0 inputs σ nodes :
  greedy_inv σ0 inputs σ nodes → depth_pre (length inputs) nodes.
Proof.
  intros Hinv. split.
  - by eapply greedy_inv_length.
  - intros i n Hn Hlt. destruct (lookup_lt_is_Some_2 inputs i Hlt) as [r Hr].
    destruct (gi_roots _ _ _ _ Hinv i r Hr) as (n' & Hn' & _ & Hd). congruence.
  - intros i n Hn Hge. destruct (gi_gen _ _ _ _ Hinv i n Hn Hge) as (_ & Hd & Hp). done.
  - apply (gi_distinct _ _ _ _ Hinv).
  - apply (gi_forward _ _ _ _ Hinv).
  - apply (gi_targets _ _ _ _ Hinv).
Qed.

Lemma greedy_inv_well_split σ0 inputs σ nodes :
  greedy_inv σ0 inputs σ nodes → well_split σ0 inputs σ (addMaxDepthToNodes nodes).
Proof.
  intros Hinv. pose proof (greedy_inv_depth_pre _ _ _ _ Hinv) as Hpre.
  destruct (addMaxDepthToNodes_state _ _ Hpre) as [Hs Hroots Hdone Hedges].
  pose proof (strip_length _ _ Hs) as Hlen.
  split.
  - apply (gi_frame _ _ _ _ Hinv).
  - intros i r Hi. destruct (gi_roots _ _ _ _ Hinv i r Hi) as (n & Hn & Hc & _).
    destruct (lookup_lt_is_Some_2 (addMaxDepthToNodes nodes) i) as [c Hci].
    { rewrite Hlen. by eapply lookup_lt_Some. }
    destruct (strip_lookup _ _ _ _ Hs Hci) as (n' & Hn' & Hsn).
    exists c. split; [done|]. split.
    + unfold strip in Hsn. assert (n' = n) by congruence. congruence.
    + apply (Hroots i c Hci). by eapply lookup_lt_Some.
  - intros i c Hci Hge. destruct (strip_lookup _ _ _ _ Hs Hci) as (n & Hn & Hsn).
    destruct (gi_gen _ _ _ _ Hinv i n Hn Hge) as (Hfresh & _).
    unfold strip in Hsn. assert (coll c = coll n) as -> by congruence. done.
  - intros i j Hij. rewrite Hlen. apply (gi_forward _ _ _ _ Hinv).
    by eapply strip_imports_of.
  - eapply strip_covered; [exact Hs|]. apply (gi_covered _ _ _ _ Hinv).
  - intros i j n c Hn Hj Hc. apply (Hedges i j n c); try done.
    rewrite <- Hlen. by eapply lookup_lt_Some.
  - intros i c Hci Hnone. destruct (decide (i < length inputs)) as [Hlt|Hge].
    + by apply (Hroots i c).
    + exfalso. destruct (strip_lookup _ _ _ _ Hs Hci) as (n & Hn & Hsn).
      destruct (gi_gen _ _ _ _ Hinv i n Hn) as (_ & _ & p & Hp); [lia|].
      apply (Hnone p). eapply strip_imports_of; [symmetry; exact Hs|done].
Qed.

Lemma splitArrays_well_split fuel σ (arrays : list ref) σ' nodes :
  Forall (λ r, r < length σ) arrays →
  Biggest.splitArrays lt defaultCompare sort fuel σ arrays = Some (σ', nodes) →
  well_split σ arrays σ' nodes.
Proof.
  intros Hin. unfold Biggest.splitArrays.
  destruct (Biggest.initialNodes defaultCompare sort σ arrays) as [σ0' nodes0] eqn:E0.
  destruct (initialNodes_inv defaultCompare sort σ arrays σ0' nodes0 Hin E0) as (Hinv0 & _).
  destruct (Biggest.splitLoop lt sort fuel σ0' nodes0) as [[σ1 nodes1]|] eqn:E1; [|done].
  simpl. intros [= <- <-].
  apply greedy_inv_well_split. by eapply splitLoop_inv.
Qed.
End GreedyResult.

(** * The shallow splitter: the node list is well split *)

Section ShallowWellSplit.
Context {T : Type} `{EqDecision T}.
Implicit Types (x y : T) (σ : Store T) (nodes : list Node).

Lemma index_of_lookup x (keys : list T) :
  In x keys → keys !! index_of x keys = Some x.
Proof.
  induction keys as [|y keys IH]; [done|]. simpl.
  destruct (decide (y = x)) as [->|Hne]; [done|]. intros [?|?]; [done|]. by apply IH.
Qed.

Lemma filter_partition_Permutation {A} (p : A → bool) (l : list A) :
  Permutation (List.filter (λ a, negb (p a)) l ++ List.filter p l) l.
Proof.
  induction l as [|a l IH]; [done|]. simpl. destruct (p a); simpl.
  - rewrite <- Permutation_middle. by constructor.
  - by constructor.
Qed.

Lemma shallow_result_well_split (shared : T → bool) σ (inputs : list ref) σ' nodes :
  shallow_result shared σ inputs σ' nodes →
  (∃ ext, σ' = σ ++ ext) →
  (∀ i n, nodes !! i = Some n → length inputs ≤ i → length σ ≤ coll n) →
  (∀ x, shared x = true → ∃ i r, inputs !! i = Some r ∧ In x (read σ r)) →
  well_split σ inputs σ' nodes.
Proof.
  intros (keys & Hnd & Hkeys & Hlen & Hsing & Hroots) Hframe Hfresh Hocc.
  assert (∀ i n, nodes !! i = Some n →
            (∃ r, inputs !! i = Some r ∧ i < length inputs) ∨
            (∃ k x, i = length inputs + k ∧ keys !! k = Some x)) as Hcases.
  { intros i n Hn. apply lookup_lt_Some in Hn as Hi.
    destruct (decide (i < length inputs)) as [Hlt|Hge].
    - left. destruct (lookup_lt_is_Some_2 inputs i Hlt) as [r Hr]. by exists r.
    - right. destruct (lookup_lt_is_Some_2 keys (i - length inputs)) as [x Hx]; [lia|].
      exists (i - length inputs), x. split; [lia|done]. }
  assert (∀ i r n, inputs !! i = Some r → nodes !! i = Some n → ∀ j, In j (imports n) →
            ∃ x, In x (read σ r) ∧ shared x = true ∧ keys !! index_of x keys = Some x ∧
                 j = length inputs + index_of x keys) as Himports.
  { intros i r n Hr Hn j Hj. destruct (Hroots i r Hr) as (n' & Hn' & _ & _ & _ & _ & Himp).
    assert (n' = n) as -> by congruence. rewrite Himp in Hj.
    apply in_map_iff in Hj as (x & <- & Hx). apply filter_In in Hx as [Hx Hs].
    exists x. repeat split; try done. apply index_of_lookup. by apply Hkeys. }
  split; try done.
  - intros i r Hi. destruct (Hroots i r Hi) as (n & Hn & Hc & Hd & _). by exists n.
  - intros i j (n & Hn & Hj). rewrite Hlen.
    destruct (Hcases i n Hn) as [(r & Hr & Hi)|(k & x & -> & Hk)].
    + destruct (Himports i r n Hr Hn j Hj) as (x & _ & _ & Hx & ->).
      apply lookup_lt_Some in Hx. lia.
    + destruct (Hsing k x Hk) as (n' & Hn' & _ & _ & Himp & _).
      assert (n' = n) as -> by congruence. by rewrite Himp in Hj.
  - intros i n Hn x. destruct (Hcases i n Hn) as [(r & Hr & Hi)|(k & y & -> & Hk)].
    + destruct (Hroots i r Hr) as (n' & Hn' & Hc & _ & Hread & Hrest & Himp).
      assert (n' = n) as -> by congruence.
      unfold node_coll. rewrite Hc, Hread, Hrest, filter_In. split.
      * intros Hx. destruct (shared x) eqn:Es; [right|by left].
        assert (keys !! index_of x keys = Some x) as Hk
          by (by apply index_of_lookup, Hkeys).
        destruct (Hsing _ x Hk) as (c & Hc' & Hcc & _).
        exists (length inputs + index_of x keys), c. split; [|split; [done|]].
        -- rewrite Himp. apply in_map_iff. exists x. split; [done|]. by apply filter_In.
        -- unfold node_coll in Hcc. rewrite Hcc. by left.
      * intros [[Hx _]|(j & c & Hj & Hcj & Hx)]; [done|].
        destruct (Himports i r n Hr Hn j Hj) as (x' & Hx' & _ & Hk & ->).
        destruct (Hsing _ x' Hk) as (c' & Hc' & Hcc & _).
        assert (c' = c) as -> by congruence. unfold node_coll in Hx, Hcc.
        rewrite Hcc in Hx. destruct Hx as [<-|[]]. done.
    + destruct (Hsing k y Hk) as (n' & Hn' & Hcc & Hrr & Himp & _).
      assert (n' = n) as -> by congruence. rewrite Hcc, Hrr, Himp. split; [by left|].
      intros [?|(j & c & [] & _)]. done.
  - intros i j n c Hn Hj Hc. destruct (Hcases i n Hn) as [(r & Hr & Hi)|(k & y & -> & Hk)].
    + destruct (Hroots i r Hr) as (n' & Hn' & _ & Hd & _).
      assert (n' = n) as -> by congruence.
      destruct (Himports i r n Hr Hn j Hj) as (x & _ & _ & Hk & ->).
      destruct (Hsing _ x Hk) as (c' & Hc' & _ & _ & _ & Hdc).
      assert (c' = c) as -> by congruence. rewrite Hd, Hdc. simpl. lia.
    + destruct (Hsing k y Hk) as (n' & Hn' & _ & _ & Himp & _).
      assert (n' = n) as -> by congruence. by rewrite Himp in Hj.
  - intros i n Hn Hnone. destruct (Hcases i n Hn) as [(r & Hr & Hi)|(k & y & -> & Hk)].
    + destruct (Hroots i r Hr) as (n' & Hn' & _ & Hd & _). congruence.
    + exfalso. assert (shared y = true) as Hs
        by (apply Hkeys; by apply list_elem_of_In, list_elem_of_lookup_2 with k).
      destruct (Hocc y Hs) as (p & r & Hr & Hy).
      destruct (Hroots p r Hr) as (np & Hnp & _ & _ & _ & _ & Himp).
      apply (Hnone p). exists np. split; [done|]. rewrite Himp.
      apply in_map_iff. exists y. split; [|by apply filter_In].
      f_equal. apply (NoDup_lookup keys _ _ y); [by apply NoDup_ListNoDup| |done].
      apply index_of_lookup. by apply Hkeys.
Qed.

End ShallowWellSplit.

Section ShallowFrame.
Context {T : Type} `{EqDecision T}.
Implicit Types (x y : T) (σ : Store T) (nodes : list Node).

Lemma singletonMap_fresh (base : nat) (multiple : list T) σ (m : list (T * Node)) :
  base ≤ length σ → Forall (λ en, base ≤ coll en.2) m →
  Forall (λ en, base ≤ coll en.2) (snd (fold_left Shallow.addSingleton multiple (σ, m))).
Proof.
  revert σ m. induction multiple as [|e multiple IH]; intros σ m Hbase Hm; [done|].
  simpl. unfold alloc. apply IH.
  - rewrite !length_app. simpl. lia.
  - apply Forall_amap_set; [done|]. simpl. lia.
Qed.

Lemma shallow_frame_fresh (multiple : list T) σ (inputs : list ref) σ1 m σ2 roots :
  Forall (λ r, r < length σ) inputs →
  Shallow.singletonMap σ multiple = (σ1, m) →
  fold_left (Shallow.addRoot (length inputs) multiple (amap_keys m)) inputs (σ1, [])
    = (σ2, roots) →
  (∃ ext, σ2 = σ ++ ext) ∧
  ∀ i n, (roots ++ amap_values m) !! i = Some n → length inputs ≤ i → length σ ≤ coll n.
Proof.
  intros Hin Hsing Hroots.
  destruct (singletonMap_fold multiple σ [] ltac:(by constructor)) as (ext & H1 & _ & _).
  pose proof (singletonMap_fresh (length σ) multiple σ [] ltac:(lia) ltac:(by constructor))
    as Hfresh.
  unfold Shallow.singletonMap in Hsing. rewrite Hsing in H1, Hfresh. simpl in H1, Hfresh.
  subst σ1. rewrite addRoot_fold in Hroots.
  2:{ eapply Forall_impl; [exact Hin|]. intros r Hr. simpl in Hr. rewrite length_app. lia. }
  injection Hroots as <- <-. split.
  - eexists. by rewrite <- app_assoc.
  - intros i n Hi Hge. simpl in Hi. rewrite lookup_app_r in Hi by (rewrite length_imap; lia).
    unfold amap_values in Hi. rewrite list_lookup_fmap in Hi.
    destruct (m !! _) as [[e n']|] eqn:Em; [|done]. injection Hi as <-.
    rewrite Forall_forall in Hfresh. apply (Hfresh (e, n')).
    by eapply list_elem_of_lookup_2.
Qed.

Lemma occ_concat_read σ (inputs : list ref) x :
  2 ≤ occ x (concat (map (read σ) inputs)) →
  ∃ i r, inputs !! i = Some r ∧ In x (read σ r).
Proof.
  intros Hocc. assert (In x (concat (map (read σ) inputs))) as Hx by (apply occ_In; lia).
  apply in_concat in Hx as (l & Hl & Hx). apply in_map_iff in Hl as (r & <- & Hr).
  apply list_elem_of_In, list_elem_of_lookup in Hr as [i Hi]. by exists i, r.
Qed.

Lemma splitIntersectionsShallow_well_split σ (inputs : list ref) collections σ' nodes :
  Forall (λ r, r < length σ) inputs →
  collections = Shallow.Arrays inputs ∨ collections = Shallow.Sets inputs →
  Shallow.splitIntersectionsShallow σ collections = (σ', nodes) →
  well_split σ inputs σ' nodes ∧
  shallow_result (λ x, 2 <=? occ x (concat (map (read σ) inputs))) σ inputs σ' nodes.
Proof.
  intros Hin Hcoll Hsplit.
  assert (shallow_result (λ x, 2 <=? occ x (concat (map (read σ) inputs))) σ inputs σ' nodes
          ∧ (∃ ext, σ' = σ ++ ext)
          ∧ ∀ i n, nodes !! i = Some n → length inputs ≤ i → length σ ≤ coll n)
    as (Hres & Hframe & Hfresh).
  { destruct Hcoll as [-> | ->]; simpl in Hsplit.
    - pose proof (splitIntersectionsArrayShallow_result σ inputs Hin) as Hres.
      rewrite Hsplit in Hres. split; [done|].
      unfold Shallow.splitIntersectionsArrayShallow in Hsplit.
      destruct (Shallow.scanArrays (map (read σ) inputs)) as [seen multiple].
      destruct (Shallow.singletonMap σ multiple) as [σ1 m] eqn:E1.
      destruct (fold_left _ inputs (σ1, [])) as [σ2 roots] eqn:E2.
      injection Hsplit as <- <-. by eapply shallow_frame_fresh.
    - pose proof (splitIntersectionsSetsShallow_result σ inputs Hin) as Hres.
      rewrite Hsplit in Hres. split; [done|].
      unfold Shallow.splitIntersectionsSetsShallow in Hsplit.
      destruct (Shallow.scanSets (map (read σ) inputs)) as [seen multiple].
      destruct (Shallow.singletonMap σ multiple) as [σ1 m] eqn:E1.
      destruct (fold_left _ inputs (σ1, [])) as [σ2 roots] eqn:E2.
      injection Hsplit as <- <-. by eapply shallow_frame_fresh. }
  split; [|done]. eapply shallow_result_well_split; try done.
  intros x Hx. apply occ_concat_read. by apply Nat.leb_le.
Qed.
End ShallowFrame.

(** * The adapters between sets and arrays keep a node list well split *)

Section MapFacts.
Context {K V : Type} `{EqDecision K}.
Implicit Types (k : K) (v : V) (m : list (K * V)).

Lemma amap_get_set_eq k v m : amap_get k (amap_set k v m) = Some v.
Proof.
  induction m as [|[k' v'] m IH]; simpl.
  - by rewrite decide_True.
  - destruct (decide (k' = k)) as [->|Hk]; simpl.
    + by rewrite decide_True.
    + by rewrite decide_False.
Qed.

Lemma amap_get_set_ne k k' v m : k ≠ k' → amap_get k' (amap_set k v m) = amap_get k' m.
Proof.
  intros Hne. induction m as [|[k0 v0] m IH]; simpl.
  - by rewrite decide_False.
  - destruct (decide (k0 = k)) as [->|Hk]; simpl.
    + by rewrite !decide_False.
    + destruct (decide (k0 = k')); [done|apply IH].
Qed.

Lemma amap_get_In k v m : amap_get k m = Some v → In (k, v) m.
Proof.
  induction m as [|[k' v'] m IH]; simpl; [done|].
  destruct (decide (k' = k)) as [->|Hk].
  - intros [= ->]. by left.
  - intros Hget. right. by apply IH.
Qed.

Lemma amap_get_None k m : amap_get k m = None ↔ ¬ In k (amap_keys m).
Proof.
  induction m as [|[k' v'] m IH]; simpl; [tauto|].
  destruct (decide (k' = k)) as [->|Hk]; [split; [done|tauto]|].
  rewrite IH. unfold amap_keys. tauto.
Qed.

Lemma amap_get_Some_key k v m : amap_get k m = Some v → In k (amap_keys m).
Proof. intros Hget. apply amap_get_In in Hget. by apply (in_map fst) in Hget. Qed.

Lemma amap_set_new k v m : amap_get k m = None → amap_set k v m = m ++ [(k, v)].
Proof.
  induction m as [|[k' v'] m IH]; simpl; [done|].
  destruct (decide (k' = k)); [done|]. intros Hget. by rewrite IH.
Qed.

Lemma amap_set_length k v v0 m : amap_get k m = Some v0 → length (amap_set k v m) = length m.
Proof.
  revert v0. induction m as [|[k' v'] m IH]; intros v0; simpl; [done|].
  destruct (decide (k' = k)); [done|]. intros Hget. simpl. f_equal. by eapply IH.
Qed.

(** with distinct keys, an entry is found at its position and updated there *)
Lemma amap_get_lookup k v m i :
  List.NoDup (amap_keys m) → m !! i = Some (k, v) → amap_get k m = Some v.
Proof.
  revert i. induction m as [|[k' v'] m IH]; intros [|i] Hnd Hi; simpl in *; try done.
  - injection Hi as -> ->. by rewrite decide_True.
  - apply List.NoDup_cons_iff in Hnd as [Hk' Hnd].
    destruct (decide (k' = k)) as [->|Hk]; [|by eapply IH].
    exfalso. apply Hk'. apply list_elem_of_lookup_2, list_elem_of_In in Hi.
    by apply (in_map fst) in Hi.
Qed.

Lemma amap_get_position k v m :
  amap_get k m = Some v → ∃ i, m !! i = Some (k, v).
Proof.
  intros Hget. apply amap_get_In, list_elem_of_In, list_elem_of_lookup in Hget. done.
Qed.

Lemma amap_set_insert k v v0 m i :
  List.NoDup (amap_keys m) → m !! i = Some (k, v0) → amap_set k v m = <[i := (k, v)]> m.
Proof.
  revert i. induction m as [|[k' v'] m IH]; intros [|i] Hnd Hi; simpl in *; try done.
  - injection Hi as -> ->. by rewrite decide_True.
  - apply List.NoDup_cons_iff in Hnd as [Hk' Hnd].
    destruct (decide (k' = k)) as [->|Hk]; [|f_equal; by eapply IH].
    exfalso. apply Hk'. apply list_elem_of_lookup_2, list_elem_of_In in Hi.
    by apply (in_map fst) in Hi.
Qed.

Lemma amap_delete_incl k m e : In e (amap_delete k m) → In e m.
Proof.
  induction m as [|[k' v'] m IH]; simpl; [done|].
  destruct (decide (k' = k)); [by right|]. intros [<-|He]; [by left|right; by apply IH].
Qed.

Lemma Forall_amap_delete (P : K * V → Prop) k m : Forall P m → Forall P (amap_delete k m).
Proof.
  rewrite !Forall_forall. intros Hm e He. apply Hm, list_elem_of_In.
  apply list_elem_of_In in He. by eapply amap_delete_incl.
Qed.
End MapFacts.

Section Linked.
Implicit Types (nodes : list Node).

(** imports point to generated nodes, and generated nodes have collections
    of their own; [n0] is the number of the roots *)
Record linked (n0 : nat) nodes : Prop := mk_linked {
  lk_targets : ∀ i j, imports_of nodes i j → n0 ≤ j;
  lk_distinct : ∀ i j n m, nodes !! i = Some n → nodes !! j = Some m →
                  n0 ≤ i → n0 ≤ j → coll n = coll m → i = j
}.

Lemma strip_linked n0 cur nodes :
  map strip cur = map strip nodes → linked n0 nodes → linked n0 cur.
Proof.
  intros Hs [Ht Hd]. split.
  - intros i j Hij. apply (Ht i j). by eapply strip_imports_of.
  - intros i j n m Hn Hm Hi Hj Hc.
    destruct (strip_lookup _ _ _ _ Hs Hn) as (n' & Hn' & Hsn).
    destruct (strip_lookup _ _ _ _ Hs Hm) as (m' & Hm' & Hsm).
    apply (Hd i j n' m'); try done. unfold strip in *. congruence.
Qed.
End Linked.

Section GreedyLinked.
Context {T : Type} `{EqDecision T}.
Variable lt : T → T → bool.
Variable defaultCompare : T → T → Z.
Variable sort : Biggest.SortOption (T := T).

Lemma splitArrays_linked fuel (σ : Store T) (arrays : list ref) σ' nodes :
  Forall (λ r, r < length σ) arrays →
  Biggest.splitArrays lt defaultCompare sort fuel σ arrays = Some (σ', nodes) →
  linked (length arrays) nodes.
Proof.
  intros Hin. unfold Biggest.splitArrays.
  destruct (Biggest.initialNodes defaultCompare sort σ arrays) as [σ0' nodes0] eqn:E0.
  destruct (initialNodes_inv defaultCompare sort σ arrays σ0' nodes0 Hin E0) as (Hinv0 & _).
  destruct (Biggest.splitLoop lt sort fuel σ0' nodes0) as [[σ1 nodes1]|] eqn:E1; [|done].
  simpl. intros [= <- <-].
  assert (greedy_inv σ arrays σ1 nodes1) as Hinv by (by eapply splitLoop_inv).
  pose proof (greedy_inv_depth_pre _ _ _ _ Hinv) as Hpre.
  destruct (addMaxDepthToNodes_state _ _ Hpre) as [Hs _ _ _].
  eapply strip_linked; [exact Hs|]. split.
  - apply (gi_targets _ _ _ _ Hinv).
  - apply (gi_distinct _ _ _ _ Hinv).
Qed.
End GreedyLinked.

Section AdapterFacts.
Context {T : Type} `{EqDecision T}.
Variable copy : list T → list T.
Implicit Types (σ : Store T) (nodes : list Node) (back : list (ref * ref)).

Lemma mapCollections_spec σ (inputs : list ref) :
  Forall (λ r, r < length σ) inputs →
  ∃ m, Adapters.mapCollections copy σ inputs
         = (σ ++ map (λ r, copy (read σ r)) inputs, m) ∧
       Adapters.copies m = seq (length σ) (length inputs) ∧
       ∀ c v, amap_get c (Adapters.newToOld m) = Some v ↔
              ∃ i, c = length σ + i ∧ inputs !! i = Some v.
Proof.
  unfold Adapters.mapCollections.
  induction inputs as [|a l IH] using rev_ind; intros Hin.
  - eexists. simpl. rewrite app_nil_r. split; [done|]. split; [done|].
    intros c v. simpl. split; [done|]. by intros (i & _ & Hi).
  - apply Forall_app in Hin as [Hl Ha]. apply Forall_cons in Ha as [Ha _].
    destruct (IH Hl) as (m & Hfold & Hcopies & Hback).
    rewrite fold_left_app, Hfold. simpl. unfold alloc.
    rewrite read_app_old by done. eexists. split; [|split].
    + by rewrite map_app, app_assoc.
    + simpl. rewrite Hcopies, !length_app, length_map. simpl.
      by rewrite Nat.add_1_r, seq_S.
    + intros c v. simpl. rewrite length_app, length_map.
      destruct (decide (length σ + length l = c)) as [<-|Hc].
      * rewrite amap_get_set_eq. split.
        -- intros [= <-]. exists (length l). split; [done|]. by rewrite list_lookup_middle.
        -- intros (i & Hi & Hv). assert (i = length l) as -> by lia.
           rewrite list_lookup_middle in Hv by done. done.
      * rewrite amap_get_set_ne by done. rewrite Hback. split.
        -- intros (i & -> & Hi). exists i. split; [done|].
           rewrite lookup_app_l; [done|]. by eapply lookup_lt_Some.
        -- intros (i & -> & Hi). exists i. split; [done|].
           rewrite lookup_app_l in Hi; [done|].
           apply lookup_lt_Some in Hi. rewrite length_app in Hi. simpl in Hi. lia.
Qed.

(** the node list that is converted: the result of a splitter on the copies,
    which are objects of [σ1]; [back0] maps the copies back *)
Variables (σ1 σ2 : Store T) (nodes : list Node) (n0 : nat) (back0 : list (ref * ref)).
Hypothesis Hframe : ∃ ext, σ2 = σ1 ++ ext.
Hypothesis Hforward : forward nodes.
Hypothesis Hlinked : linked n0 nodes.
Hypothesis Hrefs : ∀ n, In n nodes → coll n < length σ2 ∧ rest n < length σ2.
Hypothesis Hgen : ∀ i n, nodes !! i = Some n → n0 ≤ i → length σ1 ≤ coll n.
Hypothesis Hroot : ∀ i n, nodes !! i = Some n → i < n0 → coll n < length σ1.
Hypothesis Hback0 : ∀ c v, amap_get c back0 = Some v → c < length σ1 ∧ v < length σ1.

(** the map from the collections to their converted collections *)
Record back_ok σ back : Prop := mk_back_ok {
  bo_frame : ∃ ext, σ = σ2 ++ ext;
  bo_mono : ∀ c v, amap_get c back0 = Some v → amap_get c back = Some v;
  bo_back : ∀ c v, amap_get c back = Some v →
              amap_get c back0 = Some v ∨
              (length σ2 ≤ v < length σ ∧ read σ v = copy (read σ2 c) ∧
               ∀ c', amap_get c' back = Some v → c' = c)
}.

Lemma length_σ1_σ2 : length σ1 ≤ length σ2.
Proof. destruct Hframe as [ext ->]. rewrite length_app. lia. Qed.

Lemma back_ok_alloc σ back v : back_ok σ back → back_ok (σ ++ [v]) back.
Proof.
  intros [[ext ->] Hmono Hback]. split; [|done|].
  - exists (ext ++ [v]). by rewrite app_assoc.
  - intros c w Hc. destruct (Hback c w Hc) as [?|([? ?] & Hread & Hinj)]; [by left|right].
    split; [rewrite length_app; simpl; lia|]. split; [|done].
    by rewrite read_alloc_old.
Qed.

Lemma back_ok_add σ back c :
  back_ok σ back → amap_get c back = None → c < length σ2 →
  back_ok (σ ++ [copy (read σ c)]) (amap_set c (length σ) back).
Proof.
  intros [[ext ->] Hmono Hback] Hnone Hc.
  pose proof length_σ1_σ2 as Hle. split.
  - exists (ext ++ [copy (read (σ2 ++ ext) c)]). by rewrite app_assoc.
  - intros c' v Hc'. rewrite amap_get_set_ne; [by apply Hmono|].
    intros <-. apply Hmono in Hc'. congruence.
  - intros c' v. destruct (decide (c = c')) as [<-|Hne].
    + rewrite amap_get_set_eq. intros [= <-]. right.
      split; [rewrite !length_app; simpl; lia|]. split.
      * rewrite read_alloc_new. by rewrite read_app_old.
      * intros c'. destruct (decide (c = c')) as [<-|Hne]; [done|].
        rewrite amap_get_set_ne by done. intros Hc'. exfalso.
        destruct (Hback c' _ Hc') as [H0|([? ?] & _)]; [|lia].
        apply Hback0 in H0. rewrite length_app in *. lia.
    + rewrite amap_get_set_ne by done. intros Hc'.
      destruct (Hback c' v Hc') as [?|([? ?] & Hread & Hinj)]; [by left|right].
      split; [rewrite length_app; simpl; lia|]. split; [by rewrite read_alloc_old|].
      intros c''. destruct (decide (c = c'')) as [<-|Hne'].
      * rewrite amap_get_set_eq. intros [= <-]. lia.
      * rewrite amap_get_set_ne by done. apply Hinj.
Qed.

(** a converted node and the node it was converted from *)
Definition converted_from σ back (n n' : Node) : Prop :=
  imports n' = imports n ∧ depth n' = depth n ∧
  amap_get (coll n) back = Some (coll n') ∧
  length σ2 ≤ rest n' < length σ ∧ read σ (rest n') = copy (read σ2 (rest n)).

(** the state of the loop when the nodes from position [k] on are converted *)
Record conv_inv (k : nat) σ back (converted : list (nat * Node)) : Prop := mk_conv_inv {
  ci_back : back_ok σ back;
  ci_idx : map fst converted = reverse (seq k (length nodes - k));
  ci_nodes : ∀ i n', In (i, n') converted →
               ∃ n, nodes !! i = Some n ∧ converted_from σ back n n'
}.

Lemma converted_from_mono σ back σ' back' n n' :
  converted_from σ back n n' →
  (∃ ext, σ' = σ ++ ext) →
  (∀ c v, amap_get c back = Some v → amap_get c back' = Some v) →
  converted_from σ' back' n n'.
Proof.
  intros (Hi & Hd & Hc & [Hr1 Hr2] & Hread) [ext ->] Hmono.
  split; [done|]. split; [done|]. split; [by apply Hmono|].
  split; [rewrite length_app; lia|]. by rewrite read_app_old.
Qed.

Lemma findImport_converted k σ back back' converted j node :
  conv_inv (S k) σ back converted →
  (∀ c v, amap_get c back = Some v → amap_get c back' = Some v) →
  nodes !! k = Some node → In j (imports node) →
  Adapters.findImport nodes back' converted j = j.
Proof.
  intros [Hbo Hidx Hnodes] Hmono Hk Hj.
  destruct (Hforward k j) as [Hkj Hjlen]; [by exists node|].
  assert (∃ n', In (j, n') converted) as [n'j Hinj].
  { assert (In j (map fst converted)) as Hin.
    { rewrite Hidx. apply list_elem_of_In, elem_of_reverse, list_elem_of_In, in_seq. lia. }
    apply in_map_iff in Hin as ([j' n'] & <- & Hin). by exists n'. }
  destruct (Hnodes j n'j Hinj) as (nj & Hnj & _ & _ & Hcj & _).
  unfold Adapters.findImport. rewrite Hnj. rewrite (Hmono _ _ Hcj).
  destruct (List.find _ converted) as [[j' n'']|] eqn:Efind.
  - apply find_some in Efind as [Hin' Hc']. apply bool_decide_eq_true in Hc'.
    destruct (Hnodes j' n'' Hin') as (nj' & Hnj' & _ & _ & Hcj' & _).
    rewrite Hc' in Hcj'.
    assert (n0 ≤ j) as Hj0 by (apply (lk_targets _ _ Hlinked k j); by exists node).
    pose proof (Hgen j nj Hnj Hj0) as Hfresh.
    destruct (bo_back _ _ Hbo _ _ Hcj) as [H0|(_ & _ & Hinjective)].
    { apply Hback0 in H0. lia. }
    pose proof (Hinjective _ Hcj') as Hsame.
    destruct (decide (j' < n0)) as [Hlt|Hge].
    + pose proof (Hroot j' nj' Hnj' Hlt). lia.
    + apply (lk_distinct _ _ Hlinked j' j nj' nj); try done. lia.
  - exfalso. pose proof (find_none _ _ Efind (j, n'j) Hinj) as Hno. simpl in Hno.
    by rewrite bool_decide_eq_true_2 in Hno.
Qed.

Lemma convertNode_inv k σ back converted :
  k < length nodes → conv_inv (S k) σ back converted →
  ∃ σ' back' converted',
    Adapters.convertNode copy nodes (σ, back, converted) k = (σ', back', converted') ∧
    conv_inv k σ' back' converted'.
Proof.
  intros Hk Hinv. destruct (lookup_lt_is_Some_2 nodes k Hk) as [node Hnode].
  pose proof Hinv as [Hbo Hidx Hnodes].
  destruct (Hrefs node) as [Hc Hr].
  { by eapply list_elem_of_In, list_elem_of_lookup_2. }
  assert (∃ σa backa c,
            match amap_get (coll node) back with
            | Some c => (σ, back, c)
            | None => let '(σ', c) := alloc σ (copy (read σ (coll node))) in
                      (σ', amap_set (coll node) c back, c)
            end = (σa, backa, c) ∧
            back_ok σa backa ∧ (∃ ext, σa = σ ++ ext) ∧
            (∀ c v, amap_get c back = Some v → amap_get c backa = Some v) ∧
            amap_get (coll node) backa = Some c)
    as (σa & backa & c & Ea & Hboa & Hexta & Hmonoa & Hca).
  { destruct (amap_get (coll node) back) as [c|] eqn:Eget.
    - exists σ, back, c. split; [done|]. split; [done|].
      split; [exists []; by rewrite app_nil_r|]. done.
    - eexists _, _, _. split; [done|]. split; [by apply back_ok_add|].
      split; [by eexists|]. split.
      + intros c v Hcv. rewrite amap_get_set_ne; [done|]. intros <-. congruence.
      + apply amap_get_set_eq. }
  unfold Adapters.convertNode. rewrite Hnode, Ea. unfold alloc.
  eexists _, _, _. split; [done|].
  destruct (bo_frame _ _ Hboa) as [exta Hσa].
  split.
  - by apply back_ok_alloc.
  - rewrite map_app, Hidx. simpl.
    replace (length nodes - k) with (S (length nodes - S k)) by lia. simpl.
    by rewrite reverse_cons.
  - intros i n' Hin. apply in_app_iff in Hin as [Hin|[[= <- <-]|[]]].
    + destruct (Hnodes i n' Hin) as (n & Hn & Hconv). exists n. split; [done|].
      eapply converted_from_mono; [exact Hconv| |done].
      destruct Hexta as [ext ->]. eexists. by rewrite <- app_assoc.
    + exists node. split; [done|]. split; [|split; [done|split; [done|split]]].
      * simpl. rewrite <- (map_id (imports node)) at 2. apply map_ext_in.
        intros j Hj. by eapply findImport_converted.
      * simpl. rewrite length_app. simpl. subst σa. rewrite length_app. lia.
      * simpl. rewrite read_alloc_new. unfold node_rest. subst σa.
        by rewrite read_app_old.
Qed.

Lemma convertNodes_fold k σ back converted :
  k ≤ length nodes → conv_inv k σ back converted →
  ∃ σ' back' converted',
    fold_left (Adapters.convertNode copy nodes) (reverse (seq 0 k)) (σ, back, converted)
      = (σ', back', converted') ∧
    conv_inv 0 σ' back' converted'.
Proof.
  revert σ back converted. induction k as [|k IH]; intros σ back converted Hk Hinv.
  - by exists σ, back, converted.
  - rewrite seq_S, reverse_app. change (reverse [0 + k]) with [k]. cbn [app fold_left].
    destruct (convertNode_inv k σ back converted) as (σa & backa & ca & -> & Hinva);
      [lia|done|].
    apply IH; [lia|done].
Qed.

Lemma converted_lookup (converted : list (nat * Node)) i n' :
  map fst converted = reverse (seq 0 (length nodes)) →
  reverse (map snd converted) !! i = Some n' → In (i, n') converted.
Proof.
  intros Hidx Hi. apply list_elem_of_In, elem_of_reverse.
  change (map snd converted) with (snd <$> converted) in Hi.
  rewrite <- fmap_reverse in Hi. apply list_lookup_fmap_Some_1 in Hi as ([j n] & Hn & Hp).
  simpl in Hn. subst n.
  assert ((fst <$> reverse converted) !! i = Some j) as Hj
    by (by rewrite list_lookup_fmap, Hp).
  rewrite fmap_reverse in Hj. change (fst <$> converted) with (map fst converted) in Hj.
  rewrite Hidx, reverse_involutive in Hj. apply lookup_seq in Hj as [-> _].
  by eapply list_elem_of_lookup_2.
Qed.

Lemma convertNodes_spec σ' nodes' :
  Adapters.convertNodes copy σ2 nodes back0 = (σ', nodes') →
  length nodes' = length nodes ∧
  ∃ back, back_ok σ' back ∧
    ∀ i n', nodes' !! i = Some n' →
      ∃ n, nodes !! i = Some n ∧ converted_from σ' back n n'.
Proof.
  unfold Adapters.convertNodes.
  destruct (convertNodes_fold (length nodes) σ2 back0 [])
    as (σa & backa & ca & -> & [Hbo Hidx Hnodes]); [done| |].
  { split.
    - split; [exists []; by rewrite app_nil_r|done|]. intros c v Hc. by left.
    - by rewrite Nat.sub_diag.
    - intros i n' []. }
  intros [= <- <-]. rewrite Nat.sub_0_r in Hidx. split.
  - rewrite length_reverse, length_map, <- (length_map fst), Hidx.
    by rewrite length_reverse, length_seq.
  - exists backa. split; [done|]. intros i n' Hi. apply Hnodes.
    by apply converted_lookup.
Qed.
End AdapterFacts.

Section AdapterResult.
Context {T : Type} `{EqDecision T}.
Variables copy1 copy2 : list T → list T.
Hypothesis Hcopy1 : ∀ l x, In x (copy1 l) ↔ In x l.
Hypothesis Hcopy2 : ∀ l x, In x (copy2 l) ↔ In x l.
Implicit Types (σ : Store T) (nodes : list Node).

(** the collections of the nodes are objects of the store *)
Definition in_store σ nodes : Prop :=
  ∀ n : Node, In n nodes → coll n < length σ ∧ rest n < length σ.

(** what an adapter needs of the splitter it wraps *)
Definition splits_well (f : Store T → list ref → option (Store T * list Node)) : Prop :=
  ∀ σ1 cps σ2 nodes,
    Forall (λ r, r < length σ1) cps → f σ1 cps = Some (σ2, nodes) →
    well_split σ1 cps σ2 nodes ∧ linked (length cps) nodes ∧ in_store σ2 nodes.

Lemma convert_well_split f σ (inputs : list ref) σ' nodes' :
  splits_well f → Forall (λ r, r < length σ) inputs →
  (let '(σ1, m) := Adapters.mapCollections copy1 σ inputs in
   '(σ2, nodes) ← f σ1 (Adapters.copies m);
   Some (Adapters.convertNodes copy2 σ2 nodes (Adapters.newToOld m))) = Some (σ', nodes') →
  well_split σ inputs σ' nodes'.
Proof.
  intros Hf Hin.
  destruct (mapCollections_spec copy1 σ inputs Hin) as (m & -> & Hcopies & Hback).
  set (σ1 := σ ++ map (λ r, copy1 (read σ r)) inputs).
  assert (length σ1 = length σ + length inputs) as Hlen1
    by (unfold σ1; by rewrite length_app, length_map).
  destruct (f σ1 (Adapters.copies m)) as [[σ2 nodes]|] eqn:Ef; simpl; [|done].
  intros [= Hconv].
  assert (length (Adapters.copies m) = length inputs) as Hlencp
    by (by rewrite Hcopies, length_seq).
  destruct (Hf σ1 (Adapters.copies m) σ2 nodes) as (Hws & Hlk & Hst); [|done|].
  { rewrite Hcopies. apply Forall_forall. intros c Hc.
    apply list_elem_of_In, in_seq in Hc. lia. }
  rewrite Hlencp in Hlk.
  destruct Hws as [Hfr Hroots Hfresh Hfwd Hcov Hdepth Hzero].
  rewrite Hlencp in Hfresh.
  assert (∀ i n, nodes !! i = Some n → i < length inputs → coll n = length σ + i) as Hrootc.
  { intros i n Hn Hi. destruct (Hroots i (length σ + i)) as (n' & Hn' & Hc & _).
    - rewrite Hcopies. by apply lookup_seq.
    - congruence. }
  destruct (convertNodes_spec copy2 σ1 σ2 nodes (length inputs) (Adapters.newToOld m))
    with (σ' := σ') (nodes' := nodes') as (Hlen & back & Hbo & Hcorr); try done.
  { intros i n Hn Hi. rewrite (Hrootc i n Hn Hi). lia. }
  { intros c v Hc. apply Hback in Hc as (i & -> & Hi).
    pose proof (lookup_lt_Some _ _ _ Hi). rewrite Forall_forall in Hin.
    pose proof (Hin v ltac:(by eapply list_elem_of_lookup_2)). simpl in *. lia. }
  destruct Hfr as [ext2 Hσ2]. destruct (bo_frame _ _ _ _ _ Hbo) as [ext' Hσ'].
  assert (length σ1 ≤ length σ2) as Hle12 by (subst σ2; rewrite length_app; lia).
  assert (∀ r, r < length σ → read σ' r = read σ r) as Hold.
  { intros r Hr. subst σ' σ2. unfold σ1. rewrite !read_app_old; try done.
    - rewrite length_app. lia.
    - rewrite !length_app. lia. }
  assert (∀ i n n', nodes !! i = Some n →
            converted_from copy2 σ2 σ' back n n' →
            same_elements (node_coll σ' n') (node_coll σ2 n) ∧
            same_elements (node_rest σ' n') (node_rest σ2 n)) as Hsame.
  { intros i n n' Hn (_ & _ & Hc & _ & Hr). split; intros x; unfold node_coll, node_rest.
    - destruct (bo_back _ _ _ _ _ Hbo _ _ Hc) as [H0|(_ & Hread & _)].
      + apply Hback in H0 as (i0 & Hci & Hi0). rewrite Hci.
        assert (coll n' < length σ) as Hlt.
        { rewrite Forall_forall in Hin. apply (Hin (coll n')).
          by eapply list_elem_of_lookup_2. }
        rewrite (Hold _ Hlt). subst σ2.
        rewrite read_app_old by (pose proof (lookup_lt_Some _ _ _ Hi0); lia).
        unfold σ1, read. rewrite lookup_app_r by lia.
        replace (length σ + i0 - length σ) with i0 by lia.
        rewrite list_lookup_fmap, Hi0. simpl. by rewrite Hcopy1.
      + by rewrite Hread, Hcopy2.
    - by rewrite Hr, Hcopy2. }
  assert (∀ i n, nodes !! i = Some n →
            ∃ n', nodes' !! i = Some n' ∧ converted_from copy2 σ2 σ' back n n') as Hcorr'.
  { intros i n Hn. destruct (lookup_lt_is_Some_2 nodes' i) as [n' Hn'].
    - rewrite Hlen. by eapply lookup_lt_Some.
    - exists n'. split; [done|]. destruct (Hcorr i n' Hn') as (n2 & Hn2 & Hc).
      congruence. }
  split.
  - subst σ' σ2. unfold σ1. eexists. by rewrite <- !app_assoc.
  - intros i r Hi. pose proof (lookup_lt_Some _ _ _ Hi) as Hlt.
    destruct (lookup_lt_is_Some_2 nodes i) as [n Hn].
    { destruct (Hroots i (length σ + i)) as (n & Hn & _).
      - rewrite Hcopies. by apply lookup_seq.
      - by eapply lookup_lt_Some. }
    destruct (Hcorr' i n Hn) as (n' & Hn' & _ & Hd & Hc & _).
    exists n'. split; [done|]. split.
    + rewrite (Hrootc i n Hn Hlt) in Hc.
      assert (amap_get (length σ + i) (Adapters.newToOld m) = Some r) as H0
        by (apply Hback; by exists i).
      apply (bo_mono _ _ _ _ _ Hbo) in H0. congruence.
    + rewrite Hd. destruct (Hroots i (length σ + i)) as (n2 & Hn2 & _ & Hd2).
      * rewrite Hcopies. by apply lookup_seq.
      * congruence.
  - intros i n' Hn' Hge. destruct (Hcorr i n' Hn') as (n & Hn & _ & _ & Hc & _).
    pose proof (Hfresh i n Hn Hge) as Hfr.
    destruct (bo_back _ _ _ _ _ Hbo _ _ Hc) as [H0|([? ?] & _)].
    + apply Hback in H0 as (i0 & Hci & Hi0). pose proof (lookup_lt_Some _ _ _ Hi0). lia.
    + lia.
  - intros i j (n' & Hn' & Hj). rewrite Hlen.
    destruct (Hcorr i n' Hn') as (n & Hn & Himp & _).
    apply Hfwd. exists n. split; [done|]. by rewrite <- Himp.
  - intros i n' Hn' x. destruct (Hcorr i n' Hn') as (n & Hn & Hc).
    destruct (Hsame i n n' Hn Hc) as [Hsc Hsr]. rewrite (Hsc x), (Hsr x), (Hcov i n Hn x).
    destruct Hc as (Himp & _). rewrite Himp. split.
    + intros [?|(j & c & Hj & Hcj & Hx)]; [by left|right].
      destruct (Hcorr' j c Hcj) as (c' & Hc' & Hcc).
      exists j, c'. split; [done|]. split; [done|].
      by apply (Hsame j c c' Hcj Hcc).
    + intros [?|(j & c' & Hj & Hcj' & Hx)]; [by left|right].
      destruct (Hcorr j c' Hcj') as (c & Hcj & Hcc).
      exists j, c. split; [done|]. split; [done|].
      by apply (Hsame j c c' Hcj Hcc).
  - intros i j n' c' Hn' Hj Hc'.
    destruct (Hcorr i n' Hn') as (n & Hn & Himp & Hd & _).
    destruct (Hcorr j c' Hc') as (c & Hc & _ & Hdc & _).
    rewrite Hd, Hdc. apply (Hdepth i j n c); try done. by rewrite <- Himp.
  - intros i n' Hn' Hnone. destruct (Hcorr i n' Hn') as (n & Hn & _ & Hd & _).
    rewrite Hd. apply (Hzero i n Hn). intros p (np & Hnp & Hi).
    destruct (Hcorr' p np Hnp) as (np' & Hnp' & Himp & _).
    apply (Hnone p). exists np'. split; [done|]. by rewrite Himp.
Qed.
End AdapterResult.

Section GreedySets.
Context {T : Type} `{EqDecision T}.
Variable lt : T → T → bool.
Variable defaultCompare : T → T → Z.
Variable sort : Biggest.SortOption (T := T).

Lemma splitArrays_in_store fuel (σ : Store T) (arrays : list ref) σ' nodes :
  Forall (λ r, r < length σ) arrays →
  Biggest.splitArrays lt defaultCompare sort fuel σ arrays = Some (σ', nodes) →
  in_store σ' nodes.
Proof.
  intros Hin. unfold Biggest.splitArrays.
  destruct (Biggest.initialNodes defaultCompare sort σ arrays) as [σ0' nodes0] eqn:E0.
  destruct (initialNodes_inv defaultCompare sort σ arrays σ0' nodes0 Hin E0) as (Hinv0 & _).
  destruct (Biggest.splitLoop lt sort fuel σ0' nodes0) as [[σ1 nodes1]|] eqn:E1; [|done].
  simpl. intros [= <- <-].
  assert (greedy_inv σ arrays σ1 nodes1) as Hinv by (by eapply splitLoop_inv).
  pose proof (greedy_inv_depth_pre _ _ _ _ Hinv) as Hpre.
  destruct (addMaxDepthToNodes_state _ _ Hpre) as [Hs _ _ _].
  intros c Hc. apply list_elem_of_In, list_elem_of_lookup in Hc as [i Hi].
  destruct (strip_lookup _ _ _ _ Hs Hi) as (n & Hn & Hsn).
  destruct (gi_refs _ _ _ _ Hinv n) as [Hcoll Hrest].
  { by eapply list_elem_of_In, list_elem_of_lookup_2. }
  unfold strip in Hsn. assert (coll c = coll n ∧ rest c = rest n) as [-> ->]; [|done].
  split; congruence.
Qed.

Lemma splitArrays_splits_well fuel :
  splits_well (Biggest.splitArrays lt defaultCompare sort fuel).
Proof.
  intros σ1 cps σ2 nodes Hcps Hsplit. split; [|split].
  - by eapply splitArrays_well_split.
  - by eapply splitArrays_linked.
  - by eapply splitArrays_in_store.
Qed.

Lemma biggest_splitSets_well_split fuel (σ : Store T) (sets : list ref) σ' nodes :
  Forall (λ r, r < length σ) sets →
  BiggestSets.splitSets lt defaultCompare sort fuel σ sets = Some (σ', nodes) →
  well_split σ sets σ' nodes.
Proof.
  intros Hin Hsplit.
  apply (convert_well_split (λ set, set) to_set) with
    (f := Biggest.splitArrays lt defaultCompare sort fuel); try done.
  - apply to_set_In.
  - apply splitArrays_splits_well.
Qed.
End GreedySets.

(** * The weighted splitter: what the loop keeps true *)

Section WeightedIndexes.
Context {T U : Type} `{EqDecision T} `{EqDecision U}.
Variable join : list T → U.
Variable split : U → list T.
Variable primaryWeight secondaryWeight : Weighted.WeightFunction.

(** [P k s]: the set [s] may take part in the intersection [k] *)
Variable P : U → ref → Prop.

(** the entries of [intersectionMap] and [intersectionMapSet] are not empty
    and name sets that may take part *)
Definition imap_ok (imap : list (U * list (ref * ref))) : Prop :=
  Forall (λ e, e.2 ≠ [] ∧ Forall (λ p, P e.1 p.1 ∧ P e.1 p.2) e.2) imap.

Definition imapset_ok (ims : list (U * list (ref * nat))) : Prop :=
  Forall (λ e, e.2 ≠ [] ∧ Forall (λ sc : ref * nat, P e.1 sc.1) e.2) ims.

Definition pairs_ok (pairs : list (ref * ref)) : Prop :=
  Forall (λ p, ∃ k, P k p.1 ∧ P k p.2) pairs.

Lemma amap_set_nonempty {K V} `{EqDecision K} (k : K) (v : V) m : amap_set k v m ≠ [].
Proof. destruct m as [|[k' v'] m]; simpl; [done|]. by destruct (decide (k' = k)). Qed.

Lemma amap_get_Forall {K V} `{EqDecision K} (Q : K * V → Prop) (k : K) (v : V) m :
  Forall Q m → amap_get k m = Some v → Q (k, v).
Proof.
  intros Hm Hget. rewrite Forall_forall in Hm. apply Hm, list_elem_of_In.
  by apply amap_get_In.
Qed.

Lemma addToIntersectingMapSets_ok k (m : list (ref * nat)) (s : ref) :
  Forall (λ sc : ref * nat, P k sc.1) m → P k s →
  Weighted.addToIntersectingMapSets m s ≠ [] ∧
  Forall (λ sc : ref * nat, P k sc.1) (Weighted.addToIntersectingMapSets m s).
Proof.
  intros Hm Hs. unfold Weighted.addToIntersectingMapSets.
  destruct (amap_get s m) as [[|n]|]; (split; [apply amap_set_nonempty|]);
    by apply Forall_amap_set.
Qed.

Lemma pushPair_ok imap k (s1 s2 : ref) :
  imap_ok imap → P k s1 → P k s2 → imap_ok (Weighted.pushPair imap k (s1, s2)).
Proof.
  intros Himap H1 H2. unfold Weighted.pushPair.
  destruct (amap_get k imap) as [entry|] eqn:Eget.
  - apply Forall_amap_set; [done|]. simpl.
    destruct (amap_get_Forall _ _ _ _ Himap Eget) as [_ Hentry]. simpl in Hentry.
    split; [by destruct entry|]. apply Forall_app. split; [done|].
    constructor; [done|constructor].
  - apply Forall_amap_set; [done|]. simpl. split; [done|].
    constructor; [done|constructor].
Qed.

Lemma removeOtherAffectedSetFromMaps_ok ix key (set : ref) ix' :
  imapset_ok (Weighted.ixMapSet ix) →
  Weighted.removeOtherAffectedSetFromMaps split primaryWeight ix key set = Some ix' →
  imapset_ok (Weighted.ixMapSet ix').
Proof.
  intros Hok. unfold Weighted.removeOtherAffectedSetFromMaps.
  destruct (amap_get key (Weighted.ixMapSet ix)) as [setMap|] eqn:Eget; simpl; [|done].
  destruct (amap_get_Forall _ _ _ _ Hok Eget) as [_ Hsets]. simpl in Hsets.
  match goal with
  | |- (?m ≫= _) = _ → _ => destruct m as [[[setMap' w'] s']|] eqn:Em
  end; simpl; [|done].
  assert (Forall (λ sc : ref * nat, P key sc.1) setMap') as Hsets'.
  { destruct (amap_get set setMap) as [[|[|n]]|] eqn:Es;
      try (injection Em as <- _ _; apply Forall_amap_set; [done|];
           apply (amap_get_Forall _ _ _ _ Hsets Es));
      (destruct (Weighted.removeFromSetOrDeleteFromMap (Weighted.ixWeight ix) _ key);
         simpl in Em; [|done]);
      (destruct (Weighted.removeFromSetOrDeleteFromMap (Weighted.ixSetTo ix) set key);
         simpl in Em; [|done]);
      injection Em as <- _ _; by apply Forall_amap_delete. }
  intros [= <-]. simpl. destruct (length setMap' =? 0) eqn:Elen.
  - by apply Forall_amap_delete.
  - apply Forall_amap_set; [done|]. simpl. split; [|done].
    intros ->. simpl in Elen. done.
Qed.

Lemma fold_option_None {A B} (f : option A → B → option A) (l : list B) :
  (∀ b, f None b = None) → fold_left f l None = None.
Proof. intros Hf. induction l as [|b l IH]; simpl; [done|]. by rewrite Hf. Qed.

Lemma filterAffectedPair_fold (intersectingSets otherAffectedSets : list ref) k pairs
    unaffected ix ipairs unaffected' ix' ipairs' :
  fold_left (Weighted.filterAffectedPair split primaryWeight intersectingSets
               otherAffectedSets k)
            pairs (Some (unaffected, ix, ipairs)) = Some (unaffected', ix', ipairs') →
  imapset_ok (Weighted.ixMapSet ix) →
  Forall (λ p, P k p.1 ∧ P k p.2) pairs → Forall (λ p, P k p.1 ∧ P k p.2) unaffected →
  pairs_ok ipairs →
  imapset_ok (Weighted.ixMapSet ix') ∧ Forall (λ p, P k p.1 ∧ P k p.2) unaffected' ∧
  pairs_ok ipairs'.
Proof.
  revert unaffected ix ipairs.
  induction pairs as [|[s1 s2] pairs IH]; intros unaffected ix ipairs; simpl.
  - intros [= <- <- <-]. done.
  - intros Hfold Hix Hpairs Hun Hip. apply Forall_cons in Hpairs as [Hp Hpairs].
    destruct (includes intersectingSets s1 || includes intersectingSets s2
              || includes otherAffectedSets s1 && includes otherAffectedSets s2).
    + destruct (Weighted.removeOtherAffectedSetFromMaps split primaryWeight ix k s1)
        as [ix1|] eqn:E1; simpl in Hfold;
        [|rewrite fold_option_None in Hfold; done].
      destruct (Weighted.removeOtherAffectedSetFromMaps split primaryWeight ix1 k s2)
        as [ix2|] eqn:E2; simpl in Hfold;
        [|rewrite fold_option_None in Hfold; done].
      eapply IH; [exact Hfold| |done|done|].
      * eapply removeOtherAffectedSetFromMaps_ok; [|exact E2].
        eapply removeOtherAffectedSetFromMaps_ok; [|exact E1]. done.
      * apply Forall_app. split; [done|]. constructor; [by exists k|constructor].
    + eapply IH; [exact Hfold|done|done| |done].
      apply Forall_app. split; [done|]. constructor; [done|constructor].
Qed.

Lemma removeAffectedIntersection_ok (intersectingSets otherAffectedSets : list ref)
    imap ix ipairs k imap' ix' ipairs' :
  Weighted.removeAffectedIntersection split primaryWeight intersectingSets
    otherAffectedSets (Some (imap, ix, ipairs)) k = Some (imap', ix', ipairs') →
  imap_ok imap → imapset_ok (Weighted.ixMapSet ix) → pairs_ok ipairs →
  imap_ok imap' ∧ imapset_ok (Weighted.ixMapSet ix') ∧ pairs_ok ipairs'.
Proof.
  unfold Weighted.removeAffectedIntersection. simpl.
  destruct (amap_get k imap) as [possibly|] eqn:Eget; simpl; [|done].
  destruct (fold_left _ possibly _) as [[[un ix1] ip1]|] eqn:Efold; simpl; [|done].
  intros [= <- <- <-] Himap Hix Hip.
  destruct (amap_get_Forall _ _ _ _ Himap Eget) as [_ Hposs]. simpl in Hposs.
  destruct (filterAffectedPair_fold _ _ _ _ _ _ _ _ _ _ Efold) as (Hix1 & Hun & Hip1);
    try done.
  split; [|done]. destruct (0 <? length un) eqn:Elen.
  - apply Forall_amap_set; [done|]. simpl. split; [|done]. intros ->. done.
  - by apply Forall_amap_delete.
Qed.

Lemma removeAffectedIntersection_fold (intersectingSets otherAffectedSets : list ref)
    others imap ix ipairs imap' ix' ipairs' :
  fold_left (Weighted.removeAffectedIntersection split primaryWeight intersectingSets
               otherAffectedSets)
            others (Some (imap, ix, ipairs)) = Some (imap', ix', ipairs') →
  imap_ok imap → imapset_ok (Weighted.ixMapSet ix) → pairs_ok ipairs →
  imap_ok imap' ∧ imapset_ok (Weighted.ixMapSet ix') ∧ pairs_ok ipairs'.
Proof.
  revert imap ix ipairs. induction others as [|k others IH]; intros imap ix ipairs.
  - simpl. intros [= <- <- <-]. done.
  - cbn [fold_left]. intros Hfold Himap Hix Hip.
    destruct (Weighted.removeAffectedIntersection split primaryWeight intersectingSets
                otherAffectedSets (Some (imap, ix, ipairs)) k)
      as [[[imap1 ix1] ip1]|] eqn:E1;
      [|rewrite fold_option_None in Hfold; done].
    destruct (removeAffectedIntersection_ok _ _ _ _ _ _ _ _ _ E1) as (? & ? & ?);
      try done.
    by eapply IH.
Qed.

Lemma removeUpdatedFromMaps_ok hwi (intersectingSets : list ref) others
    (otherAffectedSets : list ref) hw st st1 ipairs :
  Weighted.removeUpdatedFromMaps split primaryWeight hwi intersectingSets others
    otherAffectedSets hw st = Some (st1, ipairs) →
  imap_ok (Weighted.intersectionMap st) → imapset_ok (Weighted.intersectionMapSet st) →
  Weighted.store st1 = Weighted.store st ∧
  Weighted.setNodeMap st1 = Weighted.setNodeMap st ∧
  Weighted.clonedSets st1 = Weighted.clonedSets st ∧
  imap_ok (Weighted.intersectionMap st1) ∧ imapset_ok (Weighted.intersectionMapSet st1) ∧
  pairs_ok ipairs.
Proof.
  unfold Weighted.removeUpdatedFromMaps.
  destruct (fold_left _ intersectingSets _) as [s2i|]; simpl; [|done].
  destruct (Weighted.removeFromSetOrDeleteFromMap _ hw hwi) as [w1|]; simpl; [|done].
  destruct (fold_left _ others _) as [[[imap2 ix] ip]|] eqn:Efold; simpl; [|done].
  intros [= <- <-] Himap Hims. simpl.
  destruct (removeAffectedIntersection_fold _ _ _ _ _ _ _ _ _ Efold) as (? & ? & ?);
    try done.
  - by apply Forall_amap_delete.
  - by apply Forall_amap_delete.
  - constructor.
Qed.

Lemma addUpdateToMaps_ok st (s1 s2 : ref) st' :
  Weighted.addUpdateToMaps join primaryWeight (Some st) (s1, s2) = Some st' →
  (∀ l, l = intersectSets (read (Weighted.store st) s1) (read (Weighted.store st) s2) →
        l ≠ [] → P (join l) s1 ∧ P (join l) s2) →
  imap_ok (Weighted.intersectionMap st) → imapset_ok (Weighted.intersectionMapSet st) →
  Weighted.store st' = Weighted.store st ∧
  Weighted.setNodeMap st' = Weighted.setNodeMap st ∧
  Weighted.clonedSets st' = Weighted.clonedSets st ∧
  imap_ok (Weighted.intersectionMap st') ∧ imapset_ok (Weighted.intersectionMapSet st').
Proof.
  unfold Weighted.addUpdateToMaps. simpl.
  set (l := intersectSets _ _). intros Hadd HP Himap Hims.
  destruct (0 <? length l) eqn:Elen; [|by injection Hadd as <-].
  destruct (HP l eq_refl) as [H1 H2]; [by destruct l|].
  match type of Hadd with
  | (?m ≫= _) = _ => destruct m as [[[ims' w1] cnt]|] eqn:Em
  end; simpl in Hadd; [|done].
  injection Hadd as <-. simpl. split; [done|]. split; [done|]. split; [done|].
  split; [by apply pushPair_ok|].
  destruct (amap_get (join l) (Weighted.intersectionMapSet st)) as [sets|] eqn:Eget.
  - destruct (Weighted.removeFromSetOrDeleteFromMap _ _ (join l)); simpl in Em; [|done].
    injection Em as <- _ _. apply Forall_amap_set; [done|]. simpl.
    destruct (amap_get_Forall _ _ _ _ Hims Eget) as [_ Hsets]. simpl in Hsets.
    destruct (addToIntersectingMapSets_ok (join l) sets s1) as [_ Hs1]; [done|done|].
    by apply addToIntersectingMapSets_ok.
  - injection Em as <- _ _. apply Forall_amap_set; [done|]. simpl.
    split; [by destruct (decide (s1 = s2))|].
    destruct (decide (s1 = s2)); repeat constructor; done.
Qed.
End WeightedIndexes.

Section WeightedUpdate.
Context {T : Type} `{EqDecision T}.
Variables (σ0 : Store T) (inputs : list ref).

(** the new node of one pass of the loop: its [set] is the object [newSet],
    its [rest] the next object; it takes the position [newIdx]; [E] are its
    elements *)
Variables (newSet newIdx : nat) (E : list T).
Implicit Types (σ : Store T) (M : list (ref * Node)) (d : jsnum).

(** the nodes with the new node, whose depth is [d] so far *)
Definition extended M d : list Node := amap_values M ++ [mkNode newSet (S newSet) [] d].

(** the state of the two loops that take the elements of the new node out of
    the nodes that hold them; [b] tells that some node imports the new node *)
Record upd_inv (b : bool) σ M d : Prop := mk_upd_inv {
  ui_frame : ∃ ext, σ = σ0 ++ ext;
  ui_size : length σ = S (S newSet);
  ui_len : length M = newIdx;
  ui_inputs : length inputs ≤ newIdx;
  ui_keys : List.NoDup (amap_keys M);
  ui_entry : ∀ i k n, M !! i = Some (k, n) →
               rest n = k ∧ length σ0 ≤ k < newSet ∧ coll n < newSet;
  ui_disj : ∀ i j k n k' n', M !! i = Some (k, n) → M !! j = Some (k', n') → coll n ≠ k';
  ui_new : read σ newSet = E ∧ read σ (S newSet) = E;
  ui_roots : ∀ i r, inputs !! i = Some r →
               ∃ n, extended M d !! i = Some n ∧ coll n = r ∧ depth n = Num 0;
  ui_fresh : ∀ i n, extended M d !! i = Some n → length inputs ≤ i → length σ0 ≤ coll n;
  ui_forward : forward (extended M d);
  ui_covered : covered σ (extended M d);
  ui_depth : depth_increases (extended M d);
  ui_zero : ∀ i n, extended M d !! i = Some n → i < newIdx →
              (∀ p, ¬ imports_of (extended M d) p i) → depth n = Num 0;
  ui_linked : linked (length inputs) (extended M d);
  ui_parent : b = true → ∃ p, imports_of (extended M d) p newIdx;
  ui_min : jsnum_le (Num 1) d
}.

(** how the node at a position changes when the node at [i] takes the new
    node as an import and the depth of the new node becomes [d'] *)
Definition upd_rel (i : nat) (d d' : jsnum) (j : nat) (c c' : Node) : Prop :=
  coll c' = coll c ∧ rest c' = rest c ∧
  (j = i → imports c' = imports c ++ [newIdx]) ∧ (j ≠ i → imports c' = imports c) ∧
  (j < newIdx → depth c' = depth c) ∧ (j = newIdx → depth c = d ∧ depth c' = d').

Lemma extended_insert M d d' i k n n' :
  length M = newIdx → M !! i = Some (k, n) →
  coll n' = coll n → rest n' = rest n → imports n' = imports n ++ [newIdx] →
  depth n' = depth n →
  length (extended (<[i := (k, n')]> M) d') = length (extended M d) ∧
  (∀ j c, extended M d !! j = Some c →
     ∃ c', extended (<[i := (k, n')]> M) d' !! j = Some c' ∧ upd_rel i d d' j c c') ∧
  (∀ j c', extended (<[i := (k, n')]> M) d' !! j = Some c' →
     ∃ c, extended M d !! j = Some c ∧ upd_rel i d d' j c c').
Proof.
  intros Hlen Hi Hc Hr Him Hd. pose proof (lookup_lt_Some _ _ _ Hi) as Hilt.
  unfold extended, amap_values.
  assert (∀ j, j < newIdx → j ≠ i →
            (map snd (<[i := (k, n')]> M) ++ [mkNode newSet (S newSet) [] d']) !! j
            = (map snd M ++ [mkNode newSet (S newSet) [] d]) !! j) as Hother.
  { intros j Hj Hne. rewrite !lookup_app_l by (rewrite length_map, ?length_insert; lia).
    change (map snd ?l) with (snd <$> l).
    by rewrite !list_lookup_fmap, list_lookup_insert_ne. }
  assert ((map snd (<[i := (k, n')]> M) ++ [mkNode newSet (S newSet) [] d']) !! i = Some n')
    as Hati.
  { rewrite lookup_app_l by (rewrite length_map, length_insert; lia).
    change (map snd ?l) with (snd <$> l).
    by rewrite list_lookup_fmap, list_lookup_insert_eq. }
  assert ((map snd M ++ [mkNode newSet (S newSet) [] d]) !! i = Some n) as Hati0.
  { rewrite lookup_app_l by (rewrite length_map; lia).
    change (map snd ?l) with (snd <$> l). by rewrite list_lookup_fmap, Hi. }
  assert (∀ dd (M0 : list (ref * Node)), length M0 = newIdx →
            (map snd M0 ++ [mkNode newSet (S newSet) [] dd]) !! newIdx
            = Some (mkNode newSet (S newSet) [] dd)) as Hnew.
  { intros dd M0 HM0. rewrite lookup_app_r by (rewrite length_map; lia).
    rewrite length_map, HM0, Nat.sub_diag. done. }
  split; [|split].
  - by rewrite !length_app, !length_map, length_insert.
  - intros j c Hj. pose proof (lookup_lt_Some _ _ _ Hj) as Hjlt.
    rewrite length_app, length_map in Hjlt. simpl in Hjlt.
    destruct (decide (j = i)) as [->|Hne]; [|destruct (decide (j = newIdx)) as [->|Hne']].
    + exists n'. split; [done|]. assert (c = n) as -> by congruence.
      repeat split; try done; intros; lia.
    + exists (mkNode newSet (S newSet) [] d'). rewrite Hnew by (by rewrite length_insert).
      split; [done|]. rewrite Hnew in Hj by done. injection Hj as <-.
      repeat split; try done; intros; lia.
    + exists c. rewrite Hother by lia. split; [done|].
      repeat split; try done; intros; lia.
  - intros j c' Hj. pose proof (lookup_lt_Some _ _ _ Hj) as Hjlt.
    rewrite length_app, length_map, length_insert in Hjlt. simpl in Hjlt.
    destruct (decide (j = i)) as [->|Hne]; [|destruct (decide (j = newIdx)) as [->|Hne']].
    + exists n. split; [done|]. assert (c' = n') as -> by congruence.
      repeat split; try done; intros; lia.
    + exists (mkNode newSet (S newSet) [] d). rewrite Hnew by done.
      split; [done|]. rewrite Hnew in Hj by (by rewrite length_insert). injection Hj as <-.
      repeat split; try done; intros; lia.
    + exists c'. rewrite Hother in Hj by lia. split; [done|].
      repeat split; try done; intros; lia.
Qed.

Lemma jsnum_geb_depth (a d : jsnum) :
  let d' := if Weighted.jsnum_geb a d then jsnum_succ a else d in
  jsnum_le d d' ∧ jsnum_le (jsnum_succ a) d'.
Proof. destruct a as [|x], d as [|y]; simpl; try done; destruct (y <=? x)%Z eqn:Eyx; simpl; lia. Qed.

Lemma write_frame σ ext r v :
  σ = σ0 ++ ext → length σ0 ≤ r → ∃ ext', write σ r v = σ0 ++ ext'.
Proof. intros -> Hr. unfold write. rewrite insert_app_r_alt by done. by eexists. Qed.

Lemma extended_lookup M d j c :
  length M = newIdx → extended M d !! j = Some c →
  (j < newIdx ∧ ∃ k, M !! j = Some (k, c)) ∨
  (j = newIdx ∧ c = mkNode newSet (S newSet) [] d).
Proof.
  intros Hlen Hj. unfold extended, amap_values in Hj.
  destruct (decide (j < newIdx)) as [Hlt|Hge].
  - left. split; [done|]. rewrite lookup_app_l in Hj by (rewrite length_map; lia).
    change (map snd M) with (snd <$> M) in Hj.
    apply list_lookup_fmap_Some_1 in Hj as ([k c0] & -> & Hj). by exists k.
  - right. pose proof (lookup_lt_Some _ _ _ Hj) as Hjlt.
    rewrite length_app, length_map in Hjlt. simpl in Hjlt.
    assert (j = newIdx) as -> by lia. split; [done|].
    rewrite lookup_app_r in Hj by (rewrite length_map; lia).
    rewrite length_map, Hlen, Nat.sub_diag in Hj. simpl in Hj. congruence.
Qed.

Lemma keys_distinct M i j k c c' :
  List.NoDup (amap_keys M) → M !! i = Some (k, c) → M !! j = Some (k, c') → i = j.
Proof.
  intros Hnd Hi Hj. apply NoDup_ListNoDup in Hnd.
  apply (NoDup_lookup (amap_keys M) i j k Hnd); unfold amap_keys;
    change (map fst M) with (fst <$> M); rewrite list_lookup_fmap.
  - by rewrite Hi.
  - by rewrite Hj.
Qed.

Lemma updateSetObj_inv b0 σ M d (set : ref) σ' M' d' :
  upd_inv b0 σ M d →
  Weighted.updateSetObj newSet newIdx (Some (σ, M, d)) set = Some (σ', M', d') →
  (∀ n, amap_get set M = Some n → ∀ x, In x E → In x (node_coll σ n)) →
  upd_inv true σ' M' d'.
Proof.
  intros Hinv Hupd Hpre. unfold Weighted.updateSetObj in Hupd. simpl in Hupd.
  destruct (amap_get set M) as [n|] eqn:Eget; simpl in Hupd; [|done].
  injection Hupd as <- <- <-. specialize (Hpre n eq_refl).
  destruct Hinv as [Hframe Hsize Hlen Hinputs Hkeys Hentry Hdisj [Hnew Hnewr] Hroots
                    Hfresh Hfwd Hcov Hdepth Hzero Hlk Hparent Hmin].
  destruct (amap_get_position _ _ _ Eget) as [i Hi].
  destruct (Hentry i set n Hi) as (Hrest & [Hset0 Hset1] & Hcoll).
  rewrite (amap_set_insert _ _ _ _ i Hkeys Hi).
  set (n' := mkNode (coll n) (rest n) (imports n ++ [newIdx]) (depth n)).
  destruct (jsnum_geb_depth (depth n) d) as [Hdd Hnd].
  set (d' := if Weighted.jsnum_geb (depth n) d then jsnum_succ (depth n) else d) in *.
  destruct (extended_insert M d d' i set n n' Hlen Hi) as (Hxlen & Hto & Hfrom); try done.
  unfold Weighted.filterFromSet. rewrite Hrest, Hnew.
  set (σ' := write σ set _).
  assert (∀ r, r ≠ set → read σ' r = read σ r) as Hread
    by (intros; by apply read_write_other).
  assert (read σ' set = List.filter (λ e, negb (includes E e)) (read σ set)) as Hreadset
    by (apply read_write_same; lia).
  pose proof (lookup_lt_Some _ _ _ Hi) as Hilt.
  assert (extended M d !! i = Some n) as Hxi.
  { unfold extended, amap_values. rewrite lookup_app_l by (rewrite length_map; lia).
    change (map snd M) with (snd <$> M). by rewrite list_lookup_fmap, Hi. }
  assert (∀ j c, extended M d !! j = Some c → node_coll σ' c = node_coll σ c) as Hcollσ.
  { intros j c Hj. unfold node_coll. apply Hread.
    destruct (extended_lookup M d j c Hlen Hj) as [(_ & k & Hk)|(_ & ->)].
    - apply (Hdisj j i k c set n Hk Hi).
    - simpl. lia. }
  assert (∀ j c, extended M d !! j = Some c → j ≠ i → node_rest σ' c = node_rest σ c)
    as Hrestσ.
  { intros j c Hj Hne. unfold node_rest. apply Hread.
    destruct (extended_lookup M d j c Hlen Hj) as [(_ & k & Hk)|(_ & ->)].
    - destruct (Hentry j k c Hk) as (-> & _). intros ->. apply Hne.
      by eapply keys_distinct.
    - simpl. lia. }
  assert (∀ j k c', <[i := (set, n')]> M !! j = Some (k, c') →
            ∃ c, M !! j = Some (k, c) ∧ coll c' = coll c ∧ rest c' = rest c) as HM'.
  { intros j k c' Hj. destruct (decide (j = i)) as [->|Hne].
    - rewrite list_lookup_insert_eq in Hj by done. injection Hj as <- <-. by exists n.
    - rewrite list_lookup_insert_ne in Hj by done. by exists c'. }
  assert (∀ a b c', extended (<[i := (set, n')]> M) d' !! a = Some c' → In b (imports c') →
            (∃ c, extended M d !! a = Some c ∧ In b (imports c)) ∨ (a = i ∧ b = newIdx))
    as Hedge.
  { intros a b c' Ha Hb. destruct (Hfrom a c' Ha) as (c & Hc & _ & _ & Hi1 & Hi2 & _).
    destruct (decide (a = i)) as [->|Hne].
    - rewrite Hi1 in Hb by done. apply in_app_iff in Hb as [Hb|[<-|[]]]; [left|by right].
      by exists c.
    - rewrite Hi2 in Hb by done. left. by exists c. }
  split.
  - destruct Hframe as [ext Hext]. by eapply write_frame.
  - unfold σ', write. by rewrite length_insert.
  - by rewrite length_insert.
  - done.
  - unfold amap_keys. change (map fst ?l) with (fst <$> l).
    rewrite list_fmap_insert. simpl. rewrite list_insert_id; [done|].
    by rewrite list_lookup_fmap, Hi.
  - intros j k c' Hj. destruct (HM' j k c' Hj) as (c & Hc & -> & ->). by eapply Hentry.
  - intros j1 j2 k1 c1 k2 c2 H1 H2.
    destruct (HM' j1 k1 c1 H1) as (c1' & Hc1 & -> & _).
    destruct (HM' j2 k2 c2 H2) as (c2' & Hc2 & _). by eapply Hdisj.
  - split; (rewrite Hread; [done|lia]).
  - intros i0 r Hi0. destruct (Hroots i0 r Hi0) as (c & Hc & Hcr & Hcd).
    destruct (Hto i0 c Hc) as (c' & Hc' & Hcc & _ & _ & _ & Hdc & _).
    exists c'. split; [done|]. pose proof (lookup_lt_Some _ _ _ Hi0).
    split; [congruence|]. rewrite Hdc; [done|lia].
  - intros j c' Hj Hge. destruct (Hfrom j c' Hj) as (c & Hc & -> & _). by eapply Hfresh.
  - intros a b (c' & Ha & Hb). rewrite Hxlen.
    destruct (Hedge a b c' Ha Hb) as [(c & Hc & Hin)|[-> ->]].
    + apply Hfwd. by exists c.
    + unfold extended, amap_values. rewrite length_app, length_map. simpl. lia.
  - intros j c' Hj x. destruct (Hfrom j c' Hj) as (c & Hc & Hcc & Hcr & Hi1 & Hi2 & _).
    assert (node_coll σ' c' = node_coll σ c) as ->.
    { rewrite <- (Hcollσ j c Hc). unfold node_coll. by rewrite Hcc. }
    rewrite (Hcov j c Hc x).
    assert (∀ j2, (∃ c2, extended M d !! j2 = Some c2 ∧ In x (node_coll σ c2)) ↔
                  (∃ c2', extended (<[i := (set, n')]> M) d' !! j2 = Some c2' ∧
                          In x (node_coll σ' c2'))) as Himp.
    { intros j2. split.
      - intros (c2 & Hc2 & Hx). destruct (Hto j2 c2 Hc2) as (c2' & Hc2' & Hcc2 & _).
        exists c2'. split; [done|]. unfold node_coll. rewrite Hcc2.
        by rewrite (Hcollσ j2 c2 Hc2 : read σ' (coll c2) = _).
      - intros (c2' & Hc2' & Hx). destruct (Hfrom j2 c2' Hc2') as (c2 & Hc2 & Hcc2 & _).
        exists c2. split; [done|]. unfold node_coll in Hx. rewrite Hcc2 in Hx.
        by rewrite (Hcollσ j2 c2 Hc2 : read σ' (coll c2) = _) in Hx. }
    assert (extended (<[i := (set, n')]> M) d' !! newIdx
            = Some (mkNode newSet (S newSet) [] d')) as Hxnew.
    { unfold extended, amap_values. rewrite lookup_app_r by (rewrite length_map, length_insert; lia).
      by rewrite length_map, length_insert, Hlen, Nat.sub_diag. }
    destruct (decide (j = i)) as [->|Hne].
    + assert (c = n) as -> by congruence. rewrite (Hi1 eq_refl).
      unfold node_rest at 2. rewrite Hcr, Hrest, Hreadset, filter_In, negb_true_iff.
      unfold node_rest. rewrite Hrest. split.
      * intros [Hx|(j2 & c2 & Hj2 & Hc2 & Hx)].
        -- destruct (includes E x) eqn:Einc; [right|by left].
           exists newIdx, (mkNode newSet (S newSet) [] d'). split; [apply in_app_iff; right; by left|].
           split; [done|]. unfold node_coll. simpl. rewrite Hread by lia. rewrite Hnew.
           by apply includes_In.
        -- right. destruct (proj1 (Himp j2)) as (c2' & Hc2' & Hx'); [by exists c2|].
           exists j2, c2'. split; [apply in_app_iff; by left|done].
      * intros [[Hx _]|(j2 & c2' & Hj2 & Hc2' & Hx)]; [by left|].
        apply in_app_iff in Hj2 as [Hj2|[<-|[]]].
        -- right. destruct (proj2 (Himp j2)) as (c2 & Hc2 & Hx2); [by exists c2'|].
           by exists j2, c2.
        -- rewrite Hxnew in Hc2'. injection Hc2' as <-. unfold node_coll in Hx. simpl in Hx.
           rewrite Hread in Hx by lia. rewrite Hnew in Hx.
           pose proof (proj1 (Hcov i n Hxi x) (Hpre x Hx)) as Hres.
           unfold node_rest in Hres. by rewrite Hrest in Hres.
    + rewrite (Hi2 Hne).
      assert (node_rest σ' c' = node_rest σ c) as ->.
      { rewrite <- (Hrestσ j c Hc Hne). unfold node_rest. by rewrite Hcr. }
      split; (intros [?|(j2 & c2 & Hj2 & Hc2 & Hx)]; [by left|right]).
      * destruct (proj1 (Himp j2)) as (c2' & Hc2' & Hx'); [by exists c2|]. by exists j2, c2'.
      * destruct (proj2 (Himp j2)) as (c2' & Hc2' & Hx'); [by exists c2|]. by exists j2, c2'.
  - intros a b c' cb' Ha Hb Hcb.
    destruct (Hfrom a c' Ha) as (c & Hc & _ & _ & _ & _ & Hda & _).
    destruct (Hfrom b cb' Hcb) as (cb & Hcb0 & _ & _ & _ & _ & Hdb & Hdnew).
    assert (a < newIdx) as Halt.
    { destruct (Hedge a b c' Ha Hb) as [(c0 & Hc0 & Hin)|[-> ->]]; [|lia].
      destruct (extended_lookup M d a c0 Hlen Hc0) as [[? _]|[_ ->]]; [done|]. by simpl in Hin. }
    rewrite (Hda Halt).
    destruct (Hedge a b c' Ha Hb) as [(c0 & Hc0 & Hin)|[-> ->]].
    + assert (c0 = c) as -> by congruence.
      pose proof (Hdepth a b c cb Hc Hin Hcb0) as Hle.
      destruct (decide (b = newIdx)) as [->|Hbne].
      * destruct (Hdnew eq_refl) as [Hd1 Hd2]. rewrite Hd2. rewrite Hd1 in Hle.
        by eapply jsnum_le_trans.
      * pose proof (lookup_lt_Some _ _ _ Hcb0) as Hblt. unfold extended, amap_values in Hblt.
        rewrite length_app, length_map in Hblt. simpl in Hblt.
        rewrite Hdb by lia. done.
    + destruct (Hdnew eq_refl) as [_ ->]. assert (c = n) as -> by congruence. done.
  - intros j c' Hj Hlt Hnone. destruct (Hfrom j c' Hj) as (c & Hc & _ & _ & _ & _ & Hdj & _).
    rewrite (Hdj Hlt). apply (Hzero j c Hc Hlt). intros p (cp & Hcp & Hin).
    destruct (Hto p cp Hcp) as (cp' & Hcp' & _ & _ & Hi1 & Hi2 & _).
    apply (Hnone p). exists cp'. split; [done|].
    destruct (decide (p = i)) as [->|Hne].
    + rewrite Hi1 by done. apply in_app_iff. by left.
    + by rewrite Hi2.
  - split.
    + intros a b (c' & Ha & Hb).
      destruct (Hedge a b c' Ha Hb) as [(c & Hc & Hin)|[-> ->]]; [|done].
      apply (lk_targets _ _ Hlk a b). by exists c.
    + intros a b ca' cb' Ha Hb Hage Hbge Hcab.
      destruct (Hfrom a ca' Ha) as (ca & Hca & Hcca & _).
      destruct (Hfrom b cb' Hb) as (cb & Hcb & Hccb & _).
      apply (lk_distinct _ _ Hlk a b ca cb); try done. congruence.
  - intros _. exists i. destruct (Hto i n Hxi) as (c' & Hc' & _ & _ & Hi1 & _).
    exists c'. split; [done|]. rewrite Hi1 by done. apply in_app_iff. right. by left.
  - by eapply jsnum_le_trans.
Qed.

(** the elements of the new node are elements of the node of the set [s] *)
Definition holds σ M (s : ref) : Prop :=
  ∀ n, amap_get s M = Some n → ∀ x, In x E → In x (node_coll σ n).

Lemma upd_inv_weaken b0 σ M d : upd_inv true σ M d → upd_inv b0 σ M d.
Proof. intros []. split; try done. intros _. auto. Qed.

Lemma updateSetObj_holds b0 σ M d (set s : ref) σ' M' d' :
  upd_inv b0 σ M d →
  Weighted.updateSetObj newSet newIdx (Some (σ, M, d)) set = Some (σ', M', d') →
  holds σ M s → holds σ' M' s.
Proof.
  intros Hinv Hupd Hs c' Hc'. unfold Weighted.updateSetObj in Hupd. simpl in Hupd.
  destruct (amap_get set M) as [n|] eqn:Eget; simpl in Hupd; [|done].
  injection Hupd as <- <- <-.
  destruct (amap_get_position _ _ _ Eget) as [i Hi].
  rewrite (amap_set_insert _ _ _ _ i (ui_keys _ _ _ _ Hinv) Hi) in Hc'.
  destruct (amap_get_position _ _ _ Hc') as [j Hj].
  assert (∃ c, M !! j = Some (s, c) ∧ coll c' = coll c) as (c & Hc & Hcc).
  { destruct (decide (j = i)) as [->|Hne].
    - rewrite list_lookup_insert_eq in Hj by (by eapply lookup_lt_Some).
      injection Hj as <- <-. by exists n.
    - rewrite list_lookup_insert_ne in Hj by done. by exists c'. }
  pose proof (amap_get_lookup _ _ _ _ (ui_keys _ _ _ _ Hinv) Hc) as Hget.
  intros x Hx. unfold node_coll, Weighted.filterFromSet. rewrite Hcc.
  rewrite read_write_other; [by apply (Hs c Hget)|].
  destruct (ui_entry _ _ _ _ Hinv i set n Hi) as (-> & _).
  intros Heq. by apply (ui_disj _ _ _ _ Hinv j i s c set n Hc Hi).
Qed.

(** every set that has a node keeps one, with the same collection *)
Definition keeps σ M σ' M' : Prop :=
  ∀ (s : ref) n, amap_get s M = Some n →
    ∃ n', amap_get s M' = Some n' ∧ node_coll σ' n' = node_coll σ n.

Lemma keeps_refl σ M : keeps σ M σ M.
Proof. intros s n Hn. by exists n. Qed.

Lemma keeps_trans σ M σ1 M1 σ2 M2 :
  keeps σ M σ1 M1 → keeps σ1 M1 σ2 M2 → keeps σ M σ2 M2.
Proof.
  intros H1 H2 s n Hn. destruct (H1 s n Hn) as (n1 & Hn1 & Hc1).
  destruct (H2 s n1 Hn1) as (n2 & Hn2 & Hc2). exists n2. split; [done|]. congruence.
Qed.

Lemma updateSetObj_keeps b0 σ M d (set : ref) σ' M' d' :
  upd_inv b0 σ M d →
  Weighted.updateSetObj newSet newIdx (Some (σ, M, d)) set = Some (σ', M', d') →
  keeps σ M σ' M'.
Proof.
  intros Hinv Hupd s c Hc. unfold Weighted.updateSetObj in Hupd. simpl in Hupd.
  destruct (amap_get set M) as [n|] eqn:Eget; simpl in Hupd; [|done].
  injection Hupd as <- <- <-.
  destruct (amap_get_position _ _ _ Eget) as [i Hi].
  destruct (amap_get_position _ _ _ Hc) as [j Hj].
  destruct (ui_entry _ _ _ _ Hinv i set n Hi) as (Hrest & _).
  pose proof (ui_disj _ _ _ _ Hinv j i s c set n Hj Hi) as Hne.
  unfold Weighted.filterFromSet, node_coll. rewrite Hrest.
  destruct (decide (set = s)) as [->|Hs].
  - rewrite amap_get_set_eq. eexists. split; [done|]. simpl.
    assert (c = n) as -> by congruence. by rewrite read_write_other.
  - rewrite amap_get_set_ne by done. exists c. split; [done|].
    by rewrite read_write_other.
Qed.

Lemma update_fold b0 (l : list ref) σ M d σ' M' d' :
  upd_inv b0 σ M d →
  fold_left (Weighted.updateSetObj newSet newIdx) l (Some (σ, M, d)) = Some (σ', M', d') →
  (∀ s, In s l → holds σ M s) →
  upd_inv (match l with [] => b0 | _ => true end) σ' M' d' ∧
  (∀ s, holds σ M s → holds σ' M' s) ∧ keeps σ M σ' M'.
Proof.
  revert b0 σ M d. induction l as [|s l IH]; intros b0 σ M d Hinv Hfold Hl.
  - simpl in Hfold. injection Hfold as <- <- <-. split; [done|]. split; [done|].
    apply keeps_refl.
  - cbn [fold_left] in Hfold.
    destruct (Weighted.updateSetObj newSet newIdx (Some (σ, M, d)) s)
      as [[[σ1 M1] d1]|] eqn:E1;
      [|rewrite fold_option_None in Hfold; done].
    pose proof (updateSetObj_inv b0 σ M d s σ1 M1 d1 Hinv E1 (Hl s ltac:(by left)))
      as Hinv1.
    destruct (IH true σ1 M1 d1 Hinv1 Hfold) as (Hinv' & Hholds' & Hkeeps').
    { intros s' Hs'. eapply updateSetObj_holds; [exact Hinv|exact E1|].
      apply Hl. by right. }
    split; [|split].
    + destruct l; [done|done].
    + intros s' Hs'. apply Hholds'.
      eapply updateSetObj_holds; [exact Hinv|exact E1|done].
    + eapply keeps_trans; [|exact Hkeeps']. by eapply updateSetObj_keeps.
Qed.

Lemma update_cond_fold b0 (elems : list T) (l : list ref) σ M d σ' M' d' :
  (∀ x, In x E → In x elems) →
  upd_inv b0 σ M d →
  fold_left (λ acc set,
               '(σ, _, _) ← acc;
               if forallb (λ element, includes (read σ set) element) elems
               then Weighted.updateSetObj newSet newIdx acc set
               else acc)
            l (Some (σ, M, d)) = Some (σ', M', d') →
  upd_inv b0 σ' M' d' ∧ keeps σ M σ' M'.
Proof.
  intros Helems. revert σ M d. induction l as [|s l IH]; intros σ M d Hinv Hfold.
  - simpl in Hfold. injection Hfold as <- <- <-. split; [done|apply keeps_refl].
  - cbn [fold_left] in Hfold. cbn [mbind option_bind] in Hfold.
    destruct (forallb (λ element, includes (read σ s) element) elems) eqn:Eall.
    + destruct (Weighted.updateSetObj newSet newIdx (Some (σ, M, d)) s)
        as [[[σ1 M1] d1]|] eqn:E1;
        [|rewrite fold_option_None in Hfold; done].
      assert (upd_inv true σ1 M1 d1) as Hinv1; [|
        destruct (IH σ1 M1 d1 (upd_inv_weaken _ _ _ _ Hinv1) Hfold) as [Hinv' Hkeeps'];
        split; [done|];
        eapply keeps_trans; [|exact Hkeeps']; by eapply updateSetObj_keeps].
      eapply updateSetObj_inv; [exact Hinv|exact E1|].
      intros n Hn x Hx. destruct (amap_get_position _ _ _ Hn) as [i Hi].
      destruct (ui_entry _ _ _ _ Hinv i s n Hi) as (Hrest & _).
      assert (extended M d !! i = Some n) as Hxi.
      { unfold extended, amap_values.
        rewrite lookup_app_l by (rewrite length_map; by eapply lookup_lt_Some).
        change (map snd M) with (snd <$> M). by rewrite list_lookup_fmap, Hi. }
      apply (ui_covered _ _ _ _ Hinv i n Hxi x). left. unfold node_rest. rewrite Hrest.
      rewrite forallb_forall in Eall. apply includes_In, Eall, Helems, Hx.
    + by apply (IH σ M d).
Qed.
End WeightedUpdate.

Section WeightedNodes.
Context {T : Type} `{EqDecision T}.
Variables (σ0 : Store T) (inputs : list ref).
Implicit Types (σ : Store T) (M : list (ref * Node)) (d : jsnum).

(** [setNodeMap] between two passes of the loop: its nodes are well split,
    every node is filed under its [rest], which is an object made by the
    call and the collection of no node *)
Record wnodes σ M : Prop := mk_wnodes {
  wn_ws : well_split σ0 inputs σ (amap_values M);
  wn_linked : linked (length inputs) (amap_values M);
  wn_len : length inputs ≤ length M;
  wn_keys : List.NoDup (amap_keys M);
  wn_entry : ∀ i k n, M !! i = Some (k, n) →
               rest n = k ∧ length σ0 ≤ k < length σ ∧ coll n < length σ;
  wn_disj : ∀ i j k n k' n', M !! i = Some (k, n) → M !! j = Some (k', n') → coll n ≠ k'
}.

Lemma values_lookup M i n :
  amap_values M !! i = Some n ↔ ∃ k, M !! i = Some (k, n).
Proof.
  unfold amap_values. change (map snd M) with (snd <$> M). rewrite list_lookup_fmap.
  destruct (M !! i) as [[k c]|]; simpl; split.
  - intros [= <-]. by exists k.
  - intros (k' & [= _ <-]). done.
  - done.
  - by intros (k' & ?).
Qed.

Lemma upd_inv_init σ M (E : list T) :
  wnodes σ M →
  upd_inv σ0 inputs (length σ) (length M) E false ((σ ++ [E]) ++ [E]) M (Num 1).
Proof.
  intros [[Hframe Hroots Hfresh Hfwd Hcov Hdepth Hzero] Hlk Hlen Hkeys Hentry Hdisj].
  assert (∀ i n, extended (length σ) M (Num 1) !! i = Some n → i < length M →
            amap_values M !! i = Some n) as Hold.
  { intros i n Hi Hlt. unfold extended in Hi.
    by rewrite lookup_app_l in Hi by (unfold amap_values; rewrite length_map; lia). }
  assert (∀ i n, amap_values M !! i = Some n →
            extended (length σ) M (Num 1) !! i = Some n) as Hold'.
  { intros i n Hi. unfold extended. rewrite lookup_app_l; [done|]. by eapply lookup_lt_Some. }
  assert (∀ a b, imports_of (extended (length σ) M (Num 1)) a b →
            imports_of (amap_values M) a b) as Hedge.
  { intros a b (c & Hc & Hb).
    destruct (extended_lookup _ _ _ _ _ _ eq_refl Hc) as [(Hlt & _)|(_ & ->)]; [|done].
    exists c. split; [|done]. by apply Hold. }
  assert (length (amap_values M) = length M) as Hvlen
    by (unfold amap_values; by rewrite length_map).
  assert (∀ r, r < length σ → read ((σ ++ [E]) ++ [E]) r = read σ r) as Hread.
  { intros r Hr. rewrite !read_app_old; [done|done|]. rewrite length_app. lia. }
  assert (∀ i n, amap_values M !! i = Some n →
            node_coll ((σ ++ [E]) ++ [E]) n = node_coll σ n ∧
            node_rest ((σ ++ [E]) ++ [E]) n = node_rest σ n) as Hsame.
  { intros i n Hi. apply values_lookup in Hi as [k Hk].
    destruct (Hentry i k n Hk) as (Hr & [_ ?] & ?). unfold node_coll, node_rest.
    rewrite Hr, !Hread by lia. done. }
  split; try done.
  - destruct Hframe as [ext ->]. eexists. by rewrite <- !app_assoc.
  - rewrite !length_app. simpl. lia.
  - split.
    + rewrite read_app_old by (rewrite length_app; simpl; lia). apply read_alloc_new.
    + replace (S (length σ)) with (length (σ ++ [E])) by (rewrite length_app; simpl; lia).
      apply read_alloc_new.
  - intros i r Hi. destruct (Hroots i r Hi) as (n & Hn & ?). exists n. split; [|done].
    by apply Hold'.
  - intros i n Hi Hge.
    destruct (extended_lookup _ _ _ _ _ _ eq_refl Hi) as [(Hlt & _)|(_ & ->)].
    + apply (Hfresh i n); [by apply Hold|done].
    + simpl. destruct Hframe as [ext ->]. rewrite length_app. lia.
  - intros a b Hab. apply Hedge, Hfwd in Hab. unfold extended.
    rewrite length_app. simpl. lia.
  - intros i n Hi x.
    destruct (extended_lookup _ _ _ _ _ _ eq_refl Hi) as [(Hlt & _)|(_ & ->)].
    + pose proof (Hold i n Hi Hlt) as Hn. destruct (Hsame i n Hn) as [-> ->].
      rewrite (Hcov i n Hn x). split.
      * intros [?|(j & c & Hj & Hc & Hx)]; [by left|right]. exists j, c.
        split; [done|]. split; [by apply Hold'|]. by rewrite (proj1 (Hsame j c Hc)).
      * intros [?|(j & c & Hj & Hc & Hx)]; [by left|right]. exists j, c.
        assert (amap_values M !! j = Some c) as Hc'.
        { apply Hold; [done|]. rewrite <- Hvlen. apply (Hfwd i j). by exists n. }
        split; [done|]. split; [done|]. by rewrite <- (proj1 (Hsame j c Hc')).
    + unfold node_coll, node_rest. simpl.
      rewrite read_app_old by (rewrite length_app; simpl; lia). rewrite read_alloc_new.
      replace (S (length σ)) with (length (σ ++ [E])) by (rewrite length_app; simpl; lia).
      rewrite read_alloc_new. split; [by left|]. by intros [?|(j & c & [] & _)].
  - intros a b n c Hn Hb Hc.
    assert (imports_of (amap_values M) a b) as Hab by (apply Hedge; by exists n).
    pose proof (Hfwd a b Hab) as [? ?].
    apply (Hdepth a b n c); [apply Hold; [done|lia]|done|apply Hold; [done|lia]].
  - intros i n Hi Hlt Hnone. apply (Hzero i n); [by apply Hold|].
    intros p (c & Hc & Hin). apply (Hnone p). exists c. split; [by apply Hold'|done].
  - split.
    + intros a b Hab. apply (lk_targets _ _ Hlk a b). by apply Hedge.
    + intros a b ca cb Ha Hb Hage Hbge Hcab.
      destruct (extended_lookup _ _ _ _ _ _ eq_refl Ha) as [(Halt & ka & Hka)|(-> & ->)];
        destruct (extended_lookup _ _ _ _ _ _ eq_refl Hb) as [(Hblt & kb & Hkb)|(-> & ->)].
      * apply (lk_distinct _ _ Hlk a b ca cb); try done; by apply Hold.
      * destruct (Hentry a ka ca Hka) as (_ & _ & ?). simpl in Hcab. lia.
      * destruct (Hentry b kb cb Hkb) as (_ & _ & ?). simpl in Hcab. lia.
      * done.
Qed.

Lemma upd_inv_final σ M d newSet (E : list T) :
  upd_inv σ0 inputs newSet (length M) E true σ M d →
  wnodes σ (amap_set (S newSet) (mkNode newSet (S newSet) [] d) M).
Proof.
  intros [Hframe Hsize _ Hinputs Hkeys Hentry Hdisj [Hnew Hnewr] Hroots Hfresh Hfwd Hcov
          Hdepth Hzero Hlk Hparent Hmin].
  assert (amap_get (S newSet) M = None) as Hnone.
  { apply amap_get_None. intros Hin. apply in_map_iff in Hin as ([k n] & Hk & Hin).
    simpl in Hk. subst k. apply list_elem_of_In, list_elem_of_lookup in Hin as [i Hi].
    destruct (Hentry i _ n Hi) as (_ & ? & _). lia. }
  rewrite (amap_set_new _ _ _ Hnone).
  assert (amap_values (M ++ [(S newSet, mkNode newSet (S newSet) [] d)])
          = extended newSet M d) as Hvals.
  { unfold extended, amap_values. by rewrite map_app. }
  destruct (Hparent eq_refl) as (p & cp & Hcp & Hpin).
  assert (length σ0 ≤ newSet) as Hbase.
  { destruct (extended_lookup _ _ _ _ _ _ eq_refl Hcp) as [(_ & k & Hk)|(_ & ->)]; [|done].
    destruct (Hentry p k cp Hk) as (_ & ? & _). lia. }
  split.
  - rewrite Hvals. split; try done. intros i n Hi Hno.
    destruct (extended_lookup _ _ _ _ _ _ eq_refl Hi) as [(Hlt & _)|(-> & _)].
    + by apply (Hzero i n).
    + exfalso. apply (Hno p). by exists cp.
  - by rewrite Hvals.
  - rewrite length_app. simpl. lia.
  - unfold amap_keys. rewrite map_app. simpl. apply List.NoDup_app; [done| |].
    + repeat constructor. by intros [].
    + intros k Hk [<-|[]]. by apply (proj1 (amap_get_None _ _) Hnone).
  - intros i k n Hi. destruct (decide (i < length M)) as [Hlt|Hge].
    + rewrite lookup_app_l in Hi by done. destruct (Hentry i k n Hi) as (? & ? & ?).
      split; [done|]. lia.
    + rewrite lookup_app_r in Hi by lia.
      destruct (i - length M) as [|?]; [|done]. injection Hi as <- <-. simpl.
      split; [done|]. lia.
  - intros i j k n k' n' Hi Hj.
    assert (∀ i k n, (M ++ [(S newSet, mkNode newSet (S newSet) [] d)]) !! i = Some (k, n) →
              M !! i = Some (k, n) ∨ (k = S newSet ∧ n = mkNode newSet (S newSet) [] d))
      as Hcases.
    { intros i1 k1 n1 Hi1. destruct (decide (i1 < length M)) as [Hlt|Hge].
      - rewrite lookup_app_l in Hi1 by done. by left.
      - rewrite lookup_app_r in Hi1 by lia.
        destruct (i1 - length M) as [|?]; [|done]. injection Hi1 as <- <-. by right. }
    destruct (Hcases i k n Hi) as [Hi'|[-> ->]];
      destruct (Hcases j k' n' Hj) as [Hj'|[-> ->]].
    + by eapply Hdisj.
    + destruct (Hentry i k n Hi') as (_ & _ & ?). lia.
    + simpl. destruct (Hentry j k' n' Hj') as (_ & ? & _). lia.
    + simpl. lia.
Qed.
End WeightedNodes.

Section WeightedStep.
Context {T U : Type} `{EqDecision T} `{EqDecision U}.
Variable join : list T → U.
Variable split : U → list T.
Variable primaryWeight secondaryWeight : Weighted.WeightFunction.

(** [split] gives back the elements that were joined *)
Hypothesis Hsplit : ∀ l x, l ≠ [] → In x (split (join l)) ↔ In x l.

Variables (σ0 : Store T) (inputs : list ref).
Implicit Types (σ : Store T) (M : list (ref * Node)) (st : Weighted.State (T := T) (U := U)).

(** the set [s] has a node, whose collection holds the elements of the
    intersection [k] *)
Definition valid σ M (k : U) (s : ref) : Prop :=
  ∃ n, amap_get s M = Some n ∧ ∀ x, In x (split k) → In x (node_coll σ n).

Lemma valid_keeps σ M σ' M' k s : keeps σ M σ' M' → valid σ M k s → valid σ' M' k s.
Proof.
  intros Hkeeps (n & Hn & Hk). destruct (Hkeeps s n Hn) as (n' & Hn' & Hc).
  exists n'. split; [done|]. by rewrite Hc.
Qed.

(** what the loop of [splitSets] keeps true *)
Record winv st : Prop := mk_winv {
  wi_nodes : wnodes σ0 inputs (Weighted.store st) (Weighted.setNodeMap st);
  wi_cloned : ∀ s, In s (Weighted.clonedSets st) →
                ∃ n, amap_get s (Weighted.setNodeMap st) = Some n;
  wi_imap : imap_ok (valid (Weighted.store st) (Weighted.setNodeMap st))
                    (Weighted.intersectionMap st);
  wi_imapset : imapset_ok (valid (Weighted.store st) (Weighted.setNodeMap st))
                          (Weighted.intersectionMapSet st)
}.

Lemma intersectSets_In (l1 l2 : list T) x :
  In x (intersectSets l1 l2) ↔ In x l1 ∧ In x l2.
Proof.
  unfold intersectSets. destruct (length l1 <=? length l2);
    rewrite filter_In, includes_In; tauto.
Qed.

(** the intersection of two sets that have nodes is valid for both *)
Lemma valid_intersection σ M (s1 s2 : ref) l :
  wnodes σ0 inputs σ M →
  (∃ n, amap_get s1 M = Some n) → (∃ n, amap_get s2 M = Some n) →
  l = intersectSets (read σ s1) (read σ s2) → l ≠ [] →
  valid σ M (join l) s1 ∧ valid σ M (join l) s2.
Proof.
  intros Hw [n1 Hn1] [n2 Hn2] -> Hne.
  assert (∀ s n, amap_get s M = Some n → ∀ x, In x (read σ s) → In x (node_coll σ n))
    as Hrest.
  { intros s n Hn x Hx. destruct (amap_get_position _ _ _ Hn) as [i Hi].
    destruct (wn_entry _ _ _ _ Hw i s n Hi) as (Hr & _).
    apply (ws_covered _ _ _ _ (wn_ws _ _ _ _ Hw) i n); [apply values_lookup; by exists s|].
    left. unfold node_rest. by rewrite Hr. }
  split.
  - exists n1. split; [done|]. intros x Hx. apply (Hrest s1 n1 Hn1).
    apply (proj1 (Hsplit _ x Hne)) in Hx. by apply intersectSets_In in Hx as [? ?].
  - exists n2. split; [done|]. intros x Hx. apply (Hrest s2 n2 Hn2).
    apply (proj1 (Hsplit _ x Hne)) in Hx. by apply intersectSets_In in Hx as [? ?].
Qed.

Lemma imap_ok_impl (P Q : U → ref → Prop) imap :
  (∀ k s, P k s → Q k s) → imap_ok P imap → imap_ok Q imap.
Proof.
  intros HPQ Hok. eapply Forall_impl; [exact Hok|].
  intros [k pairs] [Hne Hpairs]. split; [done|].
  eapply Forall_impl; [exact Hpairs|]. intros [s1 s2] [H1 H2]. split; by apply HPQ.
Qed.

Lemma imapset_ok_impl (P Q : U → ref → Prop) ims :
  (∀ k s, P k s → Q k s) → imapset_ok P ims → imapset_ok Q ims.
Proof.
  intros HPQ Hok. eapply Forall_impl; [exact Hok|].
  intros [k m] [Hne Hm]. split; [done|].
  eapply Forall_impl; [exact Hm|]. intros [s c] Hs. by apply HPQ.
Qed.

Lemma addUpdateToMaps_fold σ M pairs st st' :
  fold_left (Weighted.addUpdateToMaps join primaryWeight) pairs (Some st) = Some st' →
  Weighted.store st = σ → wnodes σ0 inputs σ M →
  Forall (λ p, (∃ n, amap_get p.1 M = Some n) ∧ (∃ n, amap_get p.2 M = Some n)) pairs →
  imap_ok (valid σ M) (Weighted.intersectionMap st) →
  imapset_ok (valid σ M) (Weighted.intersectionMapSet st) →
  Weighted.store st' = σ ∧
  Weighted.setNodeMap st' = Weighted.setNodeMap st ∧
  Weighted.clonedSets st' = Weighted.clonedSets st ∧
  imap_ok (valid σ M) (Weighted.intersectionMap st') ∧
  imapset_ok (valid σ M) (Weighted.intersectionMapSet st').
Proof.
  revert st. induction pairs as [|[s1 s2] pairs IH];
    intros st Hfold Hσ Hw Hpairs Himap Hims.
  - simpl in Hfold. injection Hfold as <-. done.
  - cbn [fold_left] in Hfold. apply Forall_cons in Hpairs as [[Hs1 Hs2] Hpairs].
    destruct (Weighted.addUpdateToMaps join primaryWeight (Some st) (s1, s2)) as [st1|] eqn:E1;
      [|rewrite fold_option_None in Hfold; done].
    destruct (addUpdateToMaps_ok join primaryWeight (valid σ M) st s1 s2 st1 E1)
      as (Hσ1 & HM1 & Hcl1 & Himap1 & Hims1); try done.
    { intros l Hl Hne. rewrite Hσ in Hl. by eapply valid_intersection. }
    destruct (IH st1 Hfold) as (Hσ' & HM' & Hcl' & Himap' & Hims'); try done.
    + congruence.
    + split; [done|]. split; [congruence|]. split; [congruence|]. done.
Qed.

Lemma step_inv st st' :
  winv st → Weighted.step join split primaryWeight secondaryWeight st = Some st' → winv st'.
Proof.
  intros [Hw Hcl Himap Hims]. unfold Weighted.step.
  destruct (Weighted.getHighestWeightIntersection _ _ _ _) as [[hwi hw]|]; simpl; [|done].
  destruct (amap_get hwi (Weighted.intersectionMapSet st)) as [setMap|] eqn:Eset;
    simpl; [|done].
  destruct (Weighted.getOtherAffectedIntersections _ _ _ _ _) as [[oai oas]|]; simpl; [|done].
  destruct (Weighted.removeUpdatedFromMaps _ _ _ _ _ _ _ _) as [[st1 ipairs]|] eqn:Erem;
    simpl; [|done].
  destruct (removeUpdatedFromMaps_ok split primaryWeight
              (valid (Weighted.store st) (Weighted.setNodeMap st))
              _ _ _ _ _ _ _ _ Erem Himap Hims)
    as (Hσ1 & HM1 & Hcl1 & Himap1 & Hims1 & Hpairs).
  rewrite Hσ1, HM1, Hcl1.
  set (σ := Weighted.store st) in *. set (M := Weighted.setNodeMap st) in *.
  set (E := to_set (split hwi)).
  rewrite length_app. simpl. rewrite Nat.add_1_r.
  destruct (fold_left (Weighted.updateSetObj _ _) _ _) as [[[σ3 M3] d3]|] eqn:Ef1;
    simpl; [|done].
  destruct (fold_left _ oas _) as [[[σ4 M4] d4]|] eqn:Ef2; simpl; [|done].
  destruct (Weighted.addUpdatedToMaps _ _ _ _ _) as [st5|] eqn:Eadd; simpl; [|done].
  intros [= <-].
  destruct (amap_get_Forall _ _ _ _ Hims Eset) as [Hne Hsets]. simpl in Hne, Hsets.
  assert (∀ s n, amap_get s M = Some n →
            node_coll ((σ ++ [E]) ++ [E]) n = node_coll σ n) as Hcoll2.
  { intros s n Hn. destruct (amap_get_position _ _ _ Hn) as [i Hi].
    destruct (wn_entry _ _ _ _ Hw i s n Hi) as (_ & _ & Hc). unfold node_coll.
    rewrite !read_app_old; [done|done|]. rewrite length_app. lia. }
  pose proof (upd_inv_init σ0 inputs σ M E Hw) as Hinv2.
  destruct (update_fold σ0 inputs (length σ) (length M) E false (amap_keys setMap)
              _ _ _ _ _ _ Hinv2 Ef1) as (Hinv3 & _ & Hkeeps3).
  { intros s Hs n Hn x Hx. apply in_map_iff in Hs as ([s' c] & <- & Hs).
    rewrite Forall_forall in Hsets.
    destruct (Hsets (s', c)) as (n0 & Hn0 & Hk); [by apply list_elem_of_In|].
    simpl in *. assert (n0 = n) as -> by congruence.
    rewrite (Hcoll2 s' n Hn). apply Hk. by apply to_set_In. }
  assert (upd_inv σ0 inputs (length σ) (length M) E true σ3 M3 d3) as Hinv3'.
  { destruct setMap; [done|]. exact Hinv3. }
  destruct (update_cond_fold σ0 inputs (length σ) (length M) E true (split hwi) oas
              _ _ _ _ _ _ ltac:(intros x Hx; by apply to_set_In) Hinv3' Ef2)
    as [Hinv4 Hkeeps4].
  pose proof (ui_len _ _ _ _ _ _ _ _ _ Hinv4) as HlenM4.
  rewrite <- HlenM4 in Hinv4. pose proof (upd_inv_final σ0 inputs _ _ _ _ _ Hinv4) as Hw5.
  set (M5 := amap_set (S (length σ)) (mkNode (length σ) (S (length σ)) [] d4) M4) in *.
  assert (keeps σ M σ4 M5) as Hkeeps.
  { intros s n Hn.
    destruct (Hkeeps3 s n Hn) as (n3 & Hn3 & Hc3).
    destruct (Hkeeps4 s n3 Hn3) as (n4 & Hn4 & Hc4).
    exists n4. split; [|by rewrite Hc4, Hc3, (Hcoll2 s n Hn)].
    unfold M5. rewrite amap_get_set_ne; [done|]. intros <-.
    destruct (amap_get_position _ _ _ Hn) as [i Hi].
    destruct (wn_entry _ _ _ _ Hw i _ n Hi) as (_ & ? & _). lia. }
  unfold Weighted.addUpdatedToMaps in Eadd. simpl in Eadd.
  destruct (addUpdateToMaps_fold σ4 M5 _ _ _ Eadd) as (Hσ5 & HM5 & Hcl5 & Himap5 & Hims5);
    try done.
  { assert (∀ s, (∃ n, amap_get s M = Some n) → ∃ n, amap_get s M5 = Some n) as Hkey.
    { intros s [n Hn]. destruct (Hkeeps s n Hn) as (n' & Hn' & _). by exists n'. }
    apply Forall_app. split.
    - apply Forall_forall. intros p Hp. apply list_elem_of_In, in_map_iff in Hp as (s & <- & Hs).
      simpl. split; [by apply Hkey, Hcl|]. eexists. apply amap_get_set_eq.
    - eapply Forall_impl; [exact Hpairs|]. intros [s1 s2] (k & (n1 & Hn1 & _) & (n2 & Hn2 & _)).
      simpl in *. split; apply Hkey; eauto. }
  { eapply imap_ok_impl; [|exact Himap1]. intros k s. by apply valid_keeps. }
  { eapply imapset_ok_impl; [|exact Hims1]. intros k s. by apply valid_keeps. }
  simpl in HM5, Hcl5. split; simpl; rewrite ?Hσ5, ?HM5, ?Hcl5; try done.
  intros s Hs. apply oset_add_In in Hs as [->|Hs].
  - eexists. apply amap_get_set_eq.
  - destruct (Hcl s Hs) as [n Hn]. destruct (Hkeeps s n Hn) as (n' & Hn' & _). by exists n'.
Qed.

Lemma loop_inv fuel st σ' nodes :
  winv st →
  Weighted.loop join split primaryWeight secondaryWeight fuel st = Weighted.Done σ' nodes →
  ∃ M, wnodes σ0 inputs σ' M ∧ nodes = amap_values M.
Proof.
  revert st. induction fuel as [|fuel IH]; intros st Hinv; simpl.
  - destruct (length (Weighted.intersectionMap st) =? 0); [|done].
    intros [= <- <-]. eexists. split; [apply (wi_nodes _ Hinv)|done].
  - destruct (length (Weighted.intersectionMap st) =? 0).
    + intros [= <- <-]. eexists. split; [apply (wi_nodes _ Hinv)|done].
    + destruct (Weighted.step join split primaryWeight secondaryWeight st) as [st1|] eqn:E1;
        [|done].
      apply IH. by eapply step_inv.
Qed.

End WeightedStep.

Section WeightedResult.
Context {T U : Type} `{EqDecision T} `{EqDecision U}.
Variable join : list T → U.
Variable split : U → list T.
Variable primaryWeight secondaryWeight : Weighted.WeightFunction.
Hypothesis Hsplit : ∀ l x, l ≠ [] → In x (split (join l)) ↔ In x l.
Implicit Types (σ : Store T) (M : list (ref * Node)).

(** [createSetObjMap]: one clone and one node per set *)
Definition initial_entry (base : nat) (i : nat) (s : ref) : ref * Node :=
  (base + i, mkNode s (base + i) [] (Num 0)).

Lemma initial_entry_get base (sets : list ref) k :
  base + length sets ≤ k → amap_get k (imap (initial_entry base) sets) = None.
Proof.
  intros Hk. apply amap_get_None. intros Hin. apply in_map_iff in Hin as ([k' n] & Hk' & Hin).
  simpl in Hk'. subst k'. apply list_elem_of_In, list_elem_of_lookup in Hin as [i Hi].
  rewrite list_lookup_imap in Hi. destruct (sets !! i) as [s|] eqn:Es; [|done].
  apply lookup_lt_Some in Es. injection Hi as <- _. lia.
Qed.

Lemma createSetObjMap_spec σ (sets : list ref) :
  Forall (λ r, r < length σ) sets →
  Weighted.createSetObjMap σ sets
  = (σ ++ map (read σ) sets, imap (initial_entry (length σ)) sets,
     seq (length σ) (length sets)).
Proof.
  unfold Weighted.createSetObjMap.
  induction sets as [|a l IH] using rev_ind; intros Hin.
  - simpl. by rewrite app_nil_r.
  - apply Forall_app in Hin as [Hl Ha]. apply Forall_cons in Ha as [Ha _].
    rewrite fold_left_app, (IH Hl). simpl. unfold cloneSet, alloc.
    rewrite read_app_old by done. rewrite length_app, length_map.
    rewrite amap_set_new by (by apply initial_entry_get).
    rewrite map_app, app_assoc, imap_app, length_app. simpl.
    unfold initial_entry at 3. rewrite Nat.add_0_r. f_equal.
    rewrite Nat.add_1_r, seq_S. unfold oset_add.
    destruct (includes _ _) eqn:Einc; [|done].
    apply includes_In, in_seq in Einc. lia.
Qed.

Lemma initial_lookup base (sets : list ref) i k n :
  imap (initial_entry base) sets !! i = Some (k, n) ↔
  ∃ s, sets !! i = Some s ∧ k = base + i ∧ n = mkNode s (base + i) [] (Num 0).
Proof.
  rewrite list_lookup_imap. destruct (sets !! i) as [s|]; simpl; split.
  - intros [= <- <-]. by exists s.
  - intros (s' & [= <-] & -> & ->). done.
  - done.
  - by intros (s' & ? & _).
Qed.

Lemma initial_wnodes σ (sets : list ref) :
  Forall (λ r, r < length σ) sets →
  wnodes σ sets (σ ++ map (read σ) sets) (imap (initial_entry (length σ)) sets).
Proof.
  intros Hin. set (M := imap (initial_entry (length σ)) sets).
  assert (∀ i n, amap_values M !! i = Some n ↔
            ∃ s, sets !! i = Some s ∧ n = mkNode s (length σ + i) [] (Num 0)) as Hval.
  { intros i n. rewrite values_lookup. split.
    - intros (k & Hk). apply initial_lookup in Hk as (s & Hs & _ & ->). by exists s.
    - intros (s & Hs & ->). exists (length σ + i). apply initial_lookup. by exists s. }
  assert (∀ a b, ¬ imports_of (amap_values M) a b) as Hnoimp.
  { intros a b (n & Hn & Hb). apply Hval in Hn as (s & _ & ->). done. }
  assert (length M = length sets) as HlenM by (unfold M; by rewrite length_imap).
  split.
  - split.
    + by eexists.
    + intros i r Hi. eexists. split; [apply Hval; by exists r|done].
    + intros i n Hn Hge. apply lookup_lt_Some in Hn. unfold amap_values in Hn.
      rewrite length_map in Hn. lia.
    + intros a b Hab. by apply Hnoimp in Hab.
    + intros i n Hn x. apply Hval in Hn as (s & Hs & ->).
      unfold node_coll, node_rest. simpl.
      assert (s < length σ) as Hlt.
      { rewrite Forall_forall in Hin. by apply Hin, list_elem_of_lookup_2 with i. }
      rewrite read_app_old by done.
      assert (read (σ ++ map (read σ) sets) (length σ + i) = read σ s) as ->.
      { unfold read at 1. rewrite lookup_app_r by lia.
        replace (length σ + i - length σ) with i by lia.
        change (map (read σ) sets) with (read σ <$> sets). by rewrite list_lookup_fmap, Hs. }
      split; [by left|]. by intros [?|(j & c & [] & _)].
    + intros a b n c Hn Hb. exfalso. apply (Hnoimp a b). by exists n.
    + intros i n Hn _. by apply Hval in Hn as (s & _ & ->).
  - split.
    + intros a b Hab. by apply Hnoimp in Hab.
    + intros a b n m Hn _ Hge. apply lookup_lt_Some in Hn. unfold amap_values in Hn.
      rewrite length_map in Hn. lia.
  - lia.
  - apply NoDup_ListNoDup, NoDup_alt. intros i j k Hi Hj. unfold amap_keys in *.
    change (map fst M) with (fst <$> M) in *.
    apply list_lookup_fmap_Some_1 in Hi as ([k1 n1] & -> & Hi).
    apply list_lookup_fmap_Some_1 in Hj as ([k2 n2] & Hk & Hj). simpl in Hk. subst k2.
    apply initial_lookup in Hi as (_ & _ & -> & _).
    apply initial_lookup in Hj as (_ & _ & Hk & _). lia.
  - intros i k n Hi. apply initial_lookup in Hi as (s & Hs & -> & ->). simpl.
    pose proof (lookup_lt_Some _ _ _ Hs).
    assert (s < length σ) as Hlt.
    { rewrite Forall_forall in Hin. by apply Hin, list_elem_of_lookup_2 with i. }
    rewrite length_app, length_map. lia.
  - intros i j k n k' n' Hi Hj. apply initial_lookup in Hi as (s & Hs & -> & ->).
    apply initial_lookup in Hj as (s' & Hs' & -> & ->). simpl.
    assert (s < length σ) as Hlt.
    { rewrite Forall_forall in Hin. by apply Hin, list_elem_of_lookup_2 with i. }
    lia.
Qed.

Lemma orderedPairs_In (l : list ref) a b :
  In (a, b) (Weighted.orderedPairs l) → In a l ∧ In b l.
Proof.
  induction l as [|s l IH]; simpl; [done|]. rewrite in_app_iff, in_map_iff.
  intros [(s2 & [= <- <-] & Hs2)|Hin].
  - split; [by left|by right].
  - destruct (IH Hin). split; by right.
Qed.

Lemma createIntersectionMap_ok σ0 inputs σ M (pairs : list (ref * ref)) imap :
  wnodes σ0 inputs σ M →
  Forall (λ p, (∃ n, amap_get p.1 M = Some n) ∧ (∃ n, amap_get p.2 M = Some n)) pairs →
  imap_ok (valid split σ M) imap →
  imap_ok (valid split σ M)
    (fold_left (λ intersectionMap '(set1, set2),
                  let intersectedSet := intersectSets (read σ set1) (read σ set2) in
                  if 0 <? length intersectedSet
                  then Weighted.pushPair intersectionMap (join intersectedSet) (set1, set2)
                  else intersectionMap)
               pairs imap).
Proof.
  intros Hw. revert imap. induction pairs as [|[s1 s2] pairs IH]; intros imap Hpairs Himap.
  - done.
  - apply Forall_cons in Hpairs as [[H1 H2] Hpairs]. cbn [fold_left]. apply IH; [done|].
    cbv zeta. destruct (0 <? length _) eqn:Elen; [|done].
    destruct (valid_intersection join split Hsplit σ0 inputs σ M s1 s2 _ Hw H1 H2 eq_refl)
      as [Hv1 Hv2].
    { intros Hnil. by rewrite Hnil in Elen. }
    by apply pushPair_ok.
Qed.

Lemma setsMap_ok (P : U → ref → Prop) k (sets : list (ref * ref)) (m : list (ref * nat)) :
  Forall (λ p, P k p.1 ∧ P k p.2) sets → Forall (λ sc : ref * nat, P k sc.1) m →
  Forall (λ sc : ref * nat, P k sc.1)
    (fold_left (λ setsMap '(set1, set2),
                  Weighted.addToIntersectingMapSets
                    (Weighted.addToIntersectingMapSets setsMap set1) set2) sets m) ∧
  (sets ≠ [] ∨ m ≠ [] →
   fold_left (λ setsMap '(set1, set2),
                Weighted.addToIntersectingMapSets
                  (Weighted.addToIntersectingMapSets setsMap set1) set2) sets m ≠ []).
Proof.
  revert m. induction sets as [|[s1 s2] sets IH]; intros m Hsets Hm.
  - simpl. split; [done|]. by intros [?|?].
  - apply Forall_cons in Hsets as [[H1 H2] Hsets]. cbn [fold_left].
    destruct (addToIntersectingMapSets_ok P k m s1 Hm H1) as [_ Hm1].
    destruct (addToIntersectingMapSets_ok P k _ s2 Hm1 H2) as [Hne Hm2].
    destruct (IH _ Hsets Hm2) as [Hall Hnonempty]. split; [done|].
    intros _. apply Hnonempty. by right.
Qed.

Lemma createIntersectionMapSet_ok (P : U → ref → Prop) imap :
  imap_ok P imap → imapset_ok P (Weighted.createIntersectionMapSet imap).
Proof.
  unfold Weighted.createIntersectionMapSet.
  assert (∀ acc, imap_ok P imap → imapset_ok P acc →
            imapset_ok P
              (fold_left (λ intersectionMapSet '(key, sets),
                            amap_set key
                              (fold_left (λ setsMap '(set1, set2),
                                            Weighted.addToIntersectingMapSets
                                              (Weighted.addToIntersectingMapSets setsMap set1)
                                              set2)
                                         sets [])
                              intersectionMapSet)
                         imap acc)) as Hgen.
  { induction imap as [|[k sets] imap IH]; intros acc Himap Hacc; [done|].
    apply Forall_cons in Himap as [[Hne Hsets] Himap]. cbn [fold_left]. apply IH; [done|].
    simpl in Hne, Hsets.
    destruct (setsMap_ok P k sets [] Hsets ltac:(constructor)) as [Hall Hnonempty].
    apply Forall_amap_set; [done|]. simpl. split; [|done]. apply Hnonempty. by left. }
  intros Himap. apply Hgen; [done|constructor].
Qed.

Lemma initial_winv σ (sets : list ref) :
  Forall (λ r, r < length σ) sets →
  winv split σ sets (Weighted.initialState join split primaryWeight σ sets).
Proof.
  intros Hin. unfold Weighted.initialState. rewrite (createSetObjMap_spec σ sets Hin).
  pose proof (initial_wnodes σ sets Hin) as Hw.
  set (σ' := σ ++ map (read σ) sets) in *.
  set (M := imap (initial_entry (length σ)) sets) in *.
  assert (∀ s, In s (seq (length σ) (length sets)) → ∃ n, amap_get s M = Some n) as Hcl.
  { intros s Hs. apply in_seq in Hs.
    destruct (lookup_lt_is_Some_2 sets (s - length σ)) as [r Hr]; [lia|].
    eexists. eapply (amap_get_lookup _ _ _ (s - length σ)); [apply (wn_keys _ _ _ _ Hw)|].
    apply initial_lookup. exists r. split; [done|]. split; [lia|done]. }
  assert (imap_ok (valid split σ' M)
            (Weighted.createIntersectionMap join σ' (seq (length σ) (length sets))))
    as Himap.
  { unfold Weighted.createIntersectionMap.
    eapply createIntersectionMap_ok; [exact Hw| |constructor].
    apply Forall_forall. intros [s1 s2] Hp.
    apply list_elem_of_In, orderedPairs_In in Hp as [H1 H2]. split; by apply Hcl. }
  split; simpl; try done. by apply createIntersectionMapSet_ok.
Qed.

Lemma weighted_splitSets_splits_well fuel :
  splits_well (λ σ sets,
    Weighted.returned
      (Weighted.splitSets join split primaryWeight secondaryWeight fuel σ sets)).
Proof.
  intros σ sets σ' nodes Hin Hret. unfold Weighted.splitSets in Hret.
  destruct (Weighted.loop _ _ _ _ _ _) as [σ1 nodes1| |] eqn:Eloop; try done.
  simpl in Hret. injection Hret as -> ->.
  destruct (loop_inv join split primaryWeight secondaryWeight Hsplit σ sets fuel _ _ _
              (initial_winv σ sets Hin) Eloop) as (M & Hw & ->).
  split; [apply (wn_ws _ _ _ _ Hw)|]. split; [apply (wn_linked _ _ _ _ Hw)|].
  intros n Hn. apply list_elem_of_In, list_elem_of_lookup in Hn as [i Hi].
  apply values_lookup in Hi as [k Hk].
  destruct (wn_entry _ _ _ _ Hw i k n Hk) as (-> & ? & ?). lia.
Qed.

Lemma weighted_splitArrays_well_split fuel σ (arrays : list ref) σ' nodes :
  Forall (λ r, r < length σ) arrays →
  Weighted.splitArrays join split primaryWeight secondaryWeight fuel σ arrays
    = Some (σ', nodes) →
  well_split σ arrays σ' nodes.
Proof.
  intros Hin Hsplitted.
  apply (convert_well_split to_set (λ array, array)) with
    (f := λ σ sets, Weighted.returned
            (Weighted.splitSets join split primaryWeight secondaryWeight fuel σ sets));
    try done.
  - apply to_set_In.
  - apply weighted_splitSets_splits_well.
Qed.
End WeightedResult.

(** * What every entry point returns *)

Section EntryPointResults.
Context {T U : Type} `{EqDecision T} `{EqDecision U}.
Variable lt : T → T → bool.
Variable defaultCompare : T → T → Z.
Variable join : list T → U.
Variable split : U → list T.
Hypothesis Hsplit : ∀ l x, l ≠ [] → In x (split (join l)) ↔ In x l.

Lemma call_well_split (entry : EntryPoint) fuel (σ : Store T) (inputs : list ref) σ' nodes :
  Forall (λ r, r < length σ) inputs →
  call lt defaultCompare join split entry fuel σ inputs = Some (σ', nodes) →
  well_split σ inputs σ' nodes.
Proof.
  intros Hin Hcall. destruct entry as [sets|sort|sort|pw sw|pw sw]; simpl in Hcall.
  - injection Hcall as Hcall.
    assert ((if sets then Shallow.Sets inputs else Shallow.Arrays inputs)
              = Shallow.Arrays inputs ∨
            (if sets then Shallow.Sets inputs else Shallow.Arrays inputs)
              = Shallow.Sets inputs) as Hcoll by (destruct sets; [by right|by left]).
    by destruct (splitIntersectionsShallow_well_split σ inputs _ σ' nodes Hin Hcoll Hcall).
  - by eapply splitArrays_well_split.
  - by eapply biggest_splitSets_well_split.
  - by destruct (weighted_splitSets_splits_well join split pw sw Hsplit fuel σ inputs σ' nodes).
  - by eapply weighted_splitArrays_well_split.
Qed.

Lemma well_split_read (σ : Store T) (inputs : list ref) σ' nodes r :
  well_split σ inputs σ' nodes → r < length σ → read σ' r = read σ r.
Proof. intros [[ext ->] _ _ _ _ _ _] Hr. by apply read_app_old. Qed.
End EntryPointResults.

(** the numbers in ascending order, as in [array.sort((a, b) => a - b)] *)
Definition numberCompare (a b : Z) : Z := (a - b)%Z.

Lemma sort_by_In {A : Type} (cmp : A → A → Z) (l : list A) x :
  In x (sort_by cmp l) ↔ In x l.
Proof.
  split; apply Permutation_in; [|symmetry]; apply sort_by_Permutation.
Qed.




(** C5: in the node list an entry point returns, no node imports itself,
    directly or through other nodes; a node that no node imports has depth 0;
    and along every import the depth grows by at least one.  The inputs are
    objects of the store, and [split] gives back the elements that [join] was
    given. *)
Theorem imports_acyclic_and_depths_increase {T U : Type} `{EqDecision T} `{EqDecision U}
    (lt : T → T → bool) (defaultCompare : T → T → Z)
    (join : list T → U) (split : U → list T)
    (entry : EntryPoint) (fuel : nat) (σ : Store T) (inputs : list ref)
    (σ' : Store T) (nodes : list Node) :
  (∀ l x, l ≠ [] → In x (split (join l)) ↔ In x l) →
  Forall (λ r, r < length σ) inputs →
  call lt defaultCompare join split entry fuel σ inputs = Some (σ', nodes) →
  acyclic nodes ∧ unimported_at_zero nodes ∧ depth_increases nodes.
Proof.
  intros Hsplit Hin Hcall.
  pose proof (call_well_split lt defaultCompare join split Hsplit entry fuel σ inputs
                σ' nodes Hin Hcall) as Hws.
  split; [|split].
  - apply forward_acyclic, (ws_forward _ _ _ _ Hws).
  - apply (ws_zero _ _ _ _ Hws).
  - apply (ws_depth _ _ _ _ Hws).
Qed.

Lemma imports_acyclic_and_depths_increase_witness :
  ∃ σ' nodes,
    call Z.ltb numberCompare (sort_by numberCompare) (λ u, u)
         (BiggestSplitSets (Biggest.SortWith numberCompare)) 4
         [[1; 2; 3]; [2; 3; 4]; [3; 4; 5]]%Z [0; 1; 2] = Some (σ', nodes) ∧
    map depth nodes = [Num 0; Num 0; Num 0; Num 1; Num 1; Num 2] ∧
    acyclic nodes ∧ unimported_at_zero nodes ∧ depth_increases nodes.
Proof.
  eexists _, _. split; [vm_compute; reflexivity|]. split; [reflexivity|].
  eapply (imports_acyclic_and_depths_increase Z.ltb numberCompare
           (sort_by numberCompare) (λ u, u)
           (BiggestSplitSets (Biggest.SortWith numberCompare)) 4
           [[1; 2; 3]; [2; 3; 4]; [3; 4; 5]]%Z [0; 1; 2] _ _
           (λ l x _, sort_by_In numberCompare l x)).
  - repeat constructor; simpl; lia.
  - vm_compute; reflexivity.
Defined.

(** C8: a call of an entry point changes no object of the caller's store, so
    every input collection holds the elements it held, in their order; the
    node list starts with one root per input, whose collection is the input
    object itself; and the collection of every further node is an object the
    call has made.  The inputs are objects of the store, and [split] gives
    back the elements that [join] was given. *)
Theorem inputs_not_mutated_and_held_by_roots {T U : Type} `{EqDecision T} `{EqDecision U}
    (lt : T → T → bool) (defaultCompare : T → T → Z)
    (join : list T → U) (split : U → list T)
    (entry : EntryPoint) (fuel : nat) (σ : Store T) (inputs : list ref)
    (σ' : Store T) (nodes : list Node) :
  (∀ l x, l ≠ [] → In x (split (join l)) ↔ In x l) →
  Forall (λ r, r < length σ) inputs →
  call lt defaultCompare join split entry fuel σ inputs = Some (σ', nodes) →
  (∀ r, r < length σ → read σ' r = read σ r) ∧
  (∀ i r, inputs !! i = Some r →
     read σ' r = read σ r ∧ ∃ n, nodes !! i = Some n ∧ coll n = r) ∧
  (∀ i n, nodes !! i = Some n → length inputs ≤ i → length σ ≤ coll n).
Proof.
  intros Hsplit Hin Hcall.
  pose proof (call_well_split lt defaultCompare join split Hsplit entry fuel σ inputs
                σ' nodes Hin Hcall) as Hws.
  split; [|split].
  - intros r Hr. by eapply well_split_read.
  - intros i r Hi. split.
    + eapply well_split_read; [exact Hws|]. rewrite Forall_forall in Hin.
      by apply Hin, list_elem_of_lookup_2 with i.
    + destruct (ws_roots _ _ _ _ Hws i r Hi) as (n & Hn & Hc & _). by exists n.
  - apply (ws_fresh _ _ _ _ Hws).
Qed.

Lemma inputs_not_mutated_and_held_by_roots_witness :
  ∃ σ' nodes,
    call Z.ltb numberCompare (sort_by numberCompare) (λ u, u)
         (WeightedSplitSets Weighted.elementsCount Weighted.setsCount) 3
         [[1; 2; 3]; [2; 3; 4]; [3; 4; 5]]%Z [0; 1; 2] = Some (σ', nodes) ∧
    map coll nodes = [0; 1; 2; 6; 8; 10] ∧
    (∀ r, r < 3 → read σ' r = read [[1; 2; 3]; [2; 3; 4]; [3; 4; 5]]%Z r).
Proof.
  eexists _, _. split; [vm_compute; reflexivity|]. split; [reflexivity|].
  eapply (inputs_not_mutated_and_held_by_roots Z.ltb numberCompare
           (sort_by numberCompare) (λ u, u)
           (WeightedSplitSets Weighted.elementsCount Weighted.setsCount) 3
           [[1; 2; 3]; [2; 3; 4]; [3; 4; 5]]%Z [0; 1; 2] _ _
           (λ l x _, sort_by_In numberCompare l x)).
  - repeat constructor; simpl; lia.
  - vm_compute; reflexivity.
Defined.

(** * The greedy splitter on arrays that share no element *)

Section Pairwise.
Context {A : Type} (R : A → A → Prop).

(** [R] holds between every element of the list and every later one *)
Fixpoint pairwise (l : list A) : Prop :=
  match l with
  | [] => True
  | a :: l' => Forall (R a) l' ∧ pairwise l'
  end.



Hypothesis R_sym : ∀ a b, R a b → R b a.



Lemma pairwise_drop l i a :
  pairwise l → l !! i = Some a → Forall (R a) (drop (S i) l).
Proof.
  revert i. induction l as [|x l IH]; intros [|i] Hl Hi; simpl in *; try done.
  - injection Hi as ->. rewrite drop_0. tauto.
  - apply IH; tauto.
Qed.
End Pairwise.

Section ListFilter.
Context {A : Type}.

Lemma List_filter_sublist (p : A → bool) (l : list A) : sublist (List.filter p l) l.
Proof.
  induction l as [|x l IH]; simpl; [constructor|].
  destruct (p x); by constructor.
Qed.
End ListFilter.

Section GreedyDisjoint.
Context {T : Type} `{EqDecision T}.
Variable lt : T → T → bool.
Variable sort : Biggest.SortOption (T := T).
Implicit Types (a b r L : list T) (rs : list (list T)) (st : Biggest.Search (T := T)).

(** elements that the comparison in use does not tell apart are the same
    element: [!(a < b) && !(b < a)] for [sort = true], [sorter(a, b) = 0] for
    a sorter *)
Definition equality_by_comparison : Prop :=
  match sort with
  | Biggest.SortTrue => ∀ x y, lt x y = false → lt y x = false → x = y
  | Biggest.SortFalse => True
  | Biggest.SortWith sorter => ∀ x y, sorter x y = 0%Z → x = y
  end.

Definition disjoint a b : Prop := ∀ x, In x a → ¬ In x b.


Lemma orderedIntersection_In2 (before after : T → T → bool) a b x :
  (∀ v1 v2, before v1 v2 = false → after v1 v2 = false → v1 = v2) →
  In x (Biggest.orderedIntersection before after a b) → In x b.
Proof.
  intros Heq. revert b. induction a as [|v1 a IHa]; intros b; [done|].
  induction b as [|v2 b IHb]; [done|]. simpl.
  destruct (before v1 v2) eqn:Eb; [apply (IHa (v2 :: b))|].
  destruct (after v1 v2) eqn:Ea; [intros Hx; right; by apply IHb|].
  intros [<-|Hx]; [left; symmetry; by apply Heq|right; by apply (IHa b)].
Qed.

Lemma intersection_In2 a b x :
  equality_by_comparison →
  In x (Biggest.intersectionFunction lt sort a b) → In x b.
Proof.
  unfold equality_by_comparison, Biggest.intersectionFunction. destruct sort; intros Heq.
  - apply orderedIntersection_In2. intros v1 v2 H1 H2. by apply Heq.
  - intros Hx. apply (getIntersection_In lt) in Hx. tauto.
  - apply orderedIntersection_In2. intros v1 v2 H1 H2. apply Heq.
    apply Z.ltb_ge in H1, H2. lia.
Qed.


Hypothesis Heq : equality_by_comparison.



Lemma zip_seq_lookup (next : list (list T)) i set :
  In (i, set) (zip (seq 0 (length next)) next) → next !! i = Some set.
Proof.
  intros Hin. apply list_elem_of_In, list_elem_of_lookup in Hin as [k Hk].
  apply lookup_zip_with_Some in Hk as (i' & set' & [= -> ->] & Hi & Hset).
  apply lookup_seq in Hi as [-> _]. done.
Qed.






End GreedyDisjoint.

Section GreedyRests.
Context {T : Type} `{EqDecision T}.
Variable lt : T → T → bool.
Variable defaultCompare : T → T → Z.
Variable sort : Biggest.SortOption (T := T).
Implicit Types (σ : Store T) (nodes : list Node).



End GreedyRests.

(** ** The order of a [rest] *)

Section SortOrder.
Context {A : Type}.
Variable cmp : A → A → Z.






End SortOrder.





(** * A sorter that does not tell two elements apart *)

Section GreedyRestsAfterExtract.
Context {T : Type} `{EqDecision T}.
Implicit Types (σ : Store T) (nodes : list Node) (L : list T).

(** what an extraction makes of a [rest] *)
Definition rest_after L (r : list T) : list T :=
  if forallb (λ includedElement, includes r includedElement) L
  then List.filter (λ el, negb (includes L el)) r
  else r.

Lemma extract_rests σ nodes L σ' nodes' :
  (∀ n, In n nodes → rest n < length σ) →
  Biggest.extract σ nodes L = (σ', nodes') →
  rests σ' nodes' = map (rest_after L) (rests σ nodes) ++ [L] ∧
  (∀ n, In n nodes' → rest n < length σ').
Proof.
  intros Hrefs Hex. destruct (extract_spec σ nodes L Hrefs) as (ext & nodes1 & Hex' & Hall).
  rewrite Hex' in Hex. injection Hex as <- <-.
  change (σ ++ [L] ++ ext) with (σ ++ L :: ext) in *.
  assert (length σ < length (σ ++ L :: ext)) as Hlen by (rewrite length_app; simpl; lia).
  split.
  - unfold rests. rewrite map_app. simpl. f_equal.
    + rewrite map_map. clear Hex'. revert Hrefs.
      induction Hall as [|n n' ns ns1 Hn Hall IH]; intros Hrefs; [done|].
      simpl. f_equal; [|apply IH; intros; apply Hrefs; by right].
      destruct Hn as (_ & _ & Hn). unfold rest_after. fold (takes σ L n).
      destruct (takes σ L n).
      * destruct Hn as (_ & _ & Hread). unfold node_rest at 1. by rewrite Hread.
      * subst n'. unfold node_rest. apply read_app_old. apply Hrefs. by left.
    + unfold node_rest. simpl. unfold read. by rewrite list_lookup_middle.
  - intros n Hn. apply in_app_iff in Hn as [Hn|[<-|[]]]; [|done].
    apply list_elem_of_In, list_elem_of_lookup in Hn as [i Hi].
    destruct (Forall2_lookup_r _ _ _ _ _ Hall Hi) as (n0 & Hn0 & _ & _ & Hupd).
    destruct (takes σ L n0).
    + destruct Hupd as ([_ ?] & _). done.
    + subst n. etransitivity; [|exact Hlen].
      apply Hrefs. by eapply list_elem_of_In, list_elem_of_lookup_2.
Qed.
End GreedyRestsAfterExtract.

Section SearchEmpties.
Context {T : Type} `{EqDecision T}.
Variable lt : T → T → bool.
Variable sort : Biggest.SortOption (T := T).
Implicit Types (r : list T) (rs F : list (list T)) (st : Biggest.Search (T := T)).

Definition nonempty r : bool := 0 <? length r.

Lemma candidates_nonempty (l : nat) F :
  List.filter (λ r, l <? length r) F
  = List.filter (λ r, l <? length r) (List.filter nonempty F).
Proof.
  induction F as [|r F IH]; [done|]. simpl. unfold nonempty at 1.
  destruct r as [|x r]; simpl.
  - done.
  - by rewrite IH.
Qed.

(** two states of the search that differ in empty filtered arrays only *)
Definition same_search st st' : Prop :=
  Biggest.baseArrays st = Biggest.baseArrays st' ∧
  Biggest.longest st = Biggest.longest st' ∧
  Biggest.longestIntersection st = Biggest.longestIntersection st' ∧
  List.filter nonempty (Biggest.filteredArrays st)
  = List.filter nonempty (Biggest.filteredArrays st').

Lemma elementStep_same st st' element :
  same_search st st' →
  Biggest.elementStep lt sort st element = Biggest.elementStep lt sort st' element.
Proof.
  intros (Hb & Hl & HL & HF). unfold Biggest.elementStep.
  rewrite (candidates_nonempty _ (Biggest.filteredArrays st)).
  rewrite (candidates_nonempty _ (Biggest.filteredArrays st')).
  by rewrite Hb, Hl, HL, HF.
Qed.

Definition same_end (e e' : Biggest.SearchEnd (T := T)) : Prop :=
  match e, e' with
  | Biggest.Returned s, Biggest.Returned s' => s = s'
  | Biggest.FellThrough s, Biggest.FellThrough s' => same_search s s'
  | _, _ => False
  end.

Lemma elementsLoop_same st st' elements :
  same_search st st' →
  same_end (Biggest.elementsLoop lt sort st elements)
           (Biggest.elementsLoop lt sort st' elements).
Proof.
  revert st st'. induction elements as [|e elements IH]; intros st st' Hsame; [done|].
  simpl. rewrite (elementStep_same st st' e Hsame).
  destruct (length _ =? 0); [done|]. apply IH. done.
Qed.

Lemma countsLoop_same m st st' counts :
  same_search st st' →
  same_end (Biggest.countsLoop lt sort m st counts)
           (Biggest.countsLoop lt sort m st' counts).
Proof.
  revert st st'. induction counts as [|c counts IH]; intros st st' Hsame; [done|].
  simpl. pose proof (elementsLoop_same st st' (default [] (amap_get c m)) Hsame) as He.
  destruct (Biggest.elementsLoop lt sort st _) as [s|s],
           (Biggest.elementsLoop lt sort st' _) as [s'|s']; try done.
  by apply IH.
Qed.

Lemma count_nonempty rs (acc : list (T * nat)) :
  fold_left (λ elementCount r, fold_left Biggest.countElement r elementCount) rs acc
  = fold_left (λ elementCount r, fold_left Biggest.countElement r elementCount)
              (List.filter nonempty rs) acc.
Proof.
  revert acc. induction rs as [|r rs IH]; intros acc; [done|].
  destruct r as [|x r]; simpl; by rewrite IH.
Qed.

Lemma filtered_nonempty (p : T → bool) rs :
  List.filter nonempty (map (List.filter p) rs)
  = List.filter nonempty (map (List.filter p) (List.filter nonempty rs)).
Proof.
  induction rs as [|r rs IH]; [done|]. destruct r as [|x r].
  - exact IH.
  - change (List.filter nonempty ((x :: r) :: rs))
      with ((x :: r) :: List.filter nonempty rs).
    rewrite !map_cons. set (fr := List.filter p (x :: r)). cbn [List.filter].
    destruct (nonempty fr); by rewrite IH.
Qed.

(** nodes whose [rest] is empty make no difference to a pass *)
Lemma searchPass_nonempty rs :
  Biggest.searchPass lt sort rs = Biggest.searchPass lt sort (List.filter nonempty rs).
Proof.
  unfold Biggest.searchPass. rewrite <- (count_nonempty rs []).
  destruct (bool_decide _); [done|].
  set (m := fold_left Biggest.groupCount _ []).
  set (f := List.filter _).
  assert (same_search (Biggest.mkSearch (map f rs) [] 0 [])
            (Biggest.mkSearch (map f (List.filter nonempty rs)) [] 0 [])) as H0
    by (repeat (split; [done|]); apply filtered_nonempty).
  match goal with
  | |- context [Biggest.countsLoop lt sort m _ ?counts] =>
      pose proof (countsLoop_same m _ _ counts H0) as Hsame
  end.
  destruct (Biggest.countsLoop lt sort m (Biggest.mkSearch (map f rs) [] 0 []) _) as [s|s],
           (Biggest.countsLoop lt sort m _ _) as [s'|s']; simpl in Hsame; try done.
  by subst.
Qed.
End SearchEmpties.

(** [(a, b) => a.key - b.key] on elements that are a key and a name *)
Definition byKey (a b : Z * Z) : Z := (a.1 - b.1)%Z.

Section SorterLoop.
Variable lt : Z * Z → Z * Z → bool.

(** the [rest]s at the start of every pass: the first array, nodes that have
    been emptied, and the node of the last extraction *)
Definition loop_rests (k : nat) : list (list (Z * Z)) :=
  [(1, 0); (1, 0); (3, 0)]%Z :: replicate k [] ++ [[(1, 1); (1, 1)]%Z].

Lemma searchPass_loop_rests k :
  Biggest.searchPass lt (Biggest.SortWith byKey) (loop_rests k)
  = Biggest.mkPass 2 (Some [(1, 1); (1, 1)]%Z).
Proof.
  rewrite searchPass_nonempty. unfold loop_rests.
  assert (List.filter nonempty (replicate k ([] : list (Z * Z))) = []) as Hrep
    by (induction k; [done|by simpl]).
  cbn [List.filter nonempty length Nat.ltb Nat.leb]. rewrite List.filter_app, Hrep.
  vm_compute. reflexivity.
Qed.

(** the state of the loop of [splitArrays] at the start of every pass *)
Definition looping (σ : Store (Z * Z)) (nodes : list Node) : Prop :=
  (∀ n, In n nodes → rest n < length σ) ∧ ∃ k, rests σ nodes = loop_rests k.

Lemma splitArrayNodes_looping σ nodes :
  looping σ nodes →
  ∃ σ' nodes',
    Biggest.splitArrayNodes lt (Biggest.SortWith byKey) σ nodes = (σ', nodes', 2) ∧
    looping σ' nodes'.
Proof.
  intros [Hrefs [k Hk]]. unfold Biggest.splitArrayNodes.
  rewrite Hk, searchPass_loop_rests. simpl.
  destruct (Biggest.extract σ nodes [(1, 1); (1, 1)]%Z) as [σ' nodes'] eqn:Ex.
  destruct (extract_rests σ nodes _ σ' nodes' Hrefs Ex) as [Hrests Hrefs'].
  exists σ', nodes'. split; [done|]. split; [done|]. exists (S k).
  rewrite Hrests, Hk. unfold loop_rests.
  change (map ?f ?l) with (f <$> l). rewrite fmap_cons, fmap_app, fmap_replicate.
  rewrite replicate_S_end. simpl. by rewrite <- !app_assoc.
Qed.

Lemma splitLoop_looping fuel σ nodes :
  looping σ nodes → Biggest.splitLoop lt (Biggest.SortWith byKey) fuel σ nodes = None.
Proof.
  revert σ nodes. induction fuel as [|fuel IH]; intros σ nodes Hloop; [done|].
  simpl. destruct (splitArrayNodes_looping σ nodes Hloop) as (σ' & nodes' & -> & Hloop').
  simpl. by apply IH.
Qed.
End SorterLoop.

(** C7 does not hold of [BiggestIntersectionsSplitter.splitArrays]: with the
    sorter [(a, b) => a.key - b.key] and the arrays [[x, x, c]] and
    [[y, y]], where [x] and [y] are two elements with the same key, the loop
    [while (this.splitArrayNodes(arrayNodes) > 0)] has not ended after any
    number of passes: the call does not return. *)
Theorem biggest_sorter_never_returns (lt : Z * Z → Z * Z → bool)
    (defaultCompare : Z * Z → Z * Z → Z) (fuel : nat) :
  Biggest.splitArrays lt defaultCompare (Biggest.SortWith byKey) fuel
    [[(1, 0); (1, 0); (3, 0)]; [(1, 1); (1, 1)]]%Z [0; 1] = None.
Proof.
  unfold Biggest.splitArrays.
  destruct (Biggest.initialNodes _ _ _ _) as [σ0 nodes0] eqn:E0.
  vm_compute in E0. injection E0 as <- <-.
  rewrite splitLoop_looping; [done|]. split.
  - intros n [<-|[<-|[]]]; simpl; lia.
  - by exists 0.
Qed.



(** * The weighted splitter does not depend on where the sets are stored *)

Section KeyRenaming.
Context {K K' V V' : Type} `{EqDecision K} `{EqDecision K'}.
Variable fk : K → K'.
Variable fv : V → V'.
Hypothesis fk_inj : ∀ x y, fk x = fk y → x = y.

(** a map with its keys and values renamed *)
Definition kmap (m : list (K * V)) : list (K' * V') := map (λ e, (fk e.1, fv e.2)) m.

Lemma amap_get_kmap k (m : list (K * V)) : amap_get (fk k) (kmap m) = fv <$> amap_get k m.
Proof.
  induction m as [|[k0 v0] m IH]; [done|]. simpl.
  destruct (decide (k0 = k)) as [->|Hne].
  - by rewrite decide_True.
  - rewrite decide_False; [done|]. intros Heq. by apply Hne, fk_inj.
Qed.

Lemma amap_set_kmap k v (m : list (K * V)) :
  amap_set (fk k) (fv v) (kmap m) = kmap (amap_set k v m).
Proof.
  induction m as [|[k0 v0] m IH]; [done|]. simpl.
  destruct (decide (k0 = k)) as [->|Hne].
  - by rewrite decide_True.
  - rewrite decide_False; [|intros Heq; by apply Hne, fk_inj]. simpl. by rewrite IH.
Qed.

Lemma amap_delete_kmap k (m : list (K * V)) :
  amap_delete (fk k) (kmap m) = kmap (amap_delete k m).
Proof.
  induction m as [|[k0 v0] m IH]; [done|]. simpl.
  destruct (decide (k0 = k)) as [->|Hne].
  - by rewrite decide_True.
  - rewrite decide_False; [|intros Heq; by apply Hne, fk_inj]. simpl. by rewrite IH.
Qed.

Lemma amap_keys_kmap (m : list (K * V)) : amap_keys (kmap m) = map fk (amap_keys m).
Proof. unfold amap_keys, kmap. rewrite !map_map. done. Qed.

Lemma length_kmap (m : list (K * V)) : length (kmap m) = length m.
Proof. unfold kmap. by rewrite length_map. Qed.

Lemma includes_map (l : list K) x : includes (map fk l) (fk x) = includes l x.
Proof.
  induction l as [|y l IH]; [done|]. rewrite map_cons, !includes_cons, IH. f_equal.
  destruct (decide (y = x)) as [->|Hne].
  - by rewrite !bool_decide_eq_true_2.
  - rewrite !bool_decide_eq_false_2; [done|done|]. intros Heq. by apply Hne, fk_inj.
Qed.

Lemma oset_add_map (l : list K) x : oset_add (fk x) (map fk l) = map fk (oset_add x l).
Proof.
  unfold oset_add. rewrite includes_map. destruct (includes l x); [done|].
  by rewrite map_app.
Qed.

Lemma oset_delete_map (l : list K) x :
  oset_delete (fk x) (map fk l) = map fk (oset_delete x l).
Proof.
  unfold oset_delete. induction l as [|y l IH]; [done|]. simpl.
  destruct (decide (y = x)) as [->|Hne].
  - rewrite !bool_decide_eq_true_2 by done. simpl. apply IH.
  - rewrite !bool_decide_eq_false_2; [|done|intros Heq; by apply Hne, fk_inj].
    simpl. by rewrite IH.
Qed.
End KeyRenaming.

Section Positions.
Context {K V C : Type} `{EqDecision K}.
Variable f : K * V → C.

(** [Map.prototype.set] never makes a map smaller *)
Lemma length_amap_set_ge (k : K) (v : V) m : length m ≤ length (amap_set k v m).
Proof.
  induction m as [|[k' v'] m IH]; simpl; [lia|].
  destruct (decide (k' = k)); simpl; lia.
Qed.

(** setting a key to a value with the same [f] changes the [f] of no position *)
Lemma map_amap_set_same (k : K) (v v0 : V) m :
  amap_get k m = Some v0 → f (k, v) = f (k, v0) → map f (amap_set k v m) = map f m.
Proof.
  induction m as [|[k' v'] m IH]; simpl; [done|].
  destruct (decide (k' = k)) as [->|Hne]; simpl.
  - intros [= ->] Hf. by rewrite Hf.
  - intros Hget Hf. by rewrite IH.
Qed.

(** a property of the positions from [n] on, of which the new value has it *)
Lemma Forall_drop_amap_set (P : C → Prop) (n : nat) (k : K) (v : V) m :
  (∀ k', P (f (k', v))) → Forall P (drop n (map f m)) →
  Forall P (drop n (map f (amap_set k v m))).
Proof.
  intros Hv. revert n. induction m as [|[k' v'] m IH]; intros n Hm; simpl.
  - destruct n; simpl; [by repeat constructor|]. by rewrite drop_nil.
  - destruct (decide (k' = k)) as [->|Hne]; destruct n as [|n]; simpl in *.
    + apply Forall_cons in Hm as [_ Hm]. by constructor.
    + done.
    + apply Forall_cons in Hm as [Hk Hm]. constructor; [done|]. by apply (IH 0).
    + by apply IH.
Qed.
End Positions.

Section OptionRelated.
Context {A B : Type} (R : A → B → Prop).

Lemma related_Some x oy : option_Forall2 R (Some x) oy → ∃ y, oy = Some y ∧ R x y.
Proof. inversion 1; subst. by eexists. Qed.

Lemma related_None oy : option_Forall2 R None oy → oy = None.
Proof. by inversion 1. Qed.
End OptionRelated.

Section KeyRelated.
Context {K K' V V' : Type} `{EqDecision K} `{EqDecision K'}.
Variable fk : K → K'.
Variable R : V → V' → Prop.
Hypothesis fk_inj : ∀ x y, fk x = fk y → x = y.

(** two entries with corresponding keys and related values *)
Definition related (e : K * V) (e' : K' * V') : Prop := e'.1 = fk e.1 ∧ R e.2 e'.2.

Lemma amap_get_related k m m' :
  Forall2 related m m' → option_Forall2 R (amap_get k m) (amap_get (fk k) m').
Proof.
  induction 1 as [|[k1 v1] [k2 v2] m m' [Hk Hv] _ IH]; simpl; [constructor|].
  simpl in Hk, Hv. subst k2. destruct (decide (k1 = k)) as [->|Hne].
  - rewrite decide_True by done. by constructor.
  - rewrite decide_False; [done|]. intros Heq. by apply fk_inj in Heq.
Qed.

Lemma amap_set_related k v v' m m' :
  Forall2 related m m' → R v v' →
  Forall2 related (amap_set k v m) (amap_set (fk k) v' m').
Proof.
  intros Hm Hv. induction Hm as [|[k1 v1] [k2 v2] m m' [Hk Hv1] Hm IH]; simpl.
  - by repeat constructor.
  - simpl in Hk, Hv1. subst k2. destruct (decide (k1 = k)) as [->|Hne].
    + rewrite decide_True by done. by repeat constructor.
    + rewrite decide_False; [|intros Heq; by apply fk_inj in Heq].
      by repeat constructor.
Qed.

Lemma amap_values_related m m' :
  Forall2 related m m' → Forall2 R (amap_values m) (amap_values m').
Proof. induction 1 as [|e e' m m' [_ Hv] _ IH]; simpl; by constructor. Qed.
End KeyRelated.

Section WeightedRenaming.
Context {T U : Type} `{EqDecision T} `{EqDecision U}.
Variable join : list T → U.
Variable split : U → list T.
Variable primaryWeight secondaryWeight : Weighted.WeightFunction.

(** the sets of the second run are those of the first, [δ] objects later *)
Variable δ : nat.

Definition shift (r : ref) : ref := r + δ.
Arguments shift : simpl never.

Lemma shift_inj x y : shift x = shift y → x = y.
Proof. unfold shift. lia. Qed.

Lemma id_inj_eq {A} (x y : A) : id x = id y → x = y.
Proof. done. Qed.

Definition shift_pair (p : ref * ref) : ref * ref := (shift p.1, shift p.2).

Definition ren_imap (m : list (U * list (ref * ref))) : list (U * list (ref * ref)) :=
  kmap id (map shift_pair) m.
Definition ren_setMap (m : list (ref * nat)) : list (ref * nat) := kmap shift id m.
Definition ren_ims (m : list (U * list (ref * nat))) : list (U * list (ref * nat)) :=
  kmap id ren_setMap m.
Definition ren_s2i (m : list (ref * list U)) : list (ref * list U) := kmap shift id m.
Definition ren_ix (ix : Weighted.Indexes (U := U)) : Weighted.Indexes (U := U) :=
  Weighted.mkIndexes (ren_ims (Weighted.ixMapSet ix)) (Weighted.ixWeight ix)
                     (ren_s2i (Weighted.ixSetTo ix)).

Lemma get_ren_imap k m : amap_get k (ren_imap m) = map shift_pair <$> amap_get k m.
Proof. apply (amap_get_kmap id (map shift_pair) id_inj_eq k m). Qed.

Lemma set_ren_imap k v m : amap_set k (map shift_pair v) (ren_imap m) = ren_imap (amap_set k v m).
Proof. apply (amap_set_kmap id (map shift_pair) id_inj_eq k v m). Qed.

Lemma delete_ren_imap k m : amap_delete k (ren_imap m) = ren_imap (amap_delete k m).
Proof. apply (amap_delete_kmap id (map shift_pair) id_inj_eq k m). Qed.

Lemma get_ren_ims k m : amap_get k (ren_ims m) = ren_setMap <$> amap_get k m.
Proof. apply (amap_get_kmap id ren_setMap id_inj_eq k m). Qed.

Lemma set_ren_ims k v m : amap_set k (ren_setMap v) (ren_ims m) = ren_ims (amap_set k v m).
Proof. apply (amap_set_kmap id ren_setMap id_inj_eq k v m). Qed.

Lemma delete_ren_ims k m : amap_delete k (ren_ims m) = ren_ims (amap_delete k m).
Proof. apply (amap_delete_kmap id ren_setMap id_inj_eq k m). Qed.

Lemma get_ren_setMap s m : amap_get (shift s) (ren_setMap m) = amap_get s m.
Proof.
  unfold ren_setMap. rewrite (amap_get_kmap shift id shift_inj). by destruct (amap_get s m).
Qed.

Lemma set_ren_setMap s c m : amap_set (shift s) c (ren_setMap m) = ren_setMap (amap_set s c m).
Proof. apply (amap_set_kmap shift id shift_inj s c m). Qed.

Lemma delete_ren_setMap s m : amap_delete (shift s) (ren_setMap m) = ren_setMap (amap_delete s m).
Proof. apply (amap_delete_kmap shift id shift_inj s m). Qed.

Lemma keys_ren_setMap m : amap_keys (ren_setMap m) = map shift (amap_keys m).
Proof. apply amap_keys_kmap. Qed.

Lemma length_ren_setMap m : length (ren_setMap m) = length m.
Proof. apply length_kmap. Qed.

Lemma get_ren_s2i s m : amap_get (shift s) (ren_s2i m) = amap_get s m.
Proof.
  unfold ren_s2i. rewrite (amap_get_kmap shift id shift_inj). by destruct (amap_get s m).
Qed.

Lemma set_ren_s2i s v m : amap_set (shift s) v (ren_s2i m) = ren_s2i (amap_set s v m).
Proof. apply (amap_set_kmap shift id shift_inj s v m). Qed.

Lemma delete_ren_s2i s m : amap_delete (shift s) (ren_s2i m) = ren_s2i (amap_delete s m).
Proof. apply (amap_delete_kmap shift id shift_inj s m). Qed.

Lemma removeFromSet_ren_s2i m s (x : U) :
  Weighted.removeFromSetOrDeleteFromMap (ren_s2i m) (shift s) x
  = ren_s2i <$> Weighted.removeFromSetOrDeleteFromMap m s x.
Proof.
  unfold Weighted.removeFromSetOrDeleteFromMap. rewrite get_ren_s2i.
  destruct (amap_get s m) as [elements|]; simpl; [|done].
  destruct (1 <? length elements); by rewrite ?set_ren_s2i, ?delete_ren_s2i.
Qed.

Lemma addToSet_ren_s2i m s (x : U) :
  Weighted.addToSetOrCreateKeyInMap (ren_s2i m) (shift s) x
  = ren_s2i (Weighted.addToSetOrCreateKeyInMap m s x).
Proof.
  unfold Weighted.addToSetOrCreateKeyInMap. rewrite get_ren_s2i.
  destruct (amap_get s m); by rewrite set_ren_s2i.
Qed.

Lemma addToIntersectingMapSets_ren m s :
  Weighted.addToIntersectingMapSets (ren_setMap m) (shift s)
  = ren_setMap (Weighted.addToIntersectingMapSets m s).
Proof.
  unfold Weighted.addToIntersectingMapSets. rewrite get_ren_setMap.
  destruct (amap_get s m) as [[|n]|]; by rewrite set_ren_setMap.
Qed.

Lemma pushPair_ren m k p :
  Weighted.pushPair (ren_imap m) k (shift_pair p) = ren_imap (Weighted.pushPair m k p).
Proof.
  unfold Weighted.pushPair. rewrite get_ren_imap.
  destruct (amap_get k m) as [entry|]; simpl.
  - by rewrite <- set_ren_imap, map_app.
  - by rewrite <- set_ren_imap.
Qed.

Lemma getHighestWeightIntersection_ren w ims :
  Weighted.getHighestWeightIntersection split secondaryWeight w (ren_ims ims)
  = Weighted.getHighestWeightIntersection split secondaryWeight w ims.
Proof.
  unfold Weighted.getHighestWeightIntersection.
  destruct (Weighted.maxKey _) as [hw|]; simpl; [|done].
  destruct (amap_get hw w) as [maxs|]; simpl; [|done].
  destruct (head maxs) as [first|]; simpl; [|done].
  destruct (1 <? length maxs); [|done]. f_equal.
  generalize (Some (None : option Z, first)). induction maxs as [|x maxs IH]; intros acc; [done|].
  simpl. rewrite <- IH. f_equal. unfold Weighted.pickSecondary.
  destruct acc as [[m h]|]; simpl; [|done]. rewrite get_ren_ims.
  destruct (amap_get x ims) as [mapSet|]; simpl; [|done]. by rewrite length_ren_setMap.
Qed.

Definition ren_affected (acc : list U * list ref) : list U * list ref :=
  (acc.1, map shift acc.2).

Lemma affectedSets_ren (intersectingSets : list ref) (keys : list ref) (oas : list ref) :
  fold_left (λ acc affectedSet,
               if includes (map shift intersectingSets) affectedSet then acc
               else oset_add affectedSet acc)
            (map shift keys) (map shift oas)
  = map shift (fold_left (λ acc affectedSet,
                            if includes intersectingSets affectedSet then acc
                            else oset_add affectedSet acc)
                         keys oas).
Proof.
  revert oas. induction keys as [|s keys IH]; intros oas; [done|]. simpl.
  rewrite (includes_map shift shift_inj). destruct (includes intersectingSets s); [apply IH|].
  rewrite (oset_add_map shift shift_inj). apply IH.
Qed.

Lemma affectedByIntersection_ren (intersectingSets : list ref) (elems : list T) ims acc x :
  Weighted.affectedByIntersection split (map shift intersectingSets) elems (ren_ims ims)
    (ren_affected <$> acc) x
  = ren_affected <$>
      Weighted.affectedByIntersection split intersectingSets elems ims acc x.
Proof.
  unfold Weighted.affectedByIntersection. destruct acc as [[oai oas]|]; simpl; [|done].
  destruct (existsb _ (split x)); [|done]. rewrite get_ren_ims.
  destruct (amap_get x ims) as [setMap|]; simpl; [|done].
  unfold ren_affected. simpl. by rewrite keys_ren_setMap, affectedSets_ren.
Qed.

Lemma affectedByIntersection_fold_ren (intersectingSets : list ref) (elems : list T) ims
    (xs : list U) acc :
  fold_left (Weighted.affectedByIntersection split (map shift intersectingSets) elems
               (ren_ims ims))
            xs (ren_affected <$> acc)
  = ren_affected <$>
      fold_left (Weighted.affectedByIntersection split intersectingSets elems ims) xs acc.
Proof.
  revert acc. induction xs as [|x xs IH]; intros acc; [done|]. simpl.
  by rewrite affectedByIntersection_ren, IH.
Qed.

Lemma getOtherAffectedIntersections_ren (intersectingSets : list ref) s2i hwi ims :
  Weighted.getOtherAffectedIntersections split (map shift intersectingSets) (ren_s2i s2i)
    hwi (ren_ims ims)
  = ren_affected <$>
      Weighted.getOtherAffectedIntersections split intersectingSets s2i hwi ims.
Proof.
  unfold Weighted.getOtherAffectedIntersections.
  assert (∀ (l : list ref) acc,
            fold_left (λ st set,
                         _ ← st;
                         affectedIntersections ← amap_get set (ren_s2i s2i);
                         fold_left (Weighted.affectedByIntersection split
                                      (map shift intersectingSets) (split hwi) (ren_ims ims))
                                   affectedIntersections st)
                      (map shift l) (ren_affected <$> acc)
            = ren_affected <$>
                fold_left (λ st set,
                             _ ← st;
                             affectedIntersections ← amap_get set s2i;
                             fold_left (Weighted.affectedByIntersection split
                                          intersectingSets (split hwi) ims)
                                       affectedIntersections st)
                          l acc) as Hfold.
  { induction l as [|s l IH]; intros acc; [done|]. simpl. rewrite <- IH. f_equal.
    destruct acc as [acc|]; simpl; [|done]. rewrite get_ren_s2i.
    destruct (amap_get s s2i) as [ai|]; simpl; [|done].
    apply (affectedByIntersection_fold_ren _ _ _ ai (Some acc)). }
  specialize (Hfold intersectingSets (Some ([], []))).
  change (ren_affected <$> Some ([], [])) with (Some (([] : list U), ([] : list ref)))
    in Hfold.
  rewrite Hfold. destruct (fold_left _ intersectingSets _) as [[oai oas]|]; done.
Qed.

Lemma removeOtherAffectedSetFromMaps_ren ix key (set : ref) :
  Weighted.removeOtherAffectedSetFromMaps split primaryWeight (ren_ix ix) key (shift set)
  = ren_ix <$> Weighted.removeOtherAffectedSetFromMaps split primaryWeight ix key set.
Proof.
  unfold Weighted.removeOtherAffectedSetFromMaps. simpl. rewrite get_ren_ims.
  destruct (amap_get key (Weighted.ixMapSet ix)) as [setMap|]; simpl; [|done].
  rewrite get_ren_setMap, length_ren_setMap.
  destruct (amap_get set setMap) as [[|[|n]]|]; simpl.
  - destruct (Weighted.removeFromSetOrDeleteFromMap (Weighted.ixWeight ix) _ key) as [w1|];
      simpl; [|done].
    rewrite removeFromSet_ren_s2i.
    destruct (Weighted.removeFromSetOrDeleteFromMap (Weighted.ixSetTo ix) set key) as [s1|];
      simpl; [|done].
    rewrite delete_ren_setMap, length_ren_setMap. unfold ren_ix. simpl. f_equal. f_equal.
    destruct (length _ =? 0); by rewrite ?delete_ren_ims, ?set_ren_ims.
  - destruct (Weighted.removeFromSetOrDeleteFromMap (Weighted.ixWeight ix) _ key) as [w1|];
      simpl; [|done].
    rewrite removeFromSet_ren_s2i.
    destruct (Weighted.removeFromSetOrDeleteFromMap (Weighted.ixSetTo ix) set key) as [s1|];
      simpl; [|done].
    rewrite delete_ren_setMap, length_ren_setMap. unfold ren_ix. simpl. f_equal. f_equal.
    destruct (length _ =? 0); by rewrite ?delete_ren_ims, ?set_ren_ims.
  - rewrite set_ren_setMap, length_ren_setMap. unfold ren_ix. simpl. f_equal. f_equal.
    destruct (length _ =? 0); by rewrite ?delete_ren_ims, ?set_ren_ims.
  - destruct (Weighted.removeFromSetOrDeleteFromMap (Weighted.ixWeight ix) _ key) as [w1|];
      simpl; [|done].
    rewrite removeFromSet_ren_s2i.
    destruct (Weighted.removeFromSetOrDeleteFromMap (Weighted.ixSetTo ix) set key) as [s1|];
      simpl; [|done].
    rewrite delete_ren_setMap, length_ren_setMap. unfold ren_ix. simpl. f_equal. f_equal.
    destruct (length _ =? 0); by rewrite ?delete_ren_ims, ?set_ren_ims.
Qed.

Definition ren_filtered (acc : list (ref * ref) * Weighted.Indexes (U := U) * list (ref * ref))
  : list (ref * ref) * Weighted.Indexes (U := U) * list (ref * ref) :=
  (map shift_pair acc.1.1, ren_ix acc.1.2, map shift_pair acc.2).

Lemma filterAffectedPair_ren (intersectingSets otherAffectedSets : list ref) key acc pair :
  Weighted.filterAffectedPair split primaryWeight (map shift intersectingSets)
    (map shift otherAffectedSets) key (ren_filtered <$> acc) (shift_pair pair)
  = ren_filtered <$>
      Weighted.filterAffectedPair split primaryWeight intersectingSets otherAffectedSets
        key acc pair.
Proof.
  unfold Weighted.filterAffectedPair. destruct acc as [[[un ix] ip]|]; simpl; [|done].
  destruct pair as [s1 s2]. simpl. rewrite !(includes_map shift shift_inj).
  destruct (_ || _ || _ && _).
  - rewrite removeOtherAffectedSetFromMaps_ren.
    destruct (Weighted.removeOtherAffectedSetFromMaps split primaryWeight ix key s1)
      as [ix1|]; simpl; [|done].
    rewrite removeOtherAffectedSetFromMaps_ren.
    destruct (Weighted.removeOtherAffectedSetFromMaps split primaryWeight ix1 key s2)
      as [ix2|]; simpl; [|done].
    unfold ren_filtered. simpl. by rewrite map_app.
  - unfold ren_filtered. simpl. by rewrite map_app.
Qed.

Lemma filterAffectedPair_fold_ren (intersectingSets otherAffectedSets : list ref) key
    (pairs : list (ref * ref)) acc :
  fold_left (Weighted.filterAffectedPair split primaryWeight (map shift intersectingSets)
               (map shift otherAffectedSets) key)
            (map shift_pair pairs) (ren_filtered <$> acc)
  = ren_filtered <$>
      fold_left (Weighted.filterAffectedPair split primaryWeight intersectingSets
                   otherAffectedSets key)
                pairs acc.
Proof.
  revert acc. induction pairs as [|p pairs IH]; intros acc; [done|]. simpl.
  by rewrite filterAffectedPair_ren, IH.
Qed.

Definition ren_removed
    (acc : list (U * list (ref * ref)) * Weighted.Indexes (U := U) * list (ref * ref))
  : list (U * list (ref * ref)) * Weighted.Indexes (U := U) * list (ref * ref) :=
  (ren_imap acc.1.1, ren_ix acc.1.2, map shift_pair acc.2).

Lemma removeAffectedIntersection_ren (intersectingSets otherAffectedSets : list ref) acc key :
  Weighted.removeAffectedIntersection split primaryWeight (map shift intersectingSets)
    (map shift otherAffectedSets) (ren_removed <$> acc) key
  = ren_removed <$>
      Weighted.removeAffectedIntersection split primaryWeight intersectingSets
        otherAffectedSets acc key.
Proof.
  unfold Weighted.removeAffectedIntersection. destruct acc as [[[imap ix] ip]|]; simpl; [|done].
  rewrite get_ren_imap. destruct (amap_get key imap) as [poss|]; simpl; [|done].
  rewrite (filterAffectedPair_fold_ren _ _ key poss (Some ([], ix, ip))).
  destruct (fold_left _ poss _) as [[[un ix'] ip']|]; simpl; [|done].
  unfold ren_removed. simpl. rewrite length_map. f_equal. f_equal. f_equal.
  destruct (0 <? length un); by rewrite ?set_ren_imap, ?delete_ren_imap.
Qed.

Lemma removeAffectedIntersection_fold_ren (intersectingSets otherAffectedSets : list ref)
    (others : list U) acc :
  fold_left (Weighted.removeAffectedIntersection split primaryWeight
               (map shift intersectingSets) (map shift otherAffectedSets))
            others (ren_removed <$> acc)
  = ren_removed <$>
      fold_left (Weighted.removeAffectedIntersection split primaryWeight intersectingSets
                   otherAffectedSets)
                others acc.
Proof.
  revert acc. induction others as [|k others IH]; intros acc; [done|]. simpl.
  by rewrite removeAffectedIntersection_ren, IH.
Qed.

(** the indexes of the second run are those of the first, renamed *)
Record ix_sim (a b : Weighted.State (T := T) (U := U)) : Prop := mk_ix_sim {
  is_cl : Weighted.clonedSets b = map shift (Weighted.clonedSets a);
  is_imap : Weighted.intersectionMap b = ren_imap (Weighted.intersectionMap a);
  is_ims : Weighted.intersectionMapSet b = ren_ims (Weighted.intersectionMapSet a);
  is_s2i : Weighted.setToIntersectionMap b = ren_s2i (Weighted.setToIntersectionMap a);
  is_w : Weighted.weightIntersectionMap b = Weighted.weightIntersectionMap a
}.

Lemma removeFromSet_fold_ren (hwi : U) (l : list ref) acc :
  fold_left (λ m intersectingSet,
               m' ← m; Weighted.removeFromSetOrDeleteFromMap m' intersectingSet hwi)
            (map shift l) (ren_s2i <$> acc)
  = ren_s2i <$>
      fold_left (λ m intersectingSet,
                   m' ← m; Weighted.removeFromSetOrDeleteFromMap m' intersectingSet hwi)
                l acc.
Proof.
  revert acc. induction l as [|s l IH]; intros acc; [done|]. simpl. rewrite <- IH. f_equal.
  destruct acc as [m|]; simpl; [|done]. apply removeFromSet_ren_s2i.
Qed.

Lemma removeUpdatedFromMaps_ren hwi (intersectingSets : list ref) (others : list U)
    (otherAffectedSets : list ref) hw a b :
  ix_sim a b →
  match Weighted.removeUpdatedFromMaps split primaryWeight hwi intersectingSets others
          otherAffectedSets hw a,
        Weighted.removeUpdatedFromMaps split primaryWeight hwi (map shift intersectingSets)
          others (map shift otherAffectedSets) hw b with
  | Some (a1, pa), Some (b1, pb) =>
      ix_sim a1 b1 ∧ pb = map shift_pair pa ∧
      Weighted.store a1 = Weighted.store a ∧ Weighted.setNodeMap a1 = Weighted.setNodeMap a ∧
      Weighted.store b1 = Weighted.store b ∧ Weighted.setNodeMap b1 = Weighted.setNodeMap b
  | None, None => True
  | _, _ => False
  end.
Proof.
  intros [Hcl Himap Hims Hs2i Hw]. unfold Weighted.removeUpdatedFromMaps.
  rewrite Himap, Hims, Hs2i, Hw.
  pose proof (removeFromSet_fold_ren hwi intersectingSets
                (Some (Weighted.setToIntersectionMap a))) as Hfold1.
  change (ren_s2i <$> Some (Weighted.setToIntersectionMap a))
    with (Some (ren_s2i (Weighted.setToIntersectionMap a))) in Hfold1.
  rewrite Hfold1.
  destruct (fold_left _ intersectingSets _) as [s2i1|]; simpl; [|done].
  destruct (Weighted.removeFromSetOrDeleteFromMap (Weighted.weightIntersectionMap a) hw hwi)
    as [w1|]; simpl; [|done].
  rewrite delete_ren_imap, delete_ren_ims.
  pose proof (removeAffectedIntersection_fold_ren intersectingSets otherAffectedSets others
                (Some (amap_delete hwi (Weighted.intersectionMap a),
                       Weighted.mkIndexes (amap_delete hwi (Weighted.intersectionMapSet a))
                                          w1 s2i1, []))) as Hfold2.
  change (ren_removed <$> Some ?x) with (Some (ren_removed x)) in Hfold2.
  unfold ren_removed at 1, ren_ix at 1 in Hfold2. simpl in Hfold2. rewrite Hfold2.
  match goal with |- context [ren_removed <$> ?f] => set (removed := f) end.
  match goal with |- match ?f ≫= _ with _ => _ end => change f with removed end.
  destruct removed as [[[imap2 ix] ip]|]; simpl; [|done].
  split; [by split|done].
Qed.

(** ** The stores and the nodes of the two runs *)

(** [ba] is the first object the first run makes; [roots] pairs the inputs of
    the two runs; [σa0] and [σb0] are the stores the runs start from *)
Variable ba : nat.
Variable roots : list (ref * ref).
Variables σa0 σb0 : Store T.

(** the number of the inputs *)
Variable n0 : nat.

(** the objects the second run has made are those of the first, and no run
    has touched an object it was given *)
Record store_sim (σa σb : Store T) : Prop := mk_store_sim {
  ss_base : ba ≤ length σa;
  ss_length : length σb = length σa + δ;
  ss_new : ∀ r, ba ≤ r → σb !! shift r = σa !! r;
  ss_old_a : ∀ r, r < ba → σa !! r = σa0 !! r;
  ss_old_b : ∀ r, r < ba + δ → σb !! r = σb0 !! r
}.

Lemma read_sim σa σb r : store_sim σa σb → ba ≤ r → read σb (shift r) = read σa r.
Proof. intros Hs Hr. unfold read. by rewrite (ss_new _ _ Hs). Qed.

Lemma write_sim σa σb r v :
  store_sim σa σb → ba ≤ r → store_sim (write σa r v) (write σb (shift r) v).
Proof.
  intros [Hb Hlen Hnew Ha Hb0] Hr. unfold write, shift. split.
  - by rewrite length_insert.
  - by rewrite !length_insert.
  - intros r' Hr'. specialize (Hnew r' Hr'). unfold shift in *.
    destruct (decide (r = r')) as [<-|Hne].
    + destruct (decide (r < length σa)) as [Hlt|Hge].
      * by rewrite !list_lookup_insert_eq by lia.
      * by rewrite !list_insert_ge by lia.
    + by rewrite !list_lookup_insert_ne by lia.
  - intros r' Hr'. rewrite list_lookup_insert_ne by lia. by apply Ha.
  - intros r' Hr'. rewrite list_lookup_insert_ne by lia. by apply Hb0.
Qed.

Lemma alloc_sim σa σb v : store_sim σa σb → store_sim (σa ++ [v]) (σb ++ [v]).
Proof.
  intros [Hb Hlen Hnew Ha Hb0]. split.
  - rewrite length_app. lia.
  - rewrite !length_app. simpl. lia.
  - intros r Hr. specialize (Hnew r Hr). unfold shift in *.
    destruct (decide (r < length σa)) as [Hlt|Hge].
    + by rewrite !lookup_app_l by lia.
    + rewrite !lookup_app_r by lia. f_equal. lia.
  - intros r Hr. rewrite lookup_app_l by lia. by apply Ha.
  - intros r Hr. rewrite lookup_app_l by lia. by apply Hb0.
Qed.

(** the collections of two corresponding nodes *)
Definition coll_sim (c c' : ref) : Prop := (ba ≤ c ∧ c' = shift c) ∨ In (c, c') roots.

Record node_sim (n n' : Node) : Prop := mk_node_sim {
  ns_coll : coll_sim (coll n) (coll n');
  ns_rest : rest n' = shift (rest n);
  ns_imports : imports n' = imports n;
  ns_depth : depth n' = depth n
}.

Definition entries_sim (M M' : list (ref * Node)) : Prop :=
  Forall2 (related shift node_sim) M M'.

(** the [rest] of every node is an object the run has made *)
Definition above (M : list (ref * Node)) : Prop := Forall (λ e, ba ≤ rest e.2) M.

(** there are nodes for the inputs; imports point behind them, to nodes
    whose collection is an object the run has made *)
Record generated (M : list (ref * Node)) : Prop := mk_generated {
  gn_len : n0 ≤ length M;
  gn_imports : Forall (λ e, Forall (λ j, n0 ≤ j) (imports e.2)) M;
  gn_colls : Forall (λ c, ba ≤ c) (drop n0 (map (λ e : ref * Node, coll e.2) M))
}.

(** the states of the two loops that update the nodes *)
Definition upd_sim (x y : Store T * list (ref * Node) * jsnum) : Prop :=
  store_sim x.1.1 y.1.1 ∧ entries_sim x.1.2 y.1.2 ∧ above x.1.2 ∧ generated x.1.2 ∧
  y.2 = x.2.

Lemma updateSetObj_sim newSet newIdx x y (set : ref) :
  ba ≤ newSet → n0 ≤ newIdx → option_Forall2 upd_sim x y →
  option_Forall2 upd_sim (Weighted.updateSetObj newSet newIdx x set)
                         (Weighted.updateSetObj (shift newSet) newIdx y (shift set)).
Proof.
  intros Hnew Hidx [[[σa Ma] d] [[σb Mb] d'] (Hs & HM & Hab & Hgen & Hd)|]; [|constructor].
  simpl in Hs, HM, Hab, Hgen, Hd. subst d'. unfold Weighted.updateSetObj. simpl.
  pose proof (amap_get_related shift node_sim shift_inj set Ma Mb HM) as Hget.
  destruct (amap_get set Ma) as [n|] eqn:EA.
  2: { apply related_None in Hget. rewrite Hget. constructor. }
  apply related_Some in Hget as (n' & -> & [Hc Hr Hi Hdn]). simpl.
  pose proof (amap_get_In _ _ _ EA) as Hin.
  assert (ba ≤ rest n) as Hrest.
  { unfold above in Hab. rewrite Forall_forall in Hab. apply (Hab (set, n)).
    by apply list_elem_of_In. }
  constructor. split; [|split; [|split; [|split]]]; simpl.
  - unfold Weighted.filterFromSet. rewrite Hr, !(read_sim σa σb) by done.
    by apply write_sim.
  - apply amap_set_related; [apply shift_inj|done|].
    split; simpl; [done|done| |done]. by rewrite Hi.
  - by apply Forall_amap_set.
  - destruct Hgen as [Hlen Himp Hcolls]. split.
    + etransitivity; [exact Hlen|]. apply length_amap_set_ge.
    + apply Forall_amap_set; [done|]. simpl. apply Forall_app. split.
      * rewrite Forall_forall in Himp. apply (Himp (set, n)). by apply list_elem_of_In.
      * by repeat constructor.
    + by rewrite (map_amap_set_same (λ e : ref * Node, coll e.2) set _ n).
  - by rewrite Hdn.
Qed.

Lemma updateSetObj_fold_sim newSet newIdx (l : list ref) x y :
  ba ≤ newSet → n0 ≤ newIdx → option_Forall2 upd_sim x y →
  option_Forall2 upd_sim
    (fold_left (Weighted.updateSetObj newSet newIdx) l x)
    (fold_left (Weighted.updateSetObj (shift newSet) newIdx) (map shift l) y).
Proof.
  intros Hnew Hidx. revert x y. induction l as [|s l IH]; intros x y Hxy; [done|].
  simpl. apply IH. by apply updateSetObj_sim.
Qed.

Lemma update_cond_fold_sim newSet newIdx (elems : list T) (l : list ref) x y :
  ba ≤ newSet → n0 ≤ newIdx → Forall (λ s, ba ≤ s) l → option_Forall2 upd_sim x y →
  option_Forall2 upd_sim
    (fold_left (λ acc set,
                  '(σ, _, _) ← acc;
                  if forallb (λ element, includes (read σ set) element) elems
                  then Weighted.updateSetObj newSet newIdx acc set
                  else acc) l x)
    (fold_left (λ acc set,
                  '(σ, _, _) ← acc;
                  if forallb (λ element, includes (read σ set) element) elems
                  then Weighted.updateSetObj (shift newSet) newIdx acc set
                  else acc) (map shift l) y).
Proof.
  intros Hnew Hidx Hl. revert x y.
  induction Hl as [|s l Hs Hl IH]; intros x y Hxy; [done|].
  simpl. apply IH. destruct Hxy as [[[σa Ma] d] [[σb Mb] d'] Hsim|]; simpl; [|constructor].
  pose proof Hsim as (Hst & _). simpl in Hst. rewrite (read_sim σa σb) by done.
  destruct (forallb _ elems); [|by constructor].
  apply (updateSetObj_sim newSet newIdx (Some (σa, Ma, d)) (Some (σb, Mb, d')));
    [done|done|by constructor].
Qed.

(** the states of the two runs between two passes of the loop *)
Record sim (a b : Weighted.State (T := T) (U := U)) : Prop := mk_sim {
  sim_ix : ix_sim a b;
  sim_store : store_sim (Weighted.store a) (Weighted.store b);
  sim_nodes : entries_sim (Weighted.setNodeMap a) (Weighted.setNodeMap b)
}.

Lemma pair_setMap_ren (s1 s2 : ref) :
  amap_set (shift s2) 1 (amap_set (shift s1) 1 [])
  = ren_setMap (amap_set s2 1 (amap_set s1 1 [])).
Proof. by rewrite <- !set_ren_setMap. Qed.

Lemma addUpdateToMaps_sim x y (p : ref * ref) :
  ba ≤ p.1 → ba ≤ p.2 → option_Forall2 sim x y →
  option_Forall2 sim (Weighted.addUpdateToMaps join primaryWeight x p)
                     (Weighted.addUpdateToMaps join primaryWeight y (shift_pair p)).
Proof.
  intros H1 H2 [a b [[Hcl Himap Hims Hs2i Hw] Hst HM]|]; [|constructor].
  destruct p as [s1 s2]. simpl in H1, H2.
  unfold Weighted.addUpdateToMaps, shift_pair. simpl.
  rewrite !(read_sim _ _ _ Hst) by done.
  set (l := intersectSets _ _).
  destruct (0 <? length l); [|by constructor].
  rewrite Hims, Hw, Himap, Hs2i, get_ren_ims.
  destruct (amap_get (join l) (Weighted.intersectionMapSet a)) as [sets|]; simpl.
  - rewrite length_ren_setMap.
    destruct (Weighted.removeFromSetOrDeleteFromMap _ _ _) as [wm|]; simpl; [|constructor].
    constructor. split; simpl; [split; simpl|done|done].
    + done.
    + apply (pushPair_ren _ _ (s1, s2)).
    + by rewrite !addToIntersectingMapSets_ren, set_ren_ims.
    + by rewrite !addToSet_ren_s2i.
    + by rewrite !addToIntersectingMapSets_ren, length_ren_setMap.
  - constructor. split; simpl; [split; simpl|done|done].
    + done.
    + apply (pushPair_ren _ _ (s1, s2)).
    + etransitivity; [|apply set_ren_ims]. f_equal. exact (pair_setMap_ren s1 s2).
    + by rewrite !addToSet_ren_s2i.
    + done.
Qed.

Lemma addUpdateToMaps_fold_sim (pairs : list (ref * ref)) x y :
  Forall (λ p, ba ≤ p.1 ∧ ba ≤ p.2) pairs → option_Forall2 sim x y →
  option_Forall2 sim
    (fold_left (Weighted.addUpdateToMaps join primaryWeight) pairs x)
    (fold_left (Weighted.addUpdateToMaps join primaryWeight) (map shift_pair pairs) y).
Proof.
  intros Hp. revert x y. induction Hp as [|p pairs [H1 H2] _ IH]; intros x y Hxy; [done|].
  simpl. apply IH. by apply addUpdateToMaps_sim.
Qed.

(** ** The sets the first run handles are objects it has made *)

Definition made (k : U) (s : ref) : Prop := ba ≤ s.

Record run_ok (a : Weighted.State (T := T) (U := U)) : Prop := mk_run_ok {
  ro_nodes : above (Weighted.setNodeMap a);
  ro_gen : generated (Weighted.setNodeMap a);
  ro_cloned : Forall (λ s, ba ≤ s) (Weighted.clonedSets a);
  ro_imap : imap_ok made (Weighted.intersectionMap a);
  ro_ims : imapset_ok made (Weighted.intersectionMapSet a)
}.

Lemma oset_add_Forall (Q : ref → Prop) (s : ref) (l : list ref) :
  Q s → Forall Q l → Forall Q (oset_add s l).
Proof.
  intros Hs Hl. unfold oset_add. destruct (includes l s); [done|].
  apply Forall_app. split; [done|]. by repeat constructor.
Qed.

Definition affected_ok (st : option (list U * list ref)) : Prop :=
  match st with Some (_, oas) => Forall (λ s, ba ≤ s) oas | None => True end.

Lemma affectedByIntersection_made (intersectingSets : list ref) (elems : list T) ims st x :
  imapset_ok made ims → affected_ok st →
  affected_ok (Weighted.affectedByIntersection split intersectingSets elems ims st x).
Proof.
  intros Hims Hst. unfold Weighted.affectedByIntersection.
  destruct st as [[oai oas]|]; simpl; [|done].
  destruct (existsb _ (split x)); [|done].
  destruct (amap_get x ims) as [setMap|] eqn:Eget; simpl; [|done].
  destruct (amap_get_Forall _ _ _ _ Hims Eget) as [_ Hsets]. simpl in Hsets, Hst.
  assert (Forall (λ s, ba ≤ s) (amap_keys setMap)) as Hkeys.
  { unfold amap_keys. apply Forall_forall. intros s Hs.
    apply list_elem_of_In, in_map_iff in Hs as (sc & <- & Hsc).
    rewrite Forall_forall in Hsets. by apply Hsets, list_elem_of_In. }
  clear Hsets Eget. revert oas Hst.
  induction Hkeys as [|s keys Hs _ IH]; intros oas Hst; simpl; [done|].
  apply IH. destruct (includes intersectingSets s); [done|]. by apply oset_add_Forall.
Qed.

Lemma affectedByIntersection_fold_made (intersectingSets : list ref) (elems : list T) ims
    (xs : list U) st :
  imapset_ok made ims → affected_ok st →
  affected_ok (fold_left (Weighted.affectedByIntersection split intersectingSets elems ims)
                         xs st).
Proof.
  intros Hims. revert st. induction xs as [|x xs IH]; intros st Hst; simpl; [done|].
  by apply IH, affectedByIntersection_made.
Qed.

Lemma getOtherAffectedIntersections_made (intersectingSets : list ref) s2i hwi ims oai oas :
  imapset_ok made ims →
  Weighted.getOtherAffectedIntersections split intersectingSets s2i hwi ims
    = Some (oai, oas) →
  Forall (λ s, ba ≤ s) oas.
Proof.
  intros Hims. unfold Weighted.getOtherAffectedIntersections.
  assert (∀ (l : list ref) st, affected_ok st →
            affected_ok
              (fold_left (λ st set,
                            _ ← st;
                            affectedIntersections ← amap_get set s2i;
                            fold_left (Weighted.affectedByIntersection split
                                         intersectingSets (split hwi) ims)
                                      affectedIntersections st)
                         l st)) as Hfold.
  { induction l as [|s l IH]; intros st Hst; simpl; [done|]. apply IH.
    destruct st as [acc|]; simpl; [|done].
    destruct (amap_get s s2i) as [ai|]; simpl; [|done].
    by apply affectedByIntersection_fold_made. }
  specialize (Hfold intersectingSets (Some ([], [])) ltac:(constructor)).
  destruct (fold_left _ intersectingSets _) as [[oai' oas']|]; simpl; [|done].
  by intros [= _ <-].
Qed.

Lemma addUpdateToMaps_fold_made (pairs : list (ref * ref)) st st' :
  Forall (λ p, ba ≤ p.1 ∧ ba ≤ p.2) pairs →
  fold_left (Weighted.addUpdateToMaps join primaryWeight) pairs (Some st) = Some st' →
  imap_ok made (Weighted.intersectionMap st) →
  imapset_ok made (Weighted.intersectionMapSet st) →
  Weighted.setNodeMap st' = Weighted.setNodeMap st ∧
  Weighted.clonedSets st' = Weighted.clonedSets st ∧
  imap_ok made (Weighted.intersectionMap st') ∧
  imapset_ok made (Weighted.intersectionMapSet st').
Proof.
  intros Hp. revert st. induction Hp as [|[s1 s2] pairs [H1 H2] _ IH]; intros st.
  - simpl. by intros [= <-].
  - cbn [fold_left]. intros Hfold Himap Hims.
    destruct (Weighted.addUpdateToMaps join primaryWeight (Some st) (s1, s2)) as [st1|] eqn:E1;
      [|rewrite fold_option_None in Hfold; done].
    destruct (addUpdateToMaps_ok join primaryWeight made st s1 s2 st1 E1)
      as (_ & HM1 & Hcl1 & Himap1 & Hims1); try done.
    destruct (IH st1 Hfold Himap1 Hims1) as (HM' & Hcl' & ? & ?).
    split; [congruence|]. split; [congruence|]. done.
Qed.

Lemma step_sim a b :
  sim a b → run_ok a →
  option_Forall2 (λ a' b', sim a' b' ∧ run_ok a')
    (Weighted.step join split primaryWeight secondaryWeight a)
    (Weighted.step join split primaryWeight secondaryWeight b).
Proof.
  intros [Hix Hst HM] [Hab Hgen Hcl Himap Hims].
  pose proof Hix as [Ecl Eimap Eims Es2i Ew].
  pose proof (gn_len _ Hgen) as Hidx.
  unfold Weighted.step.
  rewrite Ew, Eims, getHighestWeightIntersection_ren.
  destruct (Weighted.getHighestWeightIntersection _ _ _ _) as [[hwi hw]|]; simpl;
    [|constructor].
  rewrite get_ren_ims.
  destruct (amap_get hwi (Weighted.intersectionMapSet a)) as [setMap|] eqn:Eset; simpl;
    [|constructor].
  rewrite keys_ren_setMap, Es2i, getOtherAffectedIntersections_ren.
  destruct (Weighted.getOtherAffectedIntersections _ _ _ _ _) as [[oai oas]|] eqn:Eoth;
    simpl; [|constructor].
  pose proof (getOtherAffectedIntersections_made _ _ _ _ _ _ Hims Eoth) as Hoas.
  pose proof (removeUpdatedFromMaps_ren hwi (amap_keys setMap) oai oas hw a b Hix) as Hrem.
  destruct (Weighted.removeUpdatedFromMaps _ _ _ _ _ _ _ a) as [[a1 pa]|] eqn:Erem.
  2: { destruct (Weighted.removeUpdatedFromMaps _ _ _ _ _ _ _ b); [done|constructor]. }
  destruct (Weighted.removeUpdatedFromMaps _ _ _ _ _ _ _ b) as [[b1 pb]|]; [|done].
  destruct Hrem as (Hix1 & -> & Hσa1 & HMa1 & Hσb1 & HMb1). simpl.
  destruct (removeUpdatedFromMaps_ok split primaryWeight made _ _ _ _ _ _ _ _ Erem Himap Hims)
    as (_ & _ & Hcl1 & Himap1 & Hims1 & Hpairs).
  rewrite Hσa1, HMa1, Hσb1, HMb1.
  pose proof (Forall2_length _ _ _ HM) as HlenM.
  pose proof (ss_length _ _ Hst) as Hlenσ.
  pose proof (ss_base _ _ Hst) as Hbase.
  set (E := to_set (split hwi)).
  rewrite !length_app. simpl.
  set (newSet := length (Weighted.store a)) in *.
  rewrite <- HlenM, Hlenσ. change (newSet + δ) with (shift newSet).
  replace (shift newSet + 1) with (shift (newSet + 1)) by (unfold shift; lia).
  match goal with
  | |- option_Forall2 _ (?fa ≫= _) (?fb ≫= _) =>
      assert (option_Forall2 upd_sim fa fb) as Hf1;
        [|destruct Hf1 as [[[σ3 M3] d3] [[σ3b M3b] d3b] Hsim3|]; simpl; [|constructor]]
  end.
  { apply updateSetObj_fold_sim; [done|done|]. constructor.
    split; [by do 2 apply alloc_sim|]. split; [done|]. split; [done|]. by split. }
  destruct Hsim3 as (Hst3 & HM3 & Hab3 & Hgen3 & Hd3).
  simpl in Hst3, HM3, Hab3, Hgen3, Hd3. subst d3b.
  match goal with
  | |- option_Forall2 _ (?fa ≫= _) (?fb ≫= _) =>
      assert (option_Forall2 upd_sim fa fb) as Hf2;
        [|destruct Hf2 as [[[σ4 M4] d4] [[σ4b M4b] d4b] Hsim4|]; simpl; [|constructor]]
  end.
  { apply update_cond_fold_sim; [done|done|done|]. by constructor. }
  destruct Hsim4 as (Hst4 & HM4 & Hab4 & Hgen4 & Hd4).
  simpl in Hst4, HM4, Hab4, Hgen4, Hd4. subst d4b.
  pose proof Hix1 as [Ecl1 Eimap1 Eims1 Es2i1 Ew1].
  unfold Weighted.addUpdatedToMaps. simpl. rewrite Ecl1.
  assert (map (λ set, (set, shift (newSet + 1))) (map shift (Weighted.clonedSets a1))
            ++ map shift_pair pa
          = map shift_pair (map (λ set, (set, newSet + 1)) (Weighted.clonedSets a1) ++ pa))
    as -> by (by rewrite map_app, !map_map).
  assert (Forall (λ p : ref * ref, ba ≤ p.1 ∧ ba ≤ p.2)
            (map (λ set, (set, newSet + 1)) (Weighted.clonedSets a1) ++ pa)) as Hall.
  { apply Forall_app. split.
    - apply Forall_forall. intros [s1 s2] Hp.
      apply list_elem_of_In, in_map_iff in Hp as (s & [= <- <-] & Hs). simpl.
      rewrite Hcl1 in Hs. rewrite Forall_forall in Hcl. split; [|lia].
      by apply Hcl, list_elem_of_In.
    - eapply Forall_impl; [exact Hpairs|]. by intros p (k & ? & ?). }
  match goal with
  | |- option_Forall2 _ (?fa ≫= _) (?fb ≫= _) =>
      assert (option_Forall2 sim fa fb) as Hf5; [|destruct fa as [st5|] eqn:E5]
  end.
  { apply addUpdateToMaps_fold_sim; [done|]. constructor. split; simpl; [|done|done].
    by split. }
  2: { apply related_None in Hf5. rewrite Hf5. constructor. }
  apply related_Some in Hf5 as (st5b & -> & [Hix5 Hst5 HM5]). simpl.
  destruct (addUpdateToMaps_fold_made _ _ _ Hall E5) as (HM5a & Hcl5a & Himap5 & Hims5);
    [done|done|]. simpl in HM5a, Hcl5a.
  destruct Hix5 as [Ecl5 Eimap5 Eims5 Es2i5 Ew5].
  constructor. split.
  - split; simpl; [split; simpl; try done| |].
    + rewrite Ecl5. apply (oset_add_map shift shift_inj).
    + done.
    + apply amap_set_related; [apply shift_inj|done|].
      split; simpl; try done. left. split; [done|]. done.
  - rewrite <- HM5a in Hab4, Hgen4. destruct Hgen4 as [Hlen4 Himp4 Hcolls4].
    split; simpl.
    + apply Forall_amap_set; [done|]. simpl. lia.
    + split.
      * etransitivity; [exact Hlen4|]. apply length_amap_set_ge.
      * apply Forall_amap_set; [done|]. simpl. constructor.
      * by apply (Forall_drop_amap_set (λ e : ref * Node, coll e.2)).
    + apply oset_add_Forall; [lia|]. by rewrite Hcl5a, Hcl1.
    + done.
    + done.
Qed.

(** the node list of the first run: what [above] and [generated] say of it *)
Record result_ok (nodes : list Node) : Prop := mk_result_ok {
  rs_rest : Forall (λ n, ba ≤ rest n) nodes;
  rs_len : n0 ≤ length nodes;
  rs_imports : Forall (λ n, Forall (λ j, n0 ≤ j) (imports n)) nodes;
  rs_colls : Forall (λ c, ba ≤ c) (drop n0 (map coll nodes))
}.

Lemma values_result_ok M : above M → generated M → result_ok (amap_values M).
Proof.
  intros Hab [Hlen Himp Hcolls]. unfold amap_values. split.
  - by apply Forall_map.
  - by rewrite length_map.
  - by apply Forall_map.
  - by rewrite map_map.
Qed.

(** how the two runs end *)
Definition outcome_sim (x y : Weighted.Outcome (T := T)) : Prop :=
  match x, y with
  | Weighted.Done σa na, Weighted.Done σb nb =>
      store_sim σa σb ∧ Forall2 node_sim na nb ∧ result_ok na
  | Weighted.TypeError, Weighted.TypeError => True
  | Weighted.StillRunning, Weighted.StillRunning => True
  | _, _ => False
  end.

Lemma loop_sim fuel a b :
  sim a b → run_ok a →
  outcome_sim (Weighted.loop join split primaryWeight secondaryWeight fuel a)
              (Weighted.loop join split primaryWeight secondaryWeight fuel b).
Proof.
  revert a b. induction fuel as [|fuel IH]; intros a b Hsim Hok; simpl;
    rewrite (is_imap _ _ (sim_ix _ _ Hsim)); unfold ren_imap; rewrite length_kmap;
    destruct (length (Weighted.intersectionMap a) =? 0); simpl; try done;
    try (split; [apply (sim_store _ _ Hsim)|];
         split; [apply (amap_values_related shift node_sim), (sim_nodes _ _ Hsim)|];
         apply values_result_ok; [apply (ro_nodes _ Hok)|apply (ro_gen _ Hok)]).
  pose proof (step_sim a b Hsim Hok) as Hstep.
  destruct (Weighted.step join split primaryWeight secondaryWeight a) as [a'|].
  - apply related_Some in Hstep as (b' & -> & Hsim' & Hok'). by apply IH.
  - apply related_None in Hstep. by rewrite Hstep.
Qed.

(** ** The states the two runs start from *)

Lemma orderedPairs_shift (l : list ref) :
  Weighted.orderedPairs (map shift l) = map shift_pair (Weighted.orderedPairs l).
Proof.
  induction l as [|s l IH]; simpl; [done|]. by rewrite map_app, !map_map, IH.
Qed.

Lemma createIntersectionMap_fold_sim σa σb (pairs : list (ref * ref)) m :
  store_sim σa σb → Forall (λ p, ba ≤ p.1 ∧ ba ≤ p.2) pairs →
  fold_left (λ intersectionMap '(set1, set2),
               let intersectedSet := intersectSets (read σb set1) (read σb set2) in
               if 0 <? length intersectedSet
               then Weighted.pushPair intersectionMap (join intersectedSet) (set1, set2)
               else intersectionMap)
            (map shift_pair pairs) (ren_imap m)
  = ren_imap
      (fold_left (λ intersectionMap '(set1, set2),
                    let intersectedSet := intersectSets (read σa set1) (read σa set2) in
                    if 0 <? length intersectedSet
                    then Weighted.pushPair intersectionMap (join intersectedSet) (set1, set2)
                    else intersectionMap)
                 pairs m).
Proof.
  intros Hst Hp. revert m. induction Hp as [|[s1 s2] pairs [H1 H2] _ IH]; intros m; [done|].
  simpl in H1, H2. cbn [map fold_left]. unfold shift_pair at 2. cbn [fst snd]. cbv zeta.
  rewrite !(read_sim σa σb) by done. rewrite <- IH. f_equal.
  destruct (0 <? length _); [|done]. apply (pushPair_ren m _ (s1, s2)).
Qed.

Lemma createIntersectionMap_fold_made (σ : Store T) (pairs : list (ref * ref)) m :
  Forall (λ p, ba ≤ p.1 ∧ ba ≤ p.2) pairs → imap_ok made m →
  imap_ok made
    (fold_left (λ intersectionMap '(set1, set2),
                  let intersectedSet := intersectSets (read σ set1) (read σ set2) in
                  if 0 <? length intersectedSet
                  then Weighted.pushPair intersectionMap (join intersectedSet) (set1, set2)
                  else intersectionMap)
               pairs m).
Proof.
  intros Hp. revert m. induction Hp as [|[s1 s2] pairs [H1 H2] _ IH]; intros m Hm; [done|].
  cbn [fold_left]. apply IH. cbv zeta. destruct (0 <? length _); [|done].
  by apply pushPair_ok.
Qed.

Lemma setsMap_ren (sets : list (ref * ref)) m :
  fold_left (λ setsMap '(set1, set2),
               Weighted.addToIntersectingMapSets
                 (Weighted.addToIntersectingMapSets setsMap set1) set2)
            (map shift_pair sets) (ren_setMap m)
  = ren_setMap
      (fold_left (λ setsMap '(set1, set2),
                    Weighted.addToIntersectingMapSets
                      (Weighted.addToIntersectingMapSets setsMap set1) set2)
                 sets m).
Proof.
  revert m. induction sets as [|[s1 s2] sets IH]; intros m; [done|].
  cbn [map fold_left]. unfold shift_pair at 2. cbn [fst snd].
  by rewrite !addToIntersectingMapSets_ren, IH.
Qed.

Lemma createIntersectionMapSet_ren imap :
  Weighted.createIntersectionMapSet (ren_imap imap)
  = ren_ims (Weighted.createIntersectionMapSet imap).
Proof.
  unfold Weighted.createIntersectionMapSet.
  change (@nil (U * list (ref * nat))) with (ren_ims []) at 1.
  generalize (@nil (U * list (ref * nat))).
  induction imap as [|[k sets] imap IH]; intros acc; [done|].
  cbn [fold_left]. rewrite <- IH. unfold ren_imap at 1, kmap at 1. cbn [map fold_left fst snd].
  f_equal. rewrite <- set_ren_ims. f_equal. apply (setsMap_ren sets []).
Qed.

Lemma createSetToIntersectionMap_ren ims :
  Weighted.createSetToIntersectionMap (ren_ims ims)
  = ren_s2i (Weighted.createSetToIntersectionMap ims).
Proof.
  unfold Weighted.createSetToIntersectionMap.
  change (@nil (ref * list U)) with (ren_s2i []) at 1.
  generalize (@nil (ref * list U)).
  induction ims as [|[k setMap] ims IH]; intros acc; [done|].
  cbn [fold_left]. rewrite <- IH. unfold ren_ims at 1, kmap at 1. cbn [map fold_left fst snd].
  f_equal. rewrite keys_ren_setMap. generalize (amap_keys setMap). clear.
  intros keys. revert acc. induction keys as [|s keys IH]; intros acc; [done|].
  cbn [map fold_left]. by rewrite addToSet_ren_s2i, IH.
Qed.

Lemma getWeightIntersectionsMap_ren ims :
  Weighted.getWeightIntersectionsMap split primaryWeight (ren_ims ims)
  = Weighted.getWeightIntersectionsMap split primaryWeight ims.
Proof.
  unfold Weighted.getWeightIntersectionsMap. generalize (@nil (Z * list U)).
  induction ims as [|[k setMap] ims IH]; intros acc; [done|].
  cbn [fold_left]. rewrite <- IH. unfold ren_ims at 1, kmap at 1. cbn [map fold_left fst snd].
  by rewrite length_ren_setMap.
Qed.

Lemma shift_seq (n start : nat) : map shift (seq start n) = seq (start + δ) n.
Proof.
  revert start. induction n as [|n IH]; intros start; simpl; [done|]. by rewrite IH.
Qed.

Lemma initial_sim (ia ib : list ref) :
  ba = length σa0 → length σb0 = ba + δ → n0 = length ia →
  Forall (λ r, r < length σa0) ia → Forall (λ r, r < length σb0) ib →
  map (read σa0) ia = map (read σb0) ib →
  (∀ i r r', ia !! i = Some r → ib !! i = Some r' → In (r, r') roots) →
  sim (Weighted.initialState join split primaryWeight σa0 ia)
      (Weighted.initialState join split primaryWeight σb0 ib) ∧
  run_ok (Weighted.initialState join split primaryWeight σa0 ia).
Proof.
  intros Hba Hlenb Hn0 Hia Hib Hcont Hroots. unfold Weighted.initialState.
  rewrite (createSetObjMap_spec σa0 ia Hia), (createSetObjMap_spec σb0 ib Hib).
  assert (length ib = length ia) as Hlen.
  { by rewrite <- (length_map (read σb0)), <- Hcont, length_map. }
  rewrite <- Hcont, Hlenb, <- Hba, Hlen, <- shift_seq.
  set (σa := σa0 ++ map (read σa0) ia). set (σb := σb0 ++ map (read σa0) ia).
  set (cl := seq ba (length ia)).
  assert (store_sim σa σb) as Hst.
  { unfold σa, σb. split.
    - rewrite length_app. lia.
    - rewrite !length_app. lia.
    - intros r Hr. unfold shift. rewrite !lookup_app_r by lia. f_equal. lia.
    - intros r Hr. rewrite lookup_app_l by lia. done.
    - intros r Hr. rewrite lookup_app_l by lia. done. }
  assert (Forall (λ s, ba ≤ s) cl) as Hcl.
  { apply Forall_forall. intros s Hs. apply list_elem_of_In, in_seq in Hs. lia. }
  assert (Forall (λ p : ref * ref, ba ≤ p.1 ∧ ba ≤ p.2) (Weighted.orderedPairs cl)) as Hpairs.
  { rewrite Forall_forall in Hcl. apply Forall_forall. intros [s1 s2] Hp.
    apply list_elem_of_In, orderedPairs_In in Hp as [H1 H2].
    split; by apply Hcl, list_elem_of_In. }
  assert (Weighted.createIntersectionMap join σb (map shift cl)
          = ren_imap (Weighted.createIntersectionMap join σa cl)) as Himap.
  { unfold Weighted.createIntersectionMap. rewrite orderedPairs_shift.
    by apply (createIntersectionMap_fold_sim σa σb _ []). }
  rewrite Himap, createIntersectionMapSet_ren, createSetToIntersectionMap_ren,
    getWeightIntersectionsMap_ren.
  split.
  - split; simpl; [by split|done|].
    apply Forall2_lookup. intros i. rewrite !list_lookup_imap.
    destruct (ia !! i) as [r|] eqn:Ea; destruct (ib !! i) as [r'|] eqn:Eb; simpl.
    + constructor. split; simpl; [unfold shift; lia|].
      split; simpl; [right; by eapply Hroots|unfold shift; lia|done|done].
    + apply lookup_lt_Some in Ea. apply lookup_ge_None in Eb. lia.
    + apply lookup_lt_Some in Eb. apply lookup_ge_None in Ea. lia.
    + constructor.
  - split; simpl.
    + apply Forall_forall. intros e He. apply list_elem_of_lookup in He as [i Hi].
      rewrite list_lookup_imap in Hi. destruct (ia !! i); [|done].
      injection Hi as <-. simpl. lia.
    + split.
      * rewrite length_imap. lia.
      * apply Forall_forall. intros e He. apply list_elem_of_lookup in He as [i Hi].
        rewrite list_lookup_imap in Hi. destruct (ia !! i); [|done].
        injection Hi as <-. simpl. constructor.
      * rewrite drop_ge; [constructor|]. rewrite length_map, length_imap. lia.
    + done.
    + apply createIntersectionMap_fold_made; [done|constructor].
    + apply createIntersectionMapSet_ok.
      apply createIntersectionMap_fold_made; [done|constructor].
Qed.

Lemma splitSets_sim fuel (ia ib : list ref) :
  ba = length σa0 → length σb0 = ba + δ → n0 = length ia →
  Forall (λ r, r < length σa0) ia → Forall (λ r, r < length σb0) ib →
  map (read σa0) ia = map (read σb0) ib →
  (∀ i r r', ia !! i = Some r → ib !! i = Some r' → In (r, r') roots) →
  outcome_sim (Weighted.splitSets join split primaryWeight secondaryWeight fuel σa0 ia)
              (Weighted.splitSets join split primaryWeight secondaryWeight fuel σb0 ib).
Proof.
  intros Hba Hlenb Hn0 Hia Hib Hcont Hroots. unfold Weighted.splitSets.
  destruct (initial_sim ia ib) as [Hsim Hok]; try done. by apply loop_sim.
Qed.

(** corresponding node lists show the same *)
Lemma view_sim σa σb (na nb : list Node) :
  store_sim σa σb → Forall2 node_sim na nb → Forall (λ n, ba ≤ rest n) na →
  (∀ r r', In (r, r') roots → r < ba ∧ r' < ba + δ ∧ read σa0 r = read σb0 r') →
  view σa na = view σb nb.
Proof.
  intros Hst Hn Hr Hroots. unfold view.
  induction Hn as [|n n' na nb [Hc Hrest Hi Hd] _ IH]; simpl; [done|].
  apply Forall_cons in Hr as [Hrn Hr]. rewrite IH by done. f_equal.
  unfold node_coll, node_rest. rewrite Hrest, Hi, Hd, (read_sim σa σb) by done.
  do 3 f_equal.
  destruct Hc as [[Hge ->]|Hin]; [by rewrite (read_sim σa σb)|].
  destruct (Hroots _ _ Hin) as (Hlt & Hlt' & Hcont). unfold read in *.
  by rewrite (ss_old_a _ _ Hst), (ss_old_b _ _ Hst).
Qed.
End WeightedRenaming.

(** ** The adapters under a renaming of the objects *)

Section FindRelated.
Context {A B : Type} (R : A → B → Prop).

Lemma find_related (p : A → bool) (q : B → bool) l l' :
  Forall2 R l l' → (∀ x y, R x y → p x = q y) →
  option_Forall2 R (List.find p l) (List.find q l').
Proof.
  intros Hl Hpq. induction Hl as [|x y l l' Hxy _ IH]; simpl; [constructor|].
  rewrite <- (Hpq x y Hxy). destruct (p x); [by constructor|done].
Qed.
End FindRelated.

Section AdapterRenaming.
Context {T : Type} `{EqDecision T}.
Variable copy : list T → list T.

(** [inner] pairs the inputs of the wrapped splitter, which are the copies
    the adapter has made; [outer] pairs the inputs of the adapter; [na] and
    [nb] are the node lists the wrapped splitter has returned *)
Variables (δ ba n0 : nat) (inner outer : list (ref * ref)) (σa0 σb0 : Store T).
Variables (na nb : list Node) (back0a : list (ref * ref)).

Hypothesis Hnodes : Forall2 (node_sim δ ba inner) na nb.
Hypothesis Hres : result_ok ba n0 na.
Hypothesis Hinner : ∀ c c', In (c, c') inner → c' = shift δ c ∧ is_Some (amap_get c back0a).
Hypothesis Houter : ∀ v v', In (v, v') outer → v < ba ∧ v' < ba + δ.

Local Abbreviation ssim := (store_sim δ ba σa0 σb0).
Local Abbreviation csim := (coll_sim δ ba outer).
Local Abbreviation nsim := (node_sim δ ba outer).

(** the maps from the collections to the converted collections *)
Definition bsim (backa backb : list (ref * ref)) : Prop :=
  ∀ c, option_Forall2 csim (amap_get c backa) (amap_get (shift δ c) backb).

Lemma bsim_set backa backb c v v' :
  bsim backa backb → csim v v' → bsim (amap_set c v backa) (amap_set (shift δ c) v' backb).
Proof.
  intros Hback Hv k. destruct (decide (c = k)) as [<-|Hne].
  - rewrite !amap_get_set_eq. by constructor.
  - rewrite !amap_get_set_ne; [apply Hback| |done]. intros Heq. by apply shift_inj in Heq.
Qed.

Definition conv_sim (x y : nat * Node) : Prop := y.1 = x.1 ∧ nsim x.2 y.2.

(** the states of the two loops that convert the nodes *)
Record convert_sim (x y : Store T * list (ref * ref) * list (nat * Node)) : Prop :=
  mk_convert_sim {
  cv_store : ssim x.1.1 y.1.1;
  cv_back : bsim x.1.2 y.1.2;
  cv_conv : Forall2 conv_sim x.2 y.2;
  cv_keys : ∀ c, is_Some (amap_get c back0a) → is_Some (amap_get c x.1.2);
  cv_fresh : ∀ c v, amap_get c x.1.2 = Some v → ba ≤ c → ba ≤ v;
  cv_rest : Forall (λ e, ba ≤ rest e.2) x.2
}.

Lemma shifted_coll node node' :
  node_sim δ ba inner node node' → coll node' = shift δ (coll node).
Proof.
  intros [[[_ ->]|Hin] _ _ _]; [done|]. by destruct (Hinner _ _ Hin).
Qed.

Lemma findImport_sim backa backb conva convb k :
  bsim backa backb → Forall2 conv_sim conva convb →
  (∀ c v, amap_get c backa = Some v → ba ≤ c → ba ≤ v) → n0 ≤ k →
  Adapters.findImport na backa conva k = Adapters.findImport nb backb convb k.
Proof.
  intros Hback Hconv Hfresh Hk. unfold Adapters.findImport.
  rewrite <- (Forall2_length _ _ _ Hnodes).
  pose proof (proj1 (Forall2_lookup _ _ _) Hnodes k) as Hlook.
  destruct (na !! k) as [imp|] eqn:Ek.
  2: { apply related_None in Hlook. by rewrite Hlook. }
  apply related_Some in Hlook as (imp' & -> & Himp).
  rewrite (shifted_coll _ _ Himp).
  pose proof (Hback (coll imp)) as Hget.
  destruct (amap_get (coll imp) backa) as [target|] eqn:Et.
  2: { apply related_None in Hget. by rewrite Hget. }
  apply related_Some in Hget as (target' & -> & Ht).
  assert (ba ≤ coll imp) as Hc.
  { pose proof (rs_colls _ _ _ Hres) as Hcolls. rewrite Forall_lookup in Hcolls.
    apply (Hcolls (k - n0)). rewrite lookup_drop.
    replace (n0 + (k - n0)) with k by lia.
    change (map coll na) with (coll <$> na). by rewrite list_lookup_fmap, Ek. }
  pose proof (Hfresh _ _ Et Hc) as Htarget.
  assert (target' = shift δ target) as ->.
  { destruct Ht as [[_ ->]|Hin]; [done|]. destruct (Houter _ _ Hin). lia. }
  pose proof (find_related conv_sim
                (λ '(_, n), bool_decide (coll n = target))
                (λ '(_, n), bool_decide (coll n = shift δ target)) conva convb Hconv)
    as Hfind.
  destruct (List.find _ conva) as [[j n]|].
  - apply related_Some in Hfind as ([j' n'] & -> & [Hj _]); [done|].
    intros [j1 n1] [j2 n2] [_ [Hcs _ _ _]]. simpl in Hcs. apply bool_decide_ext.
    destruct Hcs as [[_ ->]|Hin].
    + split; [by intros ->|]. apply shift_inj.
    + destruct (Houter _ _ Hin). unfold shift. lia.
  - apply related_None in Hfind; [by rewrite Hfind|].
    intros [j1 n1] [j2 n2] [_ [Hcs _ _ _]]. simpl in Hcs. apply bool_decide_ext.
    destruct Hcs as [[_ ->]|Hin].
    + split; [by intros ->|]. apply shift_inj.
    + destruct (Houter _ _ Hin). unfold shift. lia.
Qed.

(** the second half of the body of the loop: the copy of [rest] and the new
    node *)
Lemma convert_push σ1a σ1b back1a back1b conva convb node node' c c' i :
  ssim σ1a σ1b → bsim back1a back1b → Forall2 conv_sim conva convb →
  (∀ k, is_Some (amap_get k back0a) → is_Some (amap_get k back1a)) →
  (∀ k v, amap_get k back1a = Some v → ba ≤ k → ba ≤ v) →
  Forall (λ e, ba ≤ rest e.2) conva →
  In node na → node_sim δ ba inner node node' → csim c c' →
  convert_sim
    (σ1a ++ [copy (node_rest σ1a node)], back1a,
     conva ++ [(i, mkNode c (length σ1a)
                     (map (Adapters.findImport na back1a conva) (imports node))
                     (depth node))])
    (σ1b ++ [copy (node_rest σ1b node')], back1b,
     convb ++ [(i, mkNode c' (length σ1b)
                     (map (Adapters.findImport nb back1b convb) (imports node'))
                     (depth node'))]).
Proof.
  intros Hst Hback Hconv Hkeys Hfresh Hrest Hin Hn Hc.
  pose proof Hn as [_ Hr Hi Hd].
  assert (ba ≤ rest node ∧ Forall (λ j, n0 ≤ j) (imports node)) as [Hrn Himp].
  { destruct Hres as [Hrs _ Hims _]. rewrite Forall_forall in Hrs, Hims.
    split; [apply Hrs|apply Hims]; by apply list_elem_of_In. }
  split; simpl.
  - unfold node_rest. rewrite Hr, (read_sim δ ba σa0 σb0 σ1a σ1b) by done.
    by apply alloc_sim.
  - done.
  - apply Forall2_app; [done|]. constructor; [|constructor]. split; simpl; [done|].
    split; simpl.
    + done.
    + by rewrite (ss_length _ _ _ _ _ _ Hst).
    + rewrite Hi. apply map_ext_in. intros k Hk. symmetry.
      rewrite Forall_forall in Himp. apply findImport_sim; try done.
      by apply Himp, list_elem_of_In.
    + done.
  - done.
  - done.
  - apply Forall_app. split; [done|]. constructor; [|constructor]. simpl.
    apply (ss_base _ _ _ _ _ _ Hst).
Qed.

Lemma convertNode_sim x y i :
  convert_sim x y →
  convert_sim (Adapters.convertNode copy na x i) (Adapters.convertNode copy nb y i).
Proof.
  destruct x as [[σa backa] conva], y as [[σb backb] convb].
  intros Hsim. pose proof Hsim as [Hst Hback Hconv Hkeys Hfresh Hrest]. simpl in *.
  unfold Adapters.convertNode.
  pose proof (proj1 (Forall2_lookup _ _ _) Hnodes i) as Hlook.
  destruct (na !! i) as [node|] eqn:Ei.
  2: { apply related_None in Hlook. by rewrite Hlook. }
  apply related_Some in Hlook as (node' & -> & Hn).
  assert (In node na) as Hin by (by eapply list_elem_of_In, list_elem_of_lookup_2).
  rewrite (shifted_coll _ _ Hn).
  pose proof (Hback (coll node)) as Hget.
  destruct (amap_get (coll node) backa) as [c|] eqn:Ec.
  - apply related_Some in Hget as (c' & -> & Hc). unfold alloc.
    by apply convert_push.
  - apply related_None in Hget. rewrite Hget. unfold alloc.
    assert (ba ≤ coll node) as Hge.
    { destruct Hn as [[[Hge _]|Hinn] _ _ _]; [done|].
      destruct (Hinner _ _ Hinn) as [_ Hsome]. apply Hkeys in Hsome.
      rewrite Ec in Hsome. by destruct Hsome. }
    rewrite (read_sim δ ba σa0 σb0 σa σb) by done.
    rewrite (ss_length _ _ _ _ _ _ Hst). change (length σa + δ) with (shift δ (length σa)).
    apply convert_push; try done.
    + by apply alloc_sim.
    + apply bsim_set; [done|]. left.
      split; [apply (ss_base _ _ _ _ _ _ Hst)|done].
    + intros k Hk. destruct (decide (coll node = k)) as [<-|Hne].
      * rewrite amap_get_set_eq. by eexists.
      * rewrite amap_get_set_ne by done. by apply Hkeys.
    + intros k v. destruct (decide (coll node = k)) as [<-|Hne].
      * rewrite amap_get_set_eq. intros [= <-] _. apply (ss_base _ _ _ _ _ _ Hst).
      * rewrite amap_get_set_ne by done. apply Hfresh.
    + left. split; [apply (ss_base _ _ _ _ _ _ Hst)|done].
Qed.

Lemma convertNodes_fold_sim (l : list nat) x y :
  convert_sim x y →
  convert_sim (fold_left (Adapters.convertNode copy na) l x)
              (fold_left (Adapters.convertNode copy nb) l y).
Proof.
  revert x y. induction l as [|i l IH]; intros x y Hxy; [done|].
  simpl. by apply IH, convertNode_sim.
Qed.

Lemma convertNodes_sim σ2a σ2b back0b :
  ssim σ2a σ2b → bsim back0a back0b →
  (∀ k v, amap_get k back0a = Some v → ba ≤ k → ba ≤ v) →
  ssim (Adapters.convertNodes copy σ2a na back0a).1
       (Adapters.convertNodes copy σ2b nb back0b).1 ∧
  Forall2 nsim (Adapters.convertNodes copy σ2a na back0a).2
               (Adapters.convertNodes copy σ2b nb back0b).2 ∧
  Forall (λ n, ba ≤ rest n) (Adapters.convertNodes copy σ2a na back0a).2.
Proof.
  intros Hst Hback Hfresh. unfold Adapters.convertNodes.
  rewrite <- (Forall2_length _ _ _ Hnodes).
  pose proof (convertNodes_fold_sim (reverse (seq 0 (length na)))
                (σ2a, back0a, []) (σ2b, back0b, [])) as Hfold.
  destruct (fold_left _ _ (σ2a, back0a, [])) as [[σa' backa] conva].
  destruct (fold_left _ _ (σ2b, back0b, [])) as [[σb' backb] convb].
  destruct Hfold as [Hst' _ Hconv _ _ Hrest]; [by split|]. simpl in *.
  split; [done|]. split.
  - apply Forall2_reverse. change (map snd conva) with (snd <$> conva).
    change (map snd convb) with (snd <$> convb). apply Forall2_fmap_2.
    eapply Forall2_impl; [exact Hconv|]. by intros [j n] [j' n'] [_ ?].
  - apply Forall_reverse, Forall_map. done.
Qed.
End AdapterRenaming.

(** ** Two calls on inputs with the same elements *)

Section SameContents.
Context {T : Type}.

Lemma zip_lookup_In {A B} (l : list A) (k : list B) i x y :
  l !! i = Some x → k !! i = Some y → In (x, y) (zip l k).
Proof.
  intros Hx Hy. apply list_elem_of_In, list_elem_of_lookup. exists i.
  by apply lookup_zip_Some.
Qed.

Lemma In_zip_lookup {A B} (l : list A) (k : list B) x y :
  In (x, y) (zip l k) → ∃ i, l !! i = Some x ∧ k !! i = Some y.
Proof.
  intros Hin. apply list_elem_of_In, list_elem_of_lookup in Hin as [i Hi].
  exists i. by apply lookup_zip_Some.
Qed.

Lemma same_contents_lookup (σa σb : Store T) (ia ib : list ref) i r r' :
  map (read σa) ia = map (read σb) ib → ia !! i = Some r → ib !! i = Some r' →
  read σa r = read σb r'.
Proof.
  intros Hcont Hr Hr'.
  assert (map (read σa) ia !! i = Some (read σa r)) as Hl.
  { change (map (read σa) ia) with (read σa <$> ia). by rewrite list_lookup_fmap, Hr. }
  rewrite Hcont in Hl. change (map (read σb) ib) with (read σb <$> ib) in Hl.
  rewrite list_lookup_fmap, Hr' in Hl. simpl in Hl. congruence.
Qed.

Lemma same_contents_length (σa σb : Store T) (ia ib : list ref) :
  map (read σa) ia = map (read σb) ib → length ia = length ib.
Proof. intros Hcont. by rewrite <- (length_map (read σa) ia), Hcont, length_map. Qed.

(** the objects that were appended to a store *)
Lemma read_appended (σ ext : Store T) :
  map (read (σ ++ ext)) (seq (length σ) (length ext)) = ext.
Proof.
  apply list_eq. intros i.
  change (map (read (σ ++ ext)) (seq (length σ) (length ext)))
    with (read (σ ++ ext) <$> seq (length σ) (length ext)).
  rewrite list_lookup_fmap. destruct (decide (i < length ext)) as [Hlt|Hge].
  - rewrite lookup_seq_lt by done. simpl. unfold read. rewrite lookup_app_r by lia.
    replace (length σ + i - length σ) with i by lia.
    destruct (ext !! i) eqn:E; [done|]. apply lookup_ge_None in E. lia.
  - rewrite lookup_seq_ge by lia. simpl. symmetry. apply lookup_ge_None. lia.
Qed.
End SameContents.

Section Determinism.
Context {T U : Type} `{EqDecision T} `{EqDecision U}.
Variable join : list T → U.
Variable split : U → list T.
Variable primaryWeight secondaryWeight : Weighted.WeightFunction.
Implicit Types (σ : Store T).

(** two calls of [splitSets] end in the same way, with node lists that show
    the same *)
Definition same_outcome (x y : Weighted.Outcome (T := T)) : Prop :=
  match x, y with
  | Weighted.Done σa na, Weighted.Done σb nb => view σa na = view σb nb
  | Weighted.TypeError, Weighted.TypeError => True
  | Weighted.StillRunning, Weighted.StillRunning => True
  | _, _ => False
  end.

(** the same of two calls of [splitArrays] *)
Definition same_result (x y : option (Store T * list Node)) : Prop :=
  match x, y with
  | Some (σa, na), Some (σb, nb) => view σa na = view σb nb
  | None, None => True
  | _, _ => False
  end.

Lemma same_outcome_sym x y : same_outcome x y → same_outcome y x.
Proof. destruct x, y; simpl; done. Qed.

Lemma same_result_sym x y : same_result x y → same_result y x.
Proof. destruct x as [[? ?]|], y as [[? ?]|]; simpl; done. Qed.

Lemma splitSets_same_le fuel σa (ia : list ref) σb (ib : list ref) :
  length σa ≤ length σb →
  Forall (λ r, r < length σa) ia → Forall (λ r, r < length σb) ib →
  map (read σa) ia = map (read σb) ib →
  same_outcome
    (Weighted.splitSets join split primaryWeight secondaryWeight fuel σa ia)
    (Weighted.splitSets join split primaryWeight secondaryWeight fuel σb ib).
Proof.
  intros Hle Hia Hib Hcont.
  pose proof (splitSets_sim join split primaryWeight secondaryWeight
                (length σb - length σa) (length σa) (zip ia ib) σa σb (length ia)
                fuel ia ib eq_refl ltac:(lia) eq_refl Hia Hib Hcont
                ltac:(intros i r r'; apply zip_lookup_In)) as Hsim.
  destruct (Weighted.splitSets _ _ _ _ fuel σa ia) as [σa' na| |];
    destruct (Weighted.splitSets _ _ _ _ fuel σb ib) as [σb' nb| |]; simpl in *; try done.
  destruct Hsim as (Hst & Hn & Hres).
  eapply view_sim; [exact Hst|exact Hn|apply (rs_rest _ _ _ Hres)|].
  intros r r' Hin. apply In_zip_lookup in Hin as (i & Hr & Hr').
  rewrite Forall_forall in Hia, Hib.
  pose proof (Hia r ltac:(by eapply list_elem_of_lookup_2)).
  pose proof (Hib r' ltac:(by eapply list_elem_of_lookup_2)). simpl in *.
  split; [done|]. split; [lia|]. by eapply same_contents_lookup.
Qed.

Lemma splitSets_same fuel σa (ia : list ref) σb (ib : list ref) :
  Forall (λ r, r < length σa) ia → Forall (λ r, r < length σb) ib →
  map (read σa) ia = map (read σb) ib →
  same_outcome
    (Weighted.splitSets join split primaryWeight secondaryWeight fuel σa ia)
    (Weighted.splitSets join split primaryWeight secondaryWeight fuel σb ib).
Proof.
  intros Hia Hib Hcont. destruct (decide (length σa ≤ length σb)) as [Hle|Hgt].
  - by apply splitSets_same_le.
  - apply same_outcome_sym, splitSets_same_le; [lia|done|done|done].
Qed.

Lemma splitArrays_same_le fuel σa (ia : list ref) σb (ib : list ref) :
  length σa ≤ length σb →
  Forall (λ r, r < length σa) ia → Forall (λ r, r < length σb) ib →
  map (read σa) ia = map (read σb) ib →
  same_result
    (Weighted.splitArrays join split primaryWeight secondaryWeight fuel σa ia)
    (Weighted.splitArrays join split primaryWeight secondaryWeight fuel σb ib).
Proof.
  intros Hle Hia Hib Hcont.
  unfold Weighted.splitArrays, Adapters.convertArraysToSetsAndUseSplitFunction,
    Adapters.mapArraysToSets, Adapters.mapSetsToArrayNodes.
  destruct (mapCollections_spec to_set σa ia Hia) as (ma & -> & Hcpa & Hbacka).
  destruct (mapCollections_spec to_set σb ib Hib) as (mb & -> & Hcpb & Hbackb).
  rewrite Hcpa, Hcpb.
  pose proof (same_contents_length σa σb ia ib Hcont) as Hlen. rewrite <- Hlen.
  assert (map (λ r, to_set (read σb r)) ib = map (λ r, to_set (read σa r)) ia) as ->.
  { rewrite <- !(map_map (read _) to_set). by rewrite Hcont. }
  set (ext := map (λ r, to_set (read σa r)) ia).
  set (δ := length σb - length σa). set (n := length ia).
  assert (length ext = n) as Hext by (unfold ext; by rewrite length_map).
  set (inner := zip (seq (length σa) n) (seq (length σb) n)).
  assert (splitSets_related :
            outcome_sim δ (length (σa ++ ext)) inner (σa ++ ext) (σb ++ ext) n
              (Weighted.splitSets join split primaryWeight secondaryWeight fuel
                 (σa ++ ext) (seq (length σa) n))
              (Weighted.splitSets join split primaryWeight secondaryWeight fuel
                 (σb ++ ext) (seq (length σb) n))).
  { apply splitSets_sim.
    - done.
    - rewrite !length_app. unfold δ. lia.
    - by rewrite length_seq.
    - apply Forall_forall. intros r Hr. apply list_elem_of_In, in_seq in Hr.
      rewrite length_app. lia.
    - apply Forall_forall. intros r Hr. apply list_elem_of_In, in_seq in Hr.
      rewrite length_app. lia.
    - rewrite <- Hext. by rewrite !read_appended.
    - intros i r r'. apply zip_lookup_In. }
  destruct (Weighted.splitSets _ _ _ _ fuel (σa ++ ext) _) as [σ2a na| |];
    destruct (Weighted.splitSets _ _ _ _ fuel (σb ++ ext) _) as [σ2b nb| |];
    simpl in *; try done.
  destruct splitSets_related as (Hst & Hn & Hres).
  destruct (convertNodes_sim (λ set : list T, set) δ (length (σa ++ ext)) n inner
              (zip ia ib) (σa ++ ext) (σb ++ ext) na nb (Adapters.newToOld ma))
    with (σ2a := σ2a) (σ2b := σ2b) (back0b := Adapters.newToOld mb)
    as (Hst' & Hn' & Hrest'); try done.
  - intros c c' Hin. apply In_zip_lookup in Hin as (i & Hc & Hc').
    apply lookup_seq in Hc as [-> Hi]. apply lookup_seq in Hc' as [-> _].
    split; [unfold shift, δ; lia|].
    destruct (lookup_lt_is_Some_2 ia i Hi) as [v Hv]. exists v. apply Hbacka. by exists i.
  - intros v v' Hin. apply In_zip_lookup in Hin as (i & Hv & Hv').
    rewrite Forall_forall in Hia, Hib.
    pose proof (Hia v ltac:(by eapply list_elem_of_lookup_2)).
    pose proof (Hib v' ltac:(by eapply list_elem_of_lookup_2)). simpl in *.
    rewrite length_app. unfold δ. lia.
  - intros c. destruct (amap_get c (Adapters.newToOld ma)) as [v|] eqn:Ea.
    + apply Hbacka in Ea as (i & -> & Hv).
      destruct (lookup_lt_is_Some_2 ib i) as [v' Hv'];
        [rewrite <- Hlen; by eapply lookup_lt_Some|].
      assert (amap_get (shift δ (length σa + i)) (Adapters.newToOld mb) = Some v') as ->.
      { apply Hbackb. exists i. split; [unfold shift, δ; lia|done]. }
      constructor. right. by eapply zip_lookup_In.
    + destruct (amap_get (shift δ c) (Adapters.newToOld mb)) as [v'|] eqn:Eb;
        [|constructor].
      apply Hbackb in Eb as (i & Hc & Hv').
      destruct (lookup_lt_is_Some_2 ia i) as [v Hv];
        [rewrite Hlen; by eapply lookup_lt_Some|].
      assert (amap_get c (Adapters.newToOld ma) = Some v) as Hsome.
      { apply Hbacka. exists i. split; [unfold shift, δ in Hc; lia|done]. }
      congruence.
  - intros k v Hk Hge. apply Hbacka in Hk as (i & -> & Hv).
    apply lookup_lt_Some in Hv. rewrite length_app in Hge. lia.
  - destruct (Adapters.convertNodes _ σ2a na _) as [σa' ra].
    destruct (Adapters.convertNodes _ σ2b nb _) as [σb' rb]. simpl in *.
    eapply view_sim; [exact Hst'|exact Hn'|exact Hrest'|].
    intros r r' Hin. apply In_zip_lookup in Hin as (i & Hr & Hr').
    rewrite Forall_forall in Hia, Hib.
    pose proof (Hia r ltac:(by eapply list_elem_of_lookup_2)).
    pose proof (Hib r' ltac:(by eapply list_elem_of_lookup_2)). simpl in *.
    rewrite length_app. split; [lia|]. split; [unfold δ; lia|].
    rewrite !read_app_old by done. by eapply same_contents_lookup.
Qed.

Lemma splitArrays_same fuel σa (ia : list ref) σb (ib : list ref) :
  Forall (λ r, r < length σa) ia → Forall (λ r, r < length σb) ib →
  map (read σa) ia = map (read σb) ib →
  same_result
    (Weighted.splitArrays join split primaryWeight secondaryWeight fuel σa ia)
    (Weighted.splitArrays join split primaryWeight secondaryWeight fuel σb ib).
Proof.
  intros Hia Hib Hcont. destruct (decide (length σa ≤ length σb)) as [Hle|Hgt].
  - by apply splitArrays_same_le.
  - apply same_result_sym, splitArrays_same_le; [lia|done|done|done].
Qed.
End Determinism.

(** C6: the weighted splitter is deterministic.  Take two calls of
    [WeightedIntersectionsSplitter.splitSets], or two calls of [splitArrays],
    with the same [join] and [split], the same primary and secondary weight
    function and the same number of passes allowed, on inputs that hold the
    same elements in the same order; the inputs may be different objects, and
    the two heaps may hold anything else.  Then both calls end in the same
    way: both return, or both throw, or both are still running.  When they
    return, the two node lists show the same: node by node the same elements
    in the collection and in [rest], the same imports and the same depth. *)
Theorem weighted_split_deterministic {T U : Type} `{EqDecision T} `{EqDecision U}
    (join : list T → U) (split : U → list T)
    (primaryWeight secondaryWeight : Weighted.WeightFunction) (fuel : nat)
    (σa : Store T) (ia : list ref) (σb : Store T) (ib : list ref) :
  Forall (λ r, r < length σa) ia → Forall (λ r, r < length σb) ib →
  map (read σa) ia = map (read σb) ib →
  same_outcome
    (Weighted.splitSets join split primaryWeight secondaryWeight fuel σa ia)
    (Weighted.splitSets join split primaryWeight secondaryWeight fuel σb ib) ∧
  same_result
    (Weighted.splitArrays join split primaryWeight secondaryWeight fuel σa ia)
    (Weighted.splitArrays join split primaryWeight secondaryWeight fuel σb ib).
Proof.
  intros Hia Hib Hcont. split.
  - by apply splitSets_same.
  - by apply splitArrays_same.
Qed.

Lemma weighted_split_deterministic_witness :
  same_outcome
    (Weighted.splitSets (sort_by numberCompare) (λ u, u)
       Weighted.elementsCount Weighted.setsCount 3
       [[1; 2; 3]; [2; 3; 4]; [3; 4; 5]]%Z [0; 1; 2])
    (Weighted.splitSets (sort_by numberCompare) (λ u, u)
       Weighted.elementsCount Weighted.setsCount 3
       [[3; 4; 5]; [7]; [2; 3; 4]; [1; 2; 3]]%Z [3; 2; 0]) ∧
  same_result
    (Weighted.splitArrays (sort_by numberCompare) (λ u, u)
       Weighted.elementsCount Weighted.setsCount 3
       [[1; 2; 3]; [2; 3; 4]; [3; 4; 5]]%Z [0; 1; 2])
    (Weighted.splitArrays (sort_by numberCompare) (λ u, u)
       Weighted.elementsCount Weighted.setsCount 3
       [[3; 4; 5]; [7]; [2; 3; 4]; [1; 2; 3]]%Z [3; 2; 0]).
Proof.
  apply weighted_split_deterministic.
  - repeat constructor; simpl; lia.
  - repeat constructor; simpl; lia.
  - reflexivity.
Defined.


(** * Further properties of the helpers and of the index maps *)

(** ** [intersectSets] *)

Section IntersectSets.
Context {T : Type} `{EqDecision T}.

Lemma intersectSets_elements (set1 set2 : list T) x :
  In x (intersectSets set1 set2) ↔ In x set1 ∧ In x set2.
Proof.
  unfold intersectSets. destruct (length set1 <=? length set2);
    rewrite filter_In, includes_In; tauto.
Qed.

Lemma intersectSets_sublist (set1 set2 : list T) :
  sublist (intersectSets set1 set2)
          (if length set1 <=? length set2 then set1 else set2).
Proof.
  unfold intersectSets. destruct (length set1 <=? length set2); apply List_filter_sublist.
Qed.

Lemma intersectSets_NoDup (set1 set2 : list T) :
  List.NoDup set1 → List.NoDup set2 → List.NoDup (intersectSets set1 set2).
Proof.
  intros H1 H2. unfold intersectSets.
  destruct (length set1 <=? length set2); by apply List.NoDup_filter.
Qed.
End IntersectSets.

(** [intersectSets] of two sets is a set; it holds the elements that are in
    both, in the order of the smaller set (of the first when the sizes are
    equal), so that the order of the arguments changes the order of the
    result at most. *)
Theorem intersectSets_common_elements {T : Type} `{EqDecision T} (set1 set2 : list T) :
  List.NoDup set1 → List.NoDup set2 →
  (∀ x, In x (intersectSets set1 set2) ↔ In x set1 ∧ In x set2) ∧
  List.NoDup (intersectSets set1 set2) ∧
  sublist (intersectSets set1 set2)
          (if length set1 <=? length set2 then set1 else set2) ∧
  Permutation (intersectSets set1 set2) (intersectSets set2 set1).
Proof.
  intros H1 H2. split; [apply intersectSets_elements|].
  split; [by apply intersectSets_NoDup|]. split; [apply intersectSets_sublist|].
  apply Permutation.NoDup_Permutation; try by apply intersectSets_NoDup.
  intros x. rewrite !intersectSets_elements. tauto.
Qed.

Lemma intersectSets_common_elements_witness :
  (∀ x, In x (intersectSets [1; 2; 3]%Z [3; 4; 2]%Z) ↔
        In x [1; 2; 3]%Z ∧ In x [3; 4; 2]%Z) ∧
  List.NoDup (intersectSets [1; 2; 3]%Z [3; 4; 2]%Z) ∧
  sublist (intersectSets [1; 2; 3]%Z [3; 4; 2]%Z)
          (if length [1; 2; 3]%Z <=? length [3; 4; 2]%Z then [1; 2; 3]%Z else [3; 4; 2]%Z) ∧
  Permutation (intersectSets [1; 2; 3]%Z [3; 4; 2]%Z) (intersectSets [3; 4; 2]%Z [1; 2; 3]%Z).
Proof.
  apply (intersectSets_common_elements [1; 2; 3]%Z [3; 4; 2]%Z).
  - repeat constructor; simpl; intuition lia.
  - repeat constructor; simpl; intuition lia.
Defined.

(** ** Maps without repeated keys *)

Section MapKeys.
Context {K V : Type} `{EqDecision K}.
Implicit Types (k : K) (v : V) (m : list (K * V)).

Lemma amap_get_delete_ne k k' m : k ≠ k' → amap_get k' (amap_delete k m) = amap_get k' m.
Proof.
  intros Hne. induction m as [|[k0 v0] m IH]; simpl; [done|].
  destruct (decide (k0 = k)) as [->|Hk]; simpl.
  - by rewrite decide_False.
  - destruct (decide (k0 = k')); [done|apply IH].
Qed.

Lemma amap_keys_delete_incl k k' m : In k' (amap_keys (amap_delete k m)) → In k' (amap_keys m).
Proof.
  unfold amap_keys. intros Hin. apply in_map_iff in Hin as (e & <- & He).
  apply in_map. by eapply amap_delete_incl.
Qed.

Lemma amap_keys_delete_NoDup k m :
  List.NoDup (amap_keys m) → List.NoDup (amap_keys (amap_delete k m)).
Proof.
  induction m as [|[k0 v0] m IH]; simpl; [done|]. intros Hnd.
  apply List.NoDup_cons_iff in Hnd as [Hk0 Hnd].
  destruct (decide (k0 = k)); [done|]. simpl. apply List.NoDup_cons_iff. split; [|by apply IH].
  intros Hin. by apply Hk0, (amap_keys_delete_incl k).
Qed.

Lemma amap_get_delete_eq k m :
  List.NoDup (amap_keys m) → amap_get k (amap_delete k m) = None.
Proof.
  induction m as [|[k0 v0] m IH]; simpl; [done|]. intros Hnd.
  apply List.NoDup_cons_iff in Hnd as [Hk0 Hnd].
  destruct (decide (k0 = k)) as [->|Hk]; simpl.
  - by apply amap_get_None.
  - rewrite decide_False by done. by apply IH.
Qed.

Lemma amap_keys_set_In k k' v m :
  In k' (amap_keys (amap_set k v m)) ↔ k' = k ∨ In k' (amap_keys m).
Proof.
  induction m as [|[k0 v0] m IH]; simpl; [intuition|].
  destruct (decide (k0 = k)) as [->|Hk]; simpl; [intuition|]. rewrite IH. tauto.
Qed.

Lemma amap_keys_set_NoDup k v m :
  List.NoDup (amap_keys m) → List.NoDup (amap_keys (amap_set k v m)).
Proof.
  induction m as [|[k0 v0] m IH]; simpl.
  - intros _. repeat constructor. by intros [].
  - intros Hnd. apply List.NoDup_cons_iff in Hnd as [Hk0 Hnd].
    destruct (decide (k0 = k)) as [->|Hk]; simpl.
    + by apply List.NoDup_cons_iff.
    + apply List.NoDup_cons_iff. split; [|by apply IH].
      rewrite amap_keys_set_In. intros [->|Hin]; done.
Qed.
End MapKeys.

(** ** [addToSetOrCreateKeyInMap] and [removeFromSetOrDeleteFromMap] *)

Section SetMaps.
Context {V W : Type} `{EqDecision V} `{EqDecision W}.
Implicit Types (m : list (V * list W)).

Lemma amap_set_same (key : V) (elements : list W) m :
  amap_get key m = Some elements → amap_set key elements m = m.
Proof.
  induction m as [|[k v] m IH]; simpl; [done|].
  destruct (decide (k = key)) as [->|Hne].
  - by intros [= ->].
  - intros Hget. by rewrite IH.
Qed.

Lemma amap_set_twice (key : V) (v1 v2 : list W) m :
  amap_set key v2 (amap_set key v1 m) = amap_set key v2 m.
Proof.
  induction m as [|[k v] m IH]; simpl.
  - by rewrite decide_True.
  - destruct (decide (k = key)) as [->|Hne]; simpl.
    + by rewrite decide_True.
    + rewrite decide_False by done. by rewrite IH.
Qed.

Lemma amap_delete_set_new (key : V) (v : list W) m :
  amap_get key m = None → amap_delete key (amap_set key v m) = m.
Proof.
  induction m as [|[k v'] m IH]; simpl.
  - by rewrite decide_True.
  - destruct (decide (k = key)) as [->|Hne]; [done|]. simpl.
    rewrite decide_False by done. intros Hget. by rewrite IH.
Qed.

Lemma oset_delete_added (element : W) (elements : list W) :
  ¬ In element elements → oset_delete element (elements ++ [element]) = elements.
Proof.
  intros Hnot. unfold oset_delete. rewrite List.filter_app. simpl.
  rewrite bool_decide_eq_true_2 by done. simpl. rewrite app_nil_r.
  induction elements as [|y l IH]; simpl; [done|].
  rewrite bool_decide_eq_false_2; [|intros ->; apply Hnot; by left]. simpl.
  rewrite IH; [done|]. intros Hin. apply Hnot. by right.
Qed.

Lemma oset_delete_In (x y : W) (l : list W) : In y (oset_delete x l) ↔ In y l ∧ y ≠ x.
Proof.
  unfold oset_delete. rewrite filter_In, negb_true_iff, bool_decide_eq_false. tauto.
Qed.

Lemma oset_delete_nonempty (x : W) (l : list W) :
  List.NoDup l → 1 < length l → oset_delete x l ≠ [].
Proof.
  intros Hnd Hlen. destruct l as [|a [|b l]]; simpl in Hlen; try lia.
  inversion Hnd as [|? ? Ha _]; subst.
  destruct (decide (a = x)) as [->|Hax].
  - assert (In b (oset_delete x (x :: b :: l))) as Hin; [|by destruct (oset_delete _ _)].
    apply oset_delete_In. split; [right; by left|]. intros ->. apply Ha. by left.
  - assert (In a (oset_delete x (a :: b :: l))) as Hin; [|by destruct (oset_delete _ _)].
    apply oset_delete_In. split; [by left|done].
Qed.
End SetMaps.

(** Adding an element to the set of a key and removing it again gives the
    map back, when the key is new or the element is new in a set that was not
    empty.  (A set with one element is deleted with its key, whatever the
    element that is removed.) *)
Theorem add_then_remove_gives_map_back {V W : Type} `{EqDecision V} `{EqDecision W}
    (m : list (V * list W)) (key : V) (element : W) :
  (∀ elements, amap_get key m = Some elements → elements ≠ [] ∧ ¬ In element elements) →
  Weighted.removeFromSetOrDeleteFromMap
    (Weighted.addToSetOrCreateKeyInMap m key element) key element = Some m.
Proof.
  intros Hkey. unfold Weighted.addToSetOrCreateKeyInMap.
  destruct (amap_get key m) as [elements|] eqn:Eget.
  - destruct (Hkey elements eq_refl) as [Hne Hnot].
    unfold Weighted.removeFromSetOrDeleteFromMap, oset_add.
    assert (includes elements element = false) as -> by (by apply includes_not_In).
    rewrite amap_get_set_eq. simpl.
    assert ((1 <? length (elements ++ [element])) = true) as ->.
    { apply Nat.ltb_lt. rewrite length_app. simpl. destruct elements; [done|simpl; lia]. }
    by rewrite oset_delete_added, amap_set_twice, amap_set_same.
  - unfold Weighted.removeFromSetOrDeleteFromMap. rewrite amap_get_set_eq. simpl.
    by rewrite amap_delete_set_new.
Qed.

Lemma add_then_remove_gives_map_back_witness :
  Weighted.removeFromSetOrDeleteFromMap
    (Weighted.addToSetOrCreateKeyInMap [(1%Z, [10%Z; 20%Z]); (2%Z, [30%Z])] 1%Z 40%Z)
    1%Z 40%Z
  = Some [(1%Z, [10%Z; 20%Z]); (2%Z, [30%Z])].
Proof.
  apply (add_then_remove_gives_map_back [(1%Z, [10%Z; 20%Z]); (2%Z, [30%Z])] 1%Z 40%Z).
  intros elements [= <-]. split; [done|]. simpl. intuition lia.
Defined.

(** [removeFromSetOrDeleteFromMap] throws when the key is missing; otherwise
    it keeps every other key as it was and leaves no empty set behind: a map
    of sets that are not empty stays one. *)
Theorem remove_leaves_no_empty_set {V W : Type} `{EqDecision V} `{EqDecision W}
    (m : list (V * list W)) (key : V) (element : W) :
  List.NoDup (amap_keys m) → Forall (λ e, e.2 ≠ [] ∧ List.NoDup e.2) m →
  (amap_get key m = None →
   Weighted.removeFromSetOrDeleteFromMap m key element = None) ∧
  (∀ elements, amap_get key m = Some elements →
     ∃ m', Weighted.removeFromSetOrDeleteFromMap m key element = Some m' ∧
           List.NoDup (amap_keys m') ∧
           Forall (λ e, e.2 ≠ [] ∧ List.NoDup e.2) m' ∧
           (∀ k, k ≠ key → amap_get k m' = amap_get k m) ∧
           amap_get key m' =
             (if 1 <? length elements then Some (oset_delete element elements) else None)).
Proof.
  intros Hkeys Hm. unfold Weighted.removeFromSetOrDeleteFromMap. split.
  - by intros ->.
  - intros elements Hget. rewrite Hget. simpl. eexists. split; [done|].
    destruct (amap_get_Forall _ _ _ _ Hm Hget) as [Hne Hnd]. simpl in Hne, Hnd.
    destruct (1 <? length elements) eqn:Elen.
    + apply Nat.ltb_lt in Elen. split; [by apply amap_keys_set_NoDup|]. split; [|split].
      * apply Forall_amap_set; [done|]. simpl. split.
        -- by apply oset_delete_nonempty.
        -- by apply List.NoDup_filter.
      * intros k Hk. by apply amap_get_set_ne.
      * apply amap_get_set_eq.
    + split; [by apply amap_keys_delete_NoDup|]. split; [by apply Forall_amap_delete|].
      split.
      * intros k Hk. by apply amap_get_delete_ne.
      * by apply amap_get_delete_eq.
Qed.

Lemma remove_leaves_no_empty_set_witness :
  ∃ m', Weighted.removeFromSetOrDeleteFromMap
          [(1%Z, [10%Z; 20%Z]); (2%Z, [30%Z])] 2%Z 99%Z = Some m' ∧
        List.NoDup (amap_keys m') ∧
        Forall (λ e, e.2 ≠ [] ∧ List.NoDup e.2) m' ∧
        (∀ k, k ≠ 2%Z → amap_get k m' = amap_get k [(1%Z, [10%Z; 20%Z]); (2%Z, [30%Z])]) ∧
        amap_get 2%Z m' = (if 1 <? length [30%Z] then Some (oset_delete 99%Z [30%Z]) else None).
Proof.
  apply (remove_leaves_no_empty_set [(1%Z, [10%Z; 20%Z]); (2%Z, [30%Z])] 2%Z 99%Z).
  - repeat constructor; simpl; intuition lia.
  - repeat constructor; simpl; try done; intuition lia.
  - reflexivity.
Defined.

(** ** [getHighestWeightIntersection] *)

Section HighestWeight.
Context {T U : Type} `{EqDecision T} `{EqDecision U}.
Variable split : U → list T.
Variable secondaryWeight : Weighted.WeightFunction.
Variable intersectionMapSet : list (U * list (ref * nat)).




End HighestWeight.


(** ** The weighted splitter on sets that share no element *)

Section WeightedDisjoint.
Context {T U : Type} `{EqDecision T} `{EqDecision U}.
Variable join : list T → U.
Variable split : U → list T.
Variable primaryWeight secondaryWeight : Weighted.WeightFunction.
Implicit Types (σ : Store T).

Lemma orderedPairs_lookup (l : list ref) a b :
  In (a, b) (Weighted.orderedPairs l) →
  ∃ i j, i < j ∧ l !! i = Some a ∧ l !! j = Some b.
Proof.
  induction l as [|s l IH]; simpl; [done|]. rewrite in_app_iff, in_map_iff.
  intros [(s2 & [= <- <-] & Hs2)|Hin].
  - apply list_elem_of_In, list_elem_of_lookup in Hs2 as [j Hj].
    exists 0, (S j). split; [lia|done].
  - destruct (IH Hin) as (i & j & Hij & Hi & Hj). exists (S i), (S j). split; [lia|done].
Qed.

Lemma intersectSets_disjoint (a b : list T) : disjoint a b → intersectSets a b = [].
Proof.
  intros Hab. destruct (intersectSets a b) as [|x l] eqn:E; [done|]. exfalso.
  assert (In x (intersectSets a b)) as Hx by (rewrite E; by left).
  apply intersectSets_elements in Hx as [Ha Hb]. by apply (Hab x).
Qed.

Lemma pairwise_lookup_lt {A} (R : A → A → Prop) (l : list A) i j a b :
  pairwise R l → i < j → l !! i = Some a → l !! j = Some b → R a b.
Proof.
  intros Hpw Hij Hi Hj. pose proof (pairwise_drop R l i a Hpw Hi) as Hall.
  rewrite Forall_lookup in Hall. apply (Hall (j - S i)). rewrite lookup_drop.
  by replace (S i + (j - S i)) with j by lia.
Qed.

Lemma createIntersectionMap_disjoint σ (ext : list (list T)) :
  pairwise disjoint ext →
  Weighted.createIntersectionMap join (σ ++ ext) (seq (length σ) (length ext)) = [].
Proof.
  intros Hpw. unfold Weighted.createIntersectionMap.
  assert (∀ pairs : list (ref * ref),
            (∀ a b, In (a, b) pairs →
                    intersectSets (read (σ ++ ext) a) (read (σ ++ ext) b) = []) →
            fold_left (λ intersectionMap '(set1, set2),
                         let intersectedSet :=
                           intersectSets (read (σ ++ ext) set1) (read (σ ++ ext) set2) in
                         if 0 <? length intersectedSet
                         then Weighted.pushPair intersectionMap (join intersectedSet)
                                (set1, set2)
                         else intersectionMap)
                      pairs ([] : list (U * list (ref * ref))) = []) as Hfold.
  { induction pairs as [|[a b] pairs IH]; intros Hp; [done|].
    cbn [fold_left]. cbv zeta. rewrite (Hp a b) by (by left). simpl.
    apply IH. intros a' b' Hin. apply Hp. by right. }
  apply Hfold. intros a b Hin.
  apply orderedPairs_lookup in Hin as (i & j & Hij & Hi & Hj).
  apply lookup_seq in Hi as [-> Hi]. apply lookup_seq in Hj as [-> Hj].
  destruct (lookup_lt_is_Some_2 ext i Hi) as [ei Hei].
  destruct (lookup_lt_is_Some_2 ext j Hj) as [ej Hej].
  apply intersectSets_disjoint. unfold read.
  rewrite !lookup_app_r by lia.
  replace (length σ + i - length σ) with i by lia.
  replace (length σ + j - length σ) with j by lia.
  rewrite Hei, Hej. simpl. exact (pairwise_lookup_lt disjoint ext i j ei ej Hpw Hij Hei Hej).
Qed.

Lemma splitSets_disjoint fuel σ (sets : list ref) :
  Forall (λ r, r < length σ) sets →
  pairwise disjoint (map (read σ) sets) →
  Weighted.splitSets join split primaryWeight secondaryWeight fuel σ sets
  = Weighted.Done (σ ++ map (read σ) sets)
                  (imap (λ i set, mkNode set (length σ + i) [] (Num 0)) sets).
Proof.
  intros Hin Hpw. unfold Weighted.splitSets, Weighted.initialState.
  rewrite (createSetObjMap_spec σ sets Hin).
  rewrite <- (length_map (read σ) sets), createIntersectionMap_disjoint by done.
  assert (amap_values (imap (initial_entry (length σ)) sets)
          = imap (λ i set, mkNode set (length σ + i) [] (Num 0)) sets) as Hvalues.
  { unfold amap_values. change (map snd ?l) with (snd <$> l). rewrite fmap_imap.
    by apply imap_ext. }
  destruct fuel; simpl; by rewrite Hvalues.
Qed.
End WeightedDisjoint.

(** On sets of which no two share an element (an empty family and empty sets
    among them), [WeightedIntersectionsSplitter.splitSets] returns without a
    pass of its loop and throws nothing: the nodes are the roots, in the order
    of the inputs, each with a clone of its set as [rest], no import and
    depth 0; the objects the caller has are as they were. *)
Theorem weighted_disjoint_sets_give_roots {T U : Type} `{EqDecision T} `{EqDecision U}
    (join : list T → U) (split : U → list T)
    (primaryWeight secondaryWeight : Weighted.WeightFunction)
    (fuel : nat) (σ : Store T) (sets : list ref) :
  Forall (λ r, r < length σ) sets →
  pairwise disjoint (map (read σ) sets) →
  ∃ σ' nodes,
    Weighted.splitSets join split primaryWeight secondaryWeight fuel σ sets
      = Weighted.Done σ' nodes ∧
    length nodes = length sets ∧
    (∀ r, r < length σ → read σ' r = read σ r) ∧
    ∀ i set, sets !! i = Some set →
      ∃ n, nodes !! i = Some n ∧ coll n = set ∧ length σ ≤ rest n ∧
           node_rest σ' n = read σ set ∧ imports n = [] ∧ depth n = Num 0.
Proof.
  intros Hin Hpw. eexists _, _. split; [by apply splitSets_disjoint|].
  split; [by rewrite length_imap|]. split.
  - intros r Hr. by rewrite read_app_old.
  - intros i set Hi. eexists. split; [by rewrite list_lookup_imap, Hi|]. simpl.
    split; [done|]. split; [lia|]. split; [|done].
    unfold node_rest, read. simpl. rewrite lookup_app_r by lia.
    replace (length σ + i - length σ) with i by lia.
    change (map (read σ) sets) with (read σ <$> sets). by rewrite list_lookup_fmap, Hi.
Qed.

Lemma weighted_disjoint_sets_give_roots_witness :
  ∃ σ' nodes,
    Weighted.splitSets (sort_by numberCompare) (λ u, u)
      Weighted.elementsCount Weighted.setsCount 0 [[1; 2]; []; [3]]%Z [0; 1; 2]
      = Weighted.Done σ' nodes ∧
    length nodes = length [0; 1; 2] ∧
    (∀ r, r < length [[1; 2]; []; [3]]%Z → read σ' r = read [[1; 2]; []; [3]]%Z r) ∧
    ∀ i set, [0; 1; 2] !! i = Some set →
      ∃ n, nodes !! i = Some n ∧ coll n = set ∧ length [[1; 2]; []; [3]]%Z ≤ rest n ∧
           node_rest σ' n = read [[1; 2]; []; [3]]%Z set ∧ imports n = [] ∧
           depth n = Num 0.
Proof.
  apply (weighted_disjoint_sets_give_roots (sort_by numberCompare) (λ u, u)
           Weighted.elementsCount Weighted.setsCount 0 [[1; 2]; []; [3]]%Z [0; 1; 2]).
  - repeat constructor; simpl; lia.
  - simpl. repeat split; repeat constructor; intros x Hx Hy; simpl in *; intuition lia.
Defined.

(** * The greedy splitter: when the loop ends *)

Section GreedyPairs.
Context {T : Type} `{EqDecision T}.
Variable lt : T → T → bool.
Variable sort : Biggest.SortOption (T := T).
Implicit Types (a b r L : list T) (rs X : list (list T)) (st : Biggest.Search (T := T)).

Local Abbreviation inter := (Biggest.intersectionFunction lt sort).

Lemma orderedIntersection_sublist (before after : T → T → bool) a b :
  sublist (Biggest.orderedIntersection before after a b) a.
Proof.
  revert b. induction a as [|v1 a IHa]; intros b; [done|].
  induction b as [|v2 b IHb]; [apply sublist_nil_l|]. simpl.
  destruct (before v1 v2); [apply sublist_cons, (IHa (v2 :: b))|].
  destruct (after v1 v2); [exact IHb|]. apply sublist_skip, IHa.
Qed.

(** an intersection lies within one of the two arrays as a subsequence *)
Lemma intersection_sublist a b : sublist (inter a b) a ∨ sublist (inter a b) b.
Proof.
  unfold Biggest.intersectionFunction. destruct sort.
  - left. apply orderedIntersection_sublist.
  - unfold Biggest.getIntersection. destruct (length a <? length b).
    + left. apply List_filter_sublist.
    + right. apply List_filter_sublist.
  - left. apply orderedIntersection_sublist.
Qed.

Hypothesis Heq : equality_by_comparison lt sort.

Lemma intersection_In_both a b x : In x (inter a b) → In x a ∧ In x b.
Proof.
  intros Hx. split; [by eapply intersection_In1|by eapply intersection_In2].
Qed.

(** [L] is empty, or a subsequence of one of two arrays of [X] at different
    positions and found in the other *)
Definition found_pair X L : Prop :=
  L = [] ∨ ∃ a b, [a; b] ⊆+ X ∧ sublist L a ∧ ∀ x, In x L → In x b.

Lemma found_pair_mono X X' L : X ⊆+ X' → found_pair X L → found_pair X' L.
Proof.
  intros Hsub [->|(a & b & Hab & Ha & Hb)]; [by left|right].
  exists a, b. split; [by etransitivity|done].
Qed.

Lemma two_positions_sublist X i a b :
  X !! i = Some a → In b (drop (S i) X) → sublist [a; b] X.
Proof.
  intros Hi Hb. rewrite <- (take_drop_middle X i a Hi).
  apply sublist_inserts_l, sublist_skip. apply singleton_sublist_l.
  by apply list_elem_of_In.
Qed.

Lemma intersection_found X i set all :
  X !! i = Some set → In all (drop (S i) X) → found_pair X (inter set all).
Proof.
  intros Hi Hall. right.
  pose proof (two_positions_sublist X i set all Hi Hall) as Hsub.
  destruct (intersection_sublist set all) as [Hs|Hs].
  - exists set, all. split; [by apply sublist_submseteq|]. split; [done|].
    intros x Hx. by apply intersection_In_both in Hx as [_ ?].
  - exists all, set. split.
    + etransitivity; [|apply sublist_submseteq, Hsub].
      apply Permutation_submseteq, perm_swap.
    + split; [done|]. intros x Hx. by apply intersection_In_both in Hx as [? _].
Qed.

Lemma getLongestIntersection_pair base next longest :
  found_pair (next ++ base) (Biggest.getLongestIntersection lt sort base next longest).
Proof.
  unfold Biggest.getLongestIntersection. set (X := next ++ base).
  assert (∀ (ps : list (nat * list T)) (s : nat * list T),
            (∀ i set, In (i, set) ps → X !! i = Some set) → found_pair X (snd s) →
            found_pair X
              (snd (fold_left
                      (λ acc '(i, set),
                         fold_left (λ acc all, Biggest.keepLonger acc (inter set all))
                                   (drop (i + 1) X) acc) ps s))) as Haux.
  { intros ps. induction ps as [|[i set] ps IH]; intros s Hps Hs; [done|].
    simpl. apply IH; [intros; apply Hps; by right|].
    assert (X !! i = Some set) as Hi by (apply Hps; by left).
    rewrite Nat.add_1_r.
    assert (∀ all, In all (drop (S i) X) → In all (drop (S i) X)) as Hall by done.
    revert Hall. generalize (drop (S i) X) at 1 3. intros alls. revert s Hs.
    induction alls as [|all alls IHa]; intros s Hs Hall; [done|].
    simpl. apply IHa; [|intros; apply Hall; by right].
    unfold Biggest.keepLonger. destruct (fst s <? length (inter set all)); [|done].
    simpl. apply (intersection_found X i set all Hi). apply Hall. by left. }
  apply Haux; [|by left].
  intros i set Hin. apply zip_seq_lookup in Hin. unfold X.
  rewrite lookup_app_l; [done|]. by eapply lookup_lt_Some.
Qed.

(** the arrays the search holds are filtered arrays of the [rest]s, each at
    most once, and it holds the length of the intersection it holds *)
Variable keep : T → bool.

Definition pair_inv rs st : Prop :=
  (∃ tb tf, tb ++ tf ⊆+ rs ∧
            Biggest.baseArrays st = map (List.filter keep) tb ∧
            Biggest.filteredArrays st = map (List.filter keep) tf) ∧
  found_pair rs (Biggest.longestIntersection st) ∧
  Biggest.longest st = length (Biggest.longestIntersection st).

Lemma filter_map_comm {A B} (f : A → B) (p : B → bool) (l : list A) :
  List.filter p (map f l) = map f (List.filter (λ x, p (f x)) l).
Proof.
  induction l as [|x l IH]; simpl; [done|]. destruct (p (f x)); simpl; by rewrite IH.
Qed.

Lemma found_pair_filtered rs (tagged : list (list T)) L :
  tagged ⊆+ rs → found_pair (map (List.filter keep) tagged) L → found_pair rs L.
Proof.
  intros Hsub [->|(a & b & Hab & Ha & Hb)]; [by left|right].
  apply submseteq_Permutation in Hab as [k Hk].
  symmetry in Hk. apply Permutation_map_inv in Hk as (tagged' & Heq' & Hperm).
  destruct tagged' as [|ta [|tb tk]]; try done. simpl in Heq'.
  injection Heq' as -> -> _.
  exists ta, tb. split.
  - etransitivity; [|exact Hsub]. rewrite Hperm.
    apply sublist_submseteq. do 2 apply sublist_skip. apply sublist_nil_l.
  - split; [etransitivity; [exact Ha|apply List_filter_sublist]|].
    intros x Hx. apply Hb, filter_In in Hx. tauto.
Qed.

Lemma elementStep_pair rs st element :
  pair_inv rs st → pair_inv rs (Biggest.elementStep lt sort st element).
Proof.
  intros ((tb & tf & Hsub & Hb & Hf) & HL & Hlen). unfold Biggest.elementStep.
  rewrite Hb, Hf, !filter_map_comm.
  set (tc := List.filter (λ x, Biggest.longest st <? length (List.filter keep x)) tf).
  set (tnext := List.filter (λ x, includes (List.filter keep x) element) tc).
  set (tnf := List.filter (λ x, negb (includes (List.filter keep x) element)) tc).
  assert (tb ++ tc ⊆+ rs) as Hc.
  { etransitivity; [|exact Hsub]. apply submseteq_app; [done|].
    apply sublist_submseteq, List_filter_sublist. }
  assert (tnf ++ tnext ≡ₚ tc) as Hpart
    by apply (filter_partition_Permutation (λ x, includes (List.filter keep x) element) tc).
  assert ((tb ++ tnext) ++ tnf ⊆+ rs) as Hnew.
  { etransitivity; [|exact Hc]. apply Permutation_submseteq.
    rewrite <- app_assoc. apply Permutation_app_head.
    etransitivity; [apply Permutation_app_comm|done]. }
  assert (found_pair rs
            (Biggest.getLongestIntersection lt sort (map (List.filter keep) tb)
               (map (List.filter keep) tnext) (Biggest.longest st))) as Hfound.
  { apply (found_pair_filtered rs (tnext ++ tb)).
    - etransitivity; [|exact Hnew]. etransitivity; [|apply submseteq_inserts_r; reflexivity].
      apply Permutation_submseteq, Permutation_app_comm.
    - rewrite map_app. apply getLongestIntersection_pair. }
  destruct (Biggest.longest st <? length _); simpl.
  - split; [|done]. exists (tb ++ tnext), tnf. by rewrite map_app.
  - split; [|done]. exists (tb ++ tnext), tnf. by rewrite map_app.
Qed.

Lemma elementsLoop_pair rs st elements :
  pair_inv rs st →
  match Biggest.elementsLoop lt sort st elements with
  | Biggest.Returned st' | Biggest.FellThrough st' => pair_inv rs st'
  end.
Proof.
  revert st. induction elements as [|e elements IH]; intros st Hst; [done|].
  simpl. destruct (length _ =? 0); [by apply elementStep_pair|].
  apply IH. by apply elementStep_pair.
Qed.

Lemma countsLoop_pair rs m st counts :
  pair_inv rs st →
  match Biggest.countsLoop lt sort m st counts with
  | Biggest.Returned st' | Biggest.FellThrough st' => pair_inv rs st'
  end.
Proof.
  revert st. induction counts as [|c counts IH]; intros st Hst; [done|].
  simpl. pose proof (elementsLoop_pair rs st (default [] (amap_get c m)) Hst) as He.
  destruct (Biggest.elementsLoop lt sort st _); [done|]. by apply IH.
Qed.
End GreedyPairs.

Section GreedyPass.
Context {T : Type} `{EqDecision T}.
Variable lt : T → T → bool.
Variable sort : Biggest.SortOption (T := T).
Hypothesis Heq : equality_by_comparison lt sort.
Implicit Types (r L : list T) (rs : list (list T)).

(** what a pass returns and extracts *)
Lemma searchPass_pair rs :
  match Biggest.extracted (Biggest.searchPass lt sort rs) with
  | Some L =>
      Biggest.returned (Biggest.searchPass lt sort rs) = length L ∧ L ≠ [] ∧
      ∃ a b, [a; b] ⊆+ rs ∧ sublist L a ∧ ∀ x, In x L → In x b
  | None => Biggest.returned (Biggest.searchPass lt sort rs) = 0
  end.
Proof.
  unfold Biggest.searchPass. destruct (bool_decide _); [done|].
  set (singles := default [] _). set (m := fold_left Biggest.groupCount _ []).
  set (keep := λ element, negb (includes singles element)).
  pose proof (countsLoop_pair lt sort Heq keep rs m
                (Biggest.mkSearch (map (List.filter keep) rs) [] 0 [])
                (removelast (sort_by (λ c d, Z.of_nat d - Z.of_nat c)%Z (amap_keys m))))
    as Hinv.
  destruct (Biggest.countsLoop _ _ _ _ _) as [st|st]; [|done].
  destruct Hinv as (_ & Hfound & Hlen).
  { split; [|split; [by left|done]]. exists [], rs. by rewrite app_nil_l. }
  destruct (0 <? length (Biggest.longestIntersection st)) eqn:El; simpl.
  - apply Nat.ltb_lt in El. split; [done|].
    destruct Hfound as [Hnil|Hpair]; [rewrite Hnil in El; simpl in El; lia|].
    split; [|done]. intros Hnil. rewrite Hnil in El. simpl in El. lia.
  - apply Nat.ltb_ge in El. lia.
Qed.
End GreedyPass.

Section GreedyMeasure.
Context {T : Type} `{EqDecision T}.
Implicit Types (r L : list T) (rs : list (list T)).

(** the number of the elements of all [rest]s *)
Definition total rs : nat := fold_right (λ r n, length r + n) 0 rs.

Lemma total_app rs1 rs2 : total (rs1 ++ rs2) = total rs1 + total rs2.
Proof. induction rs1 as [|r rs1 IH]; simpl; [done|]. rewrite IH. lia. Qed.

Lemma total_Permutation rs1 rs2 : rs1 ≡ₚ rs2 → total rs1 = total rs2.
Proof. induction 1; simpl; lia. Qed.

Lemma total_concat rs : total rs = length (concat rs).
Proof. induction rs as [|r rs IH]; simpl; [done|]. rewrite length_app. lia. Qed.

Lemma filter_length_le {A} (p : A → bool) (l : list A) : length (List.filter p l) ≤ length l.
Proof. induction l as [|x l IH]; simpl; [done|]. destruct (p x); simpl; lia. Qed.

Lemma rest_after_le L r : length (rest_after L r) ≤ length r.
Proof. unfold rest_after. destruct (forallb _ L); [apply filter_length_le|done]. Qed.

Lemma total_rest_after_le L rs : total (map (rest_after L) rs) ≤ total rs.
Proof.
  induction rs as [|r rs IH]; simpl; [done|]. pose proof (rest_after_le L r). lia.
Qed.

(** taking the elements of a subsequence out takes at least its length out *)
Lemma filter_out_more x L r :
  length (List.filter (λ el, negb (includes (x :: L) el)) r)
  ≤ length (List.filter (λ el, negb (includes L el)) r).
Proof.
  induction r as [|y r IH]; [done|]. cbn [List.filter].
  change (includes (x :: L) y) with (bool_decide (x = y) || includes L y).
  destruct (bool_decide (x = y)), (includes L y); cbn [negb orb length]; lia.
Qed.

Lemma filter_out_sublist L r :
  sublist L r → length (List.filter (λ el, negb (includes L el)) r) + length L ≤ length r.
Proof.
  induction 1 as [|x L r Hsub IH|x L r Hsub IH].
  - done.
  - cbn [List.filter]. change (includes (x :: L) x) with (bool_decide (x = x) || includes L x).
    rewrite bool_decide_eq_true_2 by done. pose proof (filter_out_more x L r).
    cbn [negb orb length]. lia.
  - cbn [List.filter]. destruct (includes L x); cbn [negb length]; lia.
Qed.

Lemma filter_out_one L r x :
  In x L → In x r → length (List.filter (λ el, negb (includes L el)) r) < length r.
Proof.
  intros HL. induction r as [|y r IH]; simpl; [done|]. intros [->|Hr].
  - assert (includes L x = true) as -> by (by apply includes_In). simpl.
    pose proof (filter_length_le (λ el, negb (includes L el)) r). lia.
  - specialize (IH Hr). destruct (includes L y); simpl; lia.
Qed.

Lemma rest_after_sublist L r :
  sublist L r → length (rest_after L r) + length L ≤ length r.
Proof.
  intros Hsub. unfold rest_after.
  assert (forallb (λ includedElement, includes r includedElement) L = true) as ->.
  { apply forallb_forall. intros x Hx. apply includes_In, list_elem_of_In.
    eapply elem_of_sublist; [|exact Hsub]. by apply list_elem_of_In. }
  by apply filter_out_sublist.
Qed.

Lemma rest_after_holds L r : L ≠ [] → (∀ x, In x L → In x r) →
  length (rest_after L r) < length r.
Proof.
  intros Hne Hall. unfold rest_after.
  assert (forallb (λ includedElement, includes r includedElement) L = true) as ->.
  { apply forallb_forall. intros x Hx. by apply includes_In, Hall. }
  destruct L as [|x L]; [done|]. apply (filter_out_one _ r x); [by left|].
  apply Hall. by left.
Qed.

(** an extraction leaves fewer elements in the [rest]s, the new node counted *)
Lemma total_after_extraction L rs a b :
  L ≠ [] → [a; b] ⊆+ rs → sublist L a → (∀ x, In x L → In x b) →
  total (map (rest_after L) rs ++ [L]) < total rs.
Proof.
  intros Hne Hab Ha Hb. apply submseteq_Permutation in Hab as [k Hk].
  rewrite total_app. simpl.
  rewrite (total_Permutation _ _ (Permutation_map (rest_after L) Hk)),
    (total_Permutation _ _ Hk). simpl.
  pose proof (rest_after_sublist L a Ha). pose proof (rest_after_holds L b Hne Hb).
  pose proof (total_rest_after_le L k). lia.
Qed.
End GreedyMeasure.

Section GreedyTermination.
Context {T : Type} `{EqDecision T}.
Variable lt : T → T → bool.
Variable defaultCompare : T → T → Z.
Variable sort : Biggest.SortOption (T := T).
Hypothesis Heq : equality_by_comparison lt sort.
Implicit Types (σ : Store T) (nodes : list Node).

Lemma splitArrayNodes_decreases σ nodes σ' nodes' k :
  (∀ n, In n nodes → rest n < length σ) →
  Biggest.splitArrayNodes lt sort σ nodes = (σ', nodes', k) →
  (∀ n, In n nodes' → rest n < length σ') ∧
  (k = 0 → σ' = σ ∧ nodes' = nodes) ∧
  (0 < k → length nodes' = S (length nodes) ∧
           total (rests σ' nodes') < total (rests σ nodes)).
Proof.
  intros Hrefs. unfold Biggest.splitArrayNodes.
  pose proof (searchPass_pair lt sort Heq (rests σ nodes)) as Hpass.
  destruct (Biggest.extracted _) as [L|].
  - destruct Hpass as (Hk & Hne & a & b & Hab & Ha & Hb).
    destruct (Biggest.extract σ nodes L) as [σ1 nodes1] eqn:Ex. intros [= <- <- <-].
    destruct (extract_rests σ nodes L σ1 nodes1 Hrefs Ex) as [Hrests Hrefs1].
    split; [done|]. split.
    + rewrite Hk. destruct L; [done|simpl; lia].
    + intros _. split.
      * destruct (extract_spec σ nodes L Hrefs) as (ext & nodes2 & Hex & Hall).
        rewrite Hex in Ex. injection Ex as <- <-.
        rewrite length_app, <- (Forall2_length _ _ _ Hall). simpl. lia.
      * rewrite Hrests. by eapply total_after_extraction.
  - intros [= <- <- <-]. split; [done|]. split; [done|]. lia.
Qed.

Lemma splitLoop_terminates fuel σ nodes :
  (∀ n, In n nodes → rest n < length σ) →
  total (rests σ nodes) < fuel →
  ∃ σ' nodes', Biggest.splitLoop lt sort fuel σ nodes = Some (σ', nodes') ∧
    length nodes ≤ length nodes' ∧
    length nodes' + total (rests σ' nodes') ≤ length nodes + total (rests σ nodes).
Proof.
  revert σ nodes. induction fuel as [|fuel IH]; intros σ nodes Hrefs Hfuel; [lia|].
  simpl. destruct (Biggest.splitArrayNodes lt sort σ nodes) as [[σ1 nodes1] k] eqn:E.
  destruct (splitArrayNodes_decreases σ nodes σ1 nodes1 k Hrefs E) as (Hrefs1 & Hzero & Hdec).
  destruct (0 <? k) eqn:Ek.
  - apply Nat.ltb_lt in Ek. destruct (Hdec Ek) as [Hlen Htot].
    destruct (IH σ1 nodes1 Hrefs1) as (σ' & nodes' & -> & Hle & Hsum); [lia|].
    exists σ', nodes'. split; [done|]. lia.
  - apply Nat.ltb_ge in Ek. destruct Hzero as [-> ->]; [lia|]. by exists σ, nodes.
Qed.

Lemma initial_rests_total σ (arrays : list ref) :
  total (rests (σ ++ map (λ r, Biggest.initialRest defaultCompare sort (read σ r)) arrays)
               (imap (λ i r, mkNode r (length σ + i) [] (Num 0)) arrays))
  = length (concat (map (read σ) arrays)).
Proof.
  unfold rests. rewrite total_concat. apply Permutation_length.
  assert (map (node_rest (σ ++ map (λ r, Biggest.initialRest defaultCompare sort (read σ r))
                                  arrays))
            (imap (λ i r, mkNode r (length σ + i) [] (Num 0)) arrays)
          = map (λ r, Biggest.initialRest defaultCompare sort (read σ r)) arrays) as ->.
  { apply list_eq. intros i.
    change (map ?f ?l) with (f <$> l). rewrite !list_lookup_fmap, list_lookup_imap.
    destruct (arrays !! i) as [r|] eqn:Er; simpl; [|done]. f_equal.
    unfold node_rest, read. simpl. rewrite lookup_app_r by lia.
    replace (length σ + i - length σ) with i by lia.
    by rewrite list_lookup_fmap, Er. }
  induction arrays as [|r arrays IH]; simpl; [done|].
  apply Permutation_app; [apply initialRest_Permutation|done].
Qed.

Lemma addMaxDepthToNodes_rests σ0 inputs σ nodes :
  greedy_inv σ0 inputs σ nodes →
  length (addMaxDepthToNodes nodes) = length nodes ∧
  rests σ (addMaxDepthToNodes nodes) = rests σ nodes.
Proof.
  intros Hinv. pose proof (greedy_inv_depth_pre _ _ _ _ Hinv) as Hpre.
  destruct (addMaxDepthToNodes_state _ _ Hpre) as [Hs _ _ _].
  split; [by apply strip_length|].
  unfold rests, node_rest.
  change (map (λ n, read σ (rest n)) ?l) with (map (λ n, (λ s : ref * ref * list nat, read σ s.1.2) (strip n)) l).
  by rewrite <- !(map_map strip (λ s : ref * ref * list nat, read σ s.1.2)), Hs.
Qed.

Lemma splitArrays_terminates fuel σ (arrays : list ref) :
  Forall (λ r, r < length σ) arrays →
  length (concat (map (read σ) arrays)) < fuel →
  ∃ σ' nodes,
    Biggest.splitArrays lt defaultCompare sort fuel σ arrays = Some (σ', nodes) ∧
    length arrays ≤ length nodes ∧
    length nodes + length (concat (rests σ' nodes))
    ≤ length arrays + length (concat (map (read σ) arrays)).
Proof.
  intros Hin Hfuel. unfold Biggest.splitArrays.
  destruct (Biggest.initialNodes defaultCompare sort σ arrays) as [σ0 nodes0] eqn:E0.
  destruct (initialNodes_inv defaultCompare sort σ arrays σ0 nodes0 Hin E0)
    as (Hinv0 & Hlen0 & _).
  unfold Biggest.initialNodes in E0. rewrite initialNodes_fold in E0 by done.
  simpl in E0. injection E0 as E0σ E0n.
  pose proof (initial_rests_total σ arrays) as Htot. rewrite E0σ, E0n in Htot.
  destruct (splitLoop_terminates fuel σ0 nodes0) as (σ1 & nodes1 & Hloop & Hle & Hsum).
  - intros n Hn. apply (gi_refs _ _ _ _ Hinv0 n Hn).
  - lia.
  - pose proof (splitLoop_inv lt sort _ _ _ _ _ _ _ Hinv0 Hloop) as Hinv1.
    destruct (addMaxDepthToNodes_rests _ _ _ _ Hinv1) as [Hlen Hrests].
    rewrite Hloop. simpl. eexists _, _. split; [done|].
    rewrite Hlen, Hrests, <- total_concat. lia.
Qed.
End GreedyTermination.

(** [splitArrays] of a [BiggestIntersectionsSplitter] returns whenever
    elements that the comparison does not tell apart are the same element
    (always so for [sort = false]): every pass that extracts an intersection
    takes it out of two [rest]s at least and adds it once, so the [rest]s of
    all nodes together lose an element in every pass.  The loop
    [while (this.splitArrayNodes(arrayNodes) > 0) {}] therefore ends within
    as many passes as the arrays have elements, plus the last one; the
    result has a node for every array, and its nodes and the elements of
    their [rest]s together are no more than the arrays and their elements. *)
Theorem biggest_split_returns_and_never_grows {T : Type} `{EqDecision T}
    (lt : T → T → bool) (defaultCompare : T → T → Z)
    (sort : Biggest.SortOption (T := T)) (fuel : nat) (σ : Store T) (inputs : list ref) :
  equality_by_comparison lt sort →
  Forall (λ r, r < length σ) inputs →
  length (concat (map (read σ) inputs)) < fuel →
  ∃ σ' nodes,
    Biggest.splitArrays lt defaultCompare sort fuel σ inputs = Some (σ', nodes) ∧
    length inputs ≤ length nodes ∧
    length nodes + length (concat (rests σ' nodes))
    ≤ length inputs + length (concat (map (read σ) inputs)).
Proof. intros Heq Hin Hfuel. by apply splitArrays_terminates. Qed.

Lemma biggest_split_returns_and_never_grows_witness :
  ∃ σ' nodes,
    Biggest.splitArrays Z.ltb numberCompare (Biggest.SortWith numberCompare) 8
      [[3; 1; 2]; [2; 3; 4]]%Z [0; 1] = Some (σ', nodes) ∧
    length [0; 1] ≤ length nodes ∧
    length nodes + length (concat (rests σ' nodes))
    ≤ length [0; 1] + length (concat (map (read [[3; 1; 2]; [2; 3; 4]]%Z) [0; 1])).
Proof.
  apply (biggest_split_returns_and_never_grows Z.ltb numberCompare
           (Biggest.SortWith numberCompare) 8 [[3; 1; 2]; [2; 3; 4]]%Z [0; 1]).
  - unfold equality_by_comparison, numberCompare. intros x y Hxy. lia.
  - repeat constructor; simpl; lia.
  - simpl. lia.
Defined.

(** * The intersection functions on ascending arrays *)

Section OrderedIntersection.
Context {T : Type} `{EqDecision T}.
Implicit Types (a b : list T).

(** the two-pointer loop finds every common element of two arrays in which
    no element comes before a smaller one *)
Lemma orderedIntersection_complete (before after : T → T → bool) a b x :
  (∀ v1 v2, before v1 v2 = false → after v1 v2 = false → v1 = v2) →
  (∀ v, before v v = false) → (∀ v, after v v = false) →
  StronglySorted (λ v w, after v w = false) a →
  StronglySorted (λ v w, before w v = false) b →
  In x a → In x b → In x (Biggest.orderedIntersection before after a b).
Proof.
  intros Heq Hb Ha Hsa. revert b.
  induction Hsa as [|v1 a Hsa IHa Hv1]; intros b Hsb; [done|].
  induction Hsb as [|v2 b Hsb IHb Hv2]; [done|]. intros Hxa Hxb. simpl.
  rewrite Forall_forall in Hv1, Hv2.
  destruct (before v1 v2) eqn:Eb.
  - apply (IHa (v2 :: b)); [by constructor; [|apply Forall_forall]| |done].
    destruct Hxa as [->|Hxa]; [|done]. destruct Hxb as [->|Hxb].
    + by rewrite Hb in Eb.
    + apply list_elem_of_In, Hv2 in Hxb. congruence.
  - destruct (after v1 v2) eqn:Ea.
    + apply IHb; [done|]. destruct Hxb as [->|Hxb]; [|done]. destruct Hxa as [->|Hxa].
      * by rewrite Ha in Ea.
      * apply list_elem_of_In, Hv1 in Hxa. congruence.
    + assert (v1 = v2) as <- by (by apply Heq).
      destruct Hxa as [->|Hxa]; [by left|]. destruct Hxb as [->|Hxb]; [by left|].
      right. by apply IHa.
Qed.
End OrderedIntersection.

Section IntersectionFunction.
Context {T : Type} `{EqDecision T}.
Variable lt : T → T → bool.
Variable sort : Biggest.SortOption (T := T).
Implicit Types (a b : list T).

(** of two elements, at most one comes before the other *)
Definition asymmetric_comparison : Prop :=
  match sort with
  | Biggest.SortTrue => ∀ x y, lt x y = true → lt y x = false
  | Biggest.SortFalse => True
  | Biggest.SortWith sorter => ∀ x y, (sorter x y < 0)%Z ↔ (0 < sorter y x)%Z
  end.

(** no element of the array comes before a smaller one *)
Definition ascending a : Prop :=
  match sort with
  | Biggest.SortTrue => StronglySorted (λ x y, lt y x = false) a
  | Biggest.SortFalse => True
  | Biggest.SortWith sorter => StronglySorted (λ x y, (sorter x y <= 0)%Z) a
  end.

Lemma intersection_complete a b x :
  equality_by_comparison lt sort → asymmetric_comparison → ascending a → ascending b →
  In x a → In x b → In x (Biggest.intersectionFunction lt sort a b).
Proof.
  unfold equality_by_comparison, asymmetric_comparison, ascending,
    Biggest.intersectionFunction.
  destruct sort as [| |sorter]; intros Heq Hasym Ha Hb Hxa Hxb.
  - apply orderedIntersection_complete; try done.
    + intros v. destruct (lt v v) eqn:E; [|done]. by rewrite (Hasym v v E) in E.
    + intros v. destruct (lt v v) eqn:E; [|done]. by rewrite (Hasym v v E) in E.
  - unfold Biggest.getIntersection. destruct (length a <? length b);
      rewrite filter_In, includes_In; tauto.
  - apply orderedIntersection_complete; try done.
    + intros v1 v2 H1 H2. apply Heq. apply Z.ltb_ge in H1, H2. lia.
    + intros v. apply Z.ltb_ge. destruct (Hasym v v). lia.
    + intros v. apply Z.ltb_ge. destruct (Hasym v v). lia.
    + eapply StronglySorted_ind with (P := StronglySorted _); [constructor| |exact Ha].
      intros v l _ Hl Hv. constructor; [done|].
      eapply Forall_impl; [exact Hv|]. simpl. intros w Hw. apply Z.ltb_ge. lia.
    + eapply StronglySorted_ind with (P := StronglySorted _); [constructor| |exact Hb].
      intros v l _ Hl Hv. constructor; [done|].
      eapply Forall_impl; [exact Hv|]. simpl. intros w Hw. apply Z.ltb_ge.
      destruct (Hasym w v). lia.
Qed.
End IntersectionFunction.

(** The intersection function that the constructor chooses returns the
    common elements of two arrays, and nothing else, when the arrays are
    ascending in the order the splitter was built with: for [sort = true]
    and for a sorter, when of two different elements exactly one comes
    before the other and no element of an array comes before a smaller one;
    for [sort = false], where [getIntersection] filters the shorter array,
    for all arrays. *)
Theorem intersection_function_finds_common_elements {T : Type} `{EqDecision T}
    (lt : T → T → bool) (sort : Biggest.SortOption (T := T)) (a b : list T) :
  equality_by_comparison lt sort → asymmetric_comparison lt sort →
  ascending lt sort a → ascending lt sort b →
  ∀ x, In x (Biggest.intersectionFunction lt sort a b) ↔ In x a ∧ In x b.
Proof.
  intros Heq Hasym Ha Hb x. split.
  - intros Hx. split; [by eapply intersection_In1|by eapply intersection_In2].
  - intros [Hxa Hxb]. by apply intersection_complete.
Qed.

Lemma intersection_function_finds_common_elements_witness :
  Biggest.intersectionFunction Z.ltb (Biggest.SortWith numberCompare)
    [1; 2; 3]%Z [2; 3; 4]%Z = [2; 3]%Z ∧
  ∀ x, In x (Biggest.intersectionFunction Z.ltb (Biggest.SortWith numberCompare)
               [1; 2; 3] [2; 3; 4])%Z
       ↔ In x [1; 2; 3]%Z ∧ In x [2; 3; 4]%Z.
Proof.
  split; [reflexivity|].
  apply (intersection_function_finds_common_elements Z.ltb
           (Biggest.SortWith numberCompare) [1; 2; 3]%Z [2; 3; 4]%Z).
  - unfold equality_by_comparison, numberCompare. intros x y Hxy. lia.
  - unfold asymmetric_comparison, numberCompare. intros x y. lia.
  - unfold ascending, numberCompare. repeat constructor; lia.
  - unfold ascending, numberCompare. repeat constructor; lia.
Defined.

(** * The metrics: what the counts say *)

Section MetricCounts.
Context {T : Type} `{EqDecision T}.
Variable σ : Store T.
Variable nodes : list Node.
Local Abbreviation rec := (Metrics.getNodeMetricRecursive σ nodes).

(** what the traversal of [k] nodes at the depth [d], and of what they
    import, adds to the accumulator *)
Definition grows (d k : nat) (m m' : Metrics.NodeMetric) : Prop :=
  ∃ di dl ds,
    Metrics.importsCount m' = Metrics.importsCount m + di ∧
    Metrics.nodesCount m' = Metrics.nodesCount m + di + k ∧
    Metrics.leaves m' = Metrics.leaves m + dl ∧
    Metrics.avgDepthSum m' = Metrics.avgDepthSum m + ds ∧
    Metrics.maxDepth m ≤ Metrics.maxDepth m' ∧
    dl * d ≤ ds ∧ ds ≤ dl * Metrics.maxDepth m' ∧ dl ≤ di + k ∧
    (0 < k → 0 < dl ∧ d ≤ Metrics.maxDepth m').

Lemma grows_refl d m : grows d 0 m m.
Proof. exists 0, 0, 0. repeat split; lia. Qed.

Lemma grows_trans d k1 k2 m m1 m2 :
  grows d k1 m m1 → grows d k2 m1 m2 → grows d (k1 + k2) m m2.
Proof.
  intros (di1 & dl1 & ds1 & Hi1 & Hn1 & Hl1 & Hs1 & Hm1 & Hlo1 & Hhi1 & Hle1 & Hk1)
         (di2 & dl2 & ds2 & Hi2 & Hn2 & Hl2 & Hs2 & Hm2 & Hlo2 & Hhi2 & Hle2 & Hk2).
  exists (di1 + di2), (dl1 + dl2), (ds1 + ds2).
  repeat split; try lia; nia.
Qed.

Lemma collect_grows fuel d :
  (∀ i m l m', rec fuel i m (d + 1) = Some (l, m') → grows (d + 1) 1 m m') →
  ∀ js acc m l m',
    fold_left (λ acc nObj,
                 '(elements, m) ← acc;
                 '(elements', m') ← rec fuel nObj m (d + 1);
                 Some (elements ++ elements', m'))
              js (Some (acc, m)) = Some (l, m') →
    grows (d + 1) (length js) m m'.
Proof.
  intros IH js. induction js as [|j js IHjs]; intros acc m l m'; simpl.
  - intros [= <- <-]. apply grows_refl.
  - destruct (rec fuel j m (d + 1)) as [[els mj]|] eqn:E; simpl.
    + intros Hfold. apply IHjs in Hfold. apply IH in E.
      apply (grows_trans (d + 1) 1 (length js) m mj m' E Hfold).
    + intros Hfold. exfalso. revert Hfold. clear. induction js as [|j' js IH]; simpl; [done|].
      exact IH.
Qed.

Lemma recursive_grows fuel i m d l m' :
  0 < d → rec fuel i m d = Some (l, m') → grows d 1 m m'.
Proof.
  revert i m d l m'. induction fuel as [|fuel IH]; intros i m d l m' Hd; [done|].
  simpl. destruct (nodes !! i) as [n|]; simpl; [|done].
  assert ((0 <? d) = true) as -> by (by apply Nat.ltb_lt). simpl.
  destruct (0 <? length (imports n)) eqn:El.
  - apply Nat.ltb_lt in El.
    assert ((length (imports n) =? 0) = false) as -> by (apply Nat.eqb_neq; lia).
    match goal with |- context [fold_left ?f ?js (Some (?a, ?m0))] =>
      destruct (fold_left f js (Some (a, m0))) as [[els m4]|] eqn:E end; simpl; [|done].
    intros [= <- <-].
    apply (collect_grows fuel d) in E; [|intros; eapply IH; [|done]; lia].
    destruct E as (di & dl & ds & Hi & Hn & Hl & Hs & Hm & Hlo & Hhi & Hle & Hk).
    simpl in *. exists (length (imports n) + di), dl, ds.
    destruct (Hk El) as [Hdl Hmax].
    destruct (Metrics.maxDepth m <? d) eqn:Em;
      [apply Nat.ltb_lt in Em|apply Nat.ltb_ge in Em]; repeat split; try lia; nia.
  - apply Nat.ltb_ge in El.
    assert ((length (imports n) =? 0) = true) as -> by (apply Nat.eqb_eq; lia).
    intros [= <- <-]. simpl. exists 0, 1, d.
    destruct (Metrics.maxDepth m <? d) eqn:Em;
      [apply Nat.ltb_lt in Em|apply Nat.ltb_ge in Em]; repeat split; simpl; lia.
Qed.

Lemma root_counts fuel i n l m :
  nodes !! i = Some n →
  rec fuel i (Metrics.mkNodeMetric 0 0 0 0 0) 0 = Some (l, m) →
  Metrics.nodesCount m = Metrics.importsCount m + 1 ∧
  Metrics.leaves m ≤ Metrics.importsCount m ∧
  length (imports n) ≤ Metrics.importsCount m ∧
  (imports n = [] → m = Metrics.mkNodeMetric 0 0 0 1 0) ∧
  (imports n ≠ [] →
     1 ≤ Metrics.leaves m ∧ 1 ≤ Metrics.maxDepth m ∧
     Metrics.leaves m ≤ Metrics.avgDepthSum m ∧
     Metrics.avgDepthSum m ≤ Metrics.leaves m * Metrics.maxDepth m).
Proof.
  intros Hn. destruct fuel as [|fuel]; [done|]. simpl. rewrite Hn. simpl.
  destruct (0 <? length (imports n)) eqn:El.
  - apply Nat.ltb_lt in El.
    match goal with |- context [fold_left ?f ?js (Some (?a, ?m0))] =>
      destruct (fold_left f js (Some (a, m0))) as [[els m4]|] eqn:E end; simpl; [|done].
    intros [= <- <-].
    apply (collect_grows fuel 0) in E; [|intros; eapply recursive_grows; [|done]; simpl; lia].
    destruct E as (di & dl & ds & Hi & Hn' & Hl & Hs & Hm & Hlo & Hhi & Hle & Hk).
    simpl in *. destruct (Hk El) as [Hdl Hmax].
    repeat split; try lia; try nia.
    intros Himp. rewrite Himp in El. simpl in El. lia.
  - apply Nat.ltb_ge in El. intros [= <- <-].
    destruct (imports n) as [|j js]; [|simpl in El; lia]. simpl.
    repeat split; try done; lia.
Qed.
End MetricCounts.

(** Whenever [getNodeMetric] returns the metrics of a node, [nodes] is
    [imports + 1]: a node is counted once for every path of imports that
    leads to it.  [leaves] is at most [imports].  For a node without imports
    the metrics are [maxDepth = 0], [leaves = 0], [imports = 0], [nodes = 1]
    and [avgDepthSum = 0], so that [avgDepth], which is
    [avgDepthSum / leaves], is [0 / 0].  For a node with imports there is a
    leaf, [maxDepth] is at least 1, and [avgDepthSum] lies between [leaves]
    and [leaves * maxDepth], so that [avgDepth] lies between 1 and
    [maxDepth]. *)
Theorem getNodeMetric_counts {T : Type} `{EqDecision T}
    (σ : Store T) (nodes : list Node) (fuel i : nat) (n : Node) (m : Metrics.NodeMetric) :
  nodes !! i = Some n →
  Metrics.getNodeMetric σ nodes fuel i = Some (Metrics.Metric m) →
  Metrics.nodesCount m = Metrics.importsCount m + 1 ∧
  Metrics.leaves m ≤ Metrics.importsCount m ∧
  length (imports n) ≤ Metrics.importsCount m ∧
  (imports n = [] → m = Metrics.mkNodeMetric 0 0 0 1 0) ∧
  (imports n ≠ [] →
     1 ≤ Metrics.leaves m ∧ 1 ≤ Metrics.maxDepth m ∧
     Metrics.leaves m ≤ Metrics.avgDepthSum m ∧
     Metrics.avgDepthSum m ≤ Metrics.leaves m * Metrics.maxDepth m).
Proof.
  intros Hn. unfold Metrics.getNodeMetric. rewrite Hn. simpl.
  destruct (Metrics.getNodeMetricRecursive σ nodes fuel i _ 0) as [[all m0]|] eqn:E;
    simpl; [|done].
  destruct (existsb _ _); [done|]. intros [= <-]. by eapply root_counts.
Qed.

Lemma getNodeMetric_counts_witness :
  let σ : Store Z := [[1; 2; 3]; [1]; [2; 3]; [2]; [3]; []]%Z in
  let nodes := [mkNode 0 1 [1] (Num 0); mkNode 2 5 [2; 3] (Num 1);
                mkNode 3 3 [] (Num 2); mkNode 4 4 [] (Num 2)] in
  let m := Metrics.mkNodeMetric 2 2 3 4 4 in
  Metrics.getNodeMetric σ nodes 4 0 = Some (Metrics.Metric m) ∧
  Metrics.nodesCount m = Metrics.importsCount m + 1 ∧
  Metrics.leaves m ≤ Metrics.importsCount m ∧
  length [1] ≤ Metrics.importsCount m ∧
  ([1] = [] → m = Metrics.mkNodeMetric 0 0 0 1 0) ∧
  ([1] ≠ [] →
     1 ≤ Metrics.leaves m ∧ 1 ≤ Metrics.maxDepth m ∧
     Metrics.leaves m ≤ Metrics.avgDepthSum m ∧
     Metrics.avgDepthSum m ≤ Metrics.leaves m * Metrics.maxDepth m).
Proof.
  intros σ nodes m. split; [reflexivity|].
  apply (getNodeMetric_counts σ nodes 4 0 (mkNode 0 1 [1] (Num 0)) m); reflexivity.
Defined.

(** * The metrics of what the splitters return *)

Section MetricsOfResults.
Context {T : Type} `{EqDecision T}.
Variable σ : Store T.
Variable nodes : list Node.
Hypothesis Hforward : forward nodes.
Hypothesis Hcovered : covered σ nodes.

Lemma covered_metric i :
  i < length nodes →
  ∃ m, Metrics.getNodeMetric σ nodes (length nodes) i = Some (Metrics.Metric m) ∧
       Metrics.nodesCount m = Metrics.importsCount m + 1 ∧
       Metrics.leaves m ≤ Metrics.importsCount m.
Proof.
  intros Hi. destruct (lookup_lt_is_Some_2 nodes i Hi) as [n Hn].
  destruct (recursive_total σ nodes (length nodes) i (Metrics.mkNodeMetric 0 0 0 0 0) 0
              Hforward Hi) as [[all m] Hrec]; [lia|].
  pose proof (recursive_reconstruct _ _ _ _ _ _ _ _ Hrec) as Hall.
  destruct (covered_reconstruct σ nodes i n Hforward Hcovered Hn) as (l & Hl & Hsame).
  assert (l = all) as -> by congruence.
  destruct (root_counts σ nodes (length nodes) i n all m Hn Hrec) as (Hnodes & Hleaves & _).
  exists m. split; [|done].
  unfold Metrics.getNodeMetric. rewrite Hn. simpl. rewrite Hrec. simpl.
  destruct (existsb _ (node_coll σ n)) eqn:E; [|done].
  apply existsb_exists in E as (x & Hx & Hnot).
  apply negb_true_iff, includes_not_In in Hnot. destruct Hnot. by apply Hsame.
Qed.

Lemma positions_lt (p : Node → bool) i : In i (positions p nodes) → i < length nodes.
Proof. unfold positions. rewrite filter_In, in_seq. lia. Qed.

Lemma summary_fold (ms : list Metrics.MetricResult) (acc : Metrics.Summary) :
  Forall (λ r, ∃ m, r = Metrics.Metric m ∧
                    Metrics.nodesCount m = Metrics.importsCount m + 1 ∧
                    Metrics.leaves m ≤ Metrics.importsCount m) ms →
  ∃ s,
    fold_left
      (λ acc r,
         cumulative ← acc;
         match r with
         | Metrics.Metric metric =>
             Some (Metrics.mkSummary
                     (Nat.max (Metrics.sMaxDepth cumulative) (Metrics.maxDepth metric))
                     (Metrics.sumMaxDepth cumulative + Metrics.maxDepth metric)
                     (Metrics.sumLeaves cumulative + Metrics.leaves metric)
                     (Metrics.sumImports cumulative + Metrics.importsCount metric)
                     (Metrics.sumNodes cumulative + Metrics.nodesCount metric)
                     (Metrics.generatedNodes cumulative) (Metrics.rootNodes cumulative)
                     (Metrics.elementsCount cumulative) (Metrics.uniqueElements cumulative))
         | Metrics.NodeObjectIsNotValid => None
         end)
      ms (Some acc) = Some s ∧
    Metrics.generatedNodes s = Metrics.generatedNodes acc ∧
    Metrics.rootNodes s = Metrics.rootNodes acc ∧
    Metrics.elementsCount s = Metrics.elementsCount acc ∧
    Metrics.uniqueElements s = Metrics.uniqueElements acc ∧
    Metrics.sumNodes s + Metrics.sumImports acc
      = Metrics.sumNodes acc + Metrics.sumImports s + length ms ∧
    Metrics.sumLeaves s + Metrics.sumImports acc
      ≤ Metrics.sumLeaves acc + Metrics.sumImports s ∧
    (Metrics.sMaxDepth acc ≤ Metrics.sumMaxDepth acc →
     Metrics.sMaxDepth s ≤ Metrics.sumMaxDepth s).
Proof.
  revert acc. induction ms as [|r ms IH]; intros acc Hms; simpl.
  - exists acc. repeat split; lia.
  - apply Forall_cons in Hms as [(m & -> & Hn & Hl) Hms].
    destruct (IH (Metrics.mkSummary
                    (Nat.max (Metrics.sMaxDepth acc) (Metrics.maxDepth m))
                    (Metrics.sumMaxDepth acc + Metrics.maxDepth m)
                    (Metrics.sumLeaves acc + Metrics.leaves m)
                    (Metrics.sumImports acc + Metrics.importsCount m)
                    (Metrics.sumNodes acc + Metrics.nodesCount m)
                    (Metrics.generatedNodes acc) (Metrics.rootNodes acc)
                    (Metrics.elementsCount acc) (Metrics.uniqueElements acc)) Hms)
      as (s & -> & Hg & Hr & He & Hu & Hsn & Hsl & Hmax).
    simpl in *. exists s. repeat split; lia.
Qed.

Lemma to_set_length (l : list T) : length (to_set l) ≤ length l.
Proof.
  apply NoDup_incl_length; [apply to_set_NoDup|]. intros x Hx. by apply to_set_In.
Qed.

Lemma covered_metrics :
  ∃ s, Metrics.getNodeMetrics σ nodes (length nodes) = Some (Some s) ∧
       Metrics.rootNodes s = length (positions is_root nodes) ∧
       Metrics.rootNodes s + Metrics.generatedNodes s = length nodes ∧
       Metrics.sumNodes s = Metrics.sumImports s + Metrics.rootNodes s ∧
       Metrics.sumLeaves s ≤ Metrics.sumImports s ∧
       Metrics.sMaxDepth s ≤ Metrics.sumMaxDepth s ∧
       Metrics.uniqueElements s ≤ Metrics.elementsCount s.
Proof.
  unfold Metrics.getNodeMetrics.
  set (roots := positions is_root nodes).
  assert (∃ ms, mapM (Metrics.getNodeMetric σ nodes (length nodes)) roots = Some ms ∧
                length ms = length roots ∧
                Forall (λ r, ∃ m, r = Metrics.Metric m ∧
                                  Metrics.nodesCount m = Metrics.importsCount m + 1 ∧
                                  Metrics.leaves m ≤ Metrics.importsCount m) ms)
    as (ms & -> & Hlen & Hms).
  { assert (Forall (λ i, i < length nodes) roots) as Hroots.
    { apply Forall_forall. intros i Hi. by apply (positions_lt is_root), list_elem_of_In. }
    clearbody roots. induction Hroots as [|i roots Hi Hroots IH].
    - by exists [].
    - destruct IH as (ms & IH & Hlen & Hms).
      destruct (covered_metric i Hi) as (m & Hm & Hcounts).
      exists (Metrics.Metric m :: ms). split; [|split].
      + apply mapM_Some. constructor; [done|by apply mapM_Some].
      + simpl. by rewrite Hlen.
      + constructor; [|done]. by exists m. }
  simpl.
  match goal with |- context [fold_left ?f ms (Some ?a)] =>
    destruct (summary_fold ms a Hms) as (s & Hs & Hg & Hr & He & Hu & Hsn & Hsl & Hmax)
  end.
  exists s. split; [by rewrite Hs|]. simpl in *.
  assert (length roots ≤ length nodes) as Hle.
  { unfold roots, positions. etransitivity; [apply filter_length_le|]. by rewrite length_seq. }
  repeat split; try lia.
  rewrite He, Hu. apply to_set_length.
Qed.
End MetricsOfResults.

Lemma positions_roots (nodes : list Node) k :
  (∀ i, i < k → ∃ n, nodes !! i = Some n ∧ depth n = Num 0) →
  k ≤ length (positions is_root nodes).
Proof.
  intros Hroots.
  assert (k ≤ length nodes) as Hk.
  { destruct k as [|k]; [lia|]. destruct (Hroots k) as (n & Hn & _); [lia|].
    apply lookup_lt_Some in Hn. lia. }
  unfold positions. replace (length nodes) with (k + (length nodes - k)) by lia.
  rewrite seq_app, List.filter_app, length_app.
  assert (∀ l, (∀ i, In i l → i < k) →
            List.filter (λ i, match nodes !! i with
                              | Some n => is_root n
                              | None => false
                              end) l = l) as Hall.
  { induction l as [|i l IH]; intros Hl; [done|]. simpl.
    destruct (Hroots i) as (n & -> & Hd); [apply Hl; by left|].
    unfold is_root. rewrite bool_decide_eq_true_2 by done. f_equal.
    apply IH. intros j Hj. apply Hl. by right. }
  rewrite Hall; [rewrite length_seq; lia|]. intros i Hi. apply in_seq in Hi. lia.
Qed.

(** [GetNodeMetrics] accepts whatever the splitters return: for every node
    of the list that an entry point returns, [getNodeMetric] returns the
    metrics and does not throw, and [getNodeMetrics] returns the metrics of
    the list.  In them every input counts as a root node, root and generated
    nodes together are the nodes of the list, the [nodes] of all roots are
    their [imports] and one for each root, their leaves are no more than
    their imports, and the unique elements are no more than the elements.
    The inputs are objects of the store, and [split] gives back the elements
    that [join] was given. *)
Theorem split_results_pass_the_metrics_check {T U : Type} `{EqDecision T} `{EqDecision U}
    (lt : T → T → bool) (defaultCompare : T → T → Z)
    (join : list T → U) (split : U → list T)
    (entry : EntryPoint) (fuel : nat) (σ : Store T) (inputs : list ref)
    (σ' : Store T) (nodes : list Node) :
  (∀ l x, l ≠ [] → In x (split (join l)) ↔ In x l) →
  Forall (λ r, r < length σ) inputs →
  call lt defaultCompare join split entry fuel σ inputs = Some (σ', nodes) →
  (∀ i, i < length nodes →
     ∃ m, Metrics.getNodeMetric σ' nodes (length nodes) i = Some (Metrics.Metric m)) ∧
  ∃ s, Metrics.getNodeMetrics σ' nodes (length nodes) = Some (Some s) ∧
       length inputs ≤ Metrics.rootNodes s ∧
       Metrics.rootNodes s + Metrics.generatedNodes s = length nodes ∧
       Metrics.sumNodes s = Metrics.sumImports s + Metrics.rootNodes s ∧
       Metrics.sumLeaves s ≤ Metrics.sumImports s ∧
       Metrics.sMaxDepth s ≤ Metrics.sumMaxDepth s ∧
       Metrics.uniqueElements s ≤ Metrics.elementsCount s.
Proof.
  intros Hsplit Hin Hcall.
  pose proof (call_well_split lt defaultCompare join split Hsplit entry fuel σ inputs
                σ' nodes Hin Hcall) as Hws.
  pose proof (ws_forward _ _ _ _ Hws) as Hf. pose proof (ws_covered _ _ _ _ Hws) as Hc.
  split.
  - intros i Hi. destruct (covered_metric σ' nodes Hf Hc i Hi) as (m & Hm & _). by exists m.
  - destruct (covered_metrics σ' nodes Hf Hc) as (s & Hs & Hr & Hsum & Hn & Hl & Hmax & Hu).
    exists s. split; [done|]. split; [|done].
    rewrite Hr. apply positions_roots. intros i Hi.
    destruct (lookup_lt_is_Some_2 inputs i Hi) as [r Hir].
    destruct (ws_roots _ _ _ _ Hws i r Hir) as (n & Hn' & _ & Hd). by exists n.
Qed.

Lemma split_results_pass_the_metrics_check_witness :
  ∃ σ' nodes s,
    call Z.ltb numberCompare (sort_by numberCompare) (λ u, u)
         (BiggestSplitArrays Biggest.SortFalse) 9
         [[1; 2; 3]; [2; 3; 4]; [3; 4; 5]]%Z [0; 1; 2] = Some (σ', nodes) ∧
    Metrics.getNodeMetrics σ' nodes (length nodes) = Some (Some s) ∧
    length [0; 1; 2] ≤ Metrics.rootNodes s ∧
    Metrics.sumNodes s = Metrics.sumImports s + Metrics.rootNodes s.
Proof.
  destruct (call Z.ltb numberCompare (sort_by numberCompare) (λ u, u)
              (BiggestSplitArrays Biggest.SortFalse) 9
              [[1; 2; 3]; [2; 3; 4]; [3; 4; 5]]%Z [0; 1; 2]) as [[σ' nodes]|] eqn:Ecall;
    [|vm_compute in Ecall; discriminate].
  destruct (split_results_pass_the_metrics_check Z.ltb numberCompare
              (sort_by numberCompare) (λ u, u)
              (BiggestSplitArrays Biggest.SortFalse) 9
              [[1; 2; 3]; [2; 3; 4]; [3; 4; 5]]%Z [0; 1; 2] σ' nodes
              (λ l x _, sort_by_In numberCompare l x)
              ltac:(repeat constructor; simpl; lia) Ecall)
    as (_ & s & Hs & Hroots & _ & Hsum & _).
  exists σ', nodes, s. split; [reflexivity|]. split; [exact Hs|]. split; [exact Hroots|exact Hsum].
Defined.

(** * The join/split pair on strings *)

Section StringKeysRoundTrip.
Local Open Scope string_scope.

(** the string holds no ["\x00"] *)
Fixpoint nul_free (s : string) : bool :=
  match s with
  | EmptyString => true
  | String c s' => negb (Ascii.eqb c StringKeys.nul) && nul_free s'
  end.

Lemma split_nul_free s : nul_free s = true → StringKeys.split s = [s].
Proof.
  induction s as [|c s IH]; simpl; [done|]. intros Hs.
  apply andb_true_iff in Hs as [Hc Hs]. apply negb_true_iff in Hc. rewrite Hc.
  by rewrite (IH Hs).
Qed.

Lemma split_separated s t :
  nul_free s = true →
  StringKeys.split (s ++ String StringKeys.nul t) = s :: StringKeys.split t.
Proof.
  induction s as [|c s IH]; simpl; [done|]. intros Hs.
  apply andb_true_iff in Hs as [Hc Hs]. apply negb_true_iff in Hc. rewrite Hc.
  by rewrite (IH Hs).
Qed.

Lemma split_concat (l : list string) :
  l ≠ [] → Forall (λ s, nul_free s = true) l →
  StringKeys.split (String.concat (String StringKeys.nul EmptyString) l) = l.
Proof.
  induction l as [|s l IH]; [done|]. intros _ Hl.
  apply Forall_cons in Hl as [Hs Hl]. destruct l as [|s' l].
  - simpl. by apply split_nul_free.
  - change (String.concat (String StringKeys.nul EmptyString) (s :: s' :: l))
      with (s ++ String StringKeys.nul
                   (String.concat (String StringKeys.nul EmptyString) (s' :: l))).
    rewrite split_separated by done. f_equal. by apply IH.
Qed.
End StringKeysRoundTrip.

(** The pair [(array) => array.sort().join('\x00')] and
    [(string) => string.split('\x00')] of the documentation: splitting the key
    of an array gives the sorted array back, so the elements of the array,
    when the array is not empty and none of its strings holds ["\x00"]; the
    key of the empty array is the empty string, which splits into one empty
    string. *)
Theorem split_of_join_gives_sorted_array (array : list string) :
  Forall (λ s, nul_free s = true) array →
  (array ≠ [] →
   StringKeys.split (StringKeys.join array) = sort_by StringKeys.stringCompare array ∧
   StringKeys.split (StringKeys.join array) ≡ₚ array) ∧
  (array = [] → StringKeys.split (StringKeys.join array) = [EmptyString]).
Proof.
  intros Harray. split; [|by intros ->].
  intros Hne. pose proof (sort_by_Permutation StringKeys.stringCompare array) as Hperm.
  assert (StringKeys.split (StringKeys.join array)
          = sort_by StringKeys.stringCompare array) as ->; [|done].
  unfold StringKeys.join. apply split_concat.
  - intros Hnil. rewrite Hnil in Hperm. apply Permutation_nil in Hperm. done.
  - eapply Permutation_Forall; [symmetry; exact Hperm|done].
Qed.

Lemma split_of_join_gives_sorted_array_witness :
  StringKeys.split (StringKeys.join ["b"; "a"; "c"]%string) = ["a"; "b"; "c"]%string.
Proof.
  destruct (split_of_join_gives_sorted_array ["b"; "a"; "c"]%string) as [Hsplit _].
  - repeat constructor.
  - destruct Hsplit as [-> _]; [done|reflexivity].
Defined.

(** * The adapters: what the conversion keeps *)

Section AdapterMirror.
Context {T : Type} `{EqDecision T}.
Variables copy1 copy2 : list T → list T.
Implicit Types (σ : Store T) (nodes : list Node).

(** the node list [nodes'] of the store [σ'] is the node list [nodes] of the
    store [σ2] with every [rest] copied, the collections of the first nodes
    replaced by the collections [inputs], and the other collections copied *)
Definition mirrors (inputs : list ref) σ2 nodes σ' nodes' : Prop :=
  length nodes' = length nodes ∧
  ∀ i n, nodes !! i = Some n →
    ∃ n', nodes' !! i = Some n' ∧
          imports n' = imports n ∧ depth n' = depth n ∧
          node_rest σ' n' = copy2 (node_rest σ2 n) ∧
          (∀ r, inputs !! i = Some r → coll n' = r) ∧
          (length inputs ≤ i → node_coll σ' n' = copy2 (node_coll σ2 n)).

Lemma convert_mirrors f σ (inputs : list ref) :
  splits_well f → Forall (λ r, r < length σ) inputs →
  match f (σ ++ map (λ r, copy1 (read σ r)) inputs) (seq (length σ) (length inputs)) with
  | Some (σ2, nodes) =>
      ∃ σ' nodes',
        (let '(σ1, m) := Adapters.mapCollections copy1 σ inputs in
         '(σ2, nodes) ← f σ1 (Adapters.copies m);
         Some (Adapters.convertNodes copy2 σ2 nodes (Adapters.newToOld m)))
        = Some (σ', nodes') ∧
        mirrors inputs σ2 nodes σ' nodes'
  | None =>
      (let '(σ1, m) := Adapters.mapCollections copy1 σ inputs in
       '(σ2, nodes) ← f σ1 (Adapters.copies m);
       Some (Adapters.convertNodes copy2 σ2 nodes (Adapters.newToOld m))) = None
  end.
Proof.
  intros Hf Hin.
  destruct (mapCollections_spec copy1 σ inputs Hin) as (m & -> & Hcopies & Hback).
  rewrite Hcopies.
  set (σ1 := σ ++ map (λ r, copy1 (read σ r)) inputs).
  assert (length σ1 = length σ + length inputs) as Hlen1
    by (unfold σ1; by rewrite length_app, length_map).
  destruct (f σ1 (seq (length σ) (length inputs))) as [[σ2 nodes]|] eqn:Ef; simpl; [|done].
  destruct (Adapters.convertNodes copy2 σ2 nodes (Adapters.newToOld m)) as [σ' nodes'] eqn:Ec.
  exists σ', nodes'. split; [done|].
  destruct (Hf σ1 (seq (length σ) (length inputs)) σ2 nodes) as (Hws & Hlk & Hst); [|done|].
  { apply Forall_forall. intros c Hc. apply list_elem_of_In, in_seq in Hc. lia. }
  rewrite length_seq in Hlk.
  destruct Hws as [Hfr Hroots Hfresh Hfwd Hcov Hdepth Hzero].
  rewrite length_seq in Hfresh.
  assert (∀ i n, nodes !! i = Some n → i < length inputs → coll n = length σ + i) as Hrootc.
  { intros i n Hn Hi. destruct (Hroots i (length σ + i)) as (n' & Hn' & Hc & _).
    - by apply lookup_seq.
    - congruence. }
  destruct (convertNodes_spec copy2 σ1 σ2 nodes (length inputs) (Adapters.newToOld m))
    with (σ' := σ') (nodes' := nodes') as (Hlen & back & Hbo & Hcorr); try done.
  { intros i n Hn Hi. rewrite (Hrootc i n Hn Hi). lia. }
  { intros c v Hc. apply Hback in Hc as (i & -> & Hi).
    pose proof (lookup_lt_Some _ _ _ Hi). rewrite Forall_forall in Hin.
    pose proof (Hin v ltac:(by eapply list_elem_of_lookup_2)). simpl in *. lia. }
  split; [done|]. intros i n Hn.
  destruct (lookup_lt_is_Some_2 nodes' i) as [n' Hn'].
  { rewrite Hlen. by eapply lookup_lt_Some. }
  destruct (Hcorr i n' Hn') as (n2 & Hn2 & Himp & Hd & Hc & _ & Hr).
  assert (n2 = n) as -> by congruence.
  exists n'. split; [done|]. split; [done|]. split; [done|]. split; [done|]. split.
  - intros r Hir. pose proof (lookup_lt_Some _ _ _ Hir) as Hi.
    rewrite (Hrootc i n Hn Hi) in Hc.
    assert (amap_get (length σ + i) (Adapters.newToOld m) = Some r) as H0
      by (apply Hback; by exists i).
    apply (bo_mono _ _ _ _ _ Hbo) in H0. congruence.
  - intros Hge. pose proof (Hfresh i n Hn Hge) as Hfresh'.
    destruct (bo_back _ _ _ _ _ Hbo _ _ Hc) as [H0|(_ & Hread & _)]; [|done].
    apply Hback in H0 as (i0 & Hci & Hi0). pose proof (lookup_lt_Some _ _ _ Hi0). lia.
Qed.
End AdapterMirror.

(** The set and the array variant of a splitter differ in the
    representation only.  [splitSets] of a [BiggestIntersectionsSplitter]
    returns exactly when its [splitArrays] returns for the arrays
    [[...set]] of the sets, and [splitArrays] of a
    [WeightedIntersectionsSplitter] exactly when its [splitSets] returns for
    the sets [new Set(array)] of the arrays.  The node list is then the one
    of the other variant, node by node: the same imports and the same depth,
    the [rest] converted, the collection of a root the input itself, and the
    collection of a generated node converted.  The inputs are objects of the
    store, and [split] gives back the elements that [join] was given. *)
Theorem set_and_array_variants_mirror_each_other
    {T U : Type} `{EqDecision T} `{EqDecision U}
    (lt : T → T → bool) (defaultCompare : T → T → Z)
    (sort : Biggest.SortOption (T := T))
    (join : list T → U) (split : U → list T)
    (primaryWeight secondaryWeight : Weighted.WeightFunction)
    (fuel : nat) (σ : Store T) (inputs : list ref) :
  (∀ l x, l ≠ [] → In x (split (join l)) ↔ In x l) →
  Forall (λ r, r < length σ) inputs →
  match Biggest.splitArrays lt defaultCompare sort fuel
          (σ ++ map (λ r, read σ r) inputs) (seq (length σ) (length inputs)) with
  | Some (σ2, nodes) =>
      ∃ σ' nodes',
        BiggestSets.splitSets lt defaultCompare sort fuel σ inputs = Some (σ', nodes') ∧
        mirrors to_set inputs σ2 nodes σ' nodes'
  | None => BiggestSets.splitSets lt defaultCompare sort fuel σ inputs = None
  end ∧
  match Weighted.returned
          (Weighted.splitSets join split primaryWeight secondaryWeight fuel
             (σ ++ map (λ r, to_set (read σ r)) inputs)
             (seq (length σ) (length inputs))) with
  | Some (σ2, nodes) =>
      ∃ σ' nodes',
        Weighted.splitArrays join split primaryWeight secondaryWeight fuel σ inputs
          = Some (σ', nodes') ∧
        mirrors (λ set, set) inputs σ2 nodes σ' nodes'
  | None =>
      Weighted.splitArrays join split primaryWeight secondaryWeight fuel σ inputs = None
  end.
Proof.
  intros Hsplit Hin. split.
  - apply (convert_mirrors (λ set, set) to_set
             (Biggest.splitArrays lt defaultCompare sort fuel) σ inputs); [|done].
    apply splitArrays_splits_well.
  - apply (convert_mirrors to_set (λ set, set)
             (λ σ sets, Weighted.returned
                (Weighted.splitSets join split primaryWeight secondaryWeight fuel σ sets))
             σ inputs); [|done].
    by apply weighted_splitSets_splits_well.
Qed.

Lemma set_and_array_variants_mirror_each_other_witness :
  ∃ σ2 nodes σ' nodes',
    Weighted.returned
      (Weighted.splitSets (sort_by numberCompare) (λ u, u)
         Weighted.elementsCount Weighted.setsCount 3
         [[1; 2; 2; 3]; [2; 3; 4]; [1; 2; 3]; [2; 3; 4]]%Z [2; 3]) = Some (σ2, nodes) ∧
    Weighted.splitArrays (sort_by numberCompare) (λ u, u)
      Weighted.elementsCount Weighted.setsCount 3
      [[1; 2; 2; 3]; [2; 3; 4]]%Z [0; 1] = Some (σ', nodes') ∧
    mirrors (λ set, set) [0; 1] σ2 nodes σ' nodes'.
Proof.
  destruct (set_and_array_variants_mirror_each_other Z.ltb numberCompare
              Biggest.SortFalse (sort_by numberCompare) (λ u, u)
              Weighted.elementsCount Weighted.setsCount 3
              [[1; 2; 2; 3]; [2; 3; 4]]%Z [0; 1]
              (λ l x _, sort_by_In numberCompare l x)
              ltac:(repeat constructor; simpl; lia)) as [_ Hweighted].
  vm_compute in Hweighted. destruct Hweighted as (σ' & nodes' & Hcall & Hmirror).
  eexists _, _, σ', nodes'. split; [vm_compute; reflexivity|]. split; [|exact Hmirror].
  etransitivity; [|exact Hcall]. vm_compute. reflexivity.
Defined.

(** * The greedy splitter: who imports a generated node *)

Section GreedyShared.
Context {T : Type} `{EqDecision T}.
Variable lt : T → T → bool.
Variable defaultCompare : T → T → Z.
Variable sort : Biggest.SortOption (T := T).
Hypothesis Heq : equality_by_comparison lt sort.
Implicit Types (σ : Store T) (nodes : list Node).

(** every node from position [n0] on holds a collection that is not empty,
    and two nodes import it *)
Definition shared_by_two (n0 : nat) σ nodes : Prop :=
  ∀ i n, nodes !! i = Some n → n0 ≤ i →
    node_coll σ n ≠ [] ∧
    ∃ p q, p ≠ q ∧ imports_of nodes p i ∧ imports_of nodes q i.

Lemma two_positions {A} (a b : A) (l : list A) :
  [a; b] ⊆+ l → ∃ p q, p ≠ q ∧ l !! p = Some a ∧ l !! q = Some b.
Proof.
  intros Hab. apply submseteq_Permutation in Hab as [k Hk]. symmetry in Hk.
  apply Permutation_inj in Hk as (_ & f & Hf & Hlook).
  exists (f 0), (f 1). split; [|split].
  - intros Heq'. by apply Hf in Heq'.
  - by rewrite <- Hlook.
  - by rewrite <- Hlook.
Qed.

Lemma shared_by_two_extract n0 σ nodes L σ' nodes' a b :
  (∀ n, In n nodes → coll n < length σ ∧ rest n < length σ) →
  n0 ≤ length nodes →
  L ≠ [] → [a; b] ⊆+ rests σ nodes → sublist L a → (∀ x, In x L → In x b) →
  Biggest.extract σ nodes L = (σ', nodes') →
  shared_by_two n0 σ nodes → shared_by_two n0 σ' nodes'.
Proof.
  intros Hrefs Hn0 Hne Hab Ha Hb Hex Hshared.
  destruct (extract_spec σ nodes L) as (ext & upd & Hext & Hall);
    [intros n Hn; by apply Hrefs|].
  rewrite Hext in Hex. injection Hex as <- <-.
  pose proof (Forall2_length _ _ _ Hall) as Hlen.
  assert (∀ p n, nodes !! p = Some n →
            ∃ n', (upd ++ [mkNode (length σ) (length σ) [] (Num 1)]) !! p = Some n' ∧
                  updated σ (σ ++ [L] ++ ext) L (length nodes) n n') as Hupd.
  { intros p n Hp. destruct (Forall2_lookup_l _ _ _ _ _ Hall Hp) as (n' & Hn' & Hu).
    exists n'. split; [|done]. rewrite lookup_app_l; [done|]. by eapply lookup_lt_Some. }
  assert (∀ p i, imports_of nodes p i →
            imports_of (upd ++ [mkNode (length σ) (length σ) [] (Num 1)]) p i) as Hkeep.
  { intros p i (n & Hp & Hi). destruct (Hupd p n Hp) as (n' & Hn' & _ & _ & Hu).
    exists n'. split; [done|]. destruct (takes σ L n).
    - destruct Hu as (_ & -> & _). apply in_or_app. by left.
    - by subst n'. }
  assert (∀ p r, rests σ nodes !! p = Some r → (∀ x, In x L → In x r) →
            imports_of (upd ++ [mkNode (length σ) (length σ) [] (Num 1)]) p (length nodes))
    as Hnew.
  { intros p r Hp Hr. unfold rests in Hp.
    change (map (node_rest σ) nodes) with (node_rest σ <$> nodes) in Hp.
    apply list_lookup_fmap_Some_1 in Hp as (n & -> & Hn).
    destruct (Hupd p n Hn) as (n' & Hn' & _ & _ & Hu).
    assert (takes σ L n = true) as Htakes.
    { apply forallb_forall. intros x Hx. by apply includes_In, Hr. }
    rewrite Htakes in Hu. destruct Hu as (_ & Hi & _).
    exists n'. split; [done|]. rewrite Hi. apply in_or_app. right. by left. }
  intros i n' Hi Hge. destruct (decide (i < length nodes)) as [Hlt|Hnlt].
  - destruct (lookup_lt_is_Some_2 nodes i Hlt) as [n Hn].
    destruct (Hupd i n Hn) as (n2 & Hn2 & Hc & _). assert (n2 = n') as -> by congruence.
    destruct (Hshared i n Hn Hge) as (Hcoll & p & q & Hpq & Hp & Hq). split.
    + unfold node_coll in *. rewrite Hc, read_app_old; [done|].
      apply Hrefs. by eapply list_elem_of_In, list_elem_of_lookup_2.
    + exists p, q. split; [done|]. split; by apply Hkeep.
  - assert (i = length nodes) as ->.
    { apply lookup_lt_Some in Hi. rewrite length_app in Hi. simpl in Hi. lia. }
    rewrite lookup_app_r, Hlen, Nat.sub_diag in Hi by lia. injection Hi as <-. split.
    + unfold node_coll, read. simpl. rewrite lookup_app_r by lia.
      by rewrite Nat.sub_diag.
    + destruct (two_positions a b _ Hab) as (p & q & Hpq & Hp & Hq).
      exists p, q. split; [done|]. split.
      * apply (Hnew p a Hp). intros x Hx. apply list_elem_of_In.
        eapply elem_of_sublist; [|exact Ha]. by apply list_elem_of_In.
      * by apply (Hnew q b Hq).
Qed.

Lemma shared_by_two_pass σ0 inputs σ nodes σ' nodes' k :
  greedy_inv σ0 inputs σ nodes →
  Biggest.splitArrayNodes lt sort σ nodes = (σ', nodes', k) →
  shared_by_two (length inputs) σ nodes → shared_by_two (length inputs) σ' nodes'.
Proof.
  intros Hinv. unfold Biggest.splitArrayNodes.
  pose proof (searchPass_pair lt sort Heq (rests σ nodes)) as Hpass.
  destruct (Biggest.extracted _) as [L|]; [|by intros [= <- <- <-]].
  destruct Hpass as (_ & Hne & a & b & Hab & Ha & Hb).
  destruct (Biggest.extract σ nodes L) as [σ1 nodes1] eqn:Ex. intros [= <- <- <-].
  eapply shared_by_two_extract; try done.
  - apply (gi_refs _ _ _ _ Hinv).
  - by eapply greedy_inv_length.
Qed.

Lemma shared_by_two_loop σ0 inputs fuel σ nodes σ' nodes' :
  greedy_inv σ0 inputs σ nodes →
  Biggest.splitLoop lt sort fuel σ nodes = Some (σ', nodes') →
  shared_by_two (length inputs) σ nodes → shared_by_two (length inputs) σ' nodes'.
Proof.
  revert σ nodes. induction fuel as [|fuel IH]; intros σ nodes Hinv; [done|].
  simpl. destruct (Biggest.splitArrayNodes lt sort σ nodes) as [[σ1 nodes1] k] eqn:E.
  pose proof (splitArrayNodes_inv _ _ _ _ _ _ _ _ _ Hinv E) as Hinv1.
  pose proof (shared_by_two_pass _ _ _ _ _ _ _ Hinv E) as Hstep.
  destruct (0 <? k).
  - intros Hloop Hshared. apply (IH σ1 nodes1 Hinv1 Hloop). by apply Hstep.
  - intros [= <- <-]. exact Hstep.
Qed.

Lemma splitArrays_shared_by_two fuel σ (inputs : list ref) σ' nodes :
  Forall (λ r, r < length σ) inputs →
  Biggest.splitArrays lt defaultCompare sort fuel σ inputs = Some (σ', nodes) →
  shared_by_two (length inputs) σ' nodes.
Proof.
  intros Hin. unfold Biggest.splitArrays.
  destruct (Biggest.initialNodes defaultCompare sort σ inputs) as [σ0 nodes0] eqn:E0.
  destruct (initialNodes_inv defaultCompare sort σ inputs σ0 nodes0 Hin E0)
    as (Hinv0 & Hlen0 & _).
  destruct (Biggest.splitLoop lt sort fuel σ0 nodes0) as [[σ1 nodes1]|] eqn:E1; [|done].
  simpl. intros [= <- <-].
  pose proof (splitLoop_inv lt sort _ _ _ _ _ _ _ Hinv0 E1) as Hinv1.
  assert (shared_by_two (length inputs) σ1 nodes1) as Hshared.
  { apply (shared_by_two_loop _ _ _ _ _ _ _ Hinv0 E1).
    intros i n Hi Hge. apply lookup_lt_Some in Hi. lia. }
  pose proof (greedy_inv_depth_pre _ _ _ _ Hinv1) as Hpre.
  destruct (addMaxDepthToNodes_state _ _ Hpre) as [Hs _ _ _].
  assert (∀ p i, imports_of nodes1 p i → imports_of (addMaxDepthToNodes nodes1) p i) as Hkeep.
  { intros p i (n & Hp & Hi).
    destruct (lookup_lt_is_Some_2 (addMaxDepthToNodes nodes1) p) as [n' Hn'].
    { rewrite (strip_length _ _ Hs). by eapply lookup_lt_Some. }
    destruct (strip_lookup _ _ _ _ Hs Hn') as (n2 & Hn2 & Hsn).
    assert (n2 = n) as -> by congruence. unfold strip in Hsn.
    exists n'. split; [done|]. by replace (imports n') with (imports n) by congruence. }
  intros i n' Hi Hge. destruct (strip_lookup _ _ _ _ Hs Hi) as (n & Hn & Hsn).
  destruct (Hshared i n Hn Hge) as (Hcoll & p & q & Hpq & Hp & Hq). split.
  - unfold node_coll in *. unfold strip in Hsn.
    by replace (coll n') with (coll n) by congruence.
  - exists p, q. split; [done|]. split; by apply Hkeep.
Qed.
End GreedyShared.

(** Every node that [splitArrays] of a [BiggestIntersectionsSplitter]
    generates is a shared one: its array is not empty, and at least two
    nodes of the result import it.  Elements that the comparison does not
    tell apart are the same element, and the inputs are objects of the
    store. *)
Theorem biggest_generated_nodes_are_shared {T : Type} `{EqDecision T}
    (lt : T → T → bool) (defaultCompare : T → T → Z)
    (sort : Biggest.SortOption (T := T)) (fuel : nat) (σ : Store T) (inputs : list ref)
    (σ' : Store T) (nodes : list Node) (i : nat) (n : Node) :
  equality_by_comparison lt sort →
  Forall (λ r, r < length σ) inputs →
  Biggest.splitArrays lt defaultCompare sort fuel σ inputs = Some (σ', nodes) →
  nodes !! i = Some n → length inputs ≤ i →
  node_coll σ' n ≠ [] ∧
  ∃ p q, p ≠ q ∧ imports_of nodes p i ∧ imports_of nodes q i.
Proof.
  intros Heq Hin Hcall Hi Hge.
  by apply (splitArrays_shared_by_two lt defaultCompare sort Heq fuel σ inputs σ' nodes
              Hin Hcall i n).
Qed.

Lemma biggest_generated_nodes_are_shared_witness :
  ∃ σ' nodes n,
    Biggest.splitArrays Z.ltb numberCompare (Biggest.SortWith numberCompare) 8
      [[3; 1; 2]; [2; 3; 4]]%Z [0; 1] = Some (σ', nodes) ∧
    nodes !! 2 = Some n ∧ node_coll σ' n ≠ [] ∧
    ∃ p q, p ≠ q ∧ imports_of nodes p 2 ∧ imports_of nodes q 2.
Proof.
  eexists _, _, _. split; [vm_compute; reflexivity|]. split; [reflexivity|].
  eapply (biggest_generated_nodes_are_shared Z.ltb numberCompare
            (Biggest.SortWith numberCompare) 8 [[3; 1; 2]; [2; 3; 4]]%Z [0; 1]).
  - unfold equality_by_comparison, numberCompare. intros x y Hxy. lia.
  - repeat constructor; simpl; lia.
  - vm_compute. reflexivity.
  - reflexivity.
  - simpl. lia.
Defined.

(** * [addMaxDepthToNodes] on any node list *)

Section MaxDepthAssigned.
Implicit Types (nodes cur : list Node) (l : list nat).

(** the depth of the node at [j] *)
Definition depth_at cur (j : nat) : jsnum :=
  match cur !! j with Some aNode => depth aNode | None => NegInf end.

(** the node at [j] imports a node with the collection [c] *)
Definition importing cur (c : ref) (j : nat) : bool :=
  match cur !! j with Some aNode => importsCollection cur aNode c | None => false end.

(** [Math.max(...)] of the depths of the nodes of [l] that import [c], plus 1 *)
Definition assigned cur l (c : ref) : jsnum :=
  jsnum_succ (math_max (map (depth_at cur) (List.filter (importing cur c) l))).

Lemma strip_lookup_eq cur cur' j :
  map strip cur = map strip cur' → strip <$> cur !! j = strip <$> cur' !! j.
Proof.
  intros Hs. rewrite <- !list_lookup_fmap.
  change (strip <$> cur) with (map strip cur). change (strip <$> cur') with (map strip cur').
  by rewrite Hs.
Qed.

Lemma importing_strip cur cur' c j :
  map strip cur = map strip cur' → importing cur c j = importing cur' c j.
Proof.
  intros Hs. unfold importing. pose proof (strip_lookup_eq cur cur' j Hs) as Hj.
  destruct (cur !! j) as [a|], (cur' !! j) as [a'|]; simpl in Hj; try done.
  injection Hj as Hc Hr Hi. unfold importsCollection. rewrite Hi. clear Hi.
  induction (imports a') as [|k ks IH]; simpl; [done|]. rewrite IH. f_equal.
  pose proof (strip_lookup_eq cur cur' k Hs) as Hk.
  destruct (cur !! k) as [b|], (cur' !! k) as [b'|]; simpl in Hk; try done.
  injection Hk as Hcb _ _. by rewrite Hcb.
Qed.

Lemma assigned_ext cur cur' l c :
  map strip cur = map strip cur' → (∀ j, In j l → cur !! j = cur' !! j) →
  assigned cur l c = assigned cur' l c.
Proof.
  intros Hs Hl. unfold assigned. f_equal. f_equal.
  assert (List.filter (importing cur c) l = List.filter (importing cur' c) l) as ->.
  { apply filter_ext. intros j. by apply importing_strip. }
  apply map_ext_in. intros j Hj. apply filter_In in Hj as [Hj _].
  unfold depth_at. by rewrite (Hl j Hj).
Qed.

Lemma addMaxDepthStep_spec cur l i n :
  cur !! i = Some n →
  addMaxDepthStep (cur, l) i
  = (<[i := mkNode (coll n) (rest n) (imports n) (assigned cur l (coll n))]> cur, l ++ [i]).
Proof. intros Hi. unfold addMaxDepthStep. by rewrite Hi. Qed.

(** the state of [unImportedNodes.forEach] when the nodes [done] are done *)
Record assigned_state nodes (roots done : list nat) cur l : Prop := mk_assigned_state {
  as_imported : l = roots ++ done;
  as_strip : map strip cur = map strip nodes;
  as_rest : ∀ j, ¬ In j done → cur !! j = nodes !! j;
  as_done : ∀ k i, done !! k = Some i →
              ∃ n', cur !! i = Some n' ∧
                    depth n' = assigned cur (roots ++ take k done) (coll n')
}.

Lemma assigned_state_step nodes roots done cur l i :
  assigned_state nodes roots done cur l →
  i < length nodes → ¬ In i (roots ++ done) →
  assigned_state nodes roots (done ++ [i])
    (addMaxDepthStep (cur, l) i).1 (addMaxDepthStep (cur, l) i).2.
Proof.
  intros [-> Hs Hrest Hdone] Hi Hnew.
  destruct (lookup_lt_is_Some_2 cur i) as [n Hn].
  { by rewrite (strip_length _ _ Hs). }
  rewrite (addMaxDepthStep_spec cur _ i n Hn). simpl.
  set (n' := mkNode (coll n) (rest n) (imports n) (assigned cur (roots ++ done) (coll n))).
  assert (map strip (<[i := n']> cur) = map strip cur) as Hs'.
  { by apply strip_insert with n. }
  assert (∀ j, j ≠ i → <[i := n']> cur !! j = cur !! j) as Hother.
  { intros j Hj. by apply list_lookup_insert_ne. }
  split.
  - by rewrite app_assoc.
  - by rewrite Hs'.
  - intros j Hj. rewrite Hother; [apply Hrest|]; intros ?; apply Hj, in_or_app;
      [by left|right; left; congruence].
  - intros k j Hk. destruct (decide (k < length done)) as [Hlt|Hge].
    + rewrite lookup_app_l in Hk by done.
      destruct (Hdone k j Hk) as (m & Hm & Hd).
      assert (j ≠ i) as Hji.
      { intros ->. apply Hnew, in_or_app. right.
        by eapply list_elem_of_In, list_elem_of_lookup_2. }
      exists m. split; [by rewrite Hother|].
      rewrite take_app_le by lia. rewrite Hd. symmetry. apply assigned_ext; [done|].
      intros j' Hj'. apply Hother. intros ->. apply Hnew.
      apply in_app_or in Hj' as [?|Hj']; apply in_or_app; [by left|right].
      apply list_elem_of_In. eapply elem_of_sublist; [by apply list_elem_of_In|].
      apply sublist_take.
    + assert (k = length done ∧ j = i) as [-> ->].
      { pose proof (lookup_lt_Some _ _ _ Hk) as Hlen.
        rewrite length_app in Hlen. simpl in Hlen.
        assert (k = length done) as -> by lia.
        rewrite list_lookup_middle in Hk by done. by injection Hk as ->. }
      exists n'. split.
      * apply list_lookup_insert_eq. by eapply lookup_lt_Some.
      * rewrite take_app_length. simpl. symmetry. apply assigned_ext; [done|].
        intros j' Hj'. apply Hother. by intros ->.
Qed.

Lemma assigned_state_fold nodes roots todo done cur l :
  assigned_state nodes roots done cur l →
  Forall (λ i, i < length nodes) todo → List.NoDup (roots ++ done ++ todo) →
  assigned_state nodes roots (done ++ todo)
    (fold_left addMaxDepthStep todo (cur, l)).1 (fold_left addMaxDepthStep todo (cur, l)).2.
Proof.
  revert done cur l. induction todo as [|i todo IH]; intros done cur l Hst Hlt Hnd.
  - simpl. by rewrite app_nil_r.
  - apply Forall_cons in Hlt as [Hi Hlt]. cbn [fold_left].
    destruct (addMaxDepthStep (cur, l) i) as [cur1 l1] eqn:E.
    replace (done ++ i :: todo) with ((done ++ [i]) ++ todo) by (by rewrite <- app_assoc).
    apply IH; [|done|by rewrite <- app_assoc].
    pose proof (assigned_state_step nodes roots done cur l i Hst Hi) as Hstep.
    rewrite E in Hstep. apply Hstep.
    rewrite app_assoc in Hnd. apply NoDup_remove_2 in Hnd.
    intros Hin. apply Hnd, in_or_app. by left.
Qed.

Lemma positions_NoDup nodes :
  List.NoDup (positions is_root nodes ++ positions (λ n, negb (is_root n)) nodes).
Proof.
  unfold positions. apply List.NoDup_app.
  - apply List.NoDup_filter, seq_NoDup.
  - apply List.NoDup_filter, seq_NoDup.
  - intros i Hr Ho. apply filter_In in Hr as [_ Hr]. apply filter_In in Ho as [_ Ho].
    destruct (nodes !! i) as [n|]; [|done]. by destruct (is_root n).
Qed.

Lemma positions_bound (p : Node → bool) nodes :
  Forall (λ i, i < length nodes) (positions p nodes).
Proof.
  apply Forall_forall. intros i Hi. apply list_elem_of_In in Hi.
  unfold positions in Hi. apply filter_In in Hi as [Hi _]. apply in_seq in Hi. lia.
Qed.

Lemma positions_In (p : Node → bool) nodes i n :
  nodes !! i = Some n → In i (positions p nodes) ↔ p n = true.
Proof.
  intros Hn. unfold positions. rewrite filter_In, in_seq, Hn.
  pose proof (lookup_lt_Some _ _ _ Hn). split; [tauto|]. intros ?. split; [lia|done].
Qed.

Lemma addMaxDepthToNodes_assigned nodes :
  assigned_state nodes (positions is_root nodes)
    (positions (λ n, negb (is_root n)) nodes) (addMaxDepthToNodes nodes)
    (positions is_root nodes ++ positions (λ n, negb (is_root n)) nodes).
Proof.
  unfold addMaxDepthToNodes.
  pose proof (assigned_state_fold nodes (positions is_root nodes)
                (positions (λ n, negb (is_root n)) nodes) [] nodes
                (positions is_root nodes)) as Hfold.
  simpl in Hfold.
  destruct Hfold as [Himp Hs Hrest Hdone].
  - split; [by rewrite app_nil_r|done|done|]. intros k i Hk. done.
  - apply positions_bound.
  - apply positions_NoDup.
  - split; try done.
Qed.
End MaxDepthAssigned.

(** [addMaxDepthToNodes] on any node list changes depths only: every node
    keeps its collection, its [rest] and its imports, and a node of depth 0
    stays as it is.  A node of another depth gets one more than the greatest
    depth among the nodes that import its collection and are nodes of depth
    0 or stand before it in the list, with the depths these have in the
    result; when there is no such node, the depth is [-Infinity]. *)
Theorem addMaxDepthToNodes_changes_depths_only (nodes : list Node) (i : nat) (n : Node) :
  nodes !! i = Some n →
  length (addMaxDepthToNodes nodes) = length nodes ∧
  ∃ n', addMaxDepthToNodes nodes !! i = Some n' ∧
        coll n' = coll n ∧ rest n' = rest n ∧ imports n' = imports n ∧
        (depth n = Num 0 → n' = n) ∧
        (depth n ≠ Num 0 →
         ∃ k, positions (λ n, negb (is_root n)) nodes !! k = Some i ∧
              let earlier := positions is_root nodes
                             ++ take k (positions (λ n, negb (is_root n)) nodes) in
              depth n' = assigned (addMaxDepthToNodes nodes) earlier (coll n) ∧
              (List.filter (importing (addMaxDepthToNodes nodes) (coll n)) earlier = [] →
               depth n' = NegInf)).
Proof.
  intros Hn. destruct (addMaxDepthToNodes_assigned nodes) as [_ Hs Hrest Hdone].
  split; [by apply strip_length|].
  destruct (lookup_lt_is_Some_2 (addMaxDepthToNodes nodes) i) as [n' Hn'].
  { rewrite (strip_length _ _ Hs). by eapply lookup_lt_Some. }
  destruct (strip_lookup _ _ _ _ Hs Hn') as (n2 & Hn2 & Hsn).
  assert (n2 = n) as -> by congruence. unfold strip in Hsn. injection Hsn as Hc Hr Hi.
  exists n'. split; [done|]. split; [done|]. split; [done|]. split; [done|]. split.
  - intros Hd. assert (addMaxDepthToNodes nodes !! i = nodes !! i) as Hsame; [|congruence].
    apply Hrest. rewrite (positions_In _ nodes i n Hn). unfold is_root.
    by rewrite bool_decide_eq_true_2.
  - intros Hd.
    assert (In i (positions (λ n, negb (is_root n)) nodes)) as Hin.
    { apply (positions_In _ nodes i n Hn). unfold is_root.
      by rewrite bool_decide_eq_false_2. }
    apply list_elem_of_In, list_elem_of_lookup in Hin as [k Hk].
    exists k. split; [done|]. destruct (Hdone k i Hk) as (n2 & Hn2' & Hd2).
    assert (n2 = n') as -> by congruence. rewrite Hc in Hd2. split; [done|].
    intros Hnone. rewrite Hd2. unfold assigned. by rewrite Hnone.
Qed.

Lemma addMaxDepthToNodes_changes_depths_only_witness :
  let nodes := [mkNode 0 1 [1] (Num 0); mkNode 2 3 [] (Num 1); mkNode 4 5 [] (Num 1)] in
  nodes !! 2 = Some (mkNode 4 5 [] (Num 1)) ∧
  addMaxDepthToNodes nodes
  = [mkNode 0 1 [1] (Num 0); mkNode 2 3 [] (Num 1); mkNode 4 5 [] NegInf] ∧
  length (addMaxDepthToNodes nodes) = length nodes ∧
  ∃ n', addMaxDepthToNodes nodes !! 2 = Some n' ∧
        coll n' = 4 ∧ rest n' = 5 ∧ imports n' = [] ∧
        (Num 1 = Num 0 → n' = mkNode 4 5 [] (Num 1)) ∧
        (Num 1 ≠ Num 0 →
         ∃ k, positions (λ n, negb (is_root n)) nodes !! k = Some 2 ∧
              let earlier := positions is_root nodes
                             ++ take k (positions (λ n, negb (is_root n)) nodes) in
              depth n' = assigned (addMaxDepthToNodes nodes) earlier 4 ∧
              (List.filter (importing (addMaxDepthToNodes nodes) 4) earlier = [] →
               depth n' = NegInf)).
Proof.
  intros nodes. split; [reflexivity|]. split; [reflexivity|].
  apply (addMaxDepthToNodes_changes_depths_only nodes 2 (mkNode 4 5 [] (Num 1))).
  reflexivity.
Defined.

(** * The intersection index of the weighted splitter *)

Section IntersectionIndex.
Context {T U : Type} `{EqDecision T} `{EqDecision U}.
Variable join : list T → U.
Implicit Types (σ : Store T) (k : U) (ps : list (ref * ref)).





End IntersectionIndex.


(** * The metrics of the shallow splitter *)

Section ShallowMetrics.
Context {T : Type} `{EqDecision T}.
Variable σ : Store T.
Variable nodes : list Node.
Local Abbreviation rec := (Metrics.getNodeMetricRecursive σ nodes).

(** the metrics of a root that imports [k] nodes without imports *)
Definition flat_metric (k : nat) : Metrics.NodeMetric :=
  Metrics.mkNodeMetric (if 0 <? k then 1 else 0) k k (k + 1) k.

Lemma leaf_metric fuel j c m d :
  nodes !! j = Some c → imports c = [] → 0 < d →
  rec (S fuel) j m d
  = Some (node_rest σ c,
          Metrics.mkNodeMetric
            (if Metrics.maxDepth m <? d then d else Metrics.maxDepth m)
            (Metrics.leaves m + 1) (Metrics.importsCount m)
            (Metrics.nodesCount m + 1) (Metrics.avgDepthSum m + d)).
Proof.
  intros Hc Hi Hd. simpl. rewrite Hc. simpl. rewrite Hi. simpl.
  assert ((0 <? d) = true) as -> by (by apply Nat.ltb_lt). done.
Qed.

Lemma root_metric fuel i n :
  nodes !! i = Some n →
  rec (S fuel) i (Metrics.mkNodeMetric 0 0 0 0 0) 0
  = if 0 <? length (imports n)
    then '(imported, m4) ←
           fold_left (λ acc nObj,
                        '(elements, m) ← acc;
                        '(elements', m') ← rec fuel nObj m 1;
                        Some (elements ++ elements', m'))
                     (imports n)
                     (Some ([], Metrics.mkNodeMetric 0 0 (length (imports n)) 1 0));
         Some (node_rest σ n ++ imported, m4)
    else Some (node_rest σ n, Metrics.mkNodeMetric 0 0 0 1 0).
Proof. intros Hn. simpl. by rewrite Hn. Qed.

Lemma leaves_fold fuel js :
  (∀ j, In j js → ∃ c, nodes !! j = Some c ∧ imports c = []) →
  ∀ acc m, ∃ all,
    fold_left (λ acc nObj,
                 '(elements, m) ← acc;
                 '(elements', m') ← rec (S fuel) nObj m 1;
                 Some (elements ++ elements', m'))
              js (Some (acc, m))
    = Some (all,
            Metrics.mkNodeMetric
              (if 0 <? length js then Nat.max (Metrics.maxDepth m) 1
               else Metrics.maxDepth m)
              (Metrics.leaves m + length js) (Metrics.importsCount m)
              (Metrics.nodesCount m + length js) (Metrics.avgDepthSum m + length js)).
Proof.
  induction js as [|j js IH]; intros Hjs acc m.
  - exists acc. simpl. destruct m. simpl. by rewrite !Nat.add_0_r.
  - destruct (Hjs j) as (c & Hc & Hi); [by left|]. cbn [fold_left].
    assert ((Some (acc, m) ≫= (λ '(elements, m0),
               rec (S fuel) j m0 1 ≫= λ '(elements', m'), Some (elements ++ elements', m')))
            = Some (acc ++ node_rest σ c,
                    Metrics.mkNodeMetric
                      (if Metrics.maxDepth m <? 1 then 1 else Metrics.maxDepth m)
                      (Metrics.leaves m + 1) (Metrics.importsCount m)
                      (Metrics.nodesCount m + 1) (Metrics.avgDepthSum m + 1))) as ->.
    { unfold mbind at 1, option_bind at 1.
      by rewrite (leaf_metric fuel j c m 1 Hc Hi) by lia. }
    match goal with |- context [fold_left ?f js (Some (?a, ?m0))] =>
      destruct (IH (λ j' Hj', Hjs j' (or_intror Hj')) a m0) as [all Hall]
    end.
    exists all. etransitivity; [exact Hall|]. f_equal. f_equal. cbn [length]. simpl.
    f_equal; try lia.
    destruct (Metrics.maxDepth m <? 1) eqn:E1;
      [apply Nat.ltb_lt in E1|apply Nat.ltb_ge in E1]; destruct (0 <? length js); lia.
Qed.

Lemma flat_root fuel i n :
  nodes !! i = Some n →
  (∀ j, In j (imports n) → ∃ c, nodes !! j = Some c ∧ imports c = []) →
  (imports n ≠ [] → 1 ≤ fuel) →
  ∃ all, rec (S fuel) i (Metrics.mkNodeMetric 0 0 0 0 0) 0
         = Some (all, flat_metric (length (imports n))).
Proof.
  intros Hn Hleaves Hfuel. rewrite (root_metric fuel i n Hn).
  destruct (0 <? length (imports n)) eqn:El.
  - destruct fuel as [|fuel].
    { destruct (imports n) as [|j js]; [done|]. assert (1 ≤ 0) by (by apply Hfuel). lia. }
    destruct (leaves_fold fuel (imports n) Hleaves []
                (Metrics.mkNodeMetric 0 0 (length (imports n)) 1 0)) as [all Hall].
    rewrite Hall. cbn [mbind option_bind]. eexists. do 2 f_equal.
    unfold flat_metric. rewrite El. simpl. f_equal; lia.
  - apply Nat.ltb_ge in El. destruct (imports n); [|simpl in El; lia].
    eexists. reflexivity.
Qed.

(** the sum of the metrics of roots that import [ks] nodes without imports *)
Lemma flat_fold (ks : list nat) (acc : Metrics.Summary) :
  fold_left
    (λ acc r,
       cumulative ← acc;
       match r with
       | Metrics.Metric metric =>
           Some (Metrics.mkSummary
                   (Nat.max (Metrics.sMaxDepth cumulative) (Metrics.maxDepth metric))
                   (Metrics.sumMaxDepth cumulative + Metrics.maxDepth metric)
                   (Metrics.sumLeaves cumulative + Metrics.leaves metric)
                   (Metrics.sumImports cumulative + Metrics.importsCount metric)
                   (Metrics.sumNodes cumulative + Metrics.nodesCount metric)
                   (Metrics.generatedNodes cumulative) (Metrics.rootNodes cumulative)
                   (Metrics.elementsCount cumulative) (Metrics.uniqueElements cumulative))
       | Metrics.NodeObjectIsNotValid => None
       end)
    (map (λ k, Metrics.Metric (flat_metric k)) ks) (Some acc)
  = Some (Metrics.mkSummary
            (if 0 <? list_sum ks then Nat.max (Metrics.sMaxDepth acc) 1
             else Metrics.sMaxDepth acc)
            (Metrics.sumMaxDepth acc + length (List.filter (λ k, 0 <? k) ks))
            (Metrics.sumLeaves acc + list_sum ks)
            (Metrics.sumImports acc + list_sum ks)
            (Metrics.sumNodes acc + list_sum ks + length ks)
            (Metrics.generatedNodes acc) (Metrics.rootNodes acc)
            (Metrics.elementsCount acc) (Metrics.uniqueElements acc)).
Proof.
  revert acc. induction ks as [|k ks IH]; intros acc.
  - simpl. destruct acc. simpl. by rewrite !Nat.add_0_r.
  - cbn [map fold_left]. simpl. rewrite IH. simpl. f_equal.
    destruct (Nat.ltb_spec 0 k), (Nat.ltb_spec 0 (list_sum ks)),
      (Nat.ltb_spec 0 (k + list_sum ks)); try lia; simpl; f_equal; lia.
Qed.
End ShallowMetrics.

Section ShallowMetricsResult.
Context {T : Type} `{EqDecision T}.
Variable shared : T → bool.
Variables (σ σ' : Store T) (inputs : list ref) (nodes : list Node).
Hypothesis Hresult : shallow_result shared σ inputs σ' nodes.
Hypothesis Hforward : forward nodes.
Hypothesis Hcovered : covered σ' nodes.

(** the number of the elements of the collection [r] that are extracted *)
Definition extracted_of (r : ref) : nat := length (List.filter shared (read σ r)).

Lemma shallow_root_metric i r :
  inputs !! i = Some r →
  Metrics.getNodeMetric σ' nodes (length nodes) i
  = Some (Metrics.Metric (flat_metric (extracted_of r))).
Proof.
  intros Hi. destruct Hresult as (keys & Hnd & Hkeys & Hlen & Hsing & Hroots).
  destruct (Hroots i r Hi) as (n & Hn & Hc & Hd & Hread & Hrest & Himp).
  pose proof (lookup_lt_Some _ _ _ Hn) as Hlt.
  destruct (covered_metric σ' nodes Hforward Hcovered i Hlt) as (m & Hm & _).
  assert (length (imports n) = extracted_of r) as Hk
    by (by rewrite Himp, length_map).
  destruct (flat_root σ' nodes (length nodes - 1) i n Hn) as [all Hall].
  - intros j Hj. rewrite Himp in Hj. apply in_map_iff in Hj as (x & <- & Hx).
    apply filter_In in Hx as [_ Hx]. apply Hkeys in Hx.
    pose proof (index_of_lookup x keys Hx) as Hlook.
    destruct (Hsing _ _ Hlook) as (c & Hc' & _ & _ & Hic & _). by exists c.
  - intros Hne. rewrite Himp in Hne.
    destruct (List.filter shared (read σ r)) as [|x xs] eqn:E; [done|].
    assert (In x keys) as Hx.
    { apply Hkeys. assert (In x (List.filter shared (read σ r))) as Hin by (rewrite E; by left).
      by apply filter_In in Hin as [_ ?]. }
    pose proof (lookup_lt_Some _ _ _ Hi). destruct keys; [done|]. simpl in Hlen. lia.
  - replace (S (length nodes - 1)) with (length nodes) in Hall by lia.
    rewrite <- Hk. rewrite Hm. unfold Metrics.getNodeMetric in Hm.
    rewrite Hn in Hm. cbn [mbind option_bind] in Hm. rewrite Hall in Hm.
    cbn [mbind option_bind] in Hm. destruct (existsb _ _); [done|]. by injection Hm as <-.
Qed.

Lemma shallow_roots : positions is_root nodes = seq 0 (length inputs).
Proof.
  destruct Hresult as (keys & Hnd & Hkeys & Hlen & Hsing & Hroots).
  unfold positions. apply filter_seq_lt; [lia|]. intros i Hi.
  destruct (decide (i < length inputs)) as [Hlt|Hge].
  - destruct (lookup_lt_is_Some_2 inputs i Hlt) as [r Hr].
    destruct (Hroots i r Hr) as (n & -> & _ & Hd & _). unfold is_root.
    rewrite bool_decide_eq_true_2 by done. symmetry. by apply Nat.ltb_lt.
  - destruct (lookup_lt_is_Some_2 keys (i - length inputs)) as [x Hx]; [lia|].
    destruct (Hsing _ _ Hx) as (n & Hn & _ & _ & _ & Hd).
    replace (length inputs + (i - length inputs)) with i in Hn by lia.
    rewrite Hn. unfold is_root. rewrite bool_decide_eq_false_2 by (by rewrite Hd).
    symmetry. apply Nat.ltb_ge. lia.
Qed.

Lemma shallow_metrics :
  Metrics.getNodeMetrics σ' nodes (length nodes)
  = Some (Some (Metrics.mkSummary
                  (if 0 <? list_sum (map extracted_of inputs) then 1 else 0)
                  (length (List.filter (λ k, 0 <? k) (map extracted_of inputs)))
                  (list_sum (map extracted_of inputs))
                  (list_sum (map extracted_of inputs))
                  (list_sum (map extracted_of inputs) + length inputs)
                  (length nodes - length inputs) (length inputs)
                  (length (concat (map (read σ) inputs)))
                  (length (to_set (concat (map (read σ) inputs)))))).
Proof.
  unfold Metrics.getNodeMetrics. rewrite shallow_roots.
  assert (mapM (Metrics.getNodeMetric σ' nodes (length nodes)) (seq 0 (length inputs))
          = Some (map (λ k, Metrics.Metric (flat_metric k)) (map extracted_of inputs)))
    as ->.
  { apply mapM_Some. apply Forall2_same_length_lookup. split.
    - by rewrite !length_map, length_seq.
    - intros i j y Hj Hy. apply lookup_seq in Hj as [-> Hlt]. simpl in *.
      change (map ?f ?l) with (f <$> l) in Hy. rewrite <- list_fmap_compose in Hy.
      apply list_lookup_fmap_Some_1 in Hy as (r & -> & Hr). simpl.
      by apply shallow_root_metric. }
  assert (map (λ i, match nodes !! i with
                    | Some n => node_coll σ' n
                    | None => []
                    end) (seq 0 (length inputs))
          = map (read σ) inputs) as ->.
  { destruct Hresult as (keys & Hnd & Hkeys & Hlen & Hsing & Hroots).
    apply list_eq. intros i. change (map ?f ?l) with (f <$> l).
    rewrite !list_lookup_fmap.
    destruct (inputs !! i) as [r|] eqn:Hr; simpl.
    - rewrite (lookup_seq_lt 0 (length inputs) i) by (by eapply lookup_lt_Some). simpl.
      destruct (Hroots i r Hr) as (n & -> & Hc & _ & Hread & _).
      unfold node_coll. by rewrite Hc, Hread.
    - rewrite lookup_seq_ge; [done|]. by apply lookup_ge_None. }
  simpl. rewrite flat_fold. simpl. rewrite !length_seq, length_map.
  done.
Qed.
End ShallowMetricsResult.

(** The metrics of what [splitIntersectionsShallow] returns.  An element is
    extracted when it occurs twice in the inputs taken together.  A root
    that holds [k] extracted elements, counted as often as they occur in it,
    has the metrics [leaves = k], [imports = k], [nodes = k + 1] and
    [avgDepthSum = k], and [maxDepth] 1, or 0 when [k] is 0.
    [getNodeMetrics] sums them up: with [s] the number of the extracted
    elements of all inputs, [maxDepth] is 1, or 0 when [s] is 0; the sum of
    the [maxDepth]s is the number of the inputs that hold an extracted
    element; leaves and imports are [s], nodes are [s] and one for each
    input; the root nodes are the inputs, the generated nodes the other
    nodes; [elementsCount] counts the elements of the inputs and
    [uniqueElements] the different ones. *)
Theorem shallow_split_metrics {T : Type} `{EqDecision T}
    (sets : bool) (σ : Store T) (inputs : list ref) (σ' : Store T) (nodes : list Node) :
  Forall (λ r, r < length σ) inputs →
  Shallow.splitIntersectionsShallow σ
    (if sets then Shallow.Sets inputs else Shallow.Arrays inputs) = (σ', nodes) →
  let shared := λ x, 2 <=? occ x (concat (map (read σ) inputs)) in
  let extracted := map (λ r, length (List.filter shared (read σ r))) inputs in
  (∀ i r, inputs !! i = Some r →
     let k := length (List.filter shared (read σ r)) in
     Metrics.getNodeMetric σ' nodes (length nodes) i
     = Some (Metrics.Metric
               (Metrics.mkNodeMetric (if 0 <? k then 1 else 0) k k (k + 1) k))) ∧
  Metrics.getNodeMetrics σ' nodes (length nodes)
  = Some (Some (Metrics.mkSummary
                  (if 0 <? list_sum extracted then 1 else 0)
                  (length (List.filter (λ k, 0 <? k) extracted))
                  (list_sum extracted) (list_sum extracted)
                  (list_sum extracted + length inputs)
                  (length nodes - length inputs) (length inputs)
                  (length (concat (map (read σ) inputs)))
                  (length (to_set (concat (map (read σ) inputs)))))).
Proof.
  intros Hin Hsplit shared extracted.
  assert ((if sets then Shallow.Sets inputs else Shallow.Arrays inputs)
            = Shallow.Arrays inputs ∨
          (if sets then Shallow.Sets inputs else Shallow.Arrays inputs)
            = Shallow.Sets inputs) as Hcoll by (destruct sets; [by right|by left]).
  destruct (splitIntersectionsShallow_well_split σ inputs _ σ' nodes Hin Hcoll Hsplit)
    as [Hws Hres].
  pose proof (ws_forward _ _ _ _ Hws) as Hf. pose proof (ws_covered _ _ _ _ Hws) as Hc.
  split.
  - intros i r Hi. apply (shallow_root_metric shared σ σ' inputs nodes Hres Hf Hc i r Hi).
  - apply (shallow_metrics shared σ σ' inputs nodes Hres Hf Hc).
Qed.

Lemma shallow_split_metrics_witness :
  let σ : Store Z := [[1; 2; 3]; [2; 3; 4]]%Z in
  let '(σ', nodes) := Shallow.splitIntersectionsShallow σ (Shallow.Arrays [0; 1]) in
  Metrics.getNodeMetric σ' nodes (length nodes) 0
  = Some (Metrics.Metric (Metrics.mkNodeMetric 1 2 2 3 2)) ∧
  Metrics.getNodeMetrics σ' nodes (length nodes)
  = Some (Some (Metrics.mkSummary 1 2 4 4 6 2 2 6 4)).
Proof.
  intros σ.
  destruct (Shallow.splitIntersectionsShallow σ (Shallow.Arrays [0; 1]))
    as [σ' nodes] eqn:Esplit.
  destruct (shallow_split_metrics false σ [0; 1] σ' nodes
              ltac:(repeat constructor; simpl; lia) Esplit) as [Hroot Hall].
  split.
  - exact (Hroot 0 0 eq_refl).
  - rewrite Hall. vm_compute in Esplit. injection Esplit as <- <-. reflexivity.
Defined.
